(** * IOTAdiffraction: the numerical diffraction engine, embedded in Rocq

    A shallow embedding of the Go sources (packages [main] and [lightcurve])
    together with the properties of the engine that are stated about them.

    Conventions of the embedding.
    - A Go [float64] is a real number ([R]): every statement below is about
      the exact-arithmetic reading of the code.  Rounding error, NaN and the
      infinities are outside the model.
    - A Go [int] is an unbounded integer ([Z]); the lengths and indices that
      occur are far below 2^63.
    - A slice is a [list]; reading or writing outside its bounds panics in Go
      and is [None] here.
    - [complex128] is a pair of reals with the usual product. *)

From Stdlib Require Import Reals ZArith String Bool List Sorted Lia Lra Psatz.
From Stdlib Require Import DecimalString.
Import ListNotations.

Local Open Scope R_scope.

(* ================================================================== *)
(** * Part I: the embedding                                            *)
(* ================================================================== *)

(** ** The pieces of the Go language and of package [math] that are used *)

Module Go.

(** [int(x)] for a float64 [x]: truncation toward zero. *)
Definition int_of_float (x : R) : Z :=
  if Rle_dec 0 x then Zfloor x else Zceil x.

(** [math.Round]: nearest integer, halves away from zero. *)
Definition Round (x : R) : R :=
  if Rle_dec 0 x then IZR (Zfloor (x + / 2)) else IZR (Zceil (x - / 2)).

(** [math.Ceil]. *)
Definition Ceil (x : R) : R := IZR (Zceil x).

(** [float64(i)]. *)
Definition float64 (i : Z) : R := IZR i.

(** [len(s)]. *)
Definition len {A : Type} (s : list A) : Z := Z.of_nat (length s).

(** [s[i]] as an expression: [None] is the run-time panic. *)
Definition index {A : Type} (s : list A) (i : Z) : option A :=
  if (i <? 0)%Z then None else nth_error s (Z.to_nat i).

(** [s[i] = v] as a statement. *)
Fixpoint set_nth {A : Type} (s : list A) (n : nat) (v : A) : option (list A) :=
  match s, n with
  | [], _ => None
  | _ :: t, O => Some (v :: t)
  | h :: t, S n' =>
      match set_nth t n' v with
      | Some t' => Some (h :: t')
      | None => None
      end
  end.

Definition assign {A : Type} (s : list A) (i : Z) (v : A) : option (list A) :=
  if (i <? 0)%Z then None else set_nth s (Z.to_nat i) v.

(** [make([]T, n)]: [n] zero values; a negative length panics. *)
Definition make {A : Type} (zero : A) (n : Z) : option (list A) :=
  if (n <? 0)%Z then None else Some (repeat zero (Z.to_nat n)).

(** [s[lo:hi]] for [0 <= lo <= hi <= len(s)]. *)
Definition slice {A : Type} (s : list A) (lo hi : Z) : option (list A) :=
  if ((0 <=? lo) && (lo <=? hi) && (hi <=? len s))%Z%bool
  then Some (firstn (Z.to_nat (hi - lo)) (skipn (Z.to_nat lo) s))
  else None.

(** [copy(dst, src)]: the value of [dst] afterwards. *)
Definition copy {A : Type} (dst src : list A) : list A :=
  let n := Nat.min (length dst) (length src) in
  firstn n src ++ skipn n dst.

(** Sequencing of computations that may panic. *)
Definition bind {A B : Type} (m : option A) (k : A -> option B) : option B :=
  match m with
  | Some a => k a
  | None => None
  end.

(** [for i := i0; i < i0 + count; i++ { s = body(i, s) }]. *)
Fixpoint for_loop {St : Type} (count : nat) (i : Z) (body : Z -> St -> St) (s : St) : St :=
  match count with
  | O => s
  | S c => for_loop c (i + 1)%Z body (body i s)
  end.

(** [for i := 0; i < n; i++] and [for i := range n]. *)
Definition for_upto {St : Type} (n : Z) (body : Z -> St -> St) (s : St) : St :=
  for_loop (Z.to_nat n) 0%Z body s.

(** The same loop with a body that may panic. *)
Fixpoint for_loop_opt {St : Type} (count : nat) (i : Z)
    (body : Z -> St -> option St) (s : St) : option St :=
  match count with
  | O => Some s
  | S c =>
      match body i s with
      | Some s' => for_loop_opt c (i + 1)%Z body s'
      | None => None
      end
  end.

Definition for_upto_opt {St : Type} (n : Z) (body : Z -> St -> option St) (s : St)
    : option St :=
  for_loop_opt (Z.to_nat n) 0%Z body s.

(** [for _, x := range xs { s = body(x, s) }] with a body that may panic. *)
Fixpoint for_each_opt {A St : Type} (xs : list A)
    (body : A -> St -> option St) (s : St) : option St :=
  match xs with
  | [] => Some s
  | x :: rest =>
      match body x s with
      | Some s' => for_each_opt rest body s'
      | None => None
      end
  end.

End Go.

Notation "'do' x <- e ; k" := (Go.bind e (fun x => k))
  (at level 10, x name, e at level 99, k at level 200).

(** [tabulate n f] is the slice [f 0, ..., f (n-1)]. *)
Definition tabulate {A : Type} (n : Z) (f : Z -> A) : list A :=
  map (fun k => f (Z.of_nat k)) (seq 0 (Z.to_nat n)).

(** A function that returns [(T, error)]. *)
Inductive result (A : Type) : Type :=
| Ok (a : A)
| Err (msg : string).
Arguments Ok {A} a.
Arguments Err {A} msg.

(** ** Bilinear interpolation (imageFuncs.go, package main) *)

Definition Matrix := list (list R).

(** [m[r][c]]. *)
Definition at2 {A : Type} (m : list (list A)) (r c : Z) : option A :=
  do row <- Go.index m r; Go.index row c.

Definition interpolate (matrix : Matrix) (x y : R) : option R :=
  let n := Go.len matrix in
  if (n =? 0)%Z then Some 0 else
  (* Clamp to valid range *)
  let x := if Rlt_dec x 0 then 0 else x in
  let y := if Rlt_dec y 0 then 0 else y in
  let x := if Rge_dec x (Go.float64 (n - 1)) then Go.float64 (n - 1) - 1e-9 else x in
  let y := if Rge_dec y (Go.float64 (n - 1)) then Go.float64 (n - 1) - 1e-9 else y in
  (* Integer indices *)
  let x0 := Go.int_of_float x in
  let y0 := Go.int_of_float y in
  let x1 := (x0 + 1)%Z in
  let y1 := (y0 + 1)%Z in
  (* Fractional parts *)
  let xFrac := x - Go.float64 x0 in
  let yFrac := y - Go.float64 y0 in
  (* Four surrounding values *)
  do v00 <- at2 matrix y0 x0;
  do v01 <- at2 matrix y0 x1;
  do v10 <- at2 matrix y1 x0;
  do v11 <- at2 matrix y1 x1;
  (* Bilinear interpolation *)
  let v0 := v00 * (1 - xFrac) + v01 * xFrac in
  let v1 := v10 * (1 - xFrac) + v11 * xFrac in
  Some (v0 * (1 - yFrac) + v1 * yFrac).

(** [m[r][c] = v]. *)
Definition assign2 {A : Type} (m : list (list A)) (r c : Z) (v : A)
    : option (list (list A)) :=
  do row <- Go.index m r;
  do row' <- Go.assign row c v;
  Go.assign m r row'.

(** ** complex128 and package [math/cmplx] *)

Definition complex128 : Type := (R * R)%type.

Definition complex (re im : R) : complex128 := (re, im).
Definition real (z : complex128) : R := fst z.
Definition imag (z : complex128) : R := snd z.

Definition Cadd (a b : complex128) : complex128 :=
  (real a + real b, imag a + imag b).
Definition Csub (a b : complex128) : complex128 :=
  (real a - real b, imag a - imag b).
Definition Cmul (a b : complex128) : complex128 :=
  (real a * real b - imag a * imag b, real a * imag b + imag a * real b).

(** [cmplx.Exp]. *)
Definition Cexp (z : complex128) : complex128 :=
  (exp (real z) * cos (imag z), exp (real z) * sin (imag z)).

Definition Czero : complex128 := complex 0 0.
Definition Cone : complex128 := complex 1 0.

(** ** utility.go: Linspace *)

(** Linspace This is provided to match numpy's linspace() *)
Definition Linspace (start end_ : R) (n : Z) : option (list R) :=
  if (n <=? 1)%Z then Some [start] else
  let step := (end_ - start) / Go.float64 (n - 1) in
  do x <- Go.make 0 n;
  Go.for_upto_opt n (fun i x => Go.assign x i (start + Go.float64 i * step)) x.

(** ** sincDiffraction.go: the Fresnel weight row and matrix *)

Definition AbsInt (x : Z) : Z :=
  if (x <? 0)%Z then (- x)%Z else x.

Section FresnelWeights.

(** The Fresnel-integral oracle of fresnelIntegrals.go, which returns the
    pair (S(x), C(x)); only its call interface is used here. *)
Variable fresnelCephesScalar : R -> R * R.

Definition fresnelWeightsTopRow (NPts : Z) (LKm ZKm WavelengthKm : R)
    : option (list complex128) :=
  do fresnelWeightsRow <- Go.make Czero NPts;
  let dx := LKm / Go.float64 NPts in
  let W := 1 / (2 * dx) in
  let delta := dx in
  let k := PI * 2 / WavelengthKm in
  do x <- Linspace (- LKm / 2) (LKm / 2 - dx) NPts;
  let t1 := - PI * sqrt (2 * ZKm / k) * W in
  let t2 := sqrt (k / (2 * ZKm)) in
  let t4 := (delta / PI) * sqrt (k / (2 * ZKm)) * sqrt (PI / 2) in
  let t5 := k / (2 * ZKm) in
  let t6 := sqrt (2 / PI) in
  Go.for_upto_opt (Go.len x) (fun m fresnelWeightsRow =>
    do xm <- Go.index x m;
    do x0 <- Go.index x 0;
    let slide := xm - x0 in
    let u1x := t1 - t2 * slide in
    let u2x := - t1 - t2 * slide in
    let (S1x, C1x) := fresnelCephesScalar (u1x * t6) in
    let (S2x, C2x) := fresnelCephesScalar (u2x * t6) in
    let phiX :=
      Cmul (Cmul (complex t4 0) (Cexp (complex 0 (slide * slide * t5))))
           (complex (C2x - C1x) (- (S2x - S1x))) in
    Go.assign fresnelWeightsRow m phiX) fresnelWeightsRow.

Definition fresnelWeights (NPts : Z) (LKm ZKm WavelengthKm : R)
    : option (list (list complex128)) :=
  do topRow <- fresnelWeightsTopRow NPts LKm ZKm WavelengthKm;
  do ans <- Go.make ([] : list complex128) NPts;
  do ans <- Go.for_upto_opt NPts (fun i ans =>
              do r <- Go.make Czero NPts; Go.assign ans i r) ans;
  (* Build the full fresnel weights matrix from the top row *)
  Go.for_upto_opt NPts (fun row ans =>
    Go.for_upto_opt NPts (fun col ans =>
      do v <- Go.index topRow (AbsInt (col - row));
      assign2 ans row col v) ans) ans.

(** The weight row in the words of the specification (section 4.2):
    entry [m] of the row for (N, L, Z, lambda). *)
Definition weight_row_spec (N : Z) (L Z_ lambda : R) (m : Z) : complex128 :=
  let dx := L / IZR N in
  let W := 1 / (2 * dx) in
  let delta := dx in
  let k := 2 * PI / lambda in
  let x := fun m : Z => - L / 2 + IZR m * dx in
  let t1 := - PI * sqrt (2 * Z_ / k) * W in
  let t2 := sqrt (k / (2 * Z_)) in
  let t4 := (delta / PI) * sqrt (k / (2 * Z_)) * sqrt (PI / 2) in
  let t5 := k / (2 * Z_) in
  let t6 := sqrt (2 / PI) in
  let slide := x m - x 0%Z in
  let u1 := t1 - t2 * slide in
  let u2 := - t1 - t2 * slide in
  let S1 := fst (fresnelCephesScalar (u1 * t6)) in
  let C1 := snd (fresnelCephesScalar (u1 * t6)) in
  let S2 := fst (fresnelCephesScalar (u2 * t6)) in
  let C2 := snd (fresnelCephesScalar (u2 * t6)) in
  Cmul (Cmul (complex t4 0) (Cexp (complex 0 (slide * slide * t5))))
       (Csub (complex (C2 - C1) 0) (Cmul (complex 0 1) (complex (S2 - S1) 0))).

End FresnelWeights.

(** ** Package lightcurve (lightcurve.go) *)

Module Lightcurve.

(** PathPoint represents a point along the observation path with x, y
    coordinates and distance from the start of the path. *)
Record PathPoint : Type := {
  X : R;
  Y : R;
  DistanceFromStart : R
}.

(** ObservationPath defines the path along which the light curve is
    extracted. *)
Record ObservationPath : Type := {
  DxKmPerSec : R;
  DyKmPerSec : R;
  PathOffsetFromCenterKm : R;
  FundamentalPlaneWidthKm : R;
  FundamentalPlaneWidthPts : Z;
  StartX : R;
  StartY : R;
  EndX : R;
  EndY : R;
  ShadowSpeedKmPerSec : R;
  PathAngleDegrees : R;
  Direction : string;
  SamplePoints : list PathPoint
}.

(** [p.SamplePoints = pts]. *)
Definition set_SamplePoints (p : ObservationPath) (pts : list PathPoint)
    : ObservationPath :=
  {| DxKmPerSec := DxKmPerSec p;
     DyKmPerSec := DyKmPerSec p;
     PathOffsetFromCenterKm := PathOffsetFromCenterKm p;
     FundamentalPlaneWidthKm := FundamentalPlaneWidthKm p;
     FundamentalPlaneWidthPts := FundamentalPlaneWidthPts p;
     StartX := StartX p;
     StartY := StartY p;
     EndX := EndX p;
     EndY := EndY p;
     ShadowSpeedKmPerSec := ShadowSpeedKmPerSec p;
     PathAngleDegrees := PathAngleDegrees p;
     Direction := Direction p;
     SamplePoints := pts |}.

(** ComputeSamplePoints generates sample points along the observation
    path.  Points are sampled at 1-pixel intervals along the path. *)
Definition ComputeSamplePoints (p : ObservationPath) : ObservationPath :=
  let xLength := EndX p - StartX p in
  let yLength := EndY p - StartY p in
  let pathLength := sqrt (xLength * xLength + yLength * yLength) in
  let dYPerStep := yLength / pathLength in
  let dXPerStep := xLength / pathLength in
  let p := set_SamplePoints p [] in
  Go.for_upto (Go.int_of_float (Go.Round pathLength)) (fun i p =>
    let k := Go.float64 i in
    let xVal := StartX p + k * dXPerStep in
    let yVal := StartY p + k * dYPerStep in
    let distanceFromStart :=
      sqrt (k * k * dXPerStep * dXPerStep + k * k * dYPerStep * dYPerStep) in
    set_SamplePoints p
      (SamplePoints p ++
         [{| X := xVal; Y := yVal; DistanceFromStart := distanceFromStart |}])) p.

(** interpolate performs bilinear interpolation on a 2D matrix at the
    given (x, y) coordinates. *)
Definition interpolate (matrix : Matrix) (x y : R) : option R :=
  let n := Go.len matrix in
  if (n =? 0)%Z then Some 0 else
  let x := if Rlt_dec x 0 then 0 else x in
  let y := if Rlt_dec y 0 then 0 else y in
  let x := if Rge_dec x (Go.float64 (n - 1)) then Go.float64 (n - 1) - 1e-9 else x in
  let y := if Rge_dec y (Go.float64 (n - 1)) then Go.float64 (n - 1) - 1e-9 else y in
  let x0 := Go.int_of_float x in
  let y0 := Go.int_of_float y in
  let x1 := (x0 + 1)%Z in
  let y1 := (y0 + 1)%Z in
  let xFrac := x - Go.float64 x0 in
  let yFrac := y - Go.float64 y0 in
  do v00 <- at2 matrix y0 x0;
  do v01 <- at2 matrix y0 x1;
  do v10 <- at2 matrix y1 x0;
  do v11 <- at2 matrix y1 x1;
  let v0 := v00 * (1 - xFrac) + v01 * xFrac in
  let v1 := v10 * (1 - xFrac) + v11 * xFrac in
  Some (v0 * (1 - yFrac) + v1 * yFrac).

(** One iteration of the edge loop: the state is the list of edges found
    so far and the colour that counts as the next edge. *)
Definition edge_step (geometricMatrix : Matrix) (x y distance : R)
    (st : list R * R) : option (list R * R) :=
  let (edges, colorAtNextEdge) := st in
  do pixelValue <- interpolate geometricMatrix x y;
  let pixelValue := if Rgt_dec pixelValue 0 then 1 else pixelValue in
  if Req_dec_T pixelValue colorAtNextEdge
  then Some (edges ++ [distance], 1 - colorAtNextEdge) (* Toggle *)
  else Some (edges, colorAtNextEdge).

(** FindEdgesInGeometricShadow detects edge transitions in the geometric
    shadow image along the observation path.  Returns the distances (from
    path start) where edges occur.  The path is passed by pointer; its
    value after the call is the second component. *)
Definition FindEdgesInGeometricShadow (geometricMatrix : Matrix)
    (path : ObservationPath) : option (list R * ObservationPath) :=
  let path :=
    if (Go.len (SamplePoints path) =? 0)%Z then ComputeSamplePoints path else path in
  do st <- Go.for_each_opt (SamplePoints path)
             (fun pt st =>
                edge_step geometricMatrix (X pt) (Y pt) (DistanceFromStart pt) st)
             ([], 1);
  Some (fst st, path).

(** createTestGeometricMatrix of the example programs: a disk of radius
    0.15 size about the centre, 0.0 inside the occulter and 1.0 outside. *)
Definition createTestGeometricMatrix (size : Z) : option Matrix :=
  do matrix <- Go.make ([] : list R) size;
  let center := Go.float64 size / 2 in
  let radius := Go.float64 size * 0.15 in
  Go.for_upto_opt size (fun y matrix =>
    do row <- Go.make 0 size;
    do matrix <- Go.assign matrix y row;
    Go.for_upto_opt size (fun x matrix =>
      let dx := Go.float64 x - center in
      let dy := Go.float64 y - center in
      let r := dx * dx + dy * dy in
      if Rlt_dec r (radius * radius)
      then assign2 matrix y x 0 (* Inside the occulter (shadow) *)
      else assign2 matrix y x 1 (* Outside (illuminated) *)) matrix) matrix.

(** Point represents a single point on the extracted light curve. *)
Record Point : Type := {
  Distance : R;
  Intensity : R
}.

(** ExtractLightCurve extracts intensity values along the observation
    path from the intensity matrix.  The path is passed by pointer; its
    value after the call is the second component. *)
Definition ExtractLightCurve (intensityMatrix : Matrix) (path : ObservationPath)
    : option (list Point * ObservationPath) :=
  let path :=
    if (Go.len (SamplePoints path) =? 0)%Z then ComputeSamplePoints path else path in
  let distancePerPoint :=
    FundamentalPlaneWidthKm path / Go.float64 (FundamentalPlaneWidthPts path) in
  do lightCurve <- Go.make {| Distance := 0; Intensity := 0 |}
                     (Go.len (SamplePoints path));
  do lightCurve <-
    Go.for_upto_opt (Go.len (SamplePoints path)) (fun i lightCurve =>
      do pt <- Go.index (SamplePoints path) i;
      do intensity <- interpolate intensityMatrix (X pt) (Y pt);
      Go.assign lightCurve i
        {| Distance := DistanceFromStart pt * distancePerPoint;
           Intensity := intensity |}) lightCurve;
  Some (lightCurve, path).

End Lightcurve.

(** ** Package main: the event record and the path functions *)

(** A value of type [][2]float64 is a slice header: the address of its
    backing array in the store and its length.  Copies of a header share
    the backing array. *)
Record SliceHeader : Type := {
  array : option nat;
  length_ : Z
}.

Definition nilSlice : SliceHeader := {| array := None; length_ := 0 |}.

(** OccultationEvent, with the fields that the numerical pipeline reads or
    writes (the GUI, title and ellipse fields are left out). *)
Record OccultationEvent : Type := {
  IntensityMatrix : Matrix;
  GeometricMatrix : Matrix;
  PathSamplePoints : list (R * R * R);
  PathStart : R * R;
  PathEnd : R * R;
  PathToQEtable : string;
  QEtable : SliceHeader;
  FundamentalPlaneWidthKm : R;
  FundamentalPlaneWidthPoints : Z;
  ObservationWavelengthNm : R;
  StarDiamKm : R;
  LimbDarkeningCoeff : R;
  PercentMagDrop : R;
  DistanceAu : R
}.

Definition set_IntensityMatrix (e : OccultationEvent) (m : Matrix) : OccultationEvent :=
  {| IntensityMatrix := m;
     GeometricMatrix := GeometricMatrix e;
     PathSamplePoints := PathSamplePoints e;
     PathStart := PathStart e;
     PathEnd := PathEnd e;
     PathToQEtable := PathToQEtable e;
     QEtable := QEtable e;
     FundamentalPlaneWidthKm := FundamentalPlaneWidthKm e;
     FundamentalPlaneWidthPoints := FundamentalPlaneWidthPoints e;
     ObservationWavelengthNm := ObservationWavelengthNm e;
     StarDiamKm := StarDiamKm e;
     LimbDarkeningCoeff := LimbDarkeningCoeff e;
     PercentMagDrop := PercentMagDrop e;
     DistanceAu := DistanceAu e |}.

Definition set_PathSamplePoints (e : OccultationEvent) (pts : list (R * R * R))
    : OccultationEvent :=
  {| IntensityMatrix := IntensityMatrix e;
     GeometricMatrix := GeometricMatrix e;
     PathSamplePoints := pts;
     PathStart := PathStart e;
     PathEnd := PathEnd e;
     PathToQEtable := PathToQEtable e;
     QEtable := QEtable e;
     FundamentalPlaneWidthKm := FundamentalPlaneWidthKm e;
     FundamentalPlaneWidthPoints := FundamentalPlaneWidthPoints e;
     ObservationWavelengthNm := ObservationWavelengthNm e;
     StarDiamKm := StarDiamKm e;
     LimbDarkeningCoeff := LimbDarkeningCoeff e;
     PercentMagDrop := PercentMagDrop e;
     DistanceAu := DistanceAu e |}.

Definition set_QEtable (e : OccultationEvent) (t : SliceHeader) : OccultationEvent :=
  {| IntensityMatrix := IntensityMatrix e;
     GeometricMatrix := GeometricMatrix e;
     PathSamplePoints := PathSamplePoints e;
     PathStart := PathStart e;
     PathEnd := PathEnd e;
     PathToQEtable := PathToQEtable e;
     QEtable := t;
     FundamentalPlaneWidthKm := FundamentalPlaneWidthKm e;
     FundamentalPlaneWidthPoints := FundamentalPlaneWidthPoints e;
     ObservationWavelengthNm := ObservationWavelengthNm e;
     StarDiamKm := StarDiamKm e;
     LimbDarkeningCoeff := LimbDarkeningCoeff e;
     PercentMagDrop := PercentMagDrop e;
     DistanceAu := DistanceAu e |}.

Definition set_PercentMagDrop (e : OccultationEvent) (p : R) : OccultationEvent :=
  {| IntensityMatrix := IntensityMatrix e;
     GeometricMatrix := GeometricMatrix e;
     PathSamplePoints := PathSamplePoints e;
     PathStart := PathStart e;
     PathEnd := PathEnd e;
     PathToQEtable := PathToQEtable e;
     QEtable := QEtable e;
     FundamentalPlaneWidthKm := FundamentalPlaneWidthKm e;
     FundamentalPlaneWidthPoints := FundamentalPlaneWidthPoints e;
     ObservationWavelengthNm := ObservationWavelengthNm e;
     StarDiamKm := StarDiamKm e;
     LimbDarkeningCoeff := LimbDarkeningCoeff e;
     PercentMagDrop := p;
     DistanceAu := DistanceAu e |}.

(** main.go: computePathPoints.  The event is passed by pointer; the
    result is its value after the call. *)
Definition computePathPoints (e : OccultationEvent) : OccultationEvent :=
  let xLengthPixels := fst (PathEnd e) - fst (PathStart e) in
  let yLengthPixels := snd (PathEnd e) - snd (PathStart e) in
  let pathLengthPixels :=
    sqrt (xLengthPixels * xLengthPixels + yLengthPixels * yLengthPixels) in
  let dYPerStep := yLengthPixels / pathLengthPixels in
  let dXPerStep := xLengthPixels / pathLengthPixels in
  let startX := fst (PathStart e) in
  let startY := snd (PathStart e) in
  Go.for_upto (Go.int_of_float (Go.Round pathLengthPixels)) (fun i e =>
    let k := Go.float64 i in
    let xVal := startX + k * dXPerStep in
    let yVal := startY + k * dYPerStep in
    (* distanceFromStart is the pixel distance from the start of the path. *)
    let distanceFromStart :=
      sqrt (k * k * dXPerStep * dXPerStep + k * k * dYPerStep * dYPerStep) in
    set_PathSamplePoints e (PathSamplePoints e ++ [(xVal, yVal, distanceFromStart)])) e.

(** pathFuncs.go: FindEdgesInGeometricShadow. *)
Definition FindEdgesInGeometricShadow (e : OccultationEvent) : option (list R) :=
  do st <- Go.for_upto_opt (Go.len (PathSamplePoints e)) (fun i st =>
             let '(ans, colorAtNextEdge) := st in
             do pt <- Go.index (PathSamplePoints e) i;
             do pixelValue <- interpolate (GeometricMatrix e) (fst (fst pt)) (snd (fst pt));
             let pixelValue := if Rgt_dec pixelValue 0 then 1 else pixelValue in
             if Req_dec_T pixelValue colorAtNextEdge
             then
               (* append the distanceFromStart value; toggle the color we
                  treat as an edge *)
               Some (ans ++ [snd pt], 1 - colorAtNextEdge)
             else Some (ans, colorAtNextEdge))
           ([], 1);
  Some (fst st).

(** ** convolution.go: the star PSF *)

Definition StarBrightness (r starDiamKm limbDarkeningCoeff : R) : R :=
  let starRadius := starDiamKm / 2 in
  (* x is the distance from the star center expressed as a fraction of the
     star radius *)
  let x := r / starRadius in
  if Rge_dec x 1 then 0
  else 1 - limbDarkeningCoeff * (1 - sqrt (1 - x * x)).

Definition BuildStarPsf (starDiamKm resolutionPointsPerKm limbDarkeningCoeff : R)
    : option (Matrix * R) :=
  (* First, we compute the dimensions of the enclosing square. *)
  let psfWidthPixels := Go.int_of_float (Go.Ceil (starDiamKm / resolutionPointsPerKm)) in
  (* Make psfWidth even. *)
  let psfWidthPixels :=
    if negb (Z.rem psfWidthPixels 2 =? 0)%Z then (psfWidthPixels + 1)%Z
    else psfWidthPixels in
  (* add a border *)
  let psfWidthPixels := (psfWidthPixels + 4)%Z in
  do starMatrix <- Go.make ([] : list R) psfWidthPixels;
  let center := Z.quot psfWidthPixels 2 in
  let sumOfWeights := 0 in
  Go.for_upto_opt psfWidthPixels (fun row st =>
    Go.for_upto_opt psfWidthPixels (fun col st =>
      let '(starMatrix, sumOfWeights) := st in
      let r :=
        sqrt (Go.float64 ((row - center) * (row - center)
                          + (col - center) * (col - center)))
        * resolutionPointsPerKm in
      let brightness := StarBrightness r starDiamKm limbDarkeningCoeff in
      let sumOfWeights := sumOfWeights + brightness in
      do rowSlice <- Go.index starMatrix row;
      do starMatrix <- Go.assign starMatrix row (rowSlice ++ [brightness]);
      Some (starMatrix, sumOfWeights)) st) (starMatrix, sumOfWeights).

(** ** convolution.go: the 2D FFT convolver *)

Definition ConvMode : Type := Z.
Definition ConvSame : ConvMode := 0%Z.
Definition ConvFull : ConvMode := 1%Z.
Definition ConvValid : ConvMode := 2%Z.

Definition PaddingMode : Type := Z.
Definition PadZeros : PaddingMode := 0%Z.
Definition PadReflect : PaddingMode := 1%Z.
Definition PadReplicate : PaddingMode := 2%Z.
Definition PadCircular : PaddingMode := 3%Z.

Definition Grid : Type := list (list complex128).

(** *** The transforms of gonum's [fourier.CmplxFFT]

    [Coefficients] is the unnormalised forward discrete Fourier transform
    and [Sequence] the unnormalised inverse, so that
    [Sequence(Coefficients(x)) = n x]. *)

Fixpoint Csum (k : nat) (f : Z -> complex128) : complex128 :=
  match k with
  | O => Czero
  | S k' => Cadd (Csum k' f) (f (Z.of_nat k'))
  end.

(** [cos t + i sin t]. *)
Definition Cis (t : R) : complex128 := (cos t, sin t).

Definition dft (sign : R) (s : list complex128) : list complex128 :=
  let n := Go.len s in
  tabulate n (fun k =>
    Csum (length s) (fun j =>
      Cmul (nth (Z.to_nat j) s Czero) (Cis (sign * (2 * PI * IZR (j * k) / IZR n))))).

Definition Coefficients (s : list complex128) : list complex128 := dft (-1) s.
Definition Sequence (s : list complex128) : list complex128 := dft 1 s.

(** *** FFT helpers *)

Definition fft2InPlace (a : Grid) (forward : bool) : option Grid :=
  let h := Go.len a in
  do a0 <- Go.index a 0;
  let w := Go.len a0 in
  (* rows *)
  do tmp <- Go.make Czero w;
  do st <- Go.for_upto_opt h (fun y st =>
             let '(a, tmp) := st in
             do ay <- Go.index a y;
             let tmp := Go.copy tmp ay in
             let tmp := if forward then Coefficients tmp else Sequence tmp in
             do a <- Go.assign a y (Go.copy ay tmp);
             Some (a, tmp)) (a, tmp);
  let a := fst st in
  (* cols *)
  do col <- Go.make Czero h;
  do st <- Go.for_upto_opt w (fun x st =>
             do st <- Go.for_upto_opt h (fun y st =>
                        let '(a, col) := st in
                        do v <- at2 a y x;
                        do col <- Go.assign col y v;
                        Some (a, col)) st;
             let '(a, col) := st in
             let col := if forward then Coefficients col else Sequence col in
             Go.for_upto_opt h (fun y st =>
               let '(a, col) := st in
               do v <- Go.index col y;
               do a <- assign2 a y x v;
               Some (a, col)) (a, col)) (a, col);
  Some (fst st).

(** *** utility *)

Definition rectSize (m : Matrix) : result (Z * Z) :=
  let h := Go.len m in
  match m with
  | [] => Ok (0%Z, 0%Z)
  | m0 :: rest =>
      let w := Go.len m0 in
      if forallb (fun row => (Go.len row =? w)%Z) rest
      then Ok (h, w)
      else Err "ragged matrix"
  end.

Definition makeComplex2D (h w : Z) : option Grid :=
  do m <- Go.make ([] : list complex128) h;
  Go.for_upto_opt (Go.len m) (fun i m =>
    do row <- Go.make Czero w; Go.assign m i row) m.

(** The loop [for p < n { p <<= 1 }], run for at most [fuel] rounds. *)
Fixpoint nextPow2_loop (fuel : nat) (p n : Z) : Z :=
  match fuel with
  | O => p
  | S fuel' => if (p <? n)%Z then nextPow2_loop fuel' (Z.shiftl p 1) n else p
  end.

Definition nextPow2 (n : Z) : Z :=
  if (n <=? 1)%Z then 1%Z else nextPow2_loop (Z.to_nat n) 1%Z n.

Definition clamp (v lo hi : Z) : Z :=
  if (v <? lo)%Z then lo else if (v >? hi)%Z then hi else v.

(** [i % n] panics for [n = 0]. *)
Definition rem (i n : Z) : option Z :=
  if (n =? 0)%Z then None else Some (Z.rem i n).

Definition mod_ (i n : Z) : option Z :=
  do r <- rem i n;
  Some (if (r <? 0)%Z then (r + n)%Z else r).

(** reflectIndex implements "reflect" padding without repeating edge
    pixels.  Example for n=5 indices: ... 2 1 0 1 2 3 4 3 2 1 0 1 ... *)
Definition reflectIndex (i n : Z) : option Z :=
  if (n <=? 1)%Z then Some 0%Z else
  let period := (2 * n - 2)%Z in
  do i <- mod_ i period;
  Some (if (i >=? n)%Z then (period - i)%Z else i).

(** *** Padding + shifting *)

Definition sample2D (img : Matrix) (y x : Z) (mode : PaddingMode) : option R :=
  let H := Go.len img in
  do img0 <- Go.index img 0;
  let W := Go.len img0 in
  if ((0 <=? y) && (y <? H) && (0 <=? x) && (x <? W))%Z%bool then at2 img y x
  else if (mode =? PadZeros)%Z then Some 0
  else if (mode =? PadReplicate)%Z then
    at2 img (clamp y 0 (H - 1)) (clamp x 0 (W - 1))
  else if (mode =? PadReflect)%Z then
    do yy <- reflectIndex y H;
    do xx <- reflectIndex x W;
    at2 img yy xx
  else if (mode =? PadCircular)%Z then
    do yy <- mod_ y H;
    do xx <- mod_ x W;
    at2 img yy xx
  else Some 0.

(** ifftshift: moves the center of a centered PSF to (0,0). *)
Definition ifftshift2D (x : Matrix) : option Matrix :=
  let h := Go.len x in
  do x_0 <- Go.index x 0;
  let w := Go.len x_0 in
  do out <- Go.make ([] : list R) h;
  do out <- Go.for_upto_opt (Go.len out) (fun i out =>
              do row <- Go.make 0 w; Go.assign out i row) out;
  let shY := Z.quot h 2 in
  let shX := Z.quot w 2 in
  Go.for_upto_opt h (fun y out =>
    do yy <- rem (y + shY) h;
    Go.for_upto_opt w (fun x0 out =>
      do xx <- rem (x0 + shX) w;
      do v <- at2 x yy xx;
      assign2 out y x0 v) out) out.

(** *** ConvolvePSFFFT convolves image with a centered PSF using 2D FFT.

    image: HxW; psf: PhxPw (assumed centered; peak near middle);
    mode: Same, Full, Valid; pad: Zeros, Reflect, Replicate, Circular.
    The result is [None] for a run-time panic, [Some (Err _)] for a
    returned error and [Some (Ok _)] for a returned image. *)

(** The crop [out[y] = full[y+offY][offX : offX+outW]] for [y < outH]. *)
Definition crop (full : Matrix) (offY offX outH outW : Z) : option Matrix :=
  do out <- Go.make ([] : list R) outH;
  Go.for_upto_opt outH (fun y out =>
    do row <- Go.make 0 outW;
    do out <- Go.assign out y row;
    do fullRow <- Go.index full (y + offY);
    do src <- Go.slice fullRow offX (offX + outW);
    do outRow <- Go.index out y;
    Go.assign out y (Go.copy outRow src)) out.

Definition ConvolvePSFFFT (image psf : Matrix) (starSum : R) (mode : ConvMode)
    (pad : PaddingMode) (centeredPsf : bool) : option (result Matrix) :=
  match rectSize image with
  | Err e => Some (Err e)
  | Ok (H, W) =>
  match rectSize psf with
  | Err e => Some (Err e)
  | Ok (Ph, Pw) =>
  if ((H =? 0) || (W =? 0) || (Ph =? 0) || (Pw =? 0))%Z%bool
  then Some (Err "empty image or psf") else
  (* Output dimensions. *)
  let dims : result (Z * Z) :=
    if (mode =? ConvSame)%Z then Ok (H, W)
    else if (mode =? ConvFull)%Z then Ok (H + Ph - 1, W + Pw - 1)%Z
    else if (mode =? ConvValid)%Z then
      let outH := (H - Ph + 1)%Z in
      let outW := (W - Pw + 1)%Z in
      if ((outH <=? 0) || (outW <=? 0))%Z%bool
      then Err "valid convolution requested but psf larger than image"
      else Ok (outH, outW)
    else Err "unknown ConvMode" in
  match dims with
  | Err e => Some (Err e)
  | Ok (outH, outW) =>
  (* FFT grid for linear convolution: at least full size. *)
  let FH := nextPow2 (H + Ph - 1) in
  let FW := nextPow2 (W + Pw - 1) in
  let FH := if negb (Z.rem FH 2 =? 0)%Z then (FH + 1)%Z else FH in
  let FW := if negb (Z.rem FW 2 =? 0)%Z then (FW + 1)%Z else FW in
  (* Build padded complex grids. *)
  do A <- makeComplex2D FH FW;
  do B <- makeComplex2D FH FW;
  (* Put the image into A with a chosen padding policy. *)
  do A <- Go.for_upto_opt FH (fun y A =>
            Go.for_upto_opt FW (fun x A =>
              do s <- sample2D image y x pad;
              assign2 A y x (complex s 0)) A) A;
  do B <-
    (if centeredPsf then
       (* Put PSF into B, but shift it so its center is at (0,0)
          (ifftshift). *)
       do psfShift <- ifftshift2D psf;
       Go.for_upto_opt Ph (fun y B =>
         Go.for_upto_opt Pw (fun x B =>
           do v <- at2 psfShift y x;
           assign2 B y x (complex v 0)) B) B
     else
       Go.for_upto_opt Ph (fun y B =>
         Go.for_upto_opt Pw (fun x B =>
           do v <- at2 psf y x;
           assign2 B y x (complex v 0)) B) B);
  (* 2D FFT: rows then columns. *)
  do A <- fft2InPlace A true;
  do B <- fft2InPlace B true;
  (* Multiply spectra. *)
  do A <- Go.for_upto_opt FH (fun y A =>
            Go.for_upto_opt FW (fun x A =>
              do a <- at2 A y x;
              do b <- at2 B y x;
              assign2 A y x (Cmul a b)) A) A;
  (* Inverse 2D FFT. *)
  do A <- fft2InPlace A false;
  (* For 2D, divide by FH*FW. *)
  let scale := Go.float64 (FH * FW) in
  (* Crop according to ConvMode. *)
  do full <- Go.make ([] : list R) (H + Ph - 1);
  do full <- Go.for_upto_opt (Go.len full) (fun y full =>
               do row <- Go.make 0 (W + Pw - 1);
               do full <- Go.assign full y row;
               Go.for_upto_opt (Go.len row) (fun x full =>
                 do a <- at2 A y x;
                 assign2 full y x (real a / scale / starSum)) full) full;
  if (mode =? ConvFull)%Z then Some (Ok full)
  else if (mode =? ConvSame)%Z then
    (* Centered crop of a full result to HxW: offset = floor(Ph/2),
       floor(Pw/2) *)
    let offY := Z.quot Ph 2 in
    let offX := Z.quot Pw 2 in
    do out <- crop full offY offX H W;
    Some (Ok out)
  else if (mode =? ConvValid)%Z then
    (* Valid crop of a full result: start at (Ph-1, Pw-1) *)
    let startY := (Ph - 1)%Z in
    let startX := (Pw - 1)%Z in
    do out <- crop full startY startX outH outW;
    Some (Ok out)
  else Some (Err "unreachable")
  end end end.

(** ** sincDiffraction.go: the propagator *)

(** Flatten2D: row major flattening. *)
Definition Flatten2D (m : Grid) : result (list complex128) :=
  match m with
  | [] => Ok []
  | m0 :: rest =>
      let cols := Go.len m0 in
      (* Ensure rectangular *)
      if forallb (fun row => (Go.len row =? cols)%Z) rest
      then Ok (concat m)
      else Err "ragged matrix"
  end.

(** Zgemm3m wraps [cblas_zgemm3m] of the vendor BLAS for row-major,
    untransposed operands: C <- alpha A B + beta C, with A of size m x k,
    B of size k x n and C of size m x n.  Taking [&a[0]] of an empty slice
    panics; an operand shorter than its dimensions say is treated as a
    panic as well. *)
Definition Zgemm3m (m n k : Z) (alpha : complex128) (a : list complex128)
    (lda : Z) (b : list complex128) (ldb : Z) (beta : complex128)
    (c : list complex128) (ldc : Z) : option (list complex128) :=
  do _ <- Go.index a 0;
  do _ <- Go.index b 0;
  do _ <- Go.index c 0;
  Go.for_upto_opt m (fun i c =>
    Go.for_upto_opt n (fun j c =>
      do dot <- Go.for_upto_opt k (fun l acc =>
                  do x <- Go.index a (i * lda + l);
                  do y <- Go.index b (l * ldb + j);
                  Some (Cadd acc (Cmul x y))) Czero;
      do cij <- Go.index c (i * ldc + j);
      Go.assign c (i * ldc + j) (Cadd (Cmul alpha dot) (Cmul beta cij))) c) c.

(** for i := range v { v[i] *= s } *)
Definition scaleComplex (v : list complex128) (scale : R) : option (list complex128) :=
  let s := complex scale 0 in
  Go.for_upto_opt (Go.len v) (fun i v =>
    do vi <- Go.index v i; Go.assign v i (Cmul vi s)) v.

Definition addScaledComplexInPlace (a b : list complex128) (scaleB : R)
    : option (list complex128) :=
  if negb (Go.len a =? Go.len b)%Z then None (* panic("vector lengths don't match") *)
  else
    Go.for_upto_opt (Go.len a) (fun i a =>
      do ai <- Go.index a i;
      do bi <- Go.index b i;
      Go.assign a i (Cadd ai (Cmul (complex scaleB 0) bi))) a.

(** The backing arrays of the [][2]float64 slices, by address. *)
Definition Store : Type := list (list (R * R)).

(** [s[i]] and [s[i] = v] for a slice header [s]. *)
Definition slice_read (h : Store) (s : SliceHeader) (i : Z) : option (R * R) :=
  if ((0 <=? i) && (i <? length_ s))%Z%bool then
    do addr <- array s;
    do backing <- nth_error h addr;
    Go.index backing i
  else None.

Definition slice_write (h : Store) (s : SliceHeader) (i : Z) (v : R * R)
    : option Store :=
  if ((0 <=? i) && (i <? length_ s))%Z%bool then
    do addr <- array s;
    do backing <- nth_error h addr;
    do backing <- Go.assign backing i v;
    Go.set_nth h addr backing
  else None.

(** What main prints (only the text that the properties speak about). *)
Inductive Message : Type :=
| percentMagDrop_too_large (p : R).   (* "percentMagDrop of %0.1f is too large. Setting it to 100.0" *)

(** The state of main: the event, the store of QE tables, and stdout. *)
Record MainState : Type := {
  event : OccultationEvent;
  store : Store;
  stdout : list Message
}.

(** A stretch of main ends by falling through to the next statement, by
    [os.Exit(code)], or by a panic. *)
Inductive Outcome (A : Type) : Type :=
| Continue (a : A)
| Exit (code : Z)
| Panic.
Arguments Continue {A} a.
Arguments Exit {A} code.
Arguments Panic {A}.

Definition nmToKm : R := 1e-9 * 1e-3.

Section Main.

Variable fresnelCephesScalar : R -> R * R.

(** [os.ReadFile], and the JSON5 decoder that [parseArrayFormat] calls
    on the bytes read. *)
Variable ReadFile : string -> result string.
Variable Unmarshal : string -> result (list (R * R)).

(** gonum's plot package, as far as [MakeCameraResponsePlot] depends on
    it: [plotter.NewLinePoints] and [plotter.NewLine] refuse data that
    they cannot draw, and [Save] draws the plot (its title, the response
    points and the horizontal line) into the named file. *)
Variable NewLinePoints : list (R * R) -> result unit.
Variable NewLine : list (R * R) -> result unit.
Variable Save : string -> list (R * R) -> list (R * R) -> string -> result unit.

Definition FullObservationPlaneSincSolution (LKm ZKm WavelengthKm : R)
    (sourcePlane : Grid) : option (list complex128) :=
  let Npts := Go.len sourcePlane in
  do wgts <- fresnelWeights fresnelCephesScalar Npts LKm ZKm WavelengthKm;
  let M := Npts in
  let N := Npts in
  let K := Npts in
  let lda := M in
  let ldb := K in
  let ldc := M in
  match Flatten2D wgts with
  | Err _ => None (* panic(err) *)
  | Ok A =>
  match Flatten2D sourcePlane with
  | Err _ => None (* panic(err) *)
  | Ok B =>
    do C <- Go.make Czero (ldc * N);
    do ans <- Go.make Czero (ldc * N);
    let alpha := complex 1 0 in
    let beta := complex 0 0 in
    (* Compute wgts @ sourcePlane @ wgts *)
    do C <- Zgemm3m N M K alpha A lda B ldb beta C ldc;
    Zgemm3m N M K alpha C lda A ldb beta ans ldc
  end end.

Definition parseArrayFormat (data : string) : result (list (R * R)) :=
  Unmarshal data.

(** sincDiffraction.go: MakeCameraResponsePlot.  The table is read
    through its slice header.  The fonts, labels, ticks and colours of the
    plot are left out; [log.Fatal] ends the run with exit code 1.  (A
    [maxWeight] of zero makes the quotient NaN or Inf in Go, which is
    outside the model.) *)
Definition MakeCameraResponsePlot (h : Store) (data : SliceHeader) (filename : string)
    : Outcome unit :=
  (* Find the max weight - we will use that to calculate relative response *)
  let maxWeight := 0 in
  match Go.for_upto_opt (length_ data) (fun i maxWeight =>
          do pair <- slice_read h data i;
          Some (if Rgt_dec (snd pair) maxWeight then snd pair else maxWeight))
          maxWeight with
  | None => Panic
  | Some maxWeight =>
  (* Data *)
  let n := length_ data in
  match (do pts <- Go.make (0, 0) n;
         Go.for_upto_opt n (fun i pts =>
           do d <- slice_read h data i;
           let x := fst d in
           let y := snd d / maxWeight in
           Go.assign pts i (x, y)) pts) with
  | None => Panic
  | Some pts =>
  match NewLinePoints pts with
  | Err _ => Exit 1 (* log.Fatal(err) *)
  | Ok _ =>
  match (do d0 <- slice_read h data 0;
         do dn <- slice_read h data (n - 1);
         Some [(fst d0, 0); (fst dn, 0)]) with
  | None => Panic
  | Some hpts =>
  match NewLine hpts with
  | Err _ => Panic (* panic(err) *)
  | Ok _ =>
  match Save ("Camera response vs Wavelength from file: " ++ filename)%string pts hpts
             "camera_response.png" with
  | Err _ => Exit 1 (* log.Fatal(err) *)
  | Ok _ => Continue tt
  end end end end end end.

(** main.go, "If a path to a camera response json file was given, read
    it".  The local [qeTable] and the field [event.QEtable] are two
    headers for one backing array.  (Weights that sum to zero make the
    quotients NaN or Inf in Go, which is outside the model.) *)
Definition loadQEtable (st : MainState) : Outcome MainState :=
  if string_dec (PathToQEtable (event st)) "" then Continue st else
  match ReadFile (PathToQEtable (event st)) with
  | Err _ => Exit 13
  | Ok data =>
  match parseArrayFormat data with
  | Err _ => Exit 15
  | Ok pairs =>
    let qeTable := {| array := Some (length (store st)); length_ := Go.len pairs |} in
    let st := {| event := set_QEtable (event st) qeTable;
                 store := store st ++ [pairs];
                 stdout := stdout st |} in
    if (length_ qeTable <? 1)%Z then Exit 14 else
    let cumWeights := 0 in
    match Go.for_upto_opt (length_ qeTable) (fun i cumWeights =>
            do q <- slice_read (store st) qeTable i;
            Some (cumWeights + snd q)) cumWeights with
    | None => Panic
    | Some cumWeights =>
    match Go.for_upto_opt (length_ qeTable) (fun i h =>
            do q <- slice_read h qeTable i;
            slice_write h qeTable i (fst q, snd q / cumWeights)) (store st) with
    | None => Panic
    | Some h =>
        let st := {| event := event st; store := h; stdout := stdout st |} in
        match MakeCameraResponsePlot (store st) qeTable (PathToQEtable (event st)) with
        | Continue _ => Continue st
        | Exit code => Exit code
        | Panic => Panic
        end
    end end
  end end.

(** main.go, the computation of [eField]. *)
Definition combineFields (Lkm Zkm WavelengthKm : R) (sourcePlane : Grid)
    (st : MainState) : option (list complex128) :=
  let QE := QEtable (event st) in
  if (length_ QE >? 0)%Z then
    (* Get the first scaled eField to use to accumulate all the rest *)
    do q0 <- slice_read (store st) QE 0;
    let WavelengthKm := fst q0 * nmToKm in
    do eField <- FullObservationPlaneSincSolution Lkm Zkm WavelengthKm sourcePlane;
    do q0 <- slice_read (store st) QE 0;
    do eField <- scaleComplex eField (snd q0);
    (* Now do the rest *)
    Go.for_loop_opt (Z.to_nat (length_ QE - 1)) 1 (fun i eField =>
      do qi <- slice_read (store st) QE i;
      let WavelengthKm := fst qi * nmToKm in
      do newField <- FullObservationPlaneSincSolution Lkm Zkm WavelengthKm sourcePlane;
      do qi <- slice_read (store st) QE i;
      addScaledComplexInPlace eField newField (snd qi)) eField
  else FullObservationPlaneSincSolution Lkm Zkm WavelengthKm sourcePlane.

End Main.

(** main.go, "Here we apply any necessary magDrop adjustments". *)
Definition applyMagDrop (st : MainState) : option MainState :=
  if Rgt_dec (PercentMagDrop (event st)) 0 then
    (* Check for value given and bonus: ignore negative values *)
    let st :=
      if Rgt_dec (PercentMagDrop (event st)) 100 then
        {| event := set_PercentMagDrop (event st) 100;
           store := store st;
           stdout := stdout st ++ [percentMagDrop_too_large (PercentMagDrop (event st))] |}
      else st in
    let scaleFactor := PercentMagDrop (event st) / 100 in
    let shiftUp := 1 - scaleFactor in
    do m <- Go.for_upto_opt (Go.len (IntensityMatrix (event st))) (fun row m =>
              do r <- Go.index m row;
              Go.for_upto_opt (Go.len r) (fun col m =>
                do v <- at2 m row col;
                do m <- assign2 m row col (v * scaleFactor);
                do v <- at2 m row col;
                assign2 m row col (v + shiftUp)) m) (IntensityMatrix (event st));
    Some {| event := set_IntensityMatrix (event st) m;
            store := store st;
            stdout := stdout st |}
  else Some st.

(** ** imageFuncs.go: the ellipse test *)

(** Returns boolean: True if x,y is inside or on the ellipse boundary,
    False if x,y is outside the ellipse.  x0,y0 are the coordinates of
    the center of the ellipse; thetaDegrees is the counter-clockwise
    rotation (in degrees) around x0,y0 with North at zero degrees. *)
Definition insideGeneralizedEllipse (x y x0 y0 xDiam yDiam thetaDegrees : R) : bool :=
  let xSemi := xDiam / 2 in
  let ySemi := yDiam / 2 in
  (* Change center coordinates to deal with coordinates specified in the
     fundamental plane scheme *)
  let xc := - y0 in
  let yc := - x0 in
  (* Add 90.0 so angles are ccw from North *)
  let thetaRadians := (thetaDegrees + 90) * (PI / 180) in
  let t1 := ((x - xc) * cos thetaRadians + (y + yc) * sin thetaRadians) / xSemi in
  let t2 := ((- x + xc) * sin thetaRadians + (y + yc) * cos thetaRadians) / ySemi in
  if Rle_dec (t1 * t1 + t2 * t2) 1 then true else false.

(** ** utility.go: Reshape1DTo2D *)

(** The verb [%d] of package fmt. *)
Definition format_int (i : Z) : string := NilZero.string_of_int (Z.to_int i).

Definition Reshape1DTo2D (v : list R) (rows cols : Z) : option (result Matrix) :=
  if negb (Go.len v =? rows * cols)%Z then
    Some (Err ("size mismatch: have " ++ format_int (Go.len v)
               ++ ", want " ++ format_int (rows * cols))%string)
  else
    do m <- Go.make ([] : list R) rows;
    let k := 0%Z in
    do st <- Go.for_upto_opt rows (fun i st =>
               let '(m, k) := st in
               do row <- Go.make 0 cols;
               do m <- Go.assign m i row;
               do src <- Go.slice v k (k + cols);
               do mi <- Go.index m i;
               do m <- Go.assign m i (Go.copy mi src);
               Some (m, (k + cols)%Z)) (m, k);
    Some (Ok (fst st)).

(** ** pathFuncs.go: where the path meets the image square *)

Record AnnotatedPoint : Type := {
  X : R;
  Y : R;
  Position : string
}.

Definition error : Type := option string.

Definition ErrNoIntersection : string := "line does not intersect square".

(** The comparisons of float64 values as booleans. *)
Definition Rltb (a b : R) : bool := if Rlt_dec a b then true else false.
Definition Rleb (a b : R) : bool := if Rle_dec a b then true else false.
Definition Rgtb (a b : R) : bool := if Rgt_dec a b then true else false.
Definition Rgeb (a b : R) : bool := if Rge_dec a b then true else false.

(** The loops run over [pts] and, inside, over the points kept so far;
    the inner loop stops at the first point within [tol] of [p]. *)
Definition removeDuplicates (pts : list AnnotatedPoint) (tol : R) : list AnnotatedPoint :=
  fold_left (fun result p =>
    let duplicate :=
      existsb (fun r => Rltb (Rabs (X p - X r)) tol && Rltb (Rabs (Y p - Y r)) tol)
              result in
    if negb duplicate then result ++ [p] else result) pts [].

(** PathSquareIntersections finds where a line intersects a square
    centered at origin.  w: square width; theta: angle of line measured
    CCW from y-axis (radians); d: perpendicular distance from the origin
    to the line.  Returns the two intersection points, dx and dy, and
    error. *)
Definition PathSquareIntersections (w theta d : R)
    : AnnotatedPoint * AnnotatedPoint * R * R * error :=
  let halfW := w / 2 in
  (* Direction vector of the line (perpendicular to the normal) *)
  let dx := sin theta in
  let dy := cos theta in
  (* Normal vector pointing in the direction of offset *)
  let nx := dy in
  let ny := - dx in
  (* A point on the line: offset by distance d along the normal *)
  let x0 := d * nx in
  let y0 := d * ny in
  let intersections : list AnnotatedPoint := [] in
  (* Right edge: x = halfW *)
  let intersections :=
    if Rgtb (Rabs dx) 1e-12 then
      let t := (halfW - x0) / dx in
      let y := y0 + t * dy in
      if Rgeb y (- halfW) && Rleb y halfW
      then intersections ++ [{| X := halfW; Y := y; Position := "right" |}]
      else intersections
    else intersections in
  (* Left edge: x = -halfW *)
  let intersections :=
    if Rgtb (Rabs dx) 1e-12 then
      let t := (- halfW - x0) / dx in
      let y := y0 + t * dy in
      if Rgeb y (- halfW) && Rleb y halfW
      then intersections ++ [{| X := - halfW; Y := y; Position := "left" |}]
      else intersections
    else intersections in
  (* Bottom edge: y = halfW *)
  let intersections :=
    if Rgtb (Rabs dy) 1e-12 then
      let t := (halfW - y0) / dy in
      let x := x0 + t * dx in
      if Rgeb x (- halfW) && Rleb x halfW
      then intersections ++ [{| X := x; Y := halfW; Position := "bottom" |}]
      else intersections
    else intersections in
  (* Top edge: y = -halfW *)
  let intersections :=
    if Rgtb (Rabs dy) 1e-12 then
      let t := (- halfW - y0) / dy in
      let x := x0 + t * dx in
      if Rgeb x (- halfW) && Rleb x halfW
      then intersections ++ [{| X := x; Y := - halfW; Position := "top" |}]
      else intersections
    else intersections in
  (* Remove duplicate corner intersections *)
  let intersections := removeDuplicates intersections 1e-9 in
  match intersections with
  | p1 :: p2 :: _ => (p1, p2, dx, dy, None)
  | _ =>
      ({| X := 0; Y := 0; Position := "" |}, {| X := 0; Y := 0; Position := "" |},
       dx, dy, Some ErrNoIntersection)
  end.

(** ** jsonFuncs.go: reading a leaf of the parameter file *)

(** The values that the JSON decoder stores in an [interface{}]. *)
#[warnings="-register-all"]
Inductive Value : Type :=
| VNil
| VBool (b : bool)
| VNumber (x : R)
| VString (s : string)
| VArray (xs : list Value)
| VMap (m : string -> option Value).

(** The loop of getLeafValue from the value [cur] on. *)
Fixpoint getLeafValue_from (cur : Value) (path : list string) {struct path}
    : Value * bool :=
  match path with
  | [] => (cur, true)
  | p :: rest =>
      match cur with
      | VMap m =>
          match m p with
          | Some next => getLeafValue_from next rest
          | None => (VNil, false)
          end
      | _ => (VNil, false)
      end
  end.

Definition getLeafValue (jsonTable : string -> option Value) (path : list string)
    : Value * bool :=
  getLeafValue_from (VMap jsonTable) path.

(** main.go, "if event.StarDiamKm > 0.0": the intensity matrix is
    convolved with the image of the star, up to the assignment
    [event.IntensityMatrix = newImage].  [resolution] is the local
    variable of main, the kilometres per pixel. *)
Definition convolveWithStar (resolution : R) (st : MainState) : Outcome MainState :=
  if Rgt_dec (StarDiamKm (event st)) 0 then
    match BuildStarPsf (StarDiamKm (event st)) resolution
            (LimbDarkeningCoeff (event st)) with
    | None => Panic
    | Some (starImage, sumOfWeights) =>
        match ConvolvePSFFFT (IntensityMatrix (event st)) starImage sumOfWeights
                ConvSame PadReplicate false with
        | None => Panic
        | Some (Err _) => Exit 13
        | Some (Ok newImage) =>
            Continue {| event := set_IntensityMatrix (event st) newImage;
                        store := store st;
                        stdout := stdout st |}
        end
    end
  else Continue st.

(** ** imageFuncs.go: the 16-bit data image *)

(** [image.Gray16] of package image: [Pix] holds the pixels, two bytes
    each, the high byte first; [Stride] is the distance in bytes between
    vertically adjacent pixels; [Rect] is the bounds
    (min x, min y, max x, max y). *)
Record Gray16 : Type := {
  Pix : list Z;
  Stride : Z;
  Rect : Z * Z * Z * Z
}.

(** [img.Pix = pix]. *)
Definition set_Pix (img : Gray16) (pix : list Z) : Gray16 :=
  {| Pix := pix; Stride := Stride img; Rect := Rect img |}.

(** [image.NewGray16(image.Rect(0, 0, w, h))]. *)
Definition NewGray16 (w h : Z) : option Gray16 :=
  do pix <- Go.make 0%Z (2 * w * h);
  Some {| Pix := pix; Stride := (2 * w)%Z; Rect := (0, 0, w, h)%Z |}.

(** The conversions [uint16(u)] of a float64 and [uint8(v)] of a
    uint16. *)
Definition uint16 (u : R) : Z := (Go.int_of_float u mod 2 ^ 16)%Z.
Definition uint8 (v : Z) : Z := (v mod 2 ^ 8)%Z.

(** MatrixToGray16Data: Data PNG (Gray16, fixed physical scaling).
    Mapping: Y16 = round(v * scale), clamped to [0, 65535].  The branch
    for NaN and the infinities is outside the model. *)
Definition MatrixToGray16Data (m : Matrix) (scale : R) : option (result Gray16) :=
  match m with
  | [] => Some (Err "empty matrix")
  | m0 :: rest =>
    if (Go.len m0 =? 0)%Z then Some (Err "empty matrix") else
    if Rle_dec scale 0 then Some (Err "scale must be > 0") else
    let h := Go.len m in
    let w := Go.len m0 in
    if negb (forallb (fun row => (Go.len row =? w)%Z) rest)
    then Some (Err "ragged matrix") else
    do img <- NewGray16 w h;
    do img <- Go.for_upto_opt h (fun y img =>
      let row := (y * Stride img)%Z in
      Go.for_upto_opt w (fun x img =>
        do v <- at2 m y x;
        let u := Go.Round (v * scale) in
        let u := if Rlt_dec u 0 then 0
                 else if Rgt_dec u 65535 then 65535 else u in
        let y16 := uint16 u in
        (* Gray16 Pix is big-endian per pixel: high then low *)
        let i := (row + 2 * x)%Z in
        do pix <- Go.assign (Pix img) i (uint8 (Z.shiftr y16 8));
        do pix <- Go.assign pix (i + 1) (uint8 y16);
        Some (set_Pix img pix)) img) img;
    Some (Ok img)
  end.

(* ================================================================== *)
(** * Part II: properties                                              *)
(* ================================================================== *)

(** ** Facts about the run-time model *)

Lemma int_of_float_IZR (z : Z) : Go.int_of_float (IZR z) = z.
Proof.
  unfold Go.int_of_float.
  destruct (Rle_dec 0 (IZR z)).
  - apply ZfloorZ.
  - unfold Zceil. now rewrite ZfloorNZ, Z.opp_involutive.
Qed.

Lemma index_nth {A : Type} (s : list A) (i : nat) (d : A) :
  (i < length s)%nat -> Go.index s (Z.of_nat i) = Some (nth i s d).
Proof.
  intros Hi. unfold Go.index.
  destruct (Z.ltb_spec (Z.of_nat i) 0); [lia|].
  rewrite Nat2Z.id. now apply nth_error_nth'.
Qed.

Lemma int_of_float_floor (x : R) (z : Z) :
  0 <= x -> IZR z <= x < IZR z + 1 -> Go.int_of_float x = z.
Proof.
  intros Hx Hz. unfold Go.int_of_float.
  destruct (Rle_dec 0 x); [|contradiction].
  now apply Zfloor_eq.
Qed.

(** ** Bilinear interpolation *)

(** The entry [m[r][c]] of a matrix, for statements ([0] outside). *)
Definition entry (m : Matrix) (r c : Z) : R :=
  nth (Z.to_nat c) (nth (Z.to_nat r) m []) 0.

(** [m] has [n] rows of [n] entries each. *)
Definition square (n : Z) (m : Matrix) : Prop :=
  Go.len m = n /\ Forall (fun row => Go.len row = n) m.

Lemma at2_entry (n : Z) (m : Matrix) (r c : Z) :
  square n m -> (0 <= r < n)%Z -> (0 <= c < n)%Z ->
  at2 m r c = Some (entry m r c).
Proof.
  intros [Hlen Hrows] Hr Hc. unfold at2, entry, Go.len in *.
  assert (Hr' : (Z.to_nat r < length m)%nat) by lia.
  replace r with (Z.of_nat (Z.to_nat r)) at 1 by lia.
  rewrite (index_nth m _ []) by exact Hr'. cbn [Go.bind].
  assert (Hrow : Z.of_nat (length (nth (Z.to_nat r) m [])) = n).
  { rewrite Forall_forall in Hrows. apply Hrows. now apply nth_In. }
  replace c with (Z.of_nat (Z.to_nat c)) at 1 by lia.
  apply index_nth. lia.
Qed.

Section Interpolate.

Variables (n : Z) (m : Matrix).
Hypothesis Hsq : square n m.
Hypothesis Hn : (2 <= n)%Z.

(** What [interpolate] computes once the query is known to lie inside
    the clamp bounds. *)
Lemma interpolate_inside (x y : R) (x0 y0 : Z) :
  0 <= x < IZR (n - 1) -> 0 <= y < IZR (n - 1) ->
  IZR x0 <= x < IZR x0 + 1 -> IZR y0 <= y < IZR y0 + 1 ->
  interpolate m x y =
    Some ((entry m y0 x0 * (1 - (x - IZR x0)) + entry m y0 (x0 + 1) * (x - IZR x0))
            * (1 - (y - IZR y0))
          + (entry m (y0 + 1) x0 * (1 - (x - IZR x0))
             + entry m (y0 + 1) (x0 + 1) * (x - IZR x0))
            * (y - IZR y0)).
Proof.
  intros Hx Hy Hx0 Hy0.
  assert (Hx0n : (0 <= x0 < n - 1)%Z).
  { split.
    - apply Z.lt_succ_r. apply lt_IZR. rewrite succ_IZR. lra.
    - apply lt_IZR. lra. }
  assert (Hy0n : (0 <= y0 < n - 1)%Z).
  { split.
    - apply Z.lt_succ_r. apply lt_IZR. rewrite succ_IZR. lra.
    - apply lt_IZR. lra. }
  unfold interpolate.
  destruct Hsq as [Hlen Hrows]. rewrite Hlen.
  destruct (Z.eqb_spec n 0); [lia|].
  destruct (Rlt_dec x 0); [lra|].
  destruct (Rlt_dec y 0); [lra|].
  unfold Go.float64.
  destruct (Rge_dec x (IZR (n - 1))); [lra|].
  destruct (Rge_dec y (IZR (n - 1))); [lra|].
  rewrite (int_of_float_floor x x0) by lra.
  rewrite (int_of_float_floor y y0) by lra.
  rewrite !(at2_entry n) by (try exact Hsq; lia).
  reflexivity.
Qed.

(** At an integer query strictly below the clamp bound the four weights
    are 1, 0, 0, 0. *)
Lemma interpolate_grid_point (x y : Z) :
  (0 <= x <= n - 2)%Z -> (0 <= y <= n - 2)%Z ->
  interpolate m (IZR x) (IZR y) = Some (entry m y x).
Proof.
  intros Hx Hy.
  rewrite (interpolate_inside (IZR x) (IZR y) x y).
  - f_equal. ring.
  - split; [apply IZR_le | apply IZR_lt]; lia.
  - split; [apply IZR_le | apply IZR_lt]; lia.
  - lra.
  - lra.
Qed.

(** A query on the last column is moved to [n - 1 - 1e-9]; the result
    mixes the last two columns. *)
Lemma interpolate_last_column (y : Z) :
  (0 <= y <= n - 2)%Z ->
  interpolate m (IZR (n - 1)) (IZR y) =
    Some (entry m y (n - 2) * 1e-9 + entry m y (n - 1) * (1 - 1e-9)).
Proof.
  intros Hy.
  unfold interpolate.
  destruct Hsq as [Hlen Hrows]. rewrite Hlen.
  destruct (Z.eqb_spec n 0); [lia|].
  assert (Hn1 : 1 <= IZR (n - 1)) by (apply IZR_le; lia).
  assert (Hy0 : 0 <= IZR y) by (apply IZR_le; lia).
  assert (Hy1 : IZR y < IZR (n - 1)) by (apply IZR_lt; lia).
  destruct (Rlt_dec (IZR (n - 1)) 0); [lra|].
  destruct (Rlt_dec (IZR y) 0); [lra|].
  unfold Go.float64.
  destruct (Rge_dec (IZR (n - 1)) (IZR (n - 1))); [|lra].
  destruct (Rge_dec (IZR y) (IZR (n - 1))); [lra|].
  rewrite (int_of_float_floor (IZR (n - 1) - 1e-9) (n - 2)).
  2: lra.
  2: { replace (n - 1)%Z with (n - 2 + 1)%Z by lia. rewrite plus_IZR. lra. }
  rewrite int_of_float_IZR.
  replace (n - 2 + 1)%Z with (n - 1)%Z by lia.
  rewrite !(at2_entry n) by (try exact (conj Hlen Hrows); lia).
  cbn [Go.bind]. f_equal.
  replace (IZR (n - 1)) with (IZR (n - 2) + 1).
  2: { replace (n - 1)%Z with (n - 2 + 1)%Z by lia. now rewrite plus_IZR. }
  ring.
Qed.

End Interpolate.

(** C7, as amended.  For every n x n real matrix with n >= 2 and all
    integers x, y with 0 <= x <= n-2 and 0 <= y <= n-2 (the integer grid
    points strictly below the clamp bound n-1), [interpolate] (in package
    main and in package lightcurve) returns the entry M[y][x] exactly. *)
Theorem interpolate_integer_exact (n : Z) (m : Matrix) (x y : Z) :
  square n m -> (2 <= n)%Z ->
  (0 <= x <= n - 2)%Z -> (0 <= y <= n - 2)%Z ->
  at2 m y x = Some (entry m y x) /\
  interpolate m (IZR x) (IZR y) = Some (entry m y x) /\
  Lightcurve.interpolate m (IZR x) (IZR y) = Some (entry m y x).
Proof.
  intros Hsq Hn Hx Hy. split; [|split].
  - apply (at2_entry n); try assumption; lia.
  - now apply (interpolate_grid_point n).
  - exact (interpolate_grid_point n m Hsq Hn x y Hx Hy).
Qed.

Definition m2x2 : Matrix := [[0; 1]; [2; 3]].

Lemma square_m2x2 : square 2 m2x2.
Proof. split; [reflexivity | repeat constructor]. Qed.

Lemma interpolate_integer_exact_witness :
  at2 m2x2 0 0 = Some (entry m2x2 0 0) /\
  interpolate m2x2 (IZR 0) (IZR 0) = Some (entry m2x2 0 0) /\
  Lightcurve.interpolate m2x2 (IZR 0) (IZR 0) = Some (entry m2x2 0 0).
Proof.
  apply (interpolate_integer_exact 2 m2x2 0 0).
  - exact square_m2x2.
  - lia.
  - lia.
  - lia.
Defined.

(** C7 as first stated fails on the last column: on the 2 x 2 matrix
    [[0 1] [2 3]] the query (1, 0) is inside 0 <= x, y <= n-1, the entry
    M[0][1] is 1, and [interpolate] returns 1 - 1e-9. *)
Lemma interpolate_last_column_counterexample :
  square 2 m2x2 /\ (0 <= 1 <= 2 - 1)%Z /\ (0 <= 0 <= 2 - 1)%Z /\
  at2 m2x2 0 1 = Some 1 /\
  interpolate m2x2 (IZR 1) (IZR 0) = Some (1 - 1e-9) /\
  interpolate m2x2 (IZR 1) (IZR 0) <> at2 m2x2 0 1.
Proof.
  assert (H : interpolate m2x2 (IZR 1) (IZR 0) = Some (1 - 1e-9)).
  { change 1 with (IZR (2 - 1)) at 1.
    rewrite (interpolate_last_column 2 m2x2 square_m2x2) by lia.
    replace (entry m2x2 0 (2 - 2)) with 0 by reflexivity.
    replace (entry m2x2 0 (2 - 1)) with 1 by reflexivity.
    f_equal. lra. }
  split; [exact square_m2x2|].
  split; [lia|]. split; [lia|].
  split; [reflexivity|]. split; [exact H|].
  rewrite H. replace (at2 m2x2 0 1) with (Some 1) by reflexivity.
  intros Heq. injection Heq. lra.
Qed.

(** ** Slices and loops *)

Lemma len_tabulate {A : Type} (n : Z) (f : Z -> A) :
  (0 <= n)%Z -> Go.len (tabulate n f) = n.
Proof.
  intros Hn. unfold Go.len, tabulate. rewrite length_map, length_seq. lia.
Qed.

Lemma index_tabulate {A : Type} (n : Z) (f : Z -> A) (j : Z) :
  (0 <= j < n)%Z -> Go.index (tabulate n f) j = Some (f j).
Proof.
  intros Hj. unfold Go.index, tabulate.
  destruct (Z.ltb_spec j 0); [lia|].
  rewrite nth_error_map, nth_error_nth' with (d := O) by (rewrite length_seq; lia).
  rewrite seq_nth by lia. cbn. f_equal. f_equal. lia.
Qed.

Lemma index_range {A : Type} (s : list A) (j : Z) (v : A) :
  Go.index s j = Some v -> (0 <= j < Go.len s)%Z.
Proof.
  unfold Go.index, Go.len. destruct (Z.ltb_spec j 0); [discriminate|].
  intros Hv. assert (Hs : nth_error s (Z.to_nat j) <> None) by congruence.
  apply nth_error_Some in Hs. lia.
Qed.

Lemma index_in_range {A : Type} (s : list A) (j : Z) :
  (0 <= j < Go.len s)%Z -> exists v, Go.index s j = Some v.
Proof.
  unfold Go.index, Go.len. intros Hj.
  destruct (Z.ltb_spec j 0); [lia|].
  destruct (nth_error s (Z.to_nat j)) eqn:E; [eauto|].
  apply nth_error_None in E. lia.
Qed.

Lemma index_out_of_range {A : Type} (s : list A) (j : Z) :
  ~ (0 <= j < Go.len s)%Z -> Go.index s j = None.
Proof.
  intros Hj. destruct (Go.index s j) eqn:E; [|reflexivity].
  apply index_range in E. contradiction.
Qed.

(** Two slices with the same length and the same elements are equal. *)
Lemma index_ext {A : Type} (s1 s2 : list A) :
  Go.len s1 = Go.len s2 ->
  (forall j, (0 <= j < Go.len s1)%Z -> Go.index s1 j = Go.index s2 j) ->
  s1 = s2.
Proof.
  intros Hlen Hidx. apply nth_error_ext. intros k.
  destruct (Nat.lt_ge_cases k (length s1)) as [Hk | Hk].
  - specialize (Hidx (Z.of_nat k)). unfold Go.index, Go.len in Hidx.
    destruct (Z.ltb_spec (Z.of_nat k) 0); [lia|].
    rewrite Nat2Z.id in Hidx. apply Hidx. lia.
  - unfold Go.len in Hlen.
    rewrite (proj2 (nth_error_None s1 k)) by lia.
    rewrite (proj2 (nth_error_None s2 k)) by lia. reflexivity.
Qed.

Lemma set_nth_spec {A : Type} (s : list A) (n : nat) (v : A) :
  (n < length s)%nat ->
  exists s', Go.set_nth s n v = Some s' /\ length s' = length s /\
    forall j, nth_error s' j = if Nat.eqb j n then Some v else nth_error s j.
Proof.
  revert n. induction s as [|h t IH]; intros n Hn; [cbn in Hn; lia|].
  destruct n as [|n].
  - exists (v :: t). repeat split. intros [|j]; reflexivity.
  - cbn in Hn. destruct (IH n) as (t' & Ht' & Hlen & Hnth); [lia|].
    exists (h :: t'). cbn. rewrite Ht'. repeat split.
    + cbn. now rewrite Hlen.
    + intros [|j]; [reflexivity|]. cbn. apply Hnth.
Qed.

(** A store inside the bounds succeeds, keeps the length and changes
    exactly one element. *)
Lemma assign_spec {A : Type} (s : list A) (i : Z) (v : A) :
  (0 <= i < Go.len s)%Z ->
  exists s', Go.assign s i v = Some s' /\ Go.len s' = Go.len s /\
    forall j, Go.index s' j = if (j =? i)%Z then Some v else Go.index s j.
Proof.
  intros Hi. unfold Go.assign, Go.len in *.
  destruct (Z.ltb_spec i 0); [lia|].
  destruct (set_nth_spec s (Z.to_nat i) v) as (s' & Hs' & Hlen & Hnth); [lia|].
  exists s'. repeat split; [assumption | now rewrite Hlen |].
  intros j. unfold Go.index.
  destruct (Z.ltb_spec j 0).
  - destruct (Z.eqb_spec j i); [lia | reflexivity].
  - rewrite Hnth.
    destruct (Z.eqb_spec j i) as [-> | Hne].
    + now rewrite Nat.eqb_refl.
    + destruct (Nat.eqb_spec (Z.to_nat j) (Z.to_nat i)); [lia | reflexivity].
Qed.

Lemma set_nth_out_of_range {A : Type} (s : list A) (n : nat) (v : A) :
  (length s <= n)%nat -> Go.set_nth s n v = None.
Proof.
  revert n. induction s as [|h t IH]; intros n Hn; [reflexivity|].
  destruct n as [|n]; [cbn in Hn; lia|].
  cbn. rewrite IH; [reflexivity | cbn in Hn; lia].
Qed.

(** A store outside the bounds panics. *)
Lemma assign_out_of_range {A : Type} (s : list A) (i : Z) (v : A) :
  ~ (0 <= i < Go.len s)%Z -> Go.assign s i v = None.
Proof.
  intros Hi. unfold Go.assign, Go.len in *.
  destruct (Z.ltb_spec i 0); [reflexivity|].
  apply set_nth_out_of_range. lia.
Qed.

Lemma make_spec {A : Type} (zero : A) (n : Z) :
  (0 <= n)%Z -> Go.make zero n = Some (tabulate n (fun _ => zero)).
Proof.
  intros Hn. unfold Go.make. destruct (Z.ltb_spec n 0); [lia|].
  f_equal. unfold tabulate.
  induction (Z.to_nat n) as [|k IH]; [reflexivity|].
  cbn. rewrite <- seq_shift, map_map. now f_equal.
Qed.

(** The loop rule: an invariant that every iteration re-establishes
    holds at the exit, and the loop does not panic. *)
Lemma for_loop_opt_inv {St : Type} (Inv : Z -> St -> Prop)
    (body : Z -> St -> option St) (count : nat) (i0 : Z) (s : St) :
  Inv i0 s ->
  (forall i t, (i0 <= i < i0 + Z.of_nat count)%Z -> Inv i t ->
     exists t', body i t = Some t' /\ Inv (i + 1)%Z t') ->
  exists s', Go.for_loop_opt count i0 body s = Some s' /\
             Inv (i0 + Z.of_nat count)%Z s'.
Proof.
  revert i0 s. induction count as [|c IH]; intros i0 s H0 Hstep.
  - exists s. split; [reflexivity|]. now replace (i0 + Z.of_nat 0)%Z with i0 by lia.
  - destruct (Hstep i0 s) as (t' & Hb & Ht'); [lia | assumption |].
    destruct (IH (i0 + 1)%Z t') as (s' & Hs' & Hinv); [assumption | |].
    + intros i t Hi. apply Hstep. lia.
    + exists s'. cbn [Go.for_loop_opt]. rewrite Hb. split; [assumption|].
      now replace (i0 + Z.of_nat (S c))%Z with (i0 + 1 + Z.of_nat c)%Z by lia.
Qed.

Lemma for_upto_opt_inv {St : Type} (Inv : Z -> St -> Prop)
    (body : Z -> St -> option St) (n : Z) (s : St) :
  (0 <= n)%Z -> Inv 0%Z s ->
  (forall i t, (0 <= i < n)%Z -> Inv i t ->
     exists t', body i t = Some t' /\ Inv (i + 1)%Z t') ->
  exists s', Go.for_upto_opt n body s = Some s' /\ Inv n s'.
Proof.
  intros Hn H0 Hstep. unfold Go.for_upto_opt.
  destruct (for_loop_opt_inv Inv body (Z.to_nat n) 0%Z s) as (s' & Hs' & Hinv).
  - assumption.
  - intros i t Hi. apply Hstep. lia.
  - exists s'. split; [assumption|].
    now replace (0 + Z.of_nat (Z.to_nat n))%Z with n in Hinv by lia.
Qed.

(** [for i := 0; i < n; i++ { s[i] = f(i) }] on a slice of length [n]. *)
Lemma fill_loop {A : Type} (f : Z -> A) (n : Z) (s : list A) :
  Go.len s = n ->
  Go.for_upto_opt n (fun i s => Go.assign s i (f i)) s = Some (tabulate n f).
Proof.
  intros Hlen.
  assert (Hn : (0 <= n)%Z) by (unfold Go.len in Hlen; lia).
  destruct (for_upto_opt_inv
              (fun i t => Go.len t = n /\
                 forall j, (0 <= j < i)%Z -> Go.index t j = Some (f j))
              (fun i s => Go.assign s i (f i)) n s) as (s' & Hs' & Hl & Hidx).
  - assumption.
  - split; [assumption | intros; lia].
  - intros i t Hi [Hl Hidx].
    destruct (assign_spec t i (f i)) as (t' & Ht' & Hl' & Hidx'); [lia|].
    exists t'. repeat split; [assumption | congruence |].
    intros j Hj. rewrite Hidx'.
    destruct (Z.eqb_spec j i) as [-> | Hne]; [reflexivity | apply Hidx; lia].
  - rewrite Hs'. f_equal. apply index_ext.
    + now rewrite len_tabulate.
    + intros j Hj. rewrite Hidx, index_tabulate by lia. reflexivity.
Qed.

(** Two bodies that agree on the visited indices give the same loop. *)
Lemma for_upto_opt_ext {St : Type} (body1 body2 : Z -> St -> option St)
    (n : Z) (s : St) :
  (forall i t, (0 <= i < n)%Z -> body1 i t = body2 i t) ->
  Go.for_upto_opt n body1 s = Go.for_upto_opt n body2 s.
Proof.
  intros Hbody. unfold Go.for_upto_opt.
  assert (H : forall c i0 t, (0 <= i0)%Z -> (i0 + Z.of_nat c <= Z.max n 0)%Z ->
            Go.for_loop_opt c i0 body1 t = Go.for_loop_opt c i0 body2 t).
  { induction c as [|c IH]; intros i0 t Hi0 Hc; [reflexivity|].
    cbn [Go.for_loop_opt]. rewrite Hbody by lia.
    destruct (body2 i0 t); [|reflexivity].
    apply IH; lia. }
  apply H; lia.
Qed.

(** The fill loop when the body is a store of [f i] only inside the
    range that the loop visits. *)
Lemma fill_loop_ext {A : Type} (body : Z -> list A -> option (list A))
    (f : Z -> A) (n : Z) (s : list A) :
  (forall i t, (0 <= i < n)%Z -> body i t = Go.assign t i (f i)) ->
  Go.len s = n ->
  Go.for_upto_opt n body s = Some (tabulate n f).
Proof.
  intros Hbody Hlen. rewrite <- (fill_loop f n s Hlen).
  now apply for_upto_opt_ext.
Qed.

(** [m[r][c] = v] inside the bounds changes one element of one row. *)
Lemma assign2_spec {A : Type} (m : list (list A)) (r c : Z) (v : A)
    (row : list A) :
  Go.index m r = Some row -> (0 <= c < Go.len row)%Z ->
  exists row' m',
    assign2 m r c v = Some m' /\ Go.len m' = Go.len m /\
    Go.len row' = Go.len row /\
    (forall j, Go.index m' j = if (j =? r)%Z then Some row' else Go.index m j) /\
    (forall x, Go.index row' x = if (x =? c)%Z then Some v else Go.index row x).
Proof.
  intros Hrow Hc. unfold assign2. rewrite Hrow. cbn [Go.bind].
  destruct (assign_spec row c v Hc) as (row' & Hr' & Hl' & Hi').
  rewrite Hr'. cbn [Go.bind].
  destruct (assign_spec m r row') as (m' & Hm' & Hlm & Him).
  { now apply index_range in Hrow. }
  exists row', m'. repeat split; assumption.
Qed.

(** The inner loop [for c := range w { m[r][c] = f(c) }] rewrites row [r]
    and nothing else. *)
Lemma fill_row_loop {A : Type} (body : Z -> list (list A) -> option (list (list A)))
    (f : Z -> A) (w r : Z) (t : list (list A)) (row : list A) :
  (forall c u, (0 <= c < w)%Z -> body c u = assign2 u r c (f c)) ->
  Go.index t r = Some row -> Go.len row = w ->
  exists u, Go.for_upto_opt w body t = Some u /\ Go.len u = Go.len t /\
    Go.index u r = Some (tabulate w f) /\
    forall j, j <> r -> Go.index u j = Go.index t j.
Proof.
  intros Hbody Hrow Hlr.
  assert (Hw : (0 <= w)%Z) by (unfold Go.len in Hlr; lia).
  destruct (for_upto_opt_inv
    (fun c u => Go.len u = Go.len t /\
       (forall j, j <> r -> Go.index u j = Go.index t j) /\
       exists row', Go.index u r = Some row' /\ Go.len row' = w /\
         forall x, (0 <= x < c)%Z -> Go.index row' x = Some (f x))
    body w t) as (u & Hu & Hlu & Hother & row' & Hrow' & Hlr' & Hfill).
  - assumption.
  - split; [reflexivity|]. split; [reflexivity|].
    exists row. repeat split; [assumption | assumption | intros; lia].
  - intros c u Hc (Hlu & Hother & row' & Hrow' & Hlr' & Hfill).
    rewrite Hbody by lia.
    destruct (assign2_spec u r c (f c) row' Hrow') as
      (row'' & u' & Hu' & Hlu' & Hlr'' & Hiu & Hir); [lia|].
    exists u'. split; [assumption|].
    split; [congruence|]. split.
    + intros j Hj. rewrite Hiu.
      destruct (Z.eqb_spec j r); [contradiction | now apply Hother].
    + exists row''. split; [rewrite Hiu; now rewrite Z.eqb_refl|].
      split; [congruence|].
      intros x Hx. rewrite Hir.
      destruct (Z.eqb_spec x c); [congruence | apply Hfill; lia].
  - exists u. repeat split; try assumption.
    rewrite Hrow'. f_equal. apply index_ext.
    + now rewrite len_tabulate.
    + intros x Hx. rewrite Hfill, index_tabulate by lia. reflexivity.
Qed.

(** The nested fill loop
    [for r := range h { for c := range w { m[r][c] = f(r, c) } }]
    on an [h] x [w] grid. *)
Lemma fill2_loop {A : Type} (body : Z -> Z -> list (list A) -> option (list (list A)))
    (f : Z -> Z -> A) (h w : Z) (m : list (list A)) :
  (forall r c t, (0 <= r < h)%Z -> (0 <= c < w)%Z ->
     body r c t = assign2 t r c (f r c)) ->
  Go.len m = h -> (0 <= w)%Z ->
  (forall r, (0 <= r < h)%Z ->
     exists row, Go.index m r = Some row /\ Go.len row = w) ->
  Go.for_upto_opt h (fun r m => Go.for_upto_opt w (fun c m => body r c m) m) m =
    Some (tabulate h (fun r => tabulate w (f r))).
Proof.
  intros Hbody Hlen Hw Hrows.
  assert (Hh : (0 <= h)%Z) by (unfold Go.len in Hlen; lia).
  destruct (for_upto_opt_inv
    (fun r t => Go.len t = h /\
       (forall j, (0 <= j < r)%Z -> Go.index t j = Some (tabulate w (f j))) /\
       (forall j, (r <= j < h)%Z ->
          exists row, Go.index t j = Some row /\ Go.len row = w))
    (fun r m => Go.for_upto_opt w (fun c m => body r c m) m) h m)
    as (m' & Hm' & Hl & Hdone & _).
  - assumption.
  - repeat split; [assumption | intros; lia | intros; apply Hrows; lia].
  - intros r t Hr (Hl & Hdone & Htodo).
    destruct (Htodo r) as (row & Hrow & Hlr); [lia|].
    destruct (fill_row_loop (fun c m => body r c m) (f r) w r t row)
      as (u & Hu & Hlu & Hur & Hother); try assumption.
    { intros c u Hc. now apply Hbody. }
    exists u. split; [assumption|]. split; [congruence|]. split.
    + intros j Hj. destruct (Z.eq_dec j r) as [-> | Hne]; [assumption|].
      rewrite Hother by assumption. apply Hdone. lia.
    + intros j Hj. rewrite Hother by lia. apply Htodo. lia.
  - rewrite Hm'. f_equal. apply index_ext.
    + now rewrite len_tabulate.
    + intros j Hj. rewrite Hdone, index_tabulate by lia. reflexivity.
Qed.

(** ** The weight row (C1) *)

Lemma Linspace_spec (start end_ : R) (n : Z) :
  (2 <= n)%Z ->
  Linspace start end_ n =
    Some (tabulate n (fun i => start + IZR i * ((end_ - start) / IZR (n - 1)))).
Proof.
  intros Hn. unfold Linspace.
  destruct (Z.leb_spec n 1); [lia|].
  rewrite make_spec by lia. cbn [Go.bind].
  apply fill_loop. apply len_tabulate. lia.
Qed.

(** In exact arithmetic the step of [Linspace(-L/2, L/2-dx, N)] is [dx]. *)
Lemma Linspace_weights_grid (L : R) (N : Z) :
  (2 <= N)%Z ->
  Linspace (- L / 2) (L / 2 - L / IZR N) N =
    Some (tabulate N (fun m => - L / 2 + IZR m * (L / IZR N))).
Proof.
  intros HN. rewrite Linspace_spec by assumption. f_equal.
  assert (H1 : IZR N <> 0) by (apply not_0_IZR; lia).
  assert (H2 : IZR (N - 1) <> 0) by (apply not_0_IZR; lia).
  replace ((L / 2 - L / IZR N - - L / 2) / IZR (N - 1)) with (L / IZR N).
  - reflexivity.
  - rewrite minus_IZR in *. field. split; assumption.
Qed.

Section WeightRow.

Variable fresnelCephesScalar : R -> R * R.

Lemma fresnelWeightsTopRow_spec (N : Z) (L Z_ lambda : R) :
  (2 <= N)%Z ->
  fresnelWeightsTopRow fresnelCephesScalar N L Z_ lambda =
    Some (tabulate N (weight_row_spec fresnelCephesScalar N L Z_ lambda)).
Proof.
  intros HN. unfold fresnelWeightsTopRow.
  rewrite make_spec by lia. cbn [Go.bind].
  unfold Go.float64. rewrite Linspace_weights_grid by assumption.
  cbn [Go.bind]. rewrite len_tabulate by lia.
  apply fill_loop_ext; [|apply len_tabulate; lia].
  intros i t Hi.
  rewrite !index_tabulate by lia. cbn [Go.bind].
  unfold weight_row_spec.
  replace (PI * 2 / lambda) with (2 * PI / lambda) by (unfold Rdiv; ring).
  set (slide := - L / 2 + IZR i * (L / IZR N) - (- L / 2 + 0 * (L / IZR N))).
  destruct (fresnelCephesScalar _) as [S1 C1'].
  destruct (fresnelCephesScalar _) as [S2 C2'].
  f_equal. f_equal.
  unfold Csub, Cmul, complex, real, imag. cbn [fst snd].
  f_equal; ring.
Qed.

(** C1.  For N >= 10 and positive L, Z, lambda the weight-row builder
    returns a vector of length N whose entry m is
    t4 * exp(i * slide^2 * t5) * ((C2 - C1) - i (S2 - S1)), with the
    quantities dx, W, delta, k, x[m], slide, t1..t6, u1, u2 of the
    algorithm description; x is the array built by Linspace. *)
Theorem fresnelWeightsTopRow_matches_spec (N : Z) (L Z_ lambda : R) :
  (10 <= N)%Z -> 0 < L -> 0 < Z_ -> 0 < lambda ->
  exists w,
    fresnelWeightsTopRow fresnelCephesScalar N L Z_ lambda = Some w /\
    Go.len w = N /\
    Linspace (- L / 2) (L / 2 - L / IZR N) N =
      Some (tabulate N (fun m => - L / 2 + IZR m * (L / IZR N))) /\
    forall m, (0 <= m < N)%Z ->
      Go.index w m = Some (weight_row_spec fresnelCephesScalar N L Z_ lambda m).
Proof.
  intros HN _ _ _.
  exists (tabulate N (weight_row_spec fresnelCephesScalar N L Z_ lambda)).
  split; [apply fresnelWeightsTopRow_spec; lia|].
  split; [apply len_tabulate; lia|].
  split; [apply Linspace_weights_grid; lia|].
  intros m Hm. now apply index_tabulate.
Qed.

End WeightRow.

Lemma fresnelWeightsTopRow_matches_spec_witness :
  exists w,
    fresnelWeightsTopRow (fun _ => (0, 0)) 10 1 1 1 = Some w /\
    Go.len w = 10%Z /\
    Linspace (- 1 / 2) (1 / 2 - 1 / IZR 10) 10 =
      Some (tabulate 10 (fun m => - 1 / 2 + IZR m * (1 / IZR 10))) /\
    forall m, (0 <= m < 10)%Z ->
      Go.index w m = Some (weight_row_spec (fun _ => (0, 0)) 10 1 1 1 m).
Proof.
  apply (fresnelWeightsTopRow_matches_spec (fun _ => (0, 0)) 10 1 1 1).
  - lia.
  - lra.
  - lra.
  - lra.
Defined.

(** ** The weight matrix (C2) *)

Lemma AbsInt_abs (x : Z) : AbsInt x = Z.abs x.
Proof. unfold AbsInt. destruct (Z.ltb_spec x 0); lia. Qed.

Section WeightMatrix.

Variable fresnelCephesScalar : R -> R * R.

Lemma fresnelWeights_spec (N : Z) (L Z_ lambda : R) :
  (2 <= N)%Z ->
  fresnelWeights fresnelCephesScalar N L Z_ lambda =
    Some (tabulate N (fun row => tabulate N (fun col =>
            weight_row_spec fresnelCephesScalar N L Z_ lambda (Z.abs (col - row))))).
Proof.
  intros HN. unfold fresnelWeights.
  rewrite fresnelWeightsTopRow_spec by assumption. cbn [Go.bind].
  rewrite make_spec by lia. cbn [Go.bind].
  rewrite (fill_loop_ext _ (fun _ => tabulate N (fun _ => Czero))).
  2: { intros i t Hi. rewrite make_spec by lia. reflexivity. }
  2: { apply len_tabulate. lia. }
  cbn [Go.bind].
  apply (fill2_loop
           (fun row col ans =>
              do v <- Go.index
                        (tabulate N (weight_row_spec fresnelCephesScalar N L Z_ lambda))
                        (AbsInt (col - row));
              assign2 ans row col v)).
  - intros r c t Hr Hc. rewrite AbsInt_abs.
    rewrite index_tabulate by lia. reflexivity.
  - apply len_tabulate. lia.
  - lia.
  - intros r Hr. exists (tabulate N (fun _ => Czero)).
    split; [|apply len_tabulate; lia].
    now rewrite index_tabulate by lia.
Qed.

(** C2.  For N >= 10 and positive L, Z, lambda the matrix built by
    [fresnelWeights] from the top row w satisfies W[i,j] = w[|i-j|]
    exactly for all 0 <= i, j < N; hence W is symmetric and constant
    along every diagonal. *)
Theorem fresnelWeights_symmetric_toeplitz (N : Z) (L Z_ lambda : R) :
  (10 <= N)%Z -> 0 < L -> 0 < Z_ -> 0 < lambda ->
  exists w W,
    fresnelWeightsTopRow fresnelCephesScalar N L Z_ lambda = Some w /\
    fresnelWeights fresnelCephesScalar N L Z_ lambda = Some W /\
    (forall i j, (0 <= i < N)%Z -> (0 <= j < N)%Z ->
       exists v, at2 W i j = Some v /\ Go.index w (Z.abs (i - j)) = Some v) /\
    (forall i j, (0 <= i < N)%Z -> (0 <= j < N)%Z ->
       at2 W i j = at2 W j i) /\
    (forall i j, (0 <= i < N - 1)%Z -> (0 <= j < N - 1)%Z ->
       at2 W (i + 1) (j + 1) = at2 W i j).
Proof.
  intros HN _ _ _.
  set (w := weight_row_spec fresnelCephesScalar N L Z_ lambda).
  exists (tabulate N w),
         (tabulate N (fun row => tabulate N (fun col => w (Z.abs (col - row))))).
  split; [apply fresnelWeightsTopRow_spec; lia|].
  split; [apply fresnelWeights_spec; lia|].
  assert (Hat : forall i j, (0 <= i < N)%Z -> (0 <= j < N)%Z ->
            at2 (tabulate N (fun row => tabulate N (fun col => w (Z.abs (col - row)))))
                i j = Some (w (Z.abs (j - i)))).
  { intros i j Hi Hj. unfold at2.
    rewrite index_tabulate by lia. cbn [Go.bind].
    now rewrite index_tabulate by lia. }
  split; [|split].
  - intros i j Hi Hj. exists (w (Z.abs (i - j))). split.
    + rewrite Hat by lia. do 2 f_equal. lia.
    + apply index_tabulate. lia.
  - intros i j Hi Hj. rewrite !Hat by lia. do 2 f_equal. lia.
  - intros i j Hi Hj. rewrite !Hat by lia. do 2 f_equal. lia.
Qed.

End WeightMatrix.

Lemma fresnelWeights_symmetric_toeplitz_witness :
  exists w W,
    fresnelWeightsTopRow (fun _ => (0, 0)) 10 1 1 1 = Some w /\
    fresnelWeights (fun _ => (0, 0)) 10 1 1 1 = Some W /\
    (forall i j, (0 <= i < 10)%Z -> (0 <= j < 10)%Z ->
       exists v, at2 W i j = Some v /\ Go.index w (Z.abs (i - j)) = Some v) /\
    (forall i j, (0 <= i < 10)%Z -> (0 <= j < 10)%Z ->
       at2 W i j = at2 W j i) /\
    (forall i j, (0 <= i < 10 - 1)%Z -> (0 <= j < 10 - 1)%Z ->
       at2 W (i + 1) (j + 1) = at2 W i j).
Proof.
  apply (fresnelWeights_symmetric_toeplitz (fun _ => (0, 0)) 10 1 1 1).
  - lia.
  - lra.
  - lra.
  - lra.
Defined.

(** ** The chord sampler (C6) *)

Lemma for_loop_inv {St : Type} (Inv : Z -> St -> Prop)
    (body : Z -> St -> St) (count : nat) (i0 : Z) (s : St) :
  Inv i0 s ->
  (forall i t, (i0 <= i < i0 + Z.of_nat count)%Z -> Inv i t -> Inv (i + 1)%Z (body i t)) ->
  Inv (i0 + Z.of_nat count)%Z (Go.for_loop count i0 body s).
Proof.
  revert i0 s. induction count as [|c IH]; intros i0 s H0 Hstep.
  - now replace (i0 + Z.of_nat 0)%Z with i0 by lia.
  - cbn [Go.for_loop].
    replace (i0 + Z.of_nat (S c))%Z with (i0 + 1 + Z.of_nat c)%Z by lia.
    apply IH.
    + apply Hstep; [lia | assumption].
    + intros i t Hi. apply Hstep. lia.
Qed.

Lemma for_upto_inv {St : Type} (Inv : Z -> St -> Prop)
    (body : Z -> St -> St) (n : Z) (s : St) :
  Inv 0%Z s ->
  (forall i t, (0 <= i < n)%Z -> Inv i t -> Inv (i + 1)%Z (body i t)) ->
  Inv (Z.max 0 n) (Go.for_upto n body s).
Proof.
  intros H0 Hstep. unfold Go.for_upto.
  replace (Z.max 0 n) with (0 + Z.of_nat (Z.to_nat n))%Z by lia.
  apply for_loop_inv; [assumption|].
  intros i t Hi. apply Hstep. lia.
Qed.

Lemma tabulate_succ {A : Type} (n : Z) (f : Z -> A) :
  (0 <= n)%Z -> tabulate (n + 1) f = tabulate n f ++ [f n].
Proof.
  intros Hn. unfold tabulate.
  replace (Z.to_nat (n + 1)) with (Z.to_nat n + 1)%nat by lia.
  rewrite seq_app, map_app. cbn. now rewrite Z2Nat.id by lia.
Qed.

Lemma tabulate_nonpos {A : Type} (n : Z) (f : Z -> A) :
  (n <= 0)%Z -> tabulate n f = [].
Proof.
  intros Hn. unfold tabulate. now replace (Z.to_nat n) with O by lia.
Qed.

(** The sample sequence of a chord in the words of the specification
    (section 4.8.3): for i = 0 .. round(Lpath) - 1 the sample
    (StartX + i Dx / Lpath, StartY + i Dy / Lpath, i). *)
Definition chord_samples (startX startY endX endY : R) : list (R * R * R) :=
  let Dx := endX - startX in
  let Dy := endY - startY in
  let Lpath := sqrt (Dx * Dx + Dy * Dy) in
  tabulate (Go.int_of_float (Go.Round Lpath))
    (fun i => (startX + IZR i * Dx / Lpath, startY + IZR i * Dy / Lpath, IZR i)).

Definition triple_of_point (pt : Lightcurve.PathPoint) : R * R * R :=
  (Lightcurve.X pt, Lightcurve.Y pt, Lightcurve.DistanceFromStart pt).

Lemma Round_nonneg (x : R) : 0 <= x -> Go.Round x = IZR (Zfloor (x + / 2)).
Proof.
  intros Hx. unfold Go.Round. destruct (Rle_dec 0 x); [reflexivity | contradiction].
Qed.

Lemma Zfloor_nonneg (x : R) : 0 <= x -> (0 <= Zfloor x)%Z.
Proof. intros Hx. apply Zfloor_lub. exact Hx. Qed.

Section ChordGeometry.

Variables sx sy ex ey : R.
Hypothesis Hdistinct : (sx, sy) <> (ex, ey).

Let Dx := ex - sx.
Let Dy := ey - sy.
Let Lpath := sqrt (Dx * Dx + Dy * Dy).

Lemma chord_sumsq_pos : 0 < Dx * Dx + Dy * Dy.
Proof.
  subst Dx Dy.
  destruct (Req_dec (ex - sx) 0) as [Hx | Hx].
  - destruct (Req_dec (ey - sy) 0) as [Hy | Hy].
    + exfalso. apply Hdistinct. f_equal; lra.
    + pose proof (Rsqr_pos_lt _ Hy) as H1. pose proof (Rle_0_sqr (ex - sx)) as H2.
      unfold Rsqr in *. lra.
  - pose proof (Rsqr_pos_lt _ Hx) as H1. pose proof (Rle_0_sqr (ey - sy)) as H2.
    unfold Rsqr in *. lra.
Qed.

Lemma chord_length_pos : 0 < Lpath.
Proof. apply sqrt_lt_R0. exact chord_sumsq_pos. Qed.

Lemma chord_length_sqr : Lpath * Lpath = Dx * Dx + Dy * Dy.
Proof. apply sqrt_sqrt. left. exact chord_sumsq_pos. Qed.

(** The distance that the code records for step k is k itself. *)
Lemma recorded_distance (k : R) :
  0 <= k ->
  sqrt (k * k * (Dx / Lpath) * (Dx / Lpath) + k * k * (Dy / Lpath) * (Dy / Lpath)) = k.
Proof.
  intros Hk. pose proof chord_length_pos as HL. pose proof chord_length_sqr as HLL.
  apply sqrt_lem_1; [|assumption|].
  - assert (0 <= k * k * (Dx / Lpath * (Dx / Lpath) + Dy / Lpath * (Dy / Lpath))); [|nra].
    apply Rmult_le_pos; nra.
  - replace (k * k * (Dx / Lpath) * (Dx / Lpath) + k * k * (Dy / Lpath) * (Dy / Lpath))
      with (k * k * ((Dx * Dx + Dy * Dy) / (Lpath * Lpath))) by (field; lra).
    rewrite <- HLL. field. lra.
Qed.

(** What one iteration of either sampler appends. *)
Lemma sampler_step (i : Z) :
  (0 <= i)%Z ->
  (sx + IZR i * (Dx / Lpath), sy + IZR i * (Dy / Lpath),
   sqrt (IZR i * IZR i * (Dx / Lpath) * (Dx / Lpath)
         + IZR i * IZR i * (Dy / Lpath) * (Dy / Lpath)))
  = (sx + IZR i * Dx / Lpath, sy + IZR i * Dy / Lpath, IZR i).
Proof.
  intros Hi. rewrite recorded_distance by (apply IZR_le; lia).
  unfold Rdiv. now rewrite !Rmult_assoc.
Qed.

Lemma chord_samples_unfold :
  chord_samples sx sy ex ey =
    tabulate (Go.int_of_float (Go.Round Lpath))
      (fun i => (sx + IZR i * Dx / Lpath, sy + IZR i * Dy / Lpath, IZR i)).
Proof. reflexivity. Qed.

Lemma chord_samples_len :
  IZR (Go.len (chord_samples sx sy ex ey)) = Go.Round Lpath.
Proof.
  rewrite chord_samples_unfold.
  pose proof chord_length_pos as HL.
  rewrite Round_nonneg by lra. rewrite int_of_float_IZR.
  rewrite len_tabulate; [reflexivity|].
  apply Zfloor_nonneg. lra.
Qed.

Lemma chord_samples_index (i : Z) :
  (0 <= i < Go.len (chord_samples sx sy ex ey))%Z ->
  Go.index (chord_samples sx sy ex ey) i =
    Some (sx + IZR i * Dx / Lpath, sy + IZR i * Dy / Lpath, IZR i).
Proof.
  intros Hi. rewrite chord_samples_unfold in *.
  assert (Hi' : (0 <= i < Go.int_of_float (Go.Round Lpath))%Z).
  { destruct (Z.le_gt_cases 0 (Go.int_of_float (Go.Round Lpath))) as [Hn | Hn].
    - rewrite len_tabulate in Hi by assumption. exact Hi.
    - rewrite tabulate_nonpos in Hi by lia. cbn in Hi. lia. }
  now rewrite index_tabulate by exact Hi'.
Qed.

(** Consecutive samples are one pixel apart, and the recorded distance
    increases strictly. *)
Lemma chord_samples_spacing (i : Z) (a b : R * R * R) :
  Go.index (chord_samples sx sy ex ey) i = Some a ->
  Go.index (chord_samples sx sy ex ey) (i + 1) = Some b ->
  sqrt ((fst (fst b) - fst (fst a)) * (fst (fst b) - fst (fst a))
        + (snd (fst b) - snd (fst a)) * (snd (fst b) - snd (fst a))) = 1 /\
  snd a < snd b.
Proof.
  intros Ha Hb.
  pose proof (index_range _ _ _ Ha) as Hia.
  pose proof (index_range _ _ _ Hb) as Hib.
  rewrite chord_samples_index in Ha by assumption.
  rewrite chord_samples_index in Hb by assumption.
  injection Ha as <-. injection Hb as <-. cbn [fst snd].
  pose proof chord_length_pos as HL. pose proof chord_length_sqr as HLL.
  rewrite plus_IZR. split; [|lra].
  apply sqrt_lem_1; [nra | lra |].
  replace (1 * 1) with ((Dx * Dx + Dy * Dy) / (Lpath * Lpath))
    by (rewrite <- HLL; field; lra).
  field. lra.
Qed.

End ChordGeometry.

Lemma ComputeSamplePoints_spec (p : Lightcurve.ObservationPath) :
  (Lightcurve.StartX p, Lightcurve.StartY p) <> (Lightcurve.EndX p, Lightcurve.EndY p) ->
  map triple_of_point (Lightcurve.SamplePoints (Lightcurve.ComputeSamplePoints p)) =
    chord_samples (Lightcurve.StartX p) (Lightcurve.StartY p)
                  (Lightcurve.EndX p) (Lightcurve.EndY p).
Proof.
  intros Hd. unfold Lightcurve.ComputeSamplePoints, chord_samples.
  set (Dx := Lightcurve.EndX p - Lightcurve.StartX p).
  set (Dy := Lightcurve.EndY p - Lightcurve.StartY p).
  set (Lp := sqrt (Dx * Dx + Dy * Dy)).
  set (n := Go.int_of_float (Go.Round Lp)).
  set (f := fun i : Z => (Lightcurve.StartX p + IZR i * Dx / Lp,
                          Lightcurve.StartY p + IZR i * Dy / Lp, IZR i)).
  match goal with
  | |- context [Go.for_upto n ?b ?s] =>
      pose proof (for_upto_inv
        (fun i q => Lightcurve.StartX q = Lightcurve.StartX p /\
                    Lightcurve.StartY q = Lightcurve.StartY p /\
                    map triple_of_point (Lightcurve.SamplePoints q) = tabulate i f)
        b n s) as H
  end.
  destruct H as (_ & _ & H).
  - repeat split.
  - intros i q Hi (HX & HY & Hpts). cbn. rewrite HX, HY.
    repeat split; try reflexivity.
    rewrite map_app, Hpts, tabulate_succ by lia. f_equal. cbn.
    unfold triple_of_point. cbn. unfold Go.float64.
    f_equal. apply (sampler_step _ _ _ _ Hd i). lia.
  - rewrite H. destruct (Z.le_gt_cases 0 n).
    + now rewrite Z.max_r by lia.
    + rewrite Z.max_l by lia. now rewrite (tabulate_nonpos n) by lia.
Qed.

Lemma computePathPoints_spec (e : OccultationEvent) :
  PathStart e <> PathEnd e ->
  PathSamplePoints (computePathPoints e) =
    PathSamplePoints e ++
    chord_samples (fst (PathStart e)) (snd (PathStart e))
                  (fst (PathEnd e)) (snd (PathEnd e)).
Proof.
  intros Hd.
  assert (Hd' : (fst (PathStart e), snd (PathStart e)) <>
                (fst (PathEnd e), snd (PathEnd e))).
  { now rewrite <- !surjective_pairing. }
  unfold computePathPoints, chord_samples.
  set (Dx := fst (PathEnd e) - fst (PathStart e)).
  set (Dy := snd (PathEnd e) - snd (PathStart e)).
  set (Lp := sqrt (Dx * Dx + Dy * Dy)).
  set (n := Go.int_of_float (Go.Round Lp)).
  set (f := fun i : Z => (fst (PathStart e) + IZR i * Dx / Lp,
                          snd (PathStart e) + IZR i * Dy / Lp, IZR i)).
  match goal with
  | |- context [Go.for_upto n ?b ?s] =>
      pose proof (for_upto_inv
        (fun i q => PathSamplePoints q = PathSamplePoints e ++ tabulate i f)
        b n s) as H
  end.
  cbv beta in H. rewrite H.
  - destruct (Z.le_gt_cases 0 n).
    + now rewrite Z.max_r by lia.
    + rewrite Z.max_l by lia. now rewrite (tabulate_nonpos n) by lia.
  - cbn. now rewrite app_nil_r.
  - intros i q Hi Hpts. cbn. rewrite Hpts, tabulate_succ by lia.
    rewrite <- app_assoc. do 3 f_equal. unfold Go.float64.
    apply (sampler_step _ _ _ _ Hd' i). lia.
Qed.

(** C6.  For a path with distinct start and end the sampler emits exactly
    round(Lpath) samples; sample i is
    (StartX + i Dx / Lpath, StartY + i Dy / Lpath) with recorded distance i;
    consecutive samples are one pixel apart and the recorded distance
    increases strictly.  Both samplers (lightcurve.ComputeSamplePoints and
    computePathPoints of package main, which appends to the samples already
    recorded in the event) produce this sequence. *)
Theorem sampler_emits_unit_spaced_samples (sx sy ex ey : R) :
  (sx, sy) <> (ex, ey) ->
  let Dx := ex - sx in
  let Dy := ey - sy in
  let Lpath := sqrt (Dx * Dx + Dy * Dy) in
  let pts := chord_samples sx sy ex ey in
  (forall p, Lightcurve.StartX p = sx -> Lightcurve.StartY p = sy ->
             Lightcurve.EndX p = ex -> Lightcurve.EndY p = ey ->
     map triple_of_point (Lightcurve.SamplePoints (Lightcurve.ComputeSamplePoints p)) = pts) /\
  (forall e, PathStart e = (sx, sy) -> PathEnd e = (ex, ey) ->
     PathSamplePoints (computePathPoints e) = PathSamplePoints e ++ pts) /\
  IZR (Go.len pts) = Go.Round Lpath /\
  (forall i, (0 <= i < Go.len pts)%Z ->
     Go.index pts i = Some (sx + IZR i * Dx / Lpath, sy + IZR i * Dy / Lpath, IZR i)) /\
  (forall i a b, Go.index pts i = Some a -> Go.index pts (i + 1) = Some b ->
     sqrt ((fst (fst b) - fst (fst a)) * (fst (fst b) - fst (fst a))
           + (snd (fst b) - snd (fst a)) * (snd (fst b) - snd (fst a))) = 1 /\
     snd a < snd b).
Proof.
  intros Hd Dx Dy Lpath pts. repeat split.
  - intros p <- <- <- <-. now apply ComputeSamplePoints_spec.
  - intros e Hs He. rewrite computePathPoints_spec by congruence.
    now rewrite Hs, He.
  - now apply chord_samples_len.
  - intros i Hi. now apply chord_samples_index.
  - eapply chord_samples_spacing; eassumption.
  - eapply chord_samples_spacing; eassumption.
Qed.

Lemma sampler_emits_unit_spaced_samples_witness :
  IZR (Go.len (chord_samples 0 0 3 4)) =
    Go.Round (sqrt ((3 - 0) * (3 - 0) + (4 - 0) * (4 - 0))).
Proof.
  assert (Hd : (0, 0) <> (3, 4)) by (intros H; injection H; lra).
  exact (proj1 (proj2 (proj2 (sampler_emits_unit_spaced_samples 0 0 3 4 Hd)))).
Defined.

(** ** Edge detection on the geometric shadow (C5) *)

(** The two packages carry the same interpolation routine. *)
Lemma Lightcurve_interpolate_eq : Lightcurve.interpolate = interpolate.
Proof. reflexivity. Qed.

(** On a square mask with at least two rows [interpolate] never panics. *)
Lemma interpolate_total (n : Z) (m : Matrix) (x y : R) :
  square n m -> (2 <= n)%Z -> exists v, interpolate m x y = Some v.
Proof.
  intros Hsq Hn. unfold interpolate.
  destruct Hsq as [Hlen Hrows]. rewrite Hlen.
  destruct (Z.eqb_spec n 0); [lia|].
  assert (Hn1 : 1 <= IZR (n - 1)) by (apply IZR_le; lia).
  unfold Go.float64.
  set (x1 := if Rlt_dec x 0 then 0 else x).
  set (x2 := if Rge_dec x1 (IZR (n - 1)) then IZR (n - 1) - 1e-9 else x1).
  set (y1 := if Rlt_dec y 0 then 0 else y).
  set (y2 := if Rge_dec y1 (IZR (n - 1)) then IZR (n - 1) - 1e-9 else y1).
  assert (Hx2 : 0 <= x2 < IZR (n - 1)).
  { subst x2 x1.
    destruct (Rlt_dec x 0);
      [destruct (Rge_dec 0 (IZR (n - 1))) | destruct (Rge_dec x (IZR (n - 1)))]; lra. }
  assert (Hy2 : 0 <= y2 < IZR (n - 1)).
  { subst y2 y1.
    destruct (Rlt_dec y 0);
      [destruct (Rge_dec 0 (IZR (n - 1))) | destruct (Rge_dec y (IZR (n - 1)))]; lra. }
  clearbody x2 y2. clear x1 y1.
  assert (Hfl : forall t, 0 <= t < IZR (n - 1) ->
            (0 <= Go.int_of_float t < n - 1)%Z).
  { intros t Ht. rewrite (int_of_float_floor t (Zfloor t)); [|lra|apply Zfloor_bound].
    split; [apply Zfloor_nonneg; lra|].
    apply lt_IZR. pose proof (Zfloor_bound t). lra. }
  pose proof (Hfl x2 Hx2) as Hx0. pose proof (Hfl y2 Hy2) as Hy0.
  rewrite !(at2_entry n) by (try exact (conj Hlen Hrows); lia).
  cbn [Go.bind]. eauto.
Qed.

(** On a mask without negative entries the interpolated value is never
    negative. *)
Lemma interpolate_nonneg (n : Z) (m : Matrix) (x y : R) :
  square n m -> (2 <= n)%Z ->
  (forall r c, (0 <= r < n)%Z -> (0 <= c < n)%Z -> 0 <= entry m r c) ->
  exists v, interpolate m x y = Some v /\ 0 <= v.
Proof.
  intros Hsq Hn Hbound. unfold interpolate.
  destruct Hsq as [Hlen Hrows]. rewrite Hlen.
  destruct (Z.eqb_spec n 0); [lia|].
  assert (Hn1 : 1 <= IZR (n - 1)) by (apply IZR_le; lia).
  unfold Go.float64.
  set (x1 := if Rlt_dec x 0 then 0 else x).
  set (x2 := if Rge_dec x1 (IZR (n - 1)) then IZR (n - 1) - 1e-9 else x1).
  set (y1 := if Rlt_dec y 0 then 0 else y).
  set (y2 := if Rge_dec y1 (IZR (n - 1)) then IZR (n - 1) - 1e-9 else y1).
  assert (Hx2 : 0 <= x2 < IZR (n - 1)).
  { subst x2 x1.
    destruct (Rlt_dec x 0);
      [destruct (Rge_dec 0 (IZR (n - 1))) | destruct (Rge_dec x (IZR (n - 1)))]; lra. }
  assert (Hy2 : 0 <= y2 < IZR (n - 1)).
  { subst y2 y1.
    destruct (Rlt_dec y 0);
      [destruct (Rge_dec 0 (IZR (n - 1))) | destruct (Rge_dec y (IZR (n - 1)))]; lra. }
  clearbody x2 y2. clear x1 y1.
  assert (Hfl : forall t, 0 <= t < IZR (n - 1) ->
            (0 <= Go.int_of_float t < n - 1)%Z /\
            0 <= t - IZR (Go.int_of_float t) < 1).
  { intros t Ht. rewrite (int_of_float_floor t (Zfloor t)); [|lra|apply Zfloor_bound].
    pose proof (Zfloor_bound t) as Hb. split; [|lra].
    split; [apply Zfloor_nonneg; lra|]. apply lt_IZR. lra. }
  destruct (Hfl x2 Hx2) as [Hx0 Hfx]. destruct (Hfl y2 Hy2) as [Hy0 Hfy].
  rewrite !(at2_entry n) by (try exact (conj Hlen Hrows); lia).
  cbn [Go.bind].
  set (x0 := Go.int_of_float x2) in *. set (y0 := Go.int_of_float y2) in *.
  set (fx := x2 - IZR x0) in *. set (fy := y2 - IZR y0) in *.
  pose proof (Hbound y0 x0 ltac:(lia) ltac:(lia)) as H00.
  pose proof (Hbound y0 (x0 + 1)%Z ltac:(lia) ltac:(lia)) as H01.
  pose proof (Hbound (y0 + 1)%Z x0 ltac:(lia) ltac:(lia)) as H10.
  pose proof (Hbound (y0 + 1)%Z (x0 + 1)%Z ltac:(lia) ltac:(lia)) as H11.
  set (v0 := entry m y0 x0 * (1 - fx) + entry m y0 (x0 + 1) * fx).
  set (v1 := entry m (y0 + 1) x0 * (1 - fx) + entry m (y0 + 1) (x0 + 1) * fx).
  assert (Hv0 : 0 <= v0) by (subst v0; nra).
  assert (Hv1 : 0 <= v1) by (subst v1; nra).
  eexists. split; [reflexivity | nra].
Qed.

(** The scan of the sample list that both edge finders perform. *)
Definition edge_scan (m : Matrix) (pts : list (R * R * R)) (st : list R * R)
    : option (list R * R) :=
  Go.for_each_opt pts
    (fun pt st => Lightcurve.edge_step m (fst (fst pt)) (snd (fst pt)) (snd pt) st) st.

Lemma for_each_opt_map {A B St : Type} (g : A -> B) (xs : list A)
    (body : B -> St -> option St) (s : St) :
  Go.for_each_opt (map g xs) body s = Go.for_each_opt xs (fun x => body (g x)) s.
Proof.
  revert s. induction xs as [|x rest IH]; intros s; [reflexivity|].
  cbn. destruct (body (g x) s); [apply IH | reflexivity].
Qed.

(** A loop over the indices of a slice that starts by reading the element
    is the loop over its elements. *)
Lemma for_upto_opt_index {A St : Type} (xs : list A)
    (body : A -> St -> option St) (s : St) :
  Go.for_upto_opt (Go.len xs) (fun i s => do x <- Go.index xs i; body x s) s =
  Go.for_each_opt xs body s.
Proof.
  unfold Go.for_upto_opt, Go.len. rewrite Nat2Z.id.
  assert (H : forall l2 l1 t, xs = l1 ++ l2 ->
            Go.for_loop_opt (length l2) (Z.of_nat (length l1))
              (fun i s => do x <- Go.index xs i; body x s) t =
            Go.for_each_opt l2 body t).
  { induction l2 as [|x rest IH]; intros l1 t Hxs; [reflexivity|].
    cbn [Go.for_loop_opt length Go.for_each_opt].
    assert (Hx : Go.index xs (Z.of_nat (length l1)) = Some x).
    { unfold Go.index. destruct (Z.ltb_spec (Z.of_nat (length l1)) 0); [lia|].
      rewrite Nat2Z.id, Hxs, nth_error_app2, Nat.sub_diag by lia. reflexivity. }
    rewrite Hx. cbn [Go.bind]. destruct (body x t) as [t'|]; [|reflexivity].
    replace (Z.of_nat (length l1) + 1)%Z with (Z.of_nat (length (l1 ++ [x])))
      by (rewrite length_app; cbn; lia).
    apply IH. now rewrite <- app_assoc. }
  apply (H xs [] s). reflexivity.
Qed.

Lemma FindEdges_main_scan (e : OccultationEvent) :
  FindEdgesInGeometricShadow e =
    do st <- edge_scan (GeometricMatrix e) (PathSamplePoints e) ([], 1); Some (fst st).
Proof.
  unfold FindEdgesInGeometricShadow, edge_scan.
  rewrite <- for_upto_opt_index. f_equal.
  apply for_upto_opt_ext. intros i [ans color] Hi. reflexivity.
Qed.

Lemma FindEdges_lightcurve_scan (m : Matrix) (path : Lightcurve.ObservationPath) :
  Lightcurve.FindEdgesInGeometricShadow m path =
    let path' := if (Go.len (Lightcurve.SamplePoints path) =? 0)%Z
                 then Lightcurve.ComputeSamplePoints path else path in
    do st <- edge_scan m (map triple_of_point (Lightcurve.SamplePoints path')) ([], 1);
    Some (fst st, path').
Proof.
  unfold Lightcurve.FindEdgesInGeometricShadow, edge_scan. cbv zeta.
  now rewrite for_each_opt_map.
Qed.

Lemma edge_scan_app (m : Matrix) (a b : list (R * R * R)) (st : list R * R) :
  edge_scan m (a ++ b) st = do st' <- edge_scan m a st; edge_scan m b st'.
Proof.
  unfold edge_scan. revert st. induction a as [|pt a IH]; intros st; [reflexivity|].
  cbn [app Go.for_each_opt].
  destruct (Lightcurve.edge_step _ _ _ _ _); [apply IH | reflexivity].
Qed.

(** The interpolated mask value at a sample. *)
Definition mask_at (m : Matrix) (pt : R * R * R) : option R :=
  interpolate m (fst (fst pt)) (snd (fst pt)).

(** A sample is lit when the interpolated mask is positive there, and
    dark when it is exactly zero. *)
Definition lit (m : Matrix) (pt : R * R * R) : Prop :=
  exists v, mask_at m pt = Some v /\ 0 < v.
Definition dark (m : Matrix) (pt : R * R * R) : Prop :=
  mask_at m pt = Some 0.

Lemma edge_step_lit_1 m pt acc :
  lit m pt ->
  Lightcurve.edge_step m (fst (fst pt)) (snd (fst pt)) (snd pt) (acc, 1) =
    Some (acc ++ [snd pt], 1 - 1).
Proof.
  intros (v & Hv & Hpos). unfold Lightcurve.edge_step.
  rewrite Lightcurve_interpolate_eq. unfold mask_at in Hv. rewrite Hv. cbn [Go.bind].
  destruct (Rgt_dec v 0); [|lra].
  destruct (Req_dec_T 1 1); [reflexivity | contradiction].
Qed.

Lemma edge_step_lit_0 m pt acc :
  lit m pt ->
  Lightcurve.edge_step m (fst (fst pt)) (snd (fst pt)) (snd pt) (acc, 0) = Some (acc, 0).
Proof.
  intros (v & Hv & Hpos). unfold Lightcurve.edge_step.
  rewrite Lightcurve_interpolate_eq. unfold mask_at in Hv. rewrite Hv. cbn [Go.bind].
  destruct (Rgt_dec v 0); [|lra].
  destruct (Req_dec_T 1 0); [lra | reflexivity].
Qed.

Lemma edge_step_dark_0 m pt acc :
  dark m pt ->
  Lightcurve.edge_step m (fst (fst pt)) (snd (fst pt)) (snd pt) (acc, 0) =
    Some (acc ++ [snd pt], 1 - 0).
Proof.
  intros Hv. unfold Lightcurve.edge_step.
  rewrite Lightcurve_interpolate_eq. unfold dark, mask_at in Hv. rewrite Hv. cbn [Go.bind].
  destruct (Rgt_dec 0 0); [lra|].
  destruct (Req_dec_T 0 0); [reflexivity | contradiction].
Qed.

Lemma edge_step_dark_1 m pt acc :
  dark m pt ->
  Lightcurve.edge_step m (fst (fst pt)) (snd (fst pt)) (snd pt) (acc, 1) = Some (acc, 1).
Proof.
  intros Hv. unfold Lightcurve.edge_step.
  rewrite Lightcurve_interpolate_eq. unfold dark, mask_at in Hv. rewrite Hv. cbn [Go.bind].
  destruct (Rgt_dec 0 0); [lra|].
  destruct (Req_dec_T 0 1); [lra | reflexivity].
Qed.

(** While the scan waits for a lit sample, dark samples change nothing;
    while it waits for a dark sample, lit samples change nothing. *)
Lemma edge_scan_dark_1 m pts acc :
  Forall (dark m) pts -> edge_scan m pts (acc, 1) = Some (acc, 1).
Proof.
  induction 1 as [|pt pts Hpt _ IH]; [reflexivity|].
  unfold edge_scan in *. cbn [Go.for_each_opt].
  now rewrite edge_step_dark_1.
Qed.

Lemma edge_scan_lit_0 m pts acc :
  Forall (lit m) pts -> edge_scan m pts (acc, 0) = Some (acc, 0).
Proof.
  induction 1 as [|pt pts Hpt _ IH]; [reflexivity|].
  unfold edge_scan in *. cbn [Go.for_each_opt].
  now rewrite edge_step_lit_0.
Qed.

(** A run of lit samples met while waiting for one records its first
    sample, and symmetrically for a run of dark samples. *)
Lemma edge_scan_lit_1 m pt pts acc :
  Forall (lit m) (pt :: pts) ->
  edge_scan m (pt :: pts) (acc, 1) = Some (acc ++ [snd pt], 0).
Proof.
  intros H. inversion H as [|? ? Hpt Hpts]; subst.
  unfold edge_scan. cbn [Go.for_each_opt].
  rewrite edge_step_lit_1 by assumption.
  replace (1 - 1) with 0 by lra. now apply edge_scan_lit_0.
Qed.

Lemma edge_scan_dark_0 m pt pts acc :
  Forall (dark m) (pt :: pts) ->
  edge_scan m (pt :: pts) (acc, 0) = Some (acc ++ [snd pt], 1).
Proof.
  intros H. inversion H as [|? ? Hpt Hpts]; subst.
  unfold edge_scan. cbn [Go.for_each_opt].
  rewrite edge_step_dark_0 by assumption.
  replace (1 - 0) with 1 by lra. now apply edge_scan_dark_1.
Qed.

(** One step either leaves the state alone or records the sample's
    distance and toggles the colour. *)
Lemma edge_step_cases m x y d acc t st' :
  Lightcurve.edge_step m x y d (acc, t) = Some st' ->
  st' = (acc, t) \/ st' = (acc ++ [d], 1 - t).
Proof.
  unfold Lightcurve.edge_step.
  destruct (Lightcurve.interpolate m x y) as [v|]; [|discriminate].
  cbn [Go.bind]. destruct (Req_dec_T _ t); intros H; injection H as <-; auto.
Qed.

Lemma edge_step_total n m x y d st :
  square n m -> (2 <= n)%Z -> exists st', Lightcurve.edge_step m x y d st = Some st'.
Proof.
  intros Hsq Hn. destruct st as [acc t]. unfold Lightcurve.edge_step.
  rewrite Lightcurve_interpolate_eq.
  destruct (interpolate_total n m x y Hsq Hn) as [v ->]. cbn [Go.bind].
  destruct (Req_dec_T _ t); eauto.
Qed.

Lemma edge_scan_total n m pts st :
  square n m -> (2 <= n)%Z -> exists st', edge_scan m pts st = Some st'.
Proof.
  intros Hsq Hn. revert st. unfold edge_scan.
  induction pts as [|pt pts IH]; intros st; [cbn; eauto|].
  cbn [Go.for_each_opt].
  destruct (edge_step_total n m (fst (fst pt)) (snd (fst pt)) (snd pt) st Hsq Hn)
    as [st' ->].
  apply IH.
Qed.

(** The recorded edges are distances of samples, in the order of the
    samples. *)
Lemma edge_scan_picks m pts acc t edges t' :
  edge_scan m pts (acc, t) = Some (edges, t') ->
  exists picked, edges = acc ++ picked /\
    Forall (fun d => In d (map snd pts)) picked /\
    (StronglySorted Rle (map snd pts) -> StronglySorted Rle picked).
Proof.
  unfold edge_scan. revert acc t.
  induction pts as [|pt pts IH]; intros acc t Hscan.
  - cbn in Hscan. injection Hscan as <- <-. exists []. rewrite app_nil_r.
    repeat split; constructor.
  - cbn [Go.for_each_opt] in Hscan.
    destruct (Lightcurve.edge_step m _ _ _ _) as [[acc1 t1]|] eqn:Hstep; [|discriminate].
    apply edge_step_cases in Hstep.
    destruct (IH _ _ Hscan) as (picked & Hedges & Hin & Hsorted).
    assert (Hin' : Forall (fun d => In d (map snd (pt :: pts))) picked).
    { eapply Forall_impl; [|exact Hin]. intros d Hd. now right. }
    destruct Hstep as [Heq | Heq]; injection Heq as -> ->.
    + exists picked. repeat split; try assumption.
      intros Hs. apply Hsorted. cbn in Hs. now apply StronglySorted_inv in Hs.
    + exists (snd pt :: picked). rewrite Hedges, <- app_assoc. repeat split.
      * constructor; [now left | assumption].
      * intros Hs. cbn in Hs. apply StronglySorted_inv in Hs as [Hs Hle].
        constructor; [now apply Hsorted|].
        rewrite Forall_forall in *. intros d Hd. apply Hle. now apply Hin.
Qed.

(** *** The edges that the scan reports and the edges of the documentation *)

(** The colour of a sample: whether the interpolated mask is positive
    there. *)
Definition is_lit (m : Matrix) (pt : R * R * R) : bool :=
  match mask_at m pt with
  | Some v => if Rgt_dec v 0 then true else false
  | None => false
  end.

(** The distances of the samples whose colour differs from the colour of
    the sample before; [prev] is the colour before the first sample of
    [pts]. *)
Fixpoint colour_changes (m : Matrix) (prev : bool) (pts : list (R * R * R)) : list R :=
  match pts with
  | [] => []
  | pt :: rest =>
      if Bool.eqb (is_lit m pt) prev then colour_changes m prev rest
      else snd pt :: colour_changes m (is_lit m pt) rest
  end.

(** The edges in the words of the finder's documentation, "an edge is
    detected when the interpolated value transitions between 0 and 1":
    the first sample has no sample before it and is no transition. *)
Definition documented_edges (m : Matrix) (pts : list (R * R * R)) : list R :=
  match pts with
  | [] => []
  | pt :: rest => colour_changes m (is_lit m pt) rest
  end.

(** The distance of the first sample when that sample is lit, and nothing
    otherwise. *)
Definition first_sample_edge (m : Matrix) (pts : list (R * R * R)) : list R :=
  match pts with
  | [] => []
  | pt :: _ => if is_lit m pt then [snd pt] else []
  end.

(** The colour the scan waits for, given the colour of the sample before. *)
Definition target_of (prev : bool) : R := if prev then 0 else 1.

Lemma lit_is_lit m pt : lit m pt -> is_lit m pt = true.
Proof.
  intros (v & Hv & Hpos). unfold is_lit. rewrite Hv.
  destruct (Rgt_dec v 0); [reflexivity | lra].
Qed.

Lemma dark_is_lit m pt : dark m pt -> is_lit m pt = false.
Proof.
  intros Hv. unfold is_lit. unfold dark in Hv. rewrite Hv.
  destruct (Rgt_dec 0 0); [lra | reflexivity].
Qed.

(** On a mask without negative entries every sample is lit or dark. *)
Lemma sample_colour n m pt :
  square n m -> (2 <= n)%Z ->
  (forall r c, (0 <= r < n)%Z -> (0 <= c < n)%Z -> 0 <= entry m r c) ->
  (lit m pt /\ is_lit m pt = true) \/ (dark m pt /\ is_lit m pt = false).
Proof.
  intros Hsq Hn Hpos.
  destruct (interpolate_nonneg n m (fst (fst pt)) (snd (fst pt)) Hsq Hn Hpos)
    as (v & Hv & Hv0).
  destruct (Rle_lt_or_eq_dec 0 v Hv0) as [Hlt | Heq].
  - left. assert (Hl : lit m pt) by (exists v; split; [exact Hv | exact Hlt]).
    split; [exact Hl | now apply lit_is_lit].
  - right. assert (Hd : dark m pt) by (unfold dark, mask_at; now rewrite Heq).
    split; [exact Hd | now apply dark_is_lit].
Qed.

(** The scan records exactly the colour changes, the colour before the
    first sample being the opposite of the colour it waits for. *)
Lemma edge_scan_colour_changes n m pts :
  square n m -> (2 <= n)%Z ->
  (forall r c, (0 <= r < n)%Z -> (0 <= c < n)%Z -> 0 <= entry m r c) ->
  forall prev acc, exists prev',
    edge_scan m pts (acc, target_of prev) =
      Some (acc ++ colour_changes m prev pts, target_of prev').
Proof.
  intros Hsq Hn Hpos. induction pts as [|pt pts IH]; intros prev acc.
  - exists prev. cbn. now rewrite app_nil_r.
  - unfold edge_scan in *. cbn [Go.for_each_opt colour_changes].
    destruct (sample_colour n m pt Hsq Hn Hpos) as [[Hl ->] | [Hd ->]];
      destruct prev; cbn [target_of Bool.eqb].
    + rewrite edge_step_lit_0 by assumption. apply (IH true acc).
    + rewrite edge_step_lit_1 by assumption.
      replace (1 - 1) with (target_of true) by (cbn; lra).
      destruct (IH true (acc ++ [snd pt])) as [prev' ->]. exists prev'.
      now rewrite <- app_assoc.
    + rewrite edge_step_dark_0 by assumption.
      replace (1 - 0) with (target_of false) by (cbn; lra).
      destruct (IH false (acc ++ [snd pt])) as [prev' ->]. exists prev'.
      now rewrite <- app_assoc.
    + rewrite edge_step_dark_1 by assumption. apply (IH false acc).
Qed.

(** Both finders start by waiting for a lit sample, as if a dark sample
    came before the path. *)
Lemma FindEdges_main_colour_changes n m e :
  square n m -> (2 <= n)%Z ->
  (forall r c, (0 <= r < n)%Z -> (0 <= c < n)%Z -> 0 <= entry m r c) ->
  GeometricMatrix e = m ->
  FindEdgesInGeometricShadow e = Some (colour_changes m false (PathSamplePoints e)).
Proof.
  intros Hsq Hn Hpos <-. rewrite FindEdges_main_scan.
  destruct (edge_scan_colour_changes n _ (PathSamplePoints e) Hsq Hn Hpos false [])
    as [prev' H].
  cbn [target_of] in H. rewrite H. reflexivity.
Qed.

Lemma FindEdges_lightcurve_colour_changes n m path :
  square n m -> (2 <= n)%Z ->
  (forall r c, (0 <= r < n)%Z -> (0 <= c < n)%Z -> 0 <= entry m r c) ->
  Lightcurve.FindEdgesInGeometricShadow m path =
    let path' := if (Go.len (Lightcurve.SamplePoints path) =? 0)%Z
                 then Lightcurve.ComputeSamplePoints path else path in
    Some (colour_changes m false (map triple_of_point (Lightcurve.SamplePoints path')),
          path').
Proof.
  intros Hsq Hn Hpos. rewrite FindEdges_lightcurve_scan. cbv zeta.
  match goal with
  | |- context [edge_scan m ?pts _] =>
      destruct (edge_scan_colour_changes n m pts Hsq Hn Hpos false []) as [prev' H]
  end.
  cbn [target_of] in H. rewrite H. reflexivity.
Qed.

(** The colour changes counted from a dark start are the documented edges,
    preceded by the first sample when it is lit. *)
Lemma colour_changes_first m pts :
  colour_changes m false pts = first_sample_edge m pts ++ documented_edges m pts.
Proof.
  destruct pts as [|pt pts]; [reflexivity|].
  cbn [colour_changes first_sample_edge documented_edges].
  destruct (is_lit m pt); reflexivity.
Qed.

(** The colour changes are distances of samples, in the order of the
    samples. *)
Lemma colour_changes_sorted m pts :
  StronglySorted Rle (map snd pts) ->
  forall prev,
    StronglySorted Rle (colour_changes m prev pts) /\
    Forall (fun d => In d (map snd pts)) (colour_changes m prev pts).
Proof.
  induction pts as [|pt pts IH]; intros Hs prev; [split; constructor|].
  cbn [map] in Hs. apply StronglySorted_inv in Hs as [Hs Hle].
  cbn [colour_changes].
  assert (Hstep : forall p, Forall (fun d => In d (map snd (pt :: pts)))
                              (colour_changes m p pts)).
  { intros p. destruct (IH Hs p) as [_ Hin].
    eapply Forall_impl; [|exact Hin]. intros d Hd. now right. }
  destruct (Bool.eqb (is_lit m pt) prev).
  - split; [now apply IH | apply Hstep].
  - split.
    + constructor; [now apply IH|].
      destruct (IH Hs (is_lit m pt)) as [_ Hin].
      rewrite Forall_forall in *. intros d Hd. apply Hle. now apply Hin.
    + constructor; [now left | apply Hstep].
Qed.

(** The number of colour changes is odd exactly when the last sample has
    not the colour that came before the first one. *)
Lemma colour_changes_parity m pts :
  forall prev last,
    Nat.odd (length (colour_changes m prev (pts ++ [last]))) = xorb prev (is_lit m last).
Proof.
  induction pts as [|pt pts IH]; intros prev last.
  - cbn [app colour_changes]. destruct (is_lit m last), prev; reflexivity.
  - cbn [app colour_changes].
    destruct (Bool.eqb (is_lit m pt) prev) eqn:Heq.
    + apply IH.
    + cbn [length]. rewrite Nat.odd_succ, <- Nat.negb_odd, IH.
      destruct (is_lit m pt), prev, (is_lit m last); try reflexivity; discriminate Heq.
Qed.

(** The distances recorded by the sampler are non-decreasing. *)
Lemma tabulate_sorted (n : Z) (f : Z -> R) :
  (forall i j, (0 <= i <= j)%Z -> f i <= f j) ->
  StronglySorted Rle (tabulate n f).
Proof.
  intros Hmono. unfold tabulate.
  assert (H : forall len start,
            StronglySorted Rle (map (fun k => f (Z.of_nat k)) (seq start len))).
  { induction len as [|len IH]; intros start; [constructor|].
    cbn. constructor; [apply IH|].
    apply Forall_forall. intros d Hd. apply in_map_iff in Hd as (k & <- & Hk).
    apply in_seq in Hk. apply Hmono. lia. }
  apply H.
Qed.

Lemma map_tabulate {A B : Type} (g : A -> B) (n : Z) (f : Z -> A) :
  map g (tabulate n f) = tabulate n (fun i => g (f i)).
Proof. unfold tabulate. now rewrite map_map. Qed.

Lemma chord_samples_sorted (sx sy ex ey : R) :
  StronglySorted Rle (map snd (chord_samples sx sy ex ey)).
Proof.
  unfold chord_samples. cbv zeta. rewrite map_tabulate. cbn [snd].
  apply tabulate_sorted. intros i j Hij. apply IZR_le. lia.
Qed.

Lemma ComputeSamplePoints_same_point (p : Lightcurve.ObservationPath) :
  (Lightcurve.StartX p, Lightcurve.StartY p) = (Lightcurve.EndX p, Lightcurve.EndY p) ->
  Lightcurve.SamplePoints (Lightcurve.ComputeSamplePoints p) = [].
Proof.
  intros H. injection H as HX HY. unfold Lightcurve.ComputeSamplePoints.
  rewrite <- HX, <- HY.
  replace ((Lightcurve.StartX p - Lightcurve.StartX p) * (Lightcurve.StartX p - Lightcurve.StartX p)
           + (Lightcurve.StartY p - Lightcurve.StartY p) * (Lightcurve.StartY p - Lightcurve.StartY p))
    with 0 by ring.
  rewrite sqrt_0, Round_nonneg by lra.
  rewrite (Zfloor_eq 0) by (cbn; lra).
  rewrite int_of_float_IZR. reflexivity.
Qed.

Lemma ComputeSamplePoints_sorted (p : Lightcurve.ObservationPath) :
  StronglySorted Rle
    (map snd (map triple_of_point
                (Lightcurve.SamplePoints (Lightcurve.ComputeSamplePoints p)))).
Proof.
  destruct (Req_dec_T (Lightcurve.StartX p) (Lightcurve.EndX p)) as [HX | HX].
  - destruct (Req_dec_T (Lightcurve.StartY p) (Lightcurve.EndY p)) as [HY | HY].
    + rewrite ComputeSamplePoints_same_point by congruence. constructor.
    + rewrite ComputeSamplePoints_spec by congruence. apply chord_samples_sorted.
  - rewrite ComputeSamplePoints_spec by congruence. apply chord_samples_sorted.
Qed.

(** C5.  Both edge finders, on a square mask with at least two rows and no
    negative entry, return (they never panic) the edges of the
    documentation, "the interpolated value transitions between 0 and 1",
    preceded by the distance of the first sample whenever the mask is
    positive at the first sample, although nothing changes there.  The
    returned list is non-decreasing when the recorded distances of the
    samples are, as those of the sampler always are.  The number of
    returned edges is odd whenever the mask is positive at the last
    sample: on a mask that is positive where the plane is illuminated, a
    chord that ends outside the occulter never gives 0 or 2 edges. *)
Theorem FindEdgesInGeometricShadow_first_sample (n : Z) (m : Matrix) :
  square n m -> (2 <= n)%Z ->
  (forall r c, (0 <= r < n)%Z -> (0 <= c < n)%Z -> 0 <= entry m r c) ->
  (forall e,
     GeometricMatrix e = m ->
     let pts := PathSamplePoints e in
     FindEdgesInGeometricShadow e =
       Some (first_sample_edge m pts ++ documented_edges m pts)) /\
  (forall path,
     let path' := if (Go.len (Lightcurve.SamplePoints path) =? 0)%Z
                  then Lightcurve.ComputeSamplePoints path else path in
     let pts := map triple_of_point (Lightcurve.SamplePoints path') in
     Lightcurve.FindEdgesInGeometricShadow m path =
       Some (first_sample_edge m pts ++ documented_edges m pts, path') /\
     (Lightcurve.SamplePoints path = [] ->
      StronglySorted Rle (first_sample_edge m pts ++ documented_edges m pts))) /\
  (forall pts,
     StronglySorted Rle (map snd pts) ->
     StronglySorted Rle (first_sample_edge m pts ++ documented_edges m pts)) /\
  (forall pts last,
     Nat.odd (length (first_sample_edge m (pts ++ [last])
                      ++ documented_edges m (pts ++ [last]))) = is_lit m last).
Proof.
  intros Hsq Hn Hpos. repeat split.
  - intros e He pts. subst pts. rewrite <- colour_changes_first.
    now apply (FindEdges_main_colour_changes n).
  - rewrite <- colour_changes_first.
    now rewrite (FindEdges_lightcurve_colour_changes n).
  - intros Hnil. rewrite <- colour_changes_first.
    rewrite Hnil. cbn [Go.len length Z.of_nat Z.eqb].
    apply colour_changes_sorted. apply ComputeSamplePoints_sorted.
  - intros pts Hs. rewrite <- colour_changes_first.
    now apply colour_changes_sorted.
  - intros pts last. rewrite <- colour_changes_first.
    now rewrite colour_changes_parity.
Qed.

(** A 5 x 5 mask in the convention of package main (positive inside the
    occulter): a single occulted pixel in the middle. *)
Definition mask5 : Matrix :=
  [[0; 0; 0; 0; 0];
   [0; 0; 0; 0; 0];
   [0; 0; 1; 0; 0];
   [0; 0; 0; 0; 0];
   [0; 0; 0; 0; 0]].

Lemma square_mask5 : square 5 mask5.
Proof. split; [reflexivity | repeat constructor]. Qed.

Definition event5 : OccultationEvent :=
  {| IntensityMatrix := [];
     GeometricMatrix := mask5;
     PathSamplePoints := [(0, 2, 0); (1, 2, 1); (2, 2, 2); (3, 2, 3)];
     PathStart := (0, 2);
     PathEnd := (4, 2);
     PathToQEtable := EmptyString;
     QEtable := nilSlice;
     FundamentalPlaneWidthKm := 5;
     FundamentalPlaneWidthPoints := 5;
     ObservationWavelengthNm := 600;
     StarDiamKm := 0;
     LimbDarkeningCoeff := 0;
     PercentMagDrop := 0;
     DistanceAu := 1 |}.

Lemma mask5_at (x y : Z) (d : R) :
  (0 <= x <= 3)%Z -> (0 <= y <= 3)%Z ->
  mask_at mask5 (IZR x, IZR y, d) = Some (entry mask5 y x).
Proof.
  intros Hx Hy. unfold mask_at. cbn [fst snd].
  apply (interpolate_grid_point 5 mask5 square_mask5); lia.
Qed.

(** In the convention of package main the chord starts on a dark sample,
    and the scan returns the two edges of the occulted pixel. *)
Lemma edges_main_mask5 : FindEdgesInGeometricShadow event5 = Some [2; 3].
Proof.
  rewrite FindEdges_main_scan.
  change (PathSamplePoints event5)
    with ([(0, 2, 0); (1, 2, 1)] ++ [(2, 2, 2)] ++ [(3, 2, 3)]).
  change (GeometricMatrix event5) with mask5.
  rewrite edge_scan_app, (edge_scan_dark_1 mask5 _ []).
  2: { repeat constructor; unfold dark; [apply (mask5_at 0 2) | apply (mask5_at 1 2)]; lia. }
  cbn [Go.bind]. rewrite edge_scan_app, edge_scan_lit_1.
  2: { repeat constructor. exists 1. split; [apply (mask5_at 2 2); lia | lra]. }
  cbn [Go.bind app]. rewrite edge_scan_dark_0.
  2: { repeat constructor. unfold dark. apply (mask5_at 3 2); lia. }
  reflexivity.
Qed.

(** *** The test mask of the example programs *)

Lemma tabulate_ext {A : Type} (n : Z) (f g : Z -> A) :
  (forall i, (0 <= i < n)%Z -> f i = g i) -> tabulate n f = tabulate n g.
Proof.
  intros H. unfold tabulate. apply map_ext_in. intros k Hk.
  apply in_seq in Hk. apply H. lia.
Qed.

Lemma at2_tabulate {A : Type} (h w : Z) (f : Z -> Z -> A) (r c : Z) :
  (0 <= r < h)%Z -> (0 <= c < w)%Z ->
  at2 (tabulate h (fun r => tabulate w (f r))) r c = Some (f r c).
Proof.
  intros Hr Hc. unfold at2. rewrite index_tabulate by assumption.
  cbn [Go.bind]. now rewrite index_tabulate by assumption.
Qed.

Lemma square_tabulate (n : Z) (f : Z -> Z -> R) :
  (0 <= n)%Z -> square n (tabulate n (fun r => tabulate n (f r))).
Proof.
  intros Hn. split; [now apply len_tabulate|].
  apply Forall_forall. intros row Hrow. unfold tabulate at 1 in Hrow.
  apply in_map_iff in Hrow as (k & <- & _). now apply len_tabulate.
Qed.

Lemma entry_tabulate (n : Z) (f : Z -> Z -> R) (r c : Z) :
  (0 <= r < n)%Z -> (0 <= c < n)%Z ->
  entry (tabulate n (fun r => tabulate n (f r))) r c = f r c.
Proof.
  intros Hr Hc.
  pose proof (at2_entry n _ r c (square_tabulate n f ltac:(lia)) Hr Hc) as H.
  rewrite at2_tabulate in H by assumption. now injection H.
Qed.

(** The matrix that [createTestGeometricMatrix] builds. *)
Definition test_mask (size : Z) : Matrix :=
  tabulate size (fun y => tabulate size (fun x =>
    let dx := IZR x - IZR size / 2 in
    let dy := IZR y - IZR size / 2 in
    if Rlt_dec (dx * dx + dy * dy) (IZR size * 0.15 * (IZR size * 0.15))
    then 0 else 1)).

Lemma createTestGeometricMatrix_spec (size : Z) :
  (0 <= size)%Z ->
  Lightcurve.createTestGeometricMatrix size = Some (test_mask size).
Proof.
  intros Hsize. unfold Lightcurve.createTestGeometricMatrix, test_mask.
  rewrite make_spec by assumption. cbn [Go.bind]. unfold Go.float64.
  set (f := fun y x : Z =>
    let dx := IZR x - IZR size / 2 in
    let dy := IZR y - IZR size / 2 in
    if Rlt_dec (dx * dx + dy * dy) (IZR size * 0.15 * (IZR size * 0.15))
    then 0 else 1).
  match goal with
  | |- Go.for_upto_opt size ?b ?s = _ =>
      destruct (for_upto_opt_inv
        (fun y t => Go.len t = size /\
           forall j, (0 <= j < y)%Z -> Go.index t j = Some (tabulate size (f j)))
        b size s) as (t & Ht & Hlen & Hrows)
  end.
  - assumption.
  - split; [now apply len_tabulate | intros; lia].
  - intros y t Hy [Hlen Hrows].
    rewrite make_spec by assumption. cbn [Go.bind].
    destruct (assign_spec t y (tabulate size (fun _ => 0))) as (t1 & -> & Hl1 & Hi1);
      [lia|]. cbn [Go.bind].
    match goal with
    | |- exists t', Go.for_upto_opt size ?b t1 = Some t' /\ _ =>
        destruct (fill_row_loop b (f y) size y t1 (tabulate size (fun _ => 0)))
          as (u & Hu & Hlu & Hur & Hother)
    end.
    + intros c u Hc. subst f. cbv beta zeta.
      destruct (Rlt_dec _ _); reflexivity.
    + rewrite Hi1. now rewrite Z.eqb_refl.
    + now apply len_tabulate.
    + exists u. split; [assumption|]. split; [congruence|].
      intros j Hj. destruct (Z.eq_dec j y) as [-> | Hne]; [assumption|].
      rewrite Hother by assumption. rewrite Hi1.
      destruct (Z.eqb_spec j y); [contradiction|]. apply Hrows. lia.
  - rewrite Ht. f_equal. apply index_ext.
    + now rewrite len_tabulate.
    + intros j Hj. rewrite Hrows, index_tabulate by lia. reflexivity.
Qed.

(** The disk of centre (cx, cy) and radius r lies inside the pixel square
    [0, size-1] x [0, size-1]; the point (x, y) lies outside the disk. *)
Definition disk_in_square (size : Z) (cx cy r : R) : Prop :=
  0 <= cx - r /\ cx + r <= IZR (size - 1) /\
  0 <= cy - r /\ cy + r <= IZR (size - 1).
Definition outside_disk (cx cy r x y : R) : Prop :=
  r * r < (x - cx) * (x - cx) + (y - cy) * (y - cy).

(** A horizontal chord through the centre of the 10 x 10 test mask, with
    no samples recorded yet, and a path whose two recorded samples carry
    decreasing distances. *)
Definition chord10 : Lightcurve.ObservationPath :=
  {| Lightcurve.DxKmPerSec := 0;
     Lightcurve.DyKmPerSec := 0;
     Lightcurve.PathOffsetFromCenterKm := 0;
     Lightcurve.FundamentalPlaneWidthKm := 10;
     Lightcurve.FundamentalPlaneWidthPts := 10;
     Lightcurve.StartX := 0;
     Lightcurve.StartY := 5;
     Lightcurve.EndX := 9;
     Lightcurve.EndY := 5;
     Lightcurve.ShadowSpeedKmPerSec := 0;
     Lightcurve.PathAngleDegrees := 0;
     Lightcurve.Direction := EmptyString;
     Lightcurve.SamplePoints := [] |}.

Definition unordered10 : Lightcurve.ObservationPath :=
  Lightcurve.set_SamplePoints chord10
    [{| Lightcurve.X := 0; Lightcurve.Y := 5; Lightcurve.DistanceFromStart := 2 |};
     {| Lightcurve.X := 4; Lightcurve.Y := 5; Lightcurve.DistanceFromStart := 1 |}].

Lemma chord10_samples :
  chord_samples 0 5 9 5 =
    [(0, 5, 0); (1, 5, 1); (2, 5, 2); (3, 5, 3); (4, 5, 4);
     (5, 5, 5); (6, 5, 6); (7, 5, 7); (8, 5, 8)].
Proof.
  unfold chord_samples. cbv zeta.
  replace (sqrt ((9 - 0) * (9 - 0) + (5 - 5) * (5 - 5))) with 9
    by (symmetry; apply sqrt_lem_1; lra).
  rewrite Round_nonneg by lra.
  rewrite (Zfloor_eq 9) by (cbn; lra).
  rewrite int_of_float_IZR.
  rewrite (tabulate_ext 9 _ (fun i => (IZR i, 5, IZR i))).
  - reflexivity.
  - intros i _.
    replace (0 + IZR i * (9 - 0) / 9) with (IZR i) by field.
    replace (5 + IZR i * (5 - 5) / 9) with 5 by field.
    reflexivity.
Qed.

Lemma test_mask10_at (x : Z) (d : R) :
  (0 <= x <= 8)%Z ->
  mask_at (test_mask 10) (IZR x, 5, d) =
    Some (if Rlt_dec ((IZR x - 5) * (IZR x - 5)) (9 / 4) then 0 else 1).
Proof.
  intros Hx. unfold mask_at. cbn [fst snd].
  rewrite (interpolate_grid_point 10 (test_mask 10) (square_tabulate 10 _ ltac:(lia))
             ltac:(lia) x 5) by lia.
  unfold test_mask. rewrite entry_tabulate by lia. cbv zeta. f_equal.
  destruct (Rlt_dec _ _) as [H1 | H1]; destruct (Rlt_dec _ _) as [H2 | H2];
    try reflexivity; exfalso; lra.
Qed.

Lemma test_mask10_lit (x : Z) (d : R) :
  (0 <= x <= 3)%Z \/ (7 <= x <= 8)%Z -> lit (test_mask 10) (IZR x, 5, d).
Proof.
  intros Hx. exists 1. split; [|lra].
  rewrite test_mask10_at by lia.
  destruct (Rlt_dec _ _) as [H | H]; [exfalso | reflexivity].
  destruct Hx as [Hx | Hx].
  - assert (IZR x <= 3) by (apply IZR_le; lia). assert (0 <= IZR x) by (apply IZR_le; lia). nra.
  - assert (7 <= IZR x) by (apply IZR_le; lia). nra.
Qed.

Lemma test_mask10_dark (x : Z) (d : R) :
  (4 <= x <= 6)%Z -> dark (test_mask 10) (IZR x, 5, d).
Proof.
  intros Hx. unfold dark. rewrite test_mask10_at by lia.
  destruct (Rlt_dec _ _) as [H | H]; [reflexivity | exfalso].
  assert (4 <= IZR x) by (apply IZR_le; lia).
  assert (IZR x <= 6) by (apply IZR_le; lia). nra.
Qed.

Lemma test_mask10_nonneg (r c : Z) :
  (0 <= r < 10)%Z -> (0 <= c < 10)%Z -> 0 <= entry (test_mask 10) r c.
Proof.
  intros Hr Hc. unfold test_mask. rewrite entry_tabulate by assumption.
  cbv zeta. destruct (Rlt_dec _ _); lra.
Qed.

(** The colours along the chord of the test mask: four lit samples, three
    dark ones, two lit ones. *)
Lemma chord10_colours :
  first_sample_edge (test_mask 10) (chord_samples 0 5 9 5) = [0] /\
  documented_edges (test_mask 10) (chord_samples 0 5 9 5) = [4; 7].
Proof.
  rewrite chord10_samples.
  assert (L : forall x d, (0 <= x <= 3)%Z \/ (7 <= x <= 8)%Z ->
                is_lit (test_mask 10) (IZR x, 5, d) = true).
  { intros x d Hx. now apply lit_is_lit, test_mask10_lit. }
  assert (D : forall x d, (4 <= x <= 6)%Z ->
                is_lit (test_mask 10) (IZR x, 5, d) = false).
  { intros x d Hx. now apply dark_is_lit, test_mask10_dark. }
  cbn [first_sample_edge documented_edges colour_changes].
  rewrite (L 0%Z), (L 1%Z), (L 2%Z), (L 3%Z), (L 7%Z), (L 8%Z) by lia.
  rewrite (D 4%Z), (D 5%Z), (D 6%Z) by lia.
  cbn [Bool.eqb snd]. split; reflexivity.
Qed.

Lemma FindEdgesInGeometricShadow_first_sample_witness :
  Lightcurve.FindEdgesInGeometricShadow (test_mask 10) chord10 =
    Some ([0; 4; 7], Lightcurve.ComputeSamplePoints chord10) /\
  documented_edges (test_mask 10) (chord_samples 0 5 9 5) = [4; 7].
Proof.
  destruct (FindEdgesInGeometricShadow_first_sample 10 (test_mask 10)
              (square_tabulate 10 _ ltac:(lia)) ltac:(lia) test_mask10_nonneg)
    as (_ & Hlc & _).
  pose proof (Hlc chord10) as H. cbv zeta in H. destruct H as [Hfind _].
  replace (Go.len (Lightcurve.SamplePoints chord10) =? 0)%Z with true in Hfind
    by reflexivity.
  rewrite ComputeSamplePoints_spec in Hfind.
  2: { cbn. intros H. injection H. lra. }
  change (chord_samples _ _ _ _) with (chord_samples 0 5 9 5) in Hfind.
  destruct chord10_colours as [Hfirst Hdoc].
  rewrite Hfirst, Hdoc in Hfind. split; [exact Hfind | exact Hdoc].
Defined.

(** Lit, dark, lit: three edges. *)
Lemma edge_scan_lit_dark_lit m a pre b mid c post :
  Forall (lit m) (a :: pre) -> Forall (dark m) (b :: mid) -> Forall (lit m) (c :: post) ->
  edge_scan m ((a :: pre) ++ (b :: mid) ++ (c :: post)) ([], 1) =
    Some ([snd a; snd b; snd c], 0).
Proof.
  intros Hpre Hmid Hpost.
  rewrite edge_scan_app, edge_scan_lit_1 by assumption. cbn [Go.bind].
  rewrite edge_scan_app, edge_scan_dark_0 by assumption. cbn [Go.bind].
  now rewrite edge_scan_lit_1 by assumption.
Qed.

(** The same result read off the scan itself.  The example mask
    [createTestGeometricMatrix(10)] holds one disk (centre (5,5), radius
    1.5) inside the square, the chord from (0,5) to (9,5) starts outside
    it, and the edge finder returns three edges, the first of them the
    first sample.  The finder also takes whatever samples a path records:
    a sample sequence whose recorded distances decrease yields a
    decreasing list of edges. *)
Lemma edges_counterexample :
  Lightcurve.createTestGeometricMatrix 10 = Some (test_mask 10) /\
  disk_in_square 10 5 5 (3 / 2) /\
  outside_disk 5 5 (3 / 2) (Lightcurve.StartX chord10) (Lightcurve.StartY chord10) /\
  Lightcurve.FindEdgesInGeometricShadow (test_mask 10) chord10 =
    Some ([0; 4; 7], Lightcurve.ComputeSamplePoints chord10) /\
  length [0; 4; 7] <> 0%nat /\ length [0; 4; 7] <> 2%nat /\
  Lightcurve.FindEdgesInGeometricShadow (test_mask 10) unordered10 =
    Some ([2; 1], unordered10) /\
  ~ StronglySorted Rle [2; 1].
Proof.
  split; [apply createTestGeometricMatrix_spec; lia|].
  split; [unfold disk_in_square; cbn; lra|].
  split; [unfold outside_disk; cbn; lra|].
  split; [|split; [discriminate|split; [discriminate|split]]].
  - rewrite FindEdges_lightcurve_scan.
    replace (Go.len (Lightcurve.SamplePoints chord10) =? 0)%Z with true by reflexivity.
    cbv zeta. rewrite ComputeSamplePoints_spec.
    2: { cbn. intros H. injection H. lra. }
    change (chord_samples _ _ _ _) with (chord_samples 0 5 9 5).
    rewrite chord10_samples.
    change [(0, 5, 0); (1, 5, 1); (2, 5, 2); (3, 5, 3); (4, 5, 4);
            (5, 5, 5); (6, 5, 6); (7, 5, 7); (8, 5, 8)]
      with (((0, 5, 0) :: [(1, 5, 1); (2, 5, 2); (3, 5, 3)]) ++
            ((4, 5, 4) :: [(5, 5, 5); (6, 5, 6)]) ++
            ((7, 5, 7) :: [(8, 5, 8)])).
    rewrite edge_scan_lit_dark_lit; [reflexivity | | |].
    + repeat constructor;
        [apply (test_mask10_lit 0) | apply (test_mask10_lit 1)
         | apply (test_mask10_lit 2) | apply (test_mask10_lit 3)]; lia.
    + repeat constructor;
        [apply (test_mask10_dark 4) | apply (test_mask10_dark 5)
         | apply (test_mask10_dark 6)]; lia.
    + repeat constructor;
        [apply (test_mask10_lit 7) | apply (test_mask10_lit 8)]; lia.
  - rewrite FindEdges_lightcurve_scan.
    replace (Go.len (Lightcurve.SamplePoints unordered10) =? 0)%Z with false by reflexivity.
    cbv zeta.
    change (map triple_of_point (Lightcurve.SamplePoints unordered10))
      with ([(0, 5, 2)] ++ [(4, 5, 1)]).
    rewrite edge_scan_app, edge_scan_lit_1.
    2: { repeat constructor. apply (test_mask10_lit 0). lia. }
    cbn [Go.bind]. rewrite edge_scan_dark_0.
    2: { repeat constructor. apply (test_mask10_dark 4). lia. }
    reflexivity.
  - intros H. apply StronglySorted_inv in H as [_ H].
    apply Forall_inv in H. lra.
Qed.

(** *** A raster disk that the chord enters twice *)

(** A mask in the convention of package main (1.0 inside the occulter,
    [ConvertSourcePlaneImageToMatrix]): on a 13 x 13 grid, the disk of
    centre (4, 3) and radius 5/4. *)
Definition disk13 : Matrix :=
  tabulate 13 (fun y => tabulate 13 (fun x =>
    if Rlt_dec ((IZR x - 4) * (IZR x - 4) + (IZR y - 3) * (IZR y - 3))
               (5 / 4 * (5 / 4))
    then 1 else 0)).

Definition event13 : OccultationEvent :=
  {| IntensityMatrix := [];
     GeometricMatrix := disk13;
     PathSamplePoints := [];
     PathStart := (0, 0);
     PathEnd := (9, 12);
     PathToQEtable := EmptyString;
     QEtable := nilSlice;
     FundamentalPlaneWidthKm := 13;
     FundamentalPlaneWidthPoints := 13;
     ObservationWavelengthNm := 600;
     StarDiamKm := 0;
     LimbDarkeningCoeff := 0;
     PercentMagDrop := 0;
     DistanceAu := 1 |}.

Lemma square_disk13 : square 13 disk13.
Proof. apply square_tabulate. lia. Qed.

Lemma disk13_entry (r c : Z) :
  (0 <= r < 13)%Z -> (0 <= c < 13)%Z ->
  entry disk13 r c =
    if Rlt_dec ((IZR c - 4) * (IZR c - 4) + (IZR r - 3) * (IZR r - 3)) (5 / 4 * (5 / 4))
    then 1 else 0.
Proof. intros Hr Hc. unfold disk13. now rewrite entry_tabulate by assumption. Qed.

Lemma disk13_nonneg (r c : Z) :
  (0 <= r < 13)%Z -> (0 <= c < 13)%Z -> 0 <= entry disk13 r c.
Proof.
  intros Hr Hc. rewrite disk13_entry by assumption. destruct (Rlt_dec _ _); lra.
Qed.

(** [computePathPoints] leaves the mask of the event alone. *)
Lemma computePathPoints_mask (e : OccultationEvent) :
  GeometricMatrix (computePathPoints e) = GeometricMatrix e.
Proof.
  unfold computePathPoints. cbv zeta.
  match goal with
  | |- context [Go.for_upto ?n ?b ?s] =>
      exact (for_upto_inv (fun _ q => GeometricMatrix q = GeometricMatrix e)
               b n s eq_refl (fun i q _ Hq => Hq))
  end.
Qed.

(** The fifteen samples of the chord from (0, 0) to (9, 12). *)
Lemma chord13_samples :
  chord_samples 0 0 9 12 =
    tabulate 15 (fun i => (IZR i * 3 / 5, IZR i * 4 / 5, IZR i)).
Proof.
  unfold chord_samples. cbv zeta.
  replace (sqrt ((9 - 0) * (9 - 0) + (12 - 0) * (12 - 0))) with 15
    by (symmetry; apply sqrt_lem_1; lra).
  rewrite Round_nonneg by lra.
  rewrite (Zfloor_eq 15) by (cbn; lra).
  rewrite int_of_float_IZR.
  apply tabulate_ext. intros i _.
  replace (0 + IZR i * (9 - 0) / 15) with (IZR i * 3 / 5) by field.
  replace (0 + IZR i * (12 - 0) / 15) with (IZR i * 4 / 5) by field.
  reflexivity.
Qed.

(** The mask value at a sample in the pixel cell with lower corner
    (x0, y0). *)
Lemma disk13_at (x y d : R) (x0 y0 : Z) :
  (0 <= x0 <= 11)%Z -> (0 <= y0 <= 11)%Z ->
  IZR x0 <= x < IZR x0 + 1 -> IZR y0 <= y < IZR y0 + 1 ->
  mask_at disk13 (x, y, d) =
    Some ((entry disk13 y0 x0 * (1 - (x - IZR x0))
           + entry disk13 y0 (x0 + 1) * (x - IZR x0)) * (1 - (y - IZR y0))
          + (entry disk13 (y0 + 1) x0 * (1 - (x - IZR x0))
             + entry disk13 (y0 + 1) (x0 + 1) * (x - IZR x0)) * (y - IZR y0)).
Proof.
  intros Hx0 Hy0 Hx Hy. unfold mask_at. cbn [fst snd].
  assert (Hx1 : IZR x0 + 1 <= IZR (13 - 1)).
  { rewrite <- succ_IZR. apply IZR_le. lia. }
  assert (Hy1 : IZR y0 + 1 <= IZR (13 - 1)).
  { rewrite <- succ_IZR. apply IZR_le. lia. }
  assert (0 <= IZR x0) by (apply IZR_le; lia).
  assert (0 <= IZR y0) by (apply IZR_le; lia).
  apply (interpolate_inside 13 disk13 square_disk13 ltac:(lia)); lra.
Qed.

Ltac disk13_cell x0 y0 :=
  rewrite (disk13_at _ _ _ x0 y0) by (lia || lra);
  rewrite !disk13_entry by lia;
  repeat match goal with
         | |- context [IZR (?a + ?b)] =>
             let c := eval vm_compute in (a + b)%Z in change (a + b)%Z with c
         end;
  repeat (destruct (Rlt_dec _ _) as [? | ?]; try (exfalso; lra)).

Ltac disk13_dark x0 y0 :=
  apply dark_is_lit; unfold dark; disk13_cell x0 y0; f_equal; lra.

Ltac disk13_lit x0 y0 :=
  apply lit_is_lit; unfold lit; eexists; split;
  [disk13_cell x0 y0; reflexivity | lra].

(** The colours along the chord: dark up to sample 3, lit at sample 4,
    dark at sample 5, lit at sample 6, dark from sample 7 on. *)
Lemma chord13_colours :
  map (is_lit disk13) (chord_samples 0 0 9 12) =
    [false; false; false; false; true; false; true; false;
     false; false; false; false; false; false; false].
Proof.
  rewrite chord13_samples.
  change (tabulate 15 (fun i => (IZR i * 3 / 5, IZR i * 4 / 5, IZR i)))
    with [(0 * 3 / 5, 0 * 4 / 5, 0); (1 * 3 / 5, 1 * 4 / 5, 1);
          (2 * 3 / 5, 2 * 4 / 5, 2); (3 * 3 / 5, 3 * 4 / 5, 3);
          (4 * 3 / 5, 4 * 4 / 5, 4); (5 * 3 / 5, 5 * 4 / 5, 5);
          (6 * 3 / 5, 6 * 4 / 5, 6); (7 * 3 / 5, 7 * 4 / 5, 7);
          (8 * 3 / 5, 8 * 4 / 5, 8); (9 * 3 / 5, 9 * 4 / 5, 9);
          (10 * 3 / 5, 10 * 4 / 5, 10); (11 * 3 / 5, 11 * 4 / 5, 11);
          (12 * 3 / 5, 12 * 4 / 5, 12); (13 * 3 / 5, 13 * 4 / 5, 13);
          (14 * 3 / 5, 14 * 4 / 5, 14)].
  cbn [map].
  repeat match goal with |- (_ :: _) = (_ :: _) => apply f_equal2 end;
    [ | | | | | | | | | | | | | | | reflexivity ].
  - disk13_dark 0%Z 0%Z.
  - disk13_dark 0%Z 0%Z.
  - disk13_dark 1%Z 1%Z.
  - disk13_dark 1%Z 2%Z.
  - disk13_lit 2%Z 3%Z.
  - disk13_dark 3%Z 4%Z.
  - disk13_lit 3%Z 4%Z.
  - disk13_dark 4%Z 5%Z.
  - disk13_dark 4%Z 6%Z.
  - disk13_dark 5%Z 7%Z.
  - disk13_dark 6%Z 8%Z.
  - disk13_dark 6%Z 8%Z.
  - disk13_dark 7%Z 9%Z.
  - disk13_dark 7%Z 10%Z.
  - disk13_dark 8%Z 11%Z.
Qed.

(** The count of edges is not bounded by two either.  In the convention
    of package main, with a single disk inside the square and a chord that
    starts outside it, the finder of package main returns four edges: the
    chord grazes the raster disk and the binarised interpolated mask is
    positive at sample 4, zero at sample 5 and positive again at sample 6.
    Here every reported edge is a change of colour. *)
Lemma edges_four_on_disk :
  disk_in_square 13 4 3 (5 / 4) /\
  outside_disk 4 3 (5 / 4) (fst (PathStart event13)) (snd (PathStart event13)) /\
  outside_disk 4 3 (5 / 4) (fst (PathEnd event13)) (snd (PathEnd event13)) /\
  FindEdgesInGeometricShadow (computePathPoints event13) = Some [4; 5; 6; 7] /\
  documented_edges disk13 (PathSamplePoints (computePathPoints event13)) = [4; 5; 6; 7].
Proof.
  split; [unfold disk_in_square; cbn; lra|].
  split; [unfold outside_disk; cbn; lra|].
  split; [unfold outside_disk; cbn; lra|].
  assert (Hpts : PathSamplePoints (computePathPoints event13) = chord_samples 0 0 9 12).
  { rewrite computePathPoints_spec; [reflexivity|]. cbn. intros H. injection H. lra. }
  assert (Hcc : forall prev pts cols,
            map (is_lit disk13) pts = cols ->
            colour_changes disk13 prev pts =
              (fix go (prev : bool) (l : list ((R * R * R) * bool)) : list R :=
                 match l with
                 | [] => []
                 | (pt, c) :: rest =>
                     if Bool.eqb c prev then go prev rest else snd pt :: go c rest
                 end) prev (combine pts cols)).
  { intros prev pts. revert prev.
    induction pts as [|pt pts IH]; intros prev cols <-; [reflexivity|].
    cbn [map combine colour_changes].
    destruct (Bool.eqb (is_lit disk13 pt) prev); [|f_equal]; now apply IH. }
  assert (Hfour : colour_changes disk13 false (chord_samples 0 0 9 12) = [4; 5; 6; 7]).
  { rewrite (Hcc _ _ _ chord13_colours), chord13_samples. reflexivity. }
  split.
  - rewrite (FindEdges_main_colour_changes 13 disk13);
      [ | exact square_disk13 | lia | exact disk13_nonneg | apply computePathPoints_mask ].
    now rewrite Hpts, Hfour.
  - rewrite Hpts, <- Hfour.
    pose proof (colour_changes_first disk13 (chord_samples 0 0 9 12)) as Hf.
    assert (Hno : first_sample_edge disk13 (chord_samples 0 0 9 12) = []).
    { pose proof chord13_colours as Hc. rewrite chord13_samples in *.
      change (tabulate 15 ?f) with (f 0%Z :: tabulate 14 (fun i => f (i + 1)%Z)) in *.
      cbn [map first_sample_edge] in *. injection Hc as Hc _. now rewrite Hc. }
    rewrite Hno in Hf. now rewrite Hf.
Qed.

(** ** Element-wise update loops *)

Lemma index_map {A B : Type} (g : A -> B) (s : list A) (j : Z) :
  Go.index (map g s) j = option_map g (Go.index s j).
Proof.
  unfold Go.index. destruct (j <? 0)%Z; [reflexivity|]. apply nth_error_map.
Qed.

Lemma len_map {A B : Type} (g : A -> B) (s : list A) : Go.len (map g s) = Go.len s.
Proof. unfold Go.len. now rewrite length_map. Qed.

(** A second store to the same index overwrites the first. *)
Lemma assign_assign {A : Type} (s s' : list A) (i : Z) (a b : A) :
  Go.assign s i a = Some s' -> Go.assign s' i b = Go.assign s i b.
Proof.
  intros Hs'.
  destruct (Z_lt_dec i 0) as [Hneg | Hnn].
  { unfold Go.assign in Hs'. destruct (Z.ltb_spec i 0); [discriminate | lia]. }
  destruct (Z_lt_dec i (Go.len s)) as [Hlt | Hge].
  2: { rewrite assign_out_of_range in Hs' by lia. discriminate. }
  destruct (assign_spec s i a) as (s0 & Hs0 & Hl0 & Hi0); [lia|].
  rewrite Hs0 in Hs'. injection Hs' as <-.
  destruct (assign_spec s0 i b) as (s1 & -> & Hl1 & Hi1); [lia|].
  destruct (assign_spec s i b) as (s2 & -> & Hl2 & Hi2); [lia|].
  f_equal. apply index_ext; [congruence|].
  intros j _. rewrite Hi1, Hi2, Hi0. now destruct (j =? i)%Z.
Qed.

Lemma at2_in_range {A : Type} (m : list (list A)) (r c : Z) (v : A) :
  at2 m r c = Some v ->
  exists row, Go.index m r = Some row /\ Go.index row c = Some v.
Proof.
  unfold at2. destruct (Go.index m r) as [row|]; [|discriminate].
  cbn [Go.bind]. eauto.
Qed.

(** [m[r][c] *= s; m[r][c] += t] is the single store of [v s + t]. *)
Lemma assign2_read_assign2 {A : Type} (m : list (list A)) (r c : Z) (v a : A)
    (k : A -> A) :
  at2 m r c = Some v ->
  (do m' <- assign2 m r c a; do v' <- at2 m' r c; assign2 m' r c (k v')) =
  assign2 m r c (k a).
Proof.
  intros Hv. apply at2_in_range in Hv as (row & Hrow & Hc).
  apply index_range in Hc.
  destruct (assign2_spec m r c a row Hrow Hc) as (row' & m' & Hm' & Hlm & Hlr & Him & Hir).
  rewrite Hm'. cbn [Go.bind].
  assert (Hat : at2 m' r c = Some a).
  { unfold at2. rewrite Him, Z.eqb_refl. cbn [Go.bind]. now rewrite Hir, Z.eqb_refl. }
  rewrite Hat. cbn [Go.bind].
  unfold assign2 in *. rewrite Him, Z.eqb_refl, Hrow in *. cbn [Go.bind] in *.
  destruct (Go.assign row c a) as [row1|] eqn:Hrow1; [|discriminate].
  cbn [Go.bind] in Hm'.
  assert (row' = row1).
  { destruct (assign_spec m r row1) as (m1 & Hm1 & _ & Hi1).
    { now apply index_range in Hrow. }
    rewrite Hm1 in Hm'. injection Hm' as <-.
    specialize (Hi1 r). rewrite Z.eqb_refl, Him, Z.eqb_refl in Hi1. congruence. }
  subst row1.
  rewrite (assign_assign row row' c a (k a) Hrow1).
  destruct (Go.assign row c (k a)) as [row2|]; [|reflexivity].
  cbn [Go.bind]. now apply assign_assign with (a := row').
Qed.

(** The inner loop [for c := range len(m[r]) { m[r][c] = g(m[r][c]) }]. *)
Lemma map_row_loop {A : Type} (g : A -> A) (r : Z) (t : list (list A)) (row : list A) :
  Go.index t r = Some row ->
  exists u,
    Go.for_upto_opt (Go.len row)
      (fun c u => do v <- at2 u r c; assign2 u r c (g v)) t = Some u /\
    Go.len u = Go.len t /\ Go.index u r = Some (map g row) /\
    forall j, j <> r -> Go.index u j = Go.index t j.
Proof.
  intros Hrow.
  destruct (for_upto_opt_inv
    (fun c u => Go.len u = Go.len t /\
       (forall j, j <> r -> Go.index u j = Go.index t j) /\
       exists row', Go.index u r = Some row' /\ Go.len row' = Go.len row /\
         forall x, Go.index row' x =
                   if (x <? c)%Z then option_map g (Go.index row x) else Go.index row x)
    (fun c u => do v <- at2 u r c; assign2 u r c (g v)) (Go.len row) t)
    as (u & Hu & Hlu & Hother & row' & Hrow' & Hlr' & Hfill).
  - unfold Go.len. lia.
  - split; [reflexivity|]. split; [reflexivity|].
    exists row. repeat split; [assumption|].
    intros x. destruct (Z.ltb_spec x 0); [|reflexivity].
    rewrite index_out_of_range by (unfold Go.len; lia). reflexivity.
  - intros c u Hc (Hlu & Hother & row' & Hrow' & Hlr' & Hfill).
    destruct (index_in_range row c Hc) as [v Hv].
    assert (Hat : at2 u r c = Some v).
    { unfold at2. rewrite Hrow'. cbn [Go.bind]. rewrite Hfill.
      destruct (Z.ltb_spec c c); [lia | assumption]. }
    rewrite Hat. cbn [Go.bind].
    destruct (assign2_spec u r c (g v) row' Hrow') as
      (row'' & u' & Hu' & Hlu' & Hlr'' & Hiu & Hir); [lia|].
    exists u'. split; [assumption|].
    split; [congruence|]. split.
    + intros j Hj. rewrite Hiu.
      destruct (Z.eqb_spec j r); [contradiction | now apply Hother].
    + exists row''. split; [rewrite Hiu; now rewrite Z.eqb_refl|].
      split; [congruence|].
      intros x. rewrite Hir, Hfill.
      destruct (Z.eqb_spec x c) as [-> | Hne].
      * destruct (Z.ltb_spec c (c + 1)); [|lia]. now rewrite Hv.
      * destruct (Z.ltb_spec x c); destruct (Z.ltb_spec x (c + 1)); try lia; reflexivity.
  - exists u. repeat split; try assumption.
    rewrite Hrow'. f_equal. apply index_ext; [now rewrite len_map|].
    intros x Hx. rewrite Hfill, index_map.
    destruct (Z.ltb_spec x (Go.len row)); [reflexivity | lia].
Qed.

(** The nested loop over all rows, each over its own length. *)
Lemma map2_loop {A : Type} (body : Z -> Z -> list (list A) -> option (list (list A)))
    (g : A -> A) (m : list (list A)) :
  (forall r c u, body r c u = do v <- at2 u r c; assign2 u r c (g v)) ->
  Go.for_upto_opt (Go.len m) (fun r t =>
    do row <- Go.index t r;
    Go.for_upto_opt (Go.len row) (fun c u => body r c u) t) m =
  Some (map (map g) m).
Proof.
  intros Hbody.
  destruct (for_upto_opt_inv
    (fun r t => Go.len t = Go.len m /\
       forall j, Go.index t j =
                 if (j <? r)%Z then option_map (map g) (Go.index m j) else Go.index m j)
    (fun r t => do row <- Go.index t r;
                Go.for_upto_opt (Go.len row) (fun c u => body r c u) t)
    (Go.len m) m) as (t & Ht & Hlen & Hrows).
  - unfold Go.len. lia.
  - split; [reflexivity|]. intros j.
    destruct (Z.ltb_spec j 0); [|reflexivity].
    rewrite index_out_of_range by (unfold Go.len; lia). reflexivity.
  - intros r t Hr [Hlen Hrows].
    destruct (index_in_range m r Hr) as [row Hrow].
    assert (Htr : Go.index t r = Some row).
    { rewrite Hrows. destruct (Z.ltb_spec r r); [lia | assumption]. }
    rewrite Htr. cbn [Go.bind].
    destruct (map_row_loop g r t row Htr) as (u & Hu & Hlu & Hur & Hother).
    exists u. split.
    + rewrite <- Hu. apply for_upto_opt_ext. intros c v _. apply Hbody.
    + split; [congruence|]. intros j.
      destruct (Z.eq_dec j r) as [-> | Hne].
      * rewrite Hur, Hrow. destruct (Z.ltb_spec r (r + 1)); [reflexivity | lia].
      * rewrite Hother, Hrows by assumption.
        destruct (Z.ltb_spec j r); destruct (Z.ltb_spec j (r + 1)); try lia; reflexivity.
  - rewrite Ht. f_equal. apply index_ext; [now rewrite len_map|].
    intros j Hj. rewrite Hrows, index_map.
    destruct (Z.ltb_spec j (Go.len m)); [reflexivity | lia].
Qed.

(** ** The magnitude-drop adjustment (C9) *)

Lemma magDrop_loop (m : Matrix) (s t : R) :
  Go.for_upto_opt (Go.len m) (fun row m =>
    do r <- Go.index m row;
    Go.for_upto_opt (Go.len r) (fun col m =>
      do v <- at2 m row col;
      do m <- assign2 m row col (v * s);
      do v <- at2 m row col;
      assign2 m row col (v + t)) m) m =
  Some (map (map (fun v => v * s + t)) m).
Proof.
  apply (map2_loop
           (fun row col m =>
              do v <- at2 m row col;
              do m <- assign2 m row col (v * s);
              do v <- at2 m row col;
              assign2 m row col (v + t))
           (fun v => v * s + t)).
  intros r c u. destruct (at2 u r c) as [v|] eqn:Hv; [|reflexivity].
  cbn [Go.bind].
  exact (assign2_read_assign2 u r c v (v * s) (fun v' => v' + t) Hv).
Qed.

(** C9.  With p the given percentage and I the intensity matrix: if
    0 < p <= 100 every entry becomes (p/100) I + (1 - p/100); if p > 100
    then p is set to 100, a warning is printed, the run goes on and every
    entry is unchanged; if p <= 0 nothing changes. *)
Theorem magDrop_adjustment (st : MainState) :
  let p := PercentMagDrop (event st) in
  let I := IntensityMatrix (event st) in
  (0 < p <= 100 ->
     exists st', applyMagDrop st = Some st' /\
       IntensityMatrix (event st') =
         map (map (fun v => (p / 100) * v + (1 - p / 100))) I /\
       stdout st' = stdout st) /\
  (100 < p ->
     exists st', applyMagDrop st = Some st' /\
       PercentMagDrop (event st') = 100 /\
       IntensityMatrix (event st') = I /\
       stdout st' = stdout st ++ [percentMagDrop_too_large p]) /\
  (p <= 0 -> applyMagDrop st = Some st).
Proof.
  intros p I. unfold applyMagDrop. fold p. repeat split.
  - intros Hp. destruct (Rgt_dec p 0); [|lra].
    destruct (Rgt_dec p 100); [lra|].
    fold p I. rewrite magDrop_loop. cbn [Go.bind].
    eexists. split; [reflexivity|]. split; [|reflexivity].
    cbn. apply map_ext. intros row. apply map_ext. intros v. ring.
  - intros Hp. destruct (Rgt_dec p 0); [|lra].
    destruct (Rgt_dec p 100); [|lra].
    cbn [event set_PercentMagDrop PercentMagDrop IntensityMatrix stdout store].
    fold I. rewrite magDrop_loop. cbn [Go.bind].
    eexists. split; [reflexivity|]. split; [reflexivity|]. split; [|reflexivity].
    cbn. rewrite <- (map_id I) at 2. apply map_ext. intros row.
    rewrite <- (map_id row) at 2. apply map_ext. intros v. field.
  - intros Hp. destruct (Rgt_dec p 0); [lra | reflexivity].
Qed.

Definition state50 : MainState :=
  {| event := set_IntensityMatrix (set_PercentMagDrop event5 50) [[1; 2]];
     store := [];
     stdout := [] |}.

Lemma magDrop_adjustment_witness :
  exists st', applyMagDrop state50 = Some st' /\
    IntensityMatrix (event st') = map (map (fun v => (50 / 100) * v + (1 - 50 / 100))) [[1; 2]] /\
    stdout st' = [].
Proof.
  apply (proj1 (magDrop_adjustment state50)). cbn. lra.
Defined.

(** ** The star PSF (C10) *)

(** [f 0 + ... + f (k-1)], added in this order. *)
Fixpoint Rsum_nat (k : nat) (f : Z -> R) : R :=
  match k with
  | O => 0
  | S k' => Rsum_nat k' f + f (Z.of_nat k')
  end.
Definition Rsum (n : Z) (f : Z -> R) : R := Rsum_nat (Z.to_nat n) f.

Lemma Rsum_succ (n : Z) (f : Z -> R) :
  (0 <= n)%Z -> Rsum (n + 1) f = Rsum n f + f n.
Proof.
  intros Hn. unfold Rsum.
  replace (Z.to_nat (n + 1)) with (S (Z.to_nat n)) by lia.
  cbn [Rsum_nat]. now rewrite Z2Nat.id by lia.
Qed.

Lemma Rsum_nat_nonneg (k : nat) (f : Z -> R) :
  (forall i, (0 <= i < Z.of_nat k)%Z -> 0 <= f i) -> 0 <= Rsum_nat k f.
Proof.
  induction k as [|k IH]; intros Hf; [cbn; lra|].
  cbn [Rsum_nat]. assert (0 <= f (Z.of_nat k)) by (apply Hf; lia).
  assert (0 <= Rsum_nat k f) by (apply IH; intros; apply Hf; lia). lra.
Qed.

Lemma Rsum_nonneg (n : Z) (f : Z -> R) :
  (forall i, (0 <= i < n)%Z -> 0 <= f i) -> 0 <= Rsum n f.
Proof.
  intros Hf. apply Rsum_nat_nonneg. intros i Hi. apply Hf. lia.
Qed.

(** A sum of non-negative terms is at least any one of them. *)
Lemma Rsum_ge_term (n : Z) (f : Z -> R) (i0 : Z) :
  (forall i, (0 <= i < n)%Z -> 0 <= f i) -> (0 <= i0 < n)%Z -> f i0 <= Rsum n f.
Proof.
  intros Hf Hi0. unfold Rsum.
  assert (H : forall k, (Z.of_nat k <= n)%Z -> (i0 < Z.of_nat k)%Z ->
            f i0 <= Rsum_nat k f).
  { induction k as [|k IH]; intros Hk Hik; [lia|].
    cbn [Rsum_nat]. assert (0 <= f (Z.of_nat k)) by (apply Hf; lia).
    destruct (Z.eq_dec i0 (Z.of_nat k)) as [-> | Hne].
    - assert (0 <= Rsum_nat k f) by (apply Rsum_nat_nonneg; intros; apply Hf; lia).
      lra.
    - assert (f i0 <= Rsum_nat k f) by (apply IH; lia). lra. }
  apply H; lia.
Qed.

Lemma fold_left_Rplus_tabulate (n : Z) (f : Z -> R) (acc : R) :
  fold_left Rplus (tabulate n f) acc = acc + Rsum n f.
Proof.
  unfold tabulate, Rsum. generalize (Z.to_nat n) as k. clear n.
  induction k as [|k IH]; [cbn; lra|].
  rewrite seq_S, map_app, fold_left_app, IH. cbn. lra.
Qed.

(** The sum of all entries of a tabulated matrix, in row-major order. *)
Lemma fold_left_Rplus_concat_tabulate (h w : Z) (f : Z -> Z -> R) :
  fold_left Rplus (concat (tabulate h (fun r => tabulate w (f r)))) 0 =
  Rsum h (fun r => Rsum w (f r)).
Proof.
  unfold tabulate at 1. unfold Rsum at 1. generalize (Z.to_nat h) as k. clear h.
  induction k as [|k IH]; [reflexivity|].
  rewrite seq_S, map_app, concat_app, fold_left_app, IH. cbn [map concat Rsum_nat].
  rewrite app_nil_r, fold_left_Rplus_tabulate. reflexivity.
Qed.

Lemma StarBrightness_nonneg (r D u : R) :
  0 <= r -> 0 < D -> 0 <= u < 1 -> 0 <= StarBrightness r D u.
Proof.
  intros Hr HD Hu. unfold StarBrightness.
  destruct (Rge_dec (r / (D / 2)) 1) as [Hx | Hx]; [lra|].
  set (x := r / (D / 2)) in *.
  assert (Hx0 : 0 <= x).
  { subst x. apply Rmult_le_pos; [assumption|]. left. apply Rinv_0_lt_compat. lra. }
  assert (Hs : 0 <= sqrt (1 - x * x) <= 1).
  { split; [apply sqrt_pos|]. rewrite <- sqrt_1 at 2. apply sqrt_le_1_alt. nra. }
  nra.
Qed.

Lemma StarBrightness_center (D u : R) : 0 < D -> StarBrightness 0 D u = 1.
Proof.
  intros HD. unfold StarBrightness.
  replace (0 / (D / 2)) with 0 by (field; lra).
  destruct (Rge_dec 0 1); [lra|].
  replace (1 - 0 * 0) with 1 by ring. rewrite sqrt_1. ring.
Qed.

Section StarPsf.

Variables D res u : R.

(** The side of the PSF and the brightness of pixel (row, col). *)
Definition psf_width : Z :=
  let n := Go.int_of_float (Go.Ceil (D / res)) in
  ((if negb (Z.rem n 2 =? 0)%Z then n + 1 else n) + 4)%Z.

Definition psf_pixel (row col : Z) : R :=
  let center := Z.quot psf_width 2 in
  StarBrightness
    (sqrt (IZR ((row - center) * (row - center) + (col - center) * (col - center)))
     * res) D u.

Lemma BuildStarPsf_spec :
  (0 <= psf_width)%Z ->
  BuildStarPsf D res u =
    Some (tabulate psf_width (fun row => tabulate psf_width (psf_pixel row)),
          Rsum psf_width (fun row => Rsum psf_width (psf_pixel row))).
Proof.
  intros Hw. unfold BuildStarPsf. fold psf_width.
  rewrite make_spec by assumption. cbn [Go.bind]. unfold Go.float64.
  set (w := psf_width) in *.
  match goal with
  | |- Go.for_upto_opt w ?body ?init = _ =>
      destruct (for_upto_opt_inv
        (fun row st => Go.len (fst st) = w /\
           (forall j, (0 <= j < row)%Z ->
              Go.index (fst st) j = Some (tabulate w (psf_pixel j))) /\
           (forall j, (row <= j < w)%Z -> Go.index (fst st) j = Some []) /\
           snd st = Rsum row (fun r => Rsum w (psf_pixel r)))
        body w init) as ([M s] & Hres & Hlen & Hdone & _ & Hsum)
  end.
  - assumption.
  - cbn [fst snd]. repeat split.
    + now apply len_tabulate.
    + intros; lia.
    + intros j Hj. now rewrite index_tabulate by lia.
  - intros row [M0 s0] Hrow (Hlen & Hdone & Htodo & Hsum). cbn [fst snd] in *.
    match goal with
    | |- exists t', Go.for_upto_opt w ?body ?init = Some t' /\ _ =>
        destruct (for_upto_opt_inv
          (fun col st => Go.len (fst st) = w /\
             (forall j, j <> row -> Go.index (fst st) j = Go.index M0 j) /\
             Go.index (fst st) row = Some (tabulate col (psf_pixel row)) /\
             snd st = s0 + Rsum col (psf_pixel row))
          body w init) as ([M1 s1] & Hres1 & Hlen1 & Hother1 & Hrow1 & Hsum1)
    end.
    + assumption.
    + cbn [fst snd]. repeat split; try assumption.
      * rewrite Htodo by lia. now rewrite tabulate_nonpos by lia.
      * unfold Rsum. cbn. lra.
    + intros col [M2 s2] Hcol (Hlen2 & Hother2 & Hrow2 & Hsum2). cbn [fst snd] in *.
      rewrite Hrow2. cbn [Go.bind].
      destruct (assign_spec M2 row (tabulate col (psf_pixel row) ++
                  [psf_pixel row col])) as (M3 & HM3 & Hlen3 & Hidx3); [lia|].
      unfold psf_pixel at 2 in HM3. fold w in HM3. rewrite HM3. cbn [Go.bind].
      eexists. split; [reflexivity|]. cbn [fst snd]. repeat split.
      * congruence.
      * intros j Hj. rewrite Hidx3.
        destruct (Z.eqb_spec j row); [contradiction | now apply Hother2].
      * rewrite Hidx3, Z.eqb_refl, tabulate_succ by lia. reflexivity.
      * rewrite Hsum2, Rsum_succ by lia. unfold psf_pixel at 3. fold w. ring.
    + exists (M1, s1). split; [assumption|]. cbn [fst snd] in *. repeat split.
      * assumption.
      * intros j Hj. destruct (Z.eq_dec j row) as [-> | Hne]; [assumption|].
        rewrite Hother1 by assumption. apply Hdone. lia.
      * intros j Hj. rewrite Hother1 by lia. apply Htodo. lia.
      * rewrite Hsum1, Hsum, Rsum_succ by lia. reflexivity.
  - rewrite Hres. cbn [fst snd] in *. f_equal. f_equal; [|assumption].
    apply index_ext; [now rewrite len_tabulate|].
    intros j Hj. rewrite Hdone, index_tabulate by lia. reflexivity.
Qed.

Hypothesis HD : 0 < D.
Hypothesis Hres : 0 < res.
Hypothesis Hu : 0 <= u < 1.

Lemma psf_width_ge_5 : (5 <= psf_width)%Z.
Proof.
  unfold psf_width, Go.Ceil. rewrite int_of_float_IZR.
  assert (Hpos : 0 < D / res) by (apply Rdiv_lt_0_compat; assumption).
  assert (Hc : (1 <= Zceil (D / res))%Z).
  { apply Z.lt_pred_le. apply lt_IZR. pose proof (Zceil_bound (D / res)) as Hb.
    unfold Z.pred. rewrite plus_IZR. cbn. lra. }
  destruct (Z.rem (Zceil (D / res)) 2 =? 0)%Z; cbn [negb]; lia.
Qed.

Lemma psf_center_range : (0 <= Z.quot psf_width 2 < psf_width)%Z.
Proof.
  pose proof psf_width_ge_5 as Hw.
  rewrite Z.quot_div_nonneg by lia.
  split; [apply Z.div_pos; lia | apply Z.div_lt; lia].
Qed.

Lemma psf_pixel_nonneg (row col : Z) : 0 <= psf_pixel row col.
Proof.
  unfold psf_pixel. apply StarBrightness_nonneg; try assumption.
  apply Rmult_le_pos; [apply sqrt_pos | lra].
Qed.

Lemma psf_pixel_center :
  psf_pixel (Z.quot psf_width 2) (Z.quot psf_width 2) = 1.
Proof.
  unfold psf_pixel.
  replace ((Z.quot psf_width 2 - Z.quot psf_width 2) * (Z.quot psf_width 2 - Z.quot psf_width 2)
           + (Z.quot psf_width 2 - Z.quot psf_width 2) * (Z.quot psf_width 2 - Z.quot psf_width 2))%Z
    with 0%Z by lia.
  rewrite sqrt_0, Rmult_0_l. now apply StarBrightness_center.
Qed.

Lemma psf_sum_ge_1 :
  1 <= Rsum psf_width (fun row => Rsum psf_width (psf_pixel row)).
Proof.
  pose proof psf_center_range as Hc.
  rewrite <- psf_pixel_center at 1.
  apply Rle_trans with (Rsum psf_width (psf_pixel (Z.quot psf_width 2))).
  - apply Rsum_ge_term; [|assumption]. intros. apply psf_pixel_nonneg.
  - apply (Rsum_ge_term psf_width (fun row => Rsum psf_width (psf_pixel row)));
      [|assumption].
    intros i _. apply Rsum_nonneg. intros. apply psf_pixel_nonneg.
Qed.

End StarPsf.

(** C10.  For starDiamKm > 0, resolution > 0 and 0 <= u < 1, BuildStarPsf
    returns a matrix P and a sum sumWeights >= 1: sumWeights is the sum
    of the entries of P, none of which is negative, and the center pixel
    P[c][c] (c = width / 2) lies at radius 0 and has brightness exactly 1.
    So sumWeights is positive, and dividing by it is well-defined. *)
Theorem BuildStarPsf_sum_at_least_one (D res u : R) :
  0 < D -> 0 < res -> 0 <= u < 1 ->
  exists P sumWeights,
    BuildStarPsf D res u = Some (P, sumWeights) /\
    1 <= sumWeights /\ sumWeights <> 0 /\
    sumWeights = fold_left Rplus (concat P) 0 /\
    at2 P (Z.quot (Go.len P) 2) (Z.quot (Go.len P) 2) = Some 1 /\
    (forall row col v, at2 P row col = Some v -> 0 <= v).
Proof.
  intros HD Hres Hu.
  pose proof (psf_width_ge_5 D res HD Hres) as Hw.
  pose proof (psf_center_range D res HD Hres) as Hc.
  pose proof (psf_sum_ge_1 D res u HD Hres Hu) as Hsum.
  set (w := psf_width D res) in *.
  exists (tabulate w (fun row => tabulate w (psf_pixel D res u row))),
         (Rsum w (fun row => Rsum w (psf_pixel D res u row))).
  split; [apply BuildStarPsf_spec; fold w; lia|].
  split; [assumption|]. split; [lra|].
  split; [now rewrite fold_left_Rplus_concat_tabulate|].
  rewrite len_tabulate by lia. split.
  - rewrite at2_tabulate by assumption. f_equal. now apply psf_pixel_center.
  - intros row col v Hv.
    apply at2_in_range in Hv as (r & Hr & Hv).
    pose proof (index_range _ _ _ Hr) as Hrow. rewrite len_tabulate in Hrow by lia.
    rewrite index_tabulate in Hr by assumption. injection Hr as <-.
    pose proof (index_range _ _ _ Hv) as Hcol. rewrite len_tabulate in Hcol by lia.
    rewrite index_tabulate in Hv by assumption. injection Hv as <-.
    now apply psf_pixel_nonneg.
Qed.

Lemma BuildStarPsf_sum_at_least_one_witness :
  exists P sumWeights,
    BuildStarPsf 1 1 0 = Some (P, sumWeights) /\
    1 <= sumWeights /\ sumWeights <> 0 /\
    sumWeights = fold_left Rplus (concat P) 0 /\
    at2 P (Z.quot (Go.len P) 2) (Z.quot (Go.len P) 2) = Some 1 /\
    (forall row col v, at2 P row col = Some v -> 0 <= v).
Proof.
  apply (BuildStarPsf_sum_at_least_one 1 1 0).
  - lra.
  - lra.
  - lra.
Defined.

(** ** The camera response table (C8) *)

(** The sum of the weights of a table, and the table after every weight
    has been divided by [total]. *)
Definition sum_weights (pairs : list (R * R)) : R :=
  fold_left (fun acc q => acc + snd q) pairs 0.
Definition normalized (total : R) (pairs : list (R * R)) : list (R * R) :=
  map (fun q => (fst q, snd q / total)) pairs.

Lemma for_each_opt_total {A St : Type} (xs : list A) (body : A -> St -> St) (s : St) :
  Go.for_each_opt xs (fun x s => Some (body x s)) s =
  Some (fold_left (fun s x => body x s) xs s).
Proof.
  revert s. induction xs as [|x rest IH]; intros s; [reflexivity|]. cbn. apply IH.
Qed.

Lemma sum_weights_acc (pairs : list (R * R)) (acc : R) :
  fold_left (fun acc q => acc + snd q) pairs acc = acc + sum_weights pairs.
Proof.
  unfold sum_weights. revert acc.
  induction pairs as [|q rest IH]; intros acc; [cbn; lra|].
  cbn. rewrite IH, (IH (0 + snd q)). lra.
Qed.

(** The normalised weights sum to 1 when the total is not zero. *)
Lemma sum_weights_normalized (pairs : list (R * R)) :
  sum_weights pairs <> 0 ->
  sum_weights (normalized (sum_weights pairs) pairs) = 1.
Proof.
  intros Hne.
  assert (H : forall t l, sum_weights (normalized t l) = sum_weights l / t).
  { intros t l. induction l as [|q l IH]; [unfold sum_weights; cbn; lra|].
    unfold sum_weights in *. cbn. rewrite sum_weights_acc, (sum_weights_acc l).
    unfold sum_weights. fold (normalized t l). rewrite IH. lra. }
  rewrite H. now field.
Qed.

(** The data of the camera-response plot: the greatest weight (at least
    0), the response relative to it, and the two ends of the horizontal
    line. *)
Definition max_weight (t : list (R * R)) : R :=
  fold_left (fun maxWeight pair =>
               if Rgt_dec (snd pair) maxWeight then snd pair else maxWeight) t 0.
Definition response_points (t : list (R * R)) : list (R * R) :=
  map (fun d => (fst d, snd d / max_weight t)) t.
Definition zero_line (t : list (R * R)) : list (R * R) :=
  match Go.index t 0, Go.index t (Go.len t - 1) with
  | Some d0, Some dn => [(fst d0, 0); (fst dn, 0)]
  | _, _ => []
  end.
Definition plot_title (filename : string) : string :=
  ("Camera response vs Wavelength from file: " ++ filename)%string.

Lemma max_weight_acc (t : list (R * R)) (acc : R) :
  let mw := fold_left (fun maxWeight pair =>
                         if Rgt_dec (snd pair) maxWeight then snd pair else maxWeight)
                      t acc in
  acc <= mw /\ forall q, In q t -> snd q <= mw.
Proof.
  cbv zeta. revert acc. induction t as [|d t IH]; intros acc.
  - cbn. split; [lra | contradiction].
  - cbn [fold_left].
    destruct (IH (if Rgt_dec (snd d) acc then snd d else acc)) as [Hacc Hin].
    destruct (Rgt_dec (snd d) acc) as [Hgt | Hle].
    + split; [lra|]. intros q [<- | Hq]; [lra | now apply Hin].
    + split; [lra|]. intros q [<- | Hq]; [lra | now apply Hin].
Qed.

Lemma sum_weights_nonpos (t : list (R * R)) :
  (forall q, In q t -> snd q <= 0) -> sum_weights t <= 0.
Proof.
  induction t as [|d t IH]; intros H.
  - unfold sum_weights. cbn. lra.
  - unfold sum_weights in *. cbn [fold_left]. rewrite sum_weights_acc.
    pose proof (H d (or_introl eq_refl)).
    assert (sum_weights t <= 0) by (apply IH; intros q Hq; apply H; now right).
    unfold sum_weights in *. lra.
Qed.

(** Weights with a positive sum have a positive greatest weight: the plot
    divides by a positive number. *)
Lemma max_weight_pos (t : list (R * R)) : 0 < sum_weights t -> 0 < max_weight t.
Proof.
  intros Hsum. destruct (max_weight_acc t 0) as [H0 Hin]. fold (max_weight t) in *.
  destruct (Rle_lt_or_eq_dec 0 (max_weight t) H0) as [Hlt | Heq]; [exact Hlt|].
  exfalso. assert (sum_weights t <= 0); [|lra].
  apply sum_weights_nonpos. intros q Hq. specialize (Hin q Hq). lra.
Qed.

Section Store.

Variables (h0 : Store) (pairs : list (R * R)).

Let hdr : SliceHeader := {| array := Some (length h0); length_ := Go.len pairs |}.

Lemma slice_read_fresh (b : list (R * R)) (i : Z) :
  Go.len b = Go.len pairs ->
  slice_read (h0 ++ [b]) hdr i = Go.index b i.
Proof.
  intros Hlen. unfold slice_read. cbn [length_ array hdr Go.bind].
  rewrite nth_error_app2, Nat.sub_diag by lia. cbn [nth_error Go.bind].
  destruct (Z.leb_spec 0 i); destruct (Z.ltb_spec i (Go.len pairs)); cbn [andb];
    try reflexivity; symmetry; apply index_out_of_range; lia.
Qed.

Lemma set_nth_last {A : Type} (l : list A) (a b : A) :
  Go.set_nth (l ++ [a]) (length l) b = Some (l ++ [b]).
Proof.
  induction l as [|x l IH]; [reflexivity|]. cbn. now rewrite IH.
Qed.

Lemma slice_write_fresh (b b' : list (R * R)) (i : Z) (v : R * R) :
  Go.len b = Go.len pairs -> Go.assign b i v = Some b' ->
  slice_write (h0 ++ [b]) hdr i v = Some (h0 ++ [b']).
Proof.
  intros Hlen Hb'. unfold slice_write. cbn [length_ array hdr Go.bind].
  assert (Hi : (0 <= i < Go.len pairs)%Z).
  { destruct (Z_lt_dec i 0); [unfold Go.assign in Hb';
      destruct (Z.ltb_spec i 0); [discriminate | lia]|].
    destruct (Z_lt_dec i (Go.len b)); [lia|].
    rewrite assign_out_of_range in Hb' by lia. discriminate. }
  destruct (Z.leb_spec 0 i); [|lia]. destruct (Z.ltb_spec i (Go.len pairs)); [|lia].
  cbn [andb]. rewrite nth_error_app2, Nat.sub_diag by lia. cbn [nth_error Go.bind].
  rewrite Hb'. cbn [Go.bind]. apply set_nth_last.
Qed.

(** The first loop adds up the weights. *)
Lemma cumWeights_loop :
  Go.for_upto_opt (Go.len pairs) (fun i cumWeights =>
    do q <- slice_read (h0 ++ [pairs]) hdr i; Some (cumWeights + snd q)) 0 =
  Some (sum_weights pairs).
Proof.
  rewrite (for_upto_opt_ext _
             (fun i c => do q <- Go.index pairs i; Some (c + snd q))).
  2: { intros i t _. now rewrite slice_read_fresh. }
  rewrite (for_upto_opt_index pairs (fun q c => Some (c + snd q))).
  now rewrite (for_each_opt_total pairs (fun q c => c + snd q)).
Qed.

(** The second loop divides every weight in the backing array. *)
Lemma normalize_loop (total : R) :
  Go.for_upto_opt (Go.len pairs) (fun i h =>
    do q <- slice_read h hdr i;
    slice_write h hdr i (fst q, snd q / total)) (h0 ++ [pairs]) =
  Some (h0 ++ [normalized total pairs]).
Proof.
  destruct (for_upto_opt_inv
    (fun i h => exists b, h = h0 ++ [b] /\ Go.len b = Go.len pairs /\
       forall j, Go.index b j =
         if (j <? i)%Z
         then option_map (fun q => (fst q, snd q / total)) (Go.index pairs j)
         else Go.index pairs j)
    (fun i h => do q <- slice_read h hdr i;
                slice_write h hdr i (fst q, snd q / total))
    (Go.len pairs) (h0 ++ [pairs])) as (h & Hh & b & -> & Hlen & Hidx).
  - unfold Go.len. lia.
  - exists pairs. repeat split. intros j.
    destruct (Z.ltb_spec j 0); [|reflexivity].
    rewrite index_out_of_range by (unfold Go.len; lia). reflexivity.
  - intros i h Hi (b & -> & Hlen & Hidx).
    rewrite slice_read_fresh by assumption.
    destruct (index_in_range pairs i Hi) as [q Hq].
    assert (Hbq : Go.index b i = Some q).
    { rewrite Hidx. destruct (Z.ltb_spec i i); [lia | assumption]. }
    rewrite Hbq. cbn [Go.bind].
    destruct (assign_spec b i (fst q, snd q / total)) as (b' & Hb' & Hlen' & Hidx');
      [lia|].
    rewrite (slice_write_fresh b b' i _ Hlen Hb').
    eexists. split; [reflexivity|]. exists b'. repeat split; [congruence|].
    intros j. rewrite Hidx', Hidx.
    destruct (Z.eqb_spec j i) as [-> | Hne].
    + destruct (Z.ltb_spec i (i + 1)); [|lia]. now rewrite Hq.
    + destruct (Z.ltb_spec j i); destruct (Z.ltb_spec j (i + 1)); try lia; reflexivity.
  - transitivity (Some (h0 ++ [b])); [exact Hh|].
    do 3 f_equal. apply index_ext.
    + unfold normalized. now rewrite len_map.
    + intros j Hj. unfold normalized. rewrite Hidx, index_map.
      destruct (Z.ltb_spec j (Go.len pairs)); [reflexivity | lia].
Qed.

(** The plot reads the table through the header and hands the relative
    responses and the horizontal line to the plot package; it ends the run
    when the package refuses them or cannot save the plot. *)
Lemma MakeCameraResponsePlot_fresh
    (NewLinePoints NewLine : list (R * R) -> result unit)
    (Save : string -> list (R * R) -> list (R * R) -> string -> result unit)
    (b : list (R * R)) (filename : string) :
  Go.len b = Go.len pairs -> b <> [] ->
  MakeCameraResponsePlot NewLinePoints NewLine Save (h0 ++ [b]) hdr filename =
    match NewLinePoints (response_points b) with
    | Err _ => Exit 1
    | Ok _ =>
        match NewLine (zero_line b) with
        | Err _ => Panic
        | Ok _ =>
            match Save (plot_title filename) (response_points b) (zero_line b)
                       "camera_response.png"%string with
            | Err _ => Exit 1
            | Ok _ => Continue tt
            end
        end
    end.
Proof.
  intros Hlen Hne. unfold MakeCameraResponsePlot. cbn [length_ hdr].
  rewrite <- Hlen.
  rewrite (for_upto_opt_ext _
             (fun i mw => do pair <- Go.index b i;
                          Some (if Rgt_dec (snd pair) mw then snd pair else mw))).
  2: { intros i t _. now rewrite slice_read_fresh. }
  rewrite (for_upto_opt_index b
             (fun pair mw => Some (if Rgt_dec (snd pair) mw then snd pair else mw))).
  rewrite (for_each_opt_total b
             (fun pair mw => if Rgt_dec (snd pair) mw then snd pair else mw)).
  fold (max_weight b).
  assert (Hn : (0 < Go.len b)%Z).
  { destruct b; [contradiction | unfold Go.len; cbn; lia]. }
  rewrite make_spec by lia. cbn [Go.bind].
  rewrite (fill_loop_ext _
             (fun i => match Go.index b i with
                       | Some d => (fst d, snd d / max_weight b)
                       | None => (0, 0)
                       end)).
  2: { intros i t Hi. rewrite slice_read_fresh by assumption.
       destruct (index_in_range b i Hi) as [d ->]. reflexivity. }
  2: { apply len_tabulate. lia. }
  assert (Hpts : tabulate (Go.len b)
                   (fun i => match Go.index b i with
                             | Some d => (fst d, snd d / max_weight b)
                             | None => (0, 0)
                             end) = response_points b).
  { apply index_ext.
    - rewrite len_tabulate by lia. unfold response_points. now rewrite len_map.
    - intros j Hj. rewrite len_tabulate in Hj by lia.
      rewrite index_tabulate by assumption. unfold response_points.
      rewrite index_map. destruct (index_in_range b j Hj) as [d ->]. reflexivity. }
  rewrite Hpts.
  rewrite !slice_read_fresh by assumption.
  destruct (index_in_range b 0 ltac:(lia)) as [d0 Hd0].
  destruct (index_in_range b (Go.len b - 1) ltac:(lia)) as [dn Hdn].
  unfold zero_line, plot_title. rewrite Hd0, Hdn. cbn [Go.bind].
  destruct (NewLinePoints (response_points b)); [|reflexivity].
  destruct (NewLine _); [|reflexivity].
  destruct (Save _ _ _ _); reflexivity.
Qed.

End Store.

Section LoadQEtable.

Variable ReadFile : string -> result string.
Variable Unmarshal : string -> result (list (R * R)).
Variables NewLinePoints NewLine : list (R * R) -> result unit.
Variable Save : string -> list (R * R) -> list (R * R) -> string -> result unit.
Variables (st : MainState) (data : string) (pairs : list (R * R)).

Hypothesis Hpath : PathToQEtable (event st) <> EmptyString.
Hypothesis Hread : ReadFile (PathToQEtable (event st)) = Ok data.
Hypothesis Hparse : Unmarshal data = Ok pairs.

(** The header that both [qeTable] and [event.QEtable] hold. *)
Definition qe_header : SliceHeader :=
  {| array := Some (length (store st)); length_ := Go.len pairs |}.

(** The state in which the run goes on: the event holds the header, and
    the backing array holds every weight divided by the total. *)
Definition qe_loaded : MainState :=
  {| event := set_QEtable (event st) qe_header;
     store := store st ++ [normalized (sum_weights pairs) pairs];
     stdout := stdout st |}.

(** A table with no entries ends the run with exit code 14. *)
Lemma loadQEtable_empty :
  pairs = [] ->
  loadQEtable ReadFile Unmarshal NewLinePoints NewLine Save st = Exit 14.
Proof.
  intros ->. unfold loadQEtable, parseArrayFormat.
  destruct (string_dec _ _); [contradiction|].
  rewrite Hread, Hparse. reflexivity.
Qed.

(** A table with entries passes whatever the signs of its weights: every
    weight in the shared backing array is divided by the total, and the
    plot of the divided weights decides how the stretch ends. *)
Lemma loadQEtable_nonempty :
  pairs <> [] ->
  let table := normalized (sum_weights pairs) pairs in
  loadQEtable ReadFile Unmarshal NewLinePoints NewLine Save st =
    match NewLinePoints (response_points table) with
    | Err _ => Exit 1
    | Ok _ =>
        match NewLine (zero_line table) with
        | Err _ => Panic
        | Ok _ =>
            match Save (plot_title (PathToQEtable (event st)))
                       (response_points table) (zero_line table)
                       "camera_response.png"%string with
            | Err _ => Exit 1
            | Ok _ => Continue qe_loaded
            end
        end
    end.
Proof.
  intros Hne table. unfold loadQEtable, parseArrayFormat.
  destruct (string_dec _ _); [contradiction|].
  rewrite Hread, Hparse. cbn [length_ event store stdout].
  destruct (Z.ltb_spec (Go.len pairs) 1) as [Hlt | _].
  { destruct pairs; [contradiction | unfold Go.len in Hlt; cbn in Hlt; lia]. }
  rewrite cumWeights_loop, normalize_loop.
  rewrite (MakeCameraResponsePlot_fresh (store st) pairs NewLinePoints NewLine Save
             (normalized (sum_weights pairs) pairs)).
  - fold table. replace (PathToQEtable (set_QEtable (event st) _))
      with (PathToQEtable (event st)) by reflexivity.
    destruct (NewLinePoints _); [|reflexivity].
    destruct (NewLine _); [|reflexivity].
    destruct (Save _ _ _ _); reflexivity.
  - unfold normalized. apply len_map.
  - unfold normalized. destruct pairs; [contradiction | discriminate].
Qed.

End LoadQEtable.

(** *** The propagator returns a field of N x N entries *)

(** A grid of [h] rows of [w] entries each. *)
Definition rect {A : Type} (h w : Z) (m : list (list A)) : Prop :=
  Go.len m = h /\ Forall (fun row => Go.len row = w) m.

Lemma len_concat_rect {A : Type} (h w : Z) (m : list (list A)) :
  rect h w m -> Go.len (concat m) = (h * w)%Z.
Proof.
  intros [<- Hrows]. unfold Go.len in *.
  induction Hrows as [|row m Hrow _ IH]; [reflexivity|].
  cbn [concat length]. rewrite length_app. lia.
Qed.

Lemma Flatten2D_rect (h w : Z) (m : Grid) :
  rect h w m -> Flatten2D m = Ok (concat m).
Proof.
  intros [_ Hrows]. unfold Flatten2D. destruct m as [|m0 rest]; [reflexivity|].
  inversion Hrows as [|? ? H0 Hrest]; subst.
  replace (forallb _ rest) with true; [reflexivity|].
  symmetry. apply forallb_forall. intros row Hin.
  rewrite Forall_forall in Hrest. apply Z.eqb_eq. rewrite (Hrest row Hin). now symmetry.
Qed.

Lemma rect_tabulate {A : Type} (h w : Z) (f : Z -> Z -> A) :
  (0 <= h)%Z -> (0 <= w)%Z -> rect h w (tabulate h (fun r => tabulate w (f r))).
Proof.
  intros Hh Hw. split; [now apply len_tabulate|].
  apply Forall_forall. intros row Hrow. unfold tabulate at 1 in Hrow.
  apply in_map_iff in Hrow as (k & <- & _). now apply len_tabulate.
Qed.

Lemma Zgemm3m_total (N : Z) (alpha beta : complex128) (a b c : list complex128) :
  (1 <= N)%Z -> Go.len a = (N * N)%Z -> Go.len b = (N * N)%Z -> Go.len c = (N * N)%Z ->
  exists c', Zgemm3m N N N alpha a N b N beta c N = Some c' /\ Go.len c' = (N * N)%Z.
Proof.
  intros HN Ha Hb Hc. unfold Zgemm3m.
  destruct (index_in_range a 0) as [? ->]; [nia|].
  destruct (index_in_range b 0) as [? ->]; [nia|].
  destruct (index_in_range c 0) as [? ->]; [nia|]. cbn [Go.bind].
  apply (for_upto_opt_inv (fun _ t => Go.len t = (N * N)%Z)); [lia | assumption |].
  intros i t Hi Ht.
  apply (for_upto_opt_inv (fun _ t => Go.len t = (N * N)%Z)); [lia | assumption |].
  intros j u Hj Hu.
  match goal with
  | |- context [Go.for_upto_opt N ?body Czero] =>
      destruct (for_upto_opt_inv (fun _ _ => True) body N Czero) as (dot & -> & _)
  end.
  - lia.
  - exact I.
  - intros l acc Hl _.
    destruct (index_in_range a (i * N + l)) as [? ->]; [nia|].
    destruct (index_in_range b (l * N + j)) as [? ->]; [nia|].
    cbn [Go.bind]. eauto.
  - cbn [Go.bind].
    destruct (index_in_range u (i * N + j)) as [? ->]; [nia|]. cbn [Go.bind].
    match goal with
    | |- context [Go.assign u ?k ?v] =>
        destruct (assign_spec u k v) as (u' & -> & Hlen & _); [nia|]
    end.
    exists u'. split; [reflexivity | congruence].
Qed.

Lemma FullObservationPlaneSincSolution_total (fresnel : R -> R * R)
    (N : Z) (L Z_ lambda : R) (sourcePlane : Grid) :
  (2 <= N)%Z -> rect N N sourcePlane ->
  exists E, FullObservationPlaneSincSolution fresnel L Z_ lambda sourcePlane = Some E /\
            Go.len E = (N * N)%Z.
Proof.
  intros HN Hsp. unfold FullObservationPlaneSincSolution.
  destruct Hsp as [Hlen Hrows]. rewrite Hlen.
  rewrite fresnelWeights_spec by assumption. cbn [Go.bind].
  rewrite (Flatten2D_rect N N) by (apply rect_tabulate; lia).
  rewrite (Flatten2D_rect N N) by (split; assumption).
  rewrite !make_spec by nia. cbn [Go.bind].
  destruct (Zgemm3m_total N (complex 1 0) (complex 0 0)
              (concat (tabulate N (fun row => tabulate N (fun col =>
                 weight_row_spec fresnel N L Z_ lambda (Z.abs (col - row))))))
              (concat sourcePlane)
              (tabulate (N * N) (fun _ => Czero))) as (C & HC & HlenC).
  - lia.
  - apply len_concat_rect. apply rect_tabulate; lia.
  - apply len_concat_rect. split; assumption.
  - apply len_tabulate. nia.
  - rewrite HC. cbn [Go.bind].
    apply Zgemm3m_total; try assumption; try lia.
    + apply len_concat_rect. apply rect_tabulate; lia.
    + apply len_tabulate. nia.
Qed.

(** *** The accumulation of the weighted fields *)

(** [for i := range s { s[i] = g(i, s[i]) }]. *)
Lemma mapi_loop {A : Type} (g : Z -> A -> A) (s : list A) :
  exists s',
    Go.for_upto_opt (Go.len s) (fun i s => do v <- Go.index s i; Go.assign s i (g i v)) s
      = Some s' /\
    Go.len s' = Go.len s /\
    forall j, Go.index s' j = option_map (g j) (Go.index s j).
Proof.
  destruct (for_upto_opt_inv
    (fun i t => Go.len t = Go.len s /\
       forall j, Go.index t j =
                 if (j <? i)%Z then option_map (g j) (Go.index s j) else Go.index s j)
    (fun i s => do v <- Go.index s i; Go.assign s i (g i v)) (Go.len s) s)
    as (s' & Hs' & Hlen & Hidx).
  - unfold Go.len. lia.
  - split; [reflexivity|]. intros j.
    destruct (Z.ltb_spec j 0); [|reflexivity].
    rewrite index_out_of_range by (unfold Go.len; lia). reflexivity.
  - intros i t Hi [Hlen Hidx].
    destruct (index_in_range s i Hi) as [v Hv].
    assert (Ht : Go.index t i = Some v).
    { rewrite Hidx. destruct (Z.ltb_spec i i); [lia | assumption]. }
    rewrite Ht. cbn [Go.bind].
    destruct (assign_spec t i (g i v)) as (t' & -> & Hlen' & Hidx'); [lia|].
    exists t'. split; [reflexivity|]. split; [congruence|].
    intros j. rewrite Hidx', Hidx.
    destruct (Z.eqb_spec j i) as [-> | Hne].
    + destruct (Z.ltb_spec i (i + 1)); [|lia]. now rewrite Hv.
    + destruct (Z.ltb_spec j i); destruct (Z.ltb_spec j (i + 1)); try lia; reflexivity.
  - exists s'. repeat split; try assumption.
    intros j. rewrite Hidx.
    destruct (Z.ltb_spec j (Go.len s)); [reflexivity|].
    rewrite index_out_of_range by lia. reflexivity.
Qed.

(** The field [v] scaled by the real [s], and [a + s b]. *)
Definition scaled (s : R) (v : list complex128) : list complex128 :=
  map (fun z => Cmul z (complex s 0)) v.
Definition axpy (a b : list complex128) (s : R) : list complex128 :=
  tabulate (Go.len a) (fun i =>
    Cadd (nth (Z.to_nat i) a Czero) (Cmul (complex s 0) (nth (Z.to_nat i) b Czero))).

Lemma scaleComplex_spec (v : list complex128) (s : R) :
  scaleComplex v s = Some (scaled s v).
Proof.
  unfold scaleComplex.
  destruct (mapi_loop (fun _ z => Cmul z (complex s 0)) v) as (v' & -> & Hlen & Hidx).
  f_equal. apply index_ext.
  - unfold scaled. now rewrite len_map.
  - intros j _. unfold scaled. now rewrite Hidx, index_map.
Qed.

Lemma index_nth_Z {A : Type} (s : list A) (i : Z) (d : A) :
  (0 <= i < Go.len s)%Z -> Go.index s i = Some (nth (Z.to_nat i) s d).
Proof.
  intros Hi. rewrite <- (Z2Nat.id i) at 1 by lia.
  apply index_nth. unfold Go.len in Hi. lia.
Qed.

Lemma addScaledComplexInPlace_spec (a b : list complex128) (s : R) :
  Go.len a = Go.len b -> addScaledComplexInPlace a b s = Some (axpy a b s).
Proof.
  intros Hlen. unfold addScaledComplexInPlace.
  rewrite (proj2 (Z.eqb_eq _ _) Hlen). cbn [negb].
  rewrite (for_upto_opt_ext _
    (fun i t => do v <- Go.index t i;
                Go.assign t i (Cadd v (Cmul (complex s 0) (nth (Z.to_nat i) b Czero))))).
  2: { intros i t Hi. destruct (Go.index t i); [|reflexivity]. cbn [Go.bind].
       now rewrite (index_nth_Z b i Czero) by lia. }
  destruct (mapi_loop (fun i v => Cadd v (Cmul (complex s 0) (nth (Z.to_nat i) b Czero))) a)
    as (a' & -> & Hlen' & Hidx).
  f_equal. apply index_ext.
  - unfold axpy. rewrite len_tabulate; [assumption | unfold Go.len; lia].
  - intros j Hj. unfold axpy. rewrite Hidx, index_tabulate by lia.
    now rewrite (index_nth_Z a j Czero) by lia.
Qed.

Lemma len_axpy (a b : list complex128) (s : R) : Go.len (axpy a b s) = Go.len a.
Proof. unfold axpy. apply len_tabulate. unfold Go.len. lia. Qed.

(** The combined field in the words of the specification (section 4.4):
    E = sum of w_k E_k, accumulated in table order. *)
Fixpoint accumulate (E : list complex128) (rest : list (R * list complex128))
    : list complex128 :=
  match rest with
  | [] => E
  | (w, Ek) :: rest' => accumulate (axpy E Ek w) rest'
  end.

Definition weighted_sum (terms : list (R * list complex128)) : list complex128 :=
  match terms with
  | [] => []
  | (w0, E0) :: rest => accumulate (scaled w0 E0) rest
  end.

Section CombineFields.

Variable fresnel : R -> R * R.
Variables (Lkm Zkm : R) (sourcePlane : Grid).
Variables (h : Store) (hdr : SliceHeader) (n : Z).

(** Table entry [q] yields the field [E] of [n] entries. *)
Definition field_of (q : R * R) (E : list complex128) : Prop :=
  FullObservationPlaneSincSolution fresnel Lkm Zkm (fst q * nmToKm) sourcePlane
    = Some E /\ Go.len E = n.

Lemma accumulate_loop (rest : list (R * R)) (fields : list (list complex128))
    (k : Z) (E : list complex128) :
  (forall j q, nth_error rest j = Some q ->
     slice_read h hdr (k + Z.of_nat j) = Some q) ->
  Forall2 field_of rest fields -> Go.len E = n ->
  Go.for_loop_opt (length rest) k (fun i eField =>
    do qi <- slice_read h hdr i;
    let WavelengthKm := fst qi * nmToKm in
    do newField <- FullObservationPlaneSincSolution fresnel Lkm Zkm WavelengthKm
                     sourcePlane;
    do qi <- slice_read h hdr i;
    addScaledComplexInPlace eField newField (snd qi)) E =
  Some (accumulate E (combine (map snd rest) fields)).
Proof.
  intros Hread Hfields. revert k E Hread.
  induction Hfields as [|q F rest fields [HF HlenF] _ IH]; intros k E Hread HlenE;
    [reflexivity|].
  cbn [length Go.for_loop_opt map combine accumulate].
  pose proof (Hread O q eq_refl) as Hq. rewrite Z.add_0_r in Hq.
  rewrite Hq. cbn [Go.bind]. rewrite HF. cbn [Go.bind].
  rewrite addScaledComplexInPlace_spec by congruence.
  apply IH.
  - intros j q' Hj. replace (k + 1 + Z.of_nat j)%Z with (k + Z.of_nat (S j))%Z by lia.
    now apply Hread.
  - now rewrite len_axpy.
Qed.

End CombineFields.

Lemma combineFields_spec (fresnel : R -> R * R) (Lkm Zkm WavelengthKm : R)
    (sourcePlane : Grid) (st : MainState) (table : list (R * R))
    (fields : list (list complex128)) (n : Z) :
  table <> [] ->
  length_ (QEtable (event st)) = Go.len table ->
  (forall i q, Go.index table i = Some q ->
     slice_read (store st) (QEtable (event st)) i = Some q) ->
  Forall2 (field_of fresnel Lkm Zkm sourcePlane n) table fields ->
  combineFields fresnel Lkm Zkm WavelengthKm sourcePlane st =
    Some (weighted_sum (combine (map snd table) fields)).
Proof.
  intros Hne Hlen Hread Hfields. unfold combineFields. rewrite Hlen.
  destruct Hfields as [|q0 E0 rest fields [HE0 HlenE0] Hrest]; [contradiction|].
  destruct (Z.gtb_spec (Go.len (q0 :: rest)) 0) as [_ | Hle];
    [|unfold Go.len in Hle; cbn in Hle; lia].
  rewrite (Hread 0%Z q0 eq_refl). cbn [Go.bind]. rewrite HE0. cbn [Go.bind].
  rewrite scaleComplex_spec. cbn [Go.bind].
  replace (Z.to_nat (Go.len (q0 :: rest) - 1)) with (length rest)
    by (unfold Go.len; cbn [length]; lia).
  rewrite (accumulate_loop fresnel Lkm Zkm sourcePlane (store st) (QEtable (event st)) n
             rest fields).
  - reflexivity.
  - intros j q Hj. apply Hread. unfold Go.index.
    destruct (Z.ltb_spec (1 + Z.of_nat j) 0); [lia|].
    replace (Z.to_nat (1 + Z.of_nat j)) with (S j) by lia. exact Hj.
  - assumption.
  - unfold scaled. now rewrite len_map.
Qed.

(** On an N x N source plane every table entry yields a field. *)
Lemma fields_exist (fresnel : R -> R * R) (Lkm Zkm : R) (sourcePlane : Grid)
    (N : Z) (table : list (R * R)) :
  (2 <= N)%Z -> rect N N sourcePlane ->
  exists fields, Forall2 (field_of fresnel Lkm Zkm sourcePlane (N * N)) table fields.
Proof.
  intros HN Hsp. induction table as [|q table [fields IH]].
  - exists []. constructor.
  - destruct (FullObservationPlaneSincSolution_total fresnel N Lkm Zkm
                (fst q * nmToKm) sourcePlane HN Hsp) as (E & HE & HlenE).
    exists (E :: fields). constructor; [split; assumption | assumption].
Qed.

Lemma field_of_normalized (fresnel : R -> R * R) (Lkm Zkm : R) (sourcePlane : Grid)
    (n : Z) (t : R) (pairs : list (R * R)) (fields : list (list complex128)) :
  Forall2 (field_of fresnel Lkm Zkm sourcePlane n) pairs fields ->
  Forall2 (field_of fresnel Lkm Zkm sourcePlane n) (normalized t pairs) fields.
Proof.
  induction 1 as [|q E pairs fields Hq _ IH]; [constructor|].
  cbn. constructor; [exact Hq | exact IH].
Qed.

(** C8, as amended.  When a QE table is supplied (the file is read and
    decoded): a table with no entries ends the run (exit code 14).  No
    test is made on the sign of the weights.  For a table with entries
    whose weights have a sum other than zero, every weight is divided by
    that sum, in the backing array that [event.QEtable] shares, so the
    weights read later sum to 1, and the greatest of them is positive.
    The camera-response plot of these weights is then made: when the plot
    package refuses the points or cannot save the plot the run ends
    (exit code 1, or a panic for the horizontal line); otherwise the run
    goes on, and on an N x N source plane the combined field is the sum of
    the per-wavelength fields weighted by the divided weights. *)
Theorem qe_table_weights_normalized
    (ReadFile : string -> result string)
    (Unmarshal : string -> result (list (R * R)))
    (NewLinePoints NewLine : list (R * R) -> result unit)
    (Save : string -> list (R * R) -> list (R * R) -> string -> result unit)
    (st : MainState) (data : string) (pairs : list (R * R)) :
  PathToQEtable (event st) <> EmptyString ->
  ReadFile (PathToQEtable (event st)) = Ok data ->
  Unmarshal data = Ok pairs ->
  (pairs = [] ->
   loadQEtable ReadFile Unmarshal NewLinePoints NewLine Save st = Exit 14) /\
  (pairs <> [] -> sum_weights pairs <> 0 ->
   let table := normalized (sum_weights pairs) pairs in
   let st' := qe_loaded st pairs in
   sum_weights table = 1 /\
   0 < max_weight table /\
   loadQEtable ReadFile Unmarshal NewLinePoints NewLine Save st =
     match NewLinePoints (response_points table) with
     | Err _ => Exit 1
     | Ok _ =>
         match NewLine (zero_line table) with
         | Err _ => Panic
         | Ok _ =>
             match Save (plot_title (PathToQEtable (event st)))
                        (response_points table) (zero_line table)
                        "camera_response.png"%string with
             | Err _ => Exit 1
             | Ok _ => Continue st'
             end
         end
     end /\
   length_ (QEtable (event st')) = Go.len pairs /\
   (forall i q, Go.index pairs i = Some q ->
      slice_read (store st') (QEtable (event st')) i =
        Some (fst q, snd q / sum_weights pairs)) /\
   (forall fresnel Lkm Zkm WavelengthKm sourcePlane N,
      (2 <= N)%Z -> rect N N sourcePlane ->
      exists fields,
        Forall2 (field_of fresnel Lkm Zkm sourcePlane (N * N)) pairs fields /\
        combineFields fresnel Lkm Zkm WavelengthKm sourcePlane st' =
          Some (weighted_sum
                  (combine (map (fun q => snd q / sum_weights pairs) pairs) fields)))).
Proof.
  intros Hpath Hread Hparse. split.
  - now apply (loadQEtable_empty ReadFile Unmarshal NewLinePoints NewLine Save st data).
  - intros Hne Hsum table st'.
    assert (Hone : sum_weights table = 1) by now apply sum_weights_normalized.
    split; [exact Hone|].
    split; [apply max_weight_pos; rewrite Hone; lra|].
    split.
    { now apply (loadQEtable_nonempty ReadFile Unmarshal NewLinePoints NewLine Save
                   st data pairs). }
    subst st'. unfold qe_loaded. cbn [event store QEtable set_QEtable].
    assert (Hslice : forall i q,
              Go.index (normalized (sum_weights pairs) pairs) i = Some q ->
              slice_read (store st ++ [normalized (sum_weights pairs) pairs])
                (qe_header st pairs) i = Some q).
    { intros i q Hq. unfold qe_header.
      rewrite slice_read_fresh; [assumption|]. unfold normalized. apply len_map. }
    split; [reflexivity|]. split.
    + intros i q Hq. apply Hslice. unfold normalized. now rewrite index_map, Hq.
    + intros fresnel Lkm Zkm WavelengthKm sourcePlane N HN Hsp.
      destruct (fields_exist fresnel Lkm Zkm sourcePlane N pairs HN Hsp) as [fields Hf].
      exists fields. split; [assumption|].
      rewrite (combineFields_spec fresnel Lkm Zkm WavelengthKm sourcePlane _
                 (normalized (sum_weights pairs) pairs) fields (N * N)).
      * unfold normalized. now rewrite map_map.
      * destruct pairs; [contradiction | discriminate].
      * cbn [event QEtable set_QEtable qe_header length_]. unfold normalized.
        now rewrite len_map.
      * exact Hslice.
      * now apply field_of_normalized.
Qed.

(** A run with a camera-response file of two entries. *)
Definition qe_state : MainState :=
  {| event :=
       {| IntensityMatrix := [];
          GeometricMatrix := [];
          PathSamplePoints := [];
          PathStart := (0, 0);
          PathEnd := (0, 0);
          PathToQEtable := "camera.json5";
          QEtable := nilSlice;
          FundamentalPlaneWidthKm := 40;
          FundamentalPlaneWidthPoints := 10;
          ObservationWavelengthNm := 600;
          StarDiamKm := 0;
          LimbDarkeningCoeff := 0;
          PercentMagDrop := 0;
          DistanceAu := 15 |};
     store := [];
     stdout := [] |}.

Definition qe_table : list (R * R) := [(500, 1); (600, 3)].
Definition qe_table_negative : list (R * R) := [(500, -1); (600, 3)].

(** A plot package that draws and saves whatever it is given. *)
Definition plot_ok : list (R * R) -> result unit := fun _ => Ok tt.
Definition save_ok : string -> list (R * R) -> list (R * R) -> string -> result unit :=
  fun _ _ _ _ => Ok tt.

Lemma qe_table_weights_normalized_witness :
  loadQEtable (fun _ => Ok EmptyString) (fun _ => Ok qe_table) plot_ok plot_ok save_ok
              qe_state = Continue (qe_loaded qe_state qe_table) /\
  slice_read (store (qe_loaded qe_state qe_table))
             (QEtable (event (qe_loaded qe_state qe_table))) 1 =
    Some (600, 3 / sum_weights qe_table).
Proof.
  destruct (qe_table_weights_normalized
              (fun _ => Ok EmptyString) (fun _ => Ok qe_table) plot_ok plot_ok save_ok
              qe_state EmptyString qe_table)
    as [_ H].
  - discriminate.
  - reflexivity.
  - reflexivity.
  - destruct H as (_ & _ & Hload & _ & Hread & _).
    + discriminate.
    + unfold sum_weights, qe_table. cbn. lra.
    + split; [exact Hload|]. exact (Hread 1%Z (600, 3) eq_refl).
Defined.

(** C8 as first stated fails on the weight test: the table
    [(500, -1), (600, 3)] has a negative weight and is not rejected.  Its
    weights are divided by their sum 2; the greatest of the divided
    weights is 3/2, so the plot divides by a positive number; and with the
    plot drawn and saved the run goes on with the weights -1/2 and 3/2. *)
Lemma qe_negative_weight_counterexample :
  In (500, -1) qe_table_negative /\ -1 <= 0 /\
  sum_weights qe_table_negative = 2 /\
  max_weight (normalized 2 qe_table_negative) = 3 / 2 /\
  loadQEtable (fun _ => Ok EmptyString) (fun _ => Ok qe_table_negative)
              plot_ok plot_ok save_ok qe_state =
    Continue {| event := set_QEtable (event qe_state)
                           {| array := Some O; length_ := 2 |};
                store := [[(500, -1 / 2); (600, 3 / 2)]];
                stdout := [] |}.
Proof.
  assert (Hsum : sum_weights qe_table_negative = 2) by (unfold sum_weights; cbn; lra).
  split; [now left|]. split; [lra|]. split; [exact Hsum|]. split.
  - unfold max_weight, normalized, qe_table_negative. cbn [map fold_left fst snd].
    destruct (Rgt_dec (-1 / 2) 0) as [H | H]; [lra|].
    destruct (Rgt_dec (3 / 2) 0) as [H' | H']; [reflexivity | lra].
  - rewrite (loadQEtable_nonempty (fun _ => Ok EmptyString) (fun _ => Ok qe_table_negative)
               plot_ok plot_ok save_ok qe_state EmptyString qe_table_negative);
      [|discriminate | reflexivity | reflexivity | discriminate].
    unfold plot_ok, save_ok, qe_loaded. rewrite Hsum. reflexivity.
Qed.

(** ** Complex arithmetic and finite sums *)

Definition Copp (a : complex128) : complex128 := (- real a, - imag a).

Lemma complex_eq (a b : complex128) : real a = real b -> imag a = imag b -> a = b.
Proof. destruct a, b. cbn. now intros -> ->. Qed.

Ltac complex_ring :=
  intros; apply complex_eq; unfold Cadd, Csub, Cmul, Copp, Czero, Cone, complex, real, imag;
  cbn [fst snd]; ring.

Lemma complex_ring_theory :
  ring_theory Czero Cone Cadd Cmul Csub Copp (@eq complex128).
Proof. constructor; complex_ring. Qed.

Add Ring complex_ring_instance : complex_ring_theory.

(** A product of complex numbers vanishes only when a factor does. *)
Lemma Cmul_integral (a b : complex128) : Cmul a b = Czero -> a <> Czero -> b = Czero.
Proof.
  destruct a as [a1 a2], b as [b1 b2]. unfold Cmul, Czero, complex, real, imag.
  cbn [fst snd]. intros H Ha. injection H as H1 H2.
  assert (Hpos : 0 < a1 * a1 + a2 * a2).
  { destruct (Req_dec a1 0) as [-> | Hn1].
    - destruct (Req_dec a2 0) as [-> | Hn2]; [now contradiction Ha|].
      pose proof (Rsqr_pos_lt _ Hn2). unfold Rsqr in *. lra.
    - pose proof (Rsqr_pos_lt _ Hn1). pose proof (Rle_0_sqr a2). unfold Rsqr in *. lra. }
  assert (Hb : (a1 * a1 + a2 * a2) * (b1 * b1 + b2 * b2) = 0).
  { replace ((a1 * a1 + a2 * a2) * (b1 * b1 + b2 * b2))
      with ((a1 * b1 - a2 * b2) * (a1 * b1 - a2 * b2)
            + (a1 * b2 + a2 * b1) * (a1 * b2 + a2 * b1)) by ring.
    rewrite H1, H2. ring. }
  apply Rmult_integral in Hb as [Hb | Hb]; [lra|].
  assert (b1 = 0) by nra. assert (b2 = 0) by nra. subst. reflexivity.
Qed.

Lemma Csum_ext (k : nat) (f g : Z -> complex128) :
  (forall i, (0 <= i < Z.of_nat k)%Z -> f i = g i) -> Csum k f = Csum k g.
Proof.
  induction k as [|k IH]; intros H; [reflexivity|].
  cbn [Csum]. rewrite IH, H by (try intros; try apply H; lia). reflexivity.
Qed.

Lemma Csum_zero (k : nat) : Csum k (fun _ => Czero) = Czero.
Proof. induction k as [|k IH]; [reflexivity|]. cbn [Csum]. rewrite IH. ring. Qed.

Lemma Csum_add (k : nat) (f g : Z -> complex128) :
  Csum k (fun i => Cadd (f i) (g i)) = Cadd (Csum k f) (Csum k g).
Proof. induction k as [|k IH]; cbn [Csum]; [|rewrite IH]; ring. Qed.

Lemma Csum_mul_r (k : nat) (f : Z -> complex128) (c : complex128) :
  Csum k (fun i => Cmul (f i) c) = Cmul (Csum k f) c.
Proof. induction k as [|k IH]; cbn [Csum]; [|rewrite IH]; ring. Qed.

Lemma Csum_mul_l (k : nat) (f : Z -> complex128) (c : complex128) :
  Csum k (fun i => Cmul c (f i)) = Cmul c (Csum k f).
Proof. induction k as [|k IH]; cbn [Csum]; [|rewrite IH]; ring. Qed.

(** Two finite sums may be exchanged. *)
Lemma Csum_swap (k l : nat) (f : Z -> Z -> complex128) :
  Csum k (fun i => Csum l (fun j => f i j)) = Csum l (fun j => Csum k (fun i => f i j)).
Proof.
  induction k as [|k IH]; cbn [Csum].
  - now rewrite Csum_zero.
  - now rewrite IH, Csum_add.
Qed.

(** A sum with a single term that is not zero. *)
Lemma Csum_single (k : nat) (f : Z -> complex128) (i0 : Z) :
  (0 <= i0 < Z.of_nat k)%Z ->
  (forall i, (0 <= i < Z.of_nat k)%Z -> i <> i0 -> f i = Czero) ->
  Csum k f = f i0.
Proof.
  induction k as [|k IH]; intros Hi0 Hf; [lia|].
  cbn [Csum]. destruct (Z.eq_dec i0 (Z.of_nat k)) as [-> | Hne].
  - rewrite (Csum_ext k f (fun _ => Czero)), Csum_zero by (intros; apply Hf; lia). ring.
  - rewrite IH, (Hf (Z.of_nat k)) by (try intros; try apply Hf; lia). ring.
Qed.

Lemma Csum_const (k : nat) (c : complex128) :
  Csum k (fun _ => c) = Cmul (complex (INR k) 0) c.
Proof.
  induction k as [|k IH]; [cbn; complex_ring|].
  cbn [Csum]. rewrite IH, S_INR. complex_ring.
Qed.

(** ** Roots of unity *)

Lemma Cis_add (a b : R) : Cis (a + b) = Cmul (Cis a) (Cis b).
Proof.
  unfold Cis, Cmul, real, imag. cbn [fst snd]. rewrite cos_plus, sin_plus.
  f_equal; ring.
Qed.

Lemma Cis_0 : Cis 0 = Cone.
Proof. unfold Cis, Cone, complex. now rewrite cos_0, sin_0. Qed.

Lemma Cis_neg (a : R) : Cis (- a) = (cos a, - sin a).
Proof. unfold Cis. now rewrite cos_neg, sin_neg. Qed.

(** A whole number of turns. *)
Lemma Cis_turns (k : Z) : Cis (2 * PI * IZR k) = Cone.
Proof.
  assert (Hnat : forall j : nat, Cis (2 * PI * INR j) = Cone).
  { intros j. unfold Cis, Cone, complex.
    replace (2 * PI * INR j) with (0 + 2 * INR j * PI) by ring.
    now rewrite cos_period, sin_period, cos_0, sin_0. }
  destruct (Z_le_gt_dec 0 k) as [Hk | Hk].
  - rewrite <- (Z2Nat.id k) by assumption. rewrite <- INR_IZR_INZ. apply Hnat.
  - replace (2 * PI * IZR k) with (- (2 * PI * IZR (- k))) by (rewrite opp_IZR; ring).
    rewrite Cis_neg. rewrite <- (Z2Nat.id (- k)) by lia. rewrite <- INR_IZR_INZ.
    specialize (Hnat (Z.to_nat (- k))). unfold Cis, Cone, complex in Hnat.
    injection Hnat as Hc Hs. unfold Cone, complex. rewrite Hc, Hs. f_equal. ring.
Qed.

(** Only whole numbers of turns give 1. *)
Lemma Cis_one_turns (t : R) : Cis t = Cone -> exists k : Z, t = 2 * PI * IZR k.
Proof.
  unfold Cis, Cone, complex. intros H. injection H as Hc Hs.
  destruct (sin_eq_0_0 t Hs) as [k Hk].
  destruct (Z.Even_or_Odd k) as [[j Hj] | [j Hj]].
  - exists j. rewrite Hk, Hj, mult_IZR. ring.
  - exfalso.
    assert (Ht : t = PI + 2 * PI * IZR j).
    { rewrite Hk, Hj, plus_IZR, mult_IZR. ring. }
    pose proof (Cis_add PI (2 * PI * IZR j)) as Hadd.
    rewrite <- Ht, Cis_turns in Hadd. unfold Cis, Cmul, Cone, complex, real, imag in Hadd.
    cbn [fst snd] in Hadd. rewrite cos_PI, sin_PI, Hc, Hs in Hadd.
    injection Hadd as Hbad _. lra.
Qed.

(** The geometric sum of the powers of [Cis t]. *)
Lemma Cis_geometric (t : R) (k : nat) :
  Cmul (Csub (Cis t) Cone) (Csum k (fun v => Cis (IZR v * t))) =
  Csub (Cis (INR k * t)) Cone.
Proof.
  induction k as [|k IH].
  - cbn [Csum INR]. rewrite Rmult_0_l, Cis_0. ring.
  - cbn [Csum].
    replace (Cmul (Csub (Cis t) Cone)
               (Cadd (Csum k (fun v => Cis (IZR v * t))) (Cis (IZR (Z.of_nat k) * t))))
      with (Cadd (Cmul (Csub (Cis t) Cone) (Csum k (fun v => Cis (IZR v * t))))
                 (Csub (Cmul (Cis (IZR (Z.of_nat k) * t)) (Cis t))
                       (Cis (IZR (Z.of_nat k) * t)))) by ring.
    rewrite IH, <- Cis_add, <- INR_IZR_INZ, S_INR.
    replace (INR k * t + t) with ((INR k + 1) * t) by ring. ring.
Qed.

(** The sum of the n-th roots of unity raised to the power m: n when n
    divides m, and 0 otherwise. *)
Lemma roots_of_unity_sum (n : nat) (m : Z) :
  (0 < n)%nat ->
  Csum n (fun v => Cis (2 * PI * IZR (v * m) / INR n)) =
  if (m mod Z.of_nat n =? 0)%Z then complex (INR n) 0 else Czero.
Proof.
  intros Hn.
  assert (HnR : INR n <> 0) by (apply not_0_INR; lia).
  destruct (Z.eqb_spec (m mod Z.of_nat n) 0) as [Hdiv | Hndiv].
  - apply Z.mod_divide in Hdiv; [|lia]. destruct Hdiv as [j Hj].
    rewrite (Csum_ext n _ (fun _ => Cone)).
    + rewrite Csum_const. complex_ring.
    + intros v _. rewrite <- (Cis_turns (v * j)). f_equal.
      rewrite Hj, !mult_IZR, <- INR_IZR_INZ. field. assumption.
  - set (t := 2 * PI * IZR m / INR n).
    rewrite (Csum_ext n _ (fun v => Cis (IZR v * t))).
    2: { intros v _. f_equal. subst t. rewrite mult_IZR. field. assumption. }
    apply Cmul_integral with (a := Csub (Cis t) Cone).
    + rewrite Cis_geometric.
      replace (INR n * t) with (2 * PI * IZR m) by (subst t; field; assumption).
      rewrite Cis_turns. ring.
    + intros Hone.
      assert (Hcis : Cis t = Cone).
      { replace (Cis t) with (Cadd (Csub (Cis t) Cone) Cone) by ring.
        rewrite Hone. ring. }
      apply Cis_one_turns in Hcis as [j Hj]. apply Hndiv.
      apply Z.mod_divide; [lia|]. exists j.
      apply eq_IZR. rewrite mult_IZR, <- INR_IZR_INZ.
      subst t. pose proof PI_RGT_0 as Hpi.
      apply Rmult_eq_reg_l with (r := 2 * PI); [|lra].
      replace (2 * PI * (IZR j * INR n)) with (2 * PI * IZR j * INR n) by ring.
      rewrite <- Hj. field. assumption.
Qed.

(** ** The discrete Fourier transform of a shifted impulse *)

(** The factor exp(sign 2 pi i j k / n) of the transform of length n. *)
Definition twiddle (sign : R) (n j k : Z) : complex128 :=
  Cis (sign * (2 * PI * IZR (j * k) / IZR n)).

Lemma twiddle_combine (n x q x' v : Z) :
  IZR n <> 0 ->
  Cmul (Cmul (twiddle (-1) n x v) (twiddle (-1) n q v)) (twiddle 1 n v x') =
  Cis (2 * PI * IZR (v * (x' - q - x)) / IZR n).
Proof.
  intros Hn. unfold twiddle. rewrite <- !Cis_add. f_equal.
  rewrite !mult_IZR, !minus_IZR. field. assumption.
Qed.

Lemma mod_zero_iff (n d x : Z) :
  (0 < n)%Z -> (0 <= x < n)%Z -> ((d - x) mod n = 0)%Z <-> x = (d mod n)%Z.
Proof.
  intros Hn Hx. split.
  - intros H. apply Z.mod_divide in H; [|lia]. destruct H as [k Hk].
    replace d with (x + k * n)%Z by lia.
    rewrite Z.mod_add by lia. symmetry. now apply Z.mod_small.
  - intros ->. apply Z.mod_divide; [lia|]. exists (d / n)%Z.
    pose proof (Z.div_mod d n ltac:(lia)). lia.
Qed.

(** Transforming a sequence, multiplying by the transform of the impulse
    at [q], and transforming back rotates the sequence by [q] places and
    multiplies it by [n]. *)
Lemma shift_1d (n : Z) (a : Z -> complex128) (q x' : Z) :
  (0 < n)%Z -> (0 <= q < n)%Z -> (0 <= x' < n)%Z ->
  Csum (Z.to_nat n) (fun v =>
    Cmul (Cmul (Csum (Z.to_nat n) (fun x => Cmul (a x) (twiddle (-1) n x v)))
               (twiddle (-1) n q v))
         (twiddle 1 n v x')) =
  Cmul (complex (IZR n) 0) (a ((x' - q) mod n)%Z).
Proof.
  intros Hn Hq Hx'.
  assert (HnR : IZR n <> 0) by (apply not_0_IZR; lia).
  assert (HnN : (0 < Z.to_nat n)%nat) by lia.
  rewrite (Csum_ext _ _ (fun v => Csum (Z.to_nat n) (fun x =>
             Cmul (a x) (Cis (2 * PI * IZR (v * (x' - q - x)) / IZR n))))).
  2: { intros v _. rewrite <- !Csum_mul_r. apply Csum_ext. intros x _.
       rewrite <- twiddle_combine by assumption. ring. }
  rewrite Csum_swap.
  rewrite (Csum_ext _ _ (fun x =>
             Cmul (a x) (if ((x' - q - x) mod n =? 0)%Z then complex (IZR n) 0 else Czero))).
  2: { intros x _. rewrite Csum_mul_l. f_equal.
       pose proof (roots_of_unity_sum (Z.to_nat n) (x' - q - x) HnN) as Hsum.
       rewrite !INR_IZR_INZ, !Z2Nat.id in Hsum by lia. exact Hsum. }
  assert (Hx0 : (0 <= (x' - q) mod n < n)%Z) by (apply Z.mod_pos_bound; lia).
  rewrite (Csum_single _ _ ((x' - q) mod n)%Z).
  - replace (x' - q - (x' - q) mod n)%Z with ((x' - q) - (x' - q) mod n)%Z by lia.
    rewrite (proj2 (mod_zero_iff n (x' - q) _ Hn Hx0) eq_refl).
    rewrite Z.eqb_refl. ring.
  - lia.
  - intros x Hx Hne.
    destruct (Z.eqb_spec ((x' - q - x) mod n) 0) as [H0 | _]; [|ring].
    exfalso. apply Hne. apply (mod_zero_iff n (x' - q) x Hn); [lia | exact H0].
Qed.

(** The row pass and the column pass of the two-dimensional transform of
    an h x w grid given by its entries. *)
Definition rowT (sign : R) (w : Z) (F : Z -> Z -> complex128) (r v : Z) : complex128 :=
  Csum (Z.to_nat w) (fun x => Cmul (F r x) (twiddle sign w x v)).
Definition colT (sign : R) (h : Z) (G : Z -> Z -> complex128) (u c : Z) : complex128 :=
  Csum (Z.to_nat h) (fun y => Cmul (G y c) (twiddle sign h y u)).
Definition fft2 (sign : R) (h w : Z) (F : Z -> Z -> complex128) : Z -> Z -> complex128 :=
  colT sign h (rowT sign w F).

(** The grid with the value 1 at (p, q) and 0 elsewhere. *)
Definition impulse (p q : Z) (r c : Z) : complex128 :=
  if ((r =? p) && (c =? q))%Z%bool then Cone else Czero.

Lemma fft2_impulse (h w p q u v : Z) :
  (0 <= p < h)%Z -> (0 <= q < w)%Z ->
  fft2 (-1) h w (impulse p q) u v = Cmul (twiddle (-1) w q v) (twiddle (-1) h p u).
Proof.
  intros Hp Hq. unfold fft2, colT.
  rewrite (Csum_single _ _ p); [|lia|].
  - unfold rowT. rewrite (Csum_single _ _ q); [|lia|].
    + unfold impulse. rewrite !Z.eqb_refl. cbn [andb]. ring.
    + intros x _ Hne. unfold impulse.
      destruct (Z.eqb_spec x q); [contradiction|]. rewrite andb_false_r. ring.
  - intros y _ Hne. unfold rowT.
    rewrite (Csum_ext _ _ (fun _ => Czero)), Csum_zero; [ring|].
    intros x _. unfold impulse. destruct (Z.eqb_spec y p); [contradiction|].
    cbn [andb]. ring.
Qed.

(** The convolution theorem for an impulse: transform, multiply by the
    transform of the impulse at (p, q), transform back. *)
Lemma fft2_shift (h w : Z) (A : Z -> Z -> complex128) (p q y' x' : Z) :
  (0 <= p < h)%Z -> (0 <= q < w)%Z -> (0 <= y' < h)%Z -> (0 <= x' < w)%Z ->
  fft2 1 h w
    (fun u v => Cmul (fft2 (-1) h w A u v) (fft2 (-1) h w (impulse p q) u v)) y' x' =
  Cmul (complex (IZR (h * w)) 0) (A ((y' - p) mod h)%Z ((x' - q) mod w)%Z).
Proof.
  intros Hp Hq Hy' Hx'.
  set (x0 := ((x' - q) mod w)%Z).
  unfold fft2 at 1. unfold colT at 1.
  (* the row pass of the inverse, for every row u *)
  assert (Hrow : forall u,
    rowT 1 w (fun u v => Cmul (fft2 (-1) h w A u v) (fft2 (-1) h w (impulse p q) u v))
         u x' =
    Cmul (Csum (Z.to_nat h) (fun y =>
            Cmul (Cmul (complex (IZR w) 0) (A y x0)) (twiddle (-1) h y u)))
         (twiddle (-1) h p u)).
  { intros u. unfold rowT at 1.
    rewrite (Csum_ext _ _ (fun v => Csum (Z.to_nat h) (fun y =>
               Cmul (Cmul (twiddle (-1) h y u) (twiddle (-1) h p u))
                    (Cmul (Cmul (rowT (-1) w A y v) (twiddle (-1) w q v))
                          (twiddle 1 w v x'))))).
    2: { intros v _. rewrite fft2_impulse by assumption. unfold fft2, colT.
         rewrite <- !Csum_mul_r. apply Csum_ext. intros y _. ring. }
    rewrite Csum_swap, <- Csum_mul_r. apply Csum_ext. intros y _.
    rewrite Csum_mul_l. unfold rowT.
    rewrite (shift_1d w (A y) q x') by lia. fold x0. ring. }
  rewrite (Csum_ext _ _ (fun u =>
             Cmul (Cmul (Csum (Z.to_nat h) (fun y =>
                           Cmul (Cmul (complex (IZR w) 0) (A y x0)) (twiddle (-1) h y u)))
                        (twiddle (-1) h p u))
                  (twiddle 1 h u y'))).
  2: { intros u _. now rewrite Hrow. }
  rewrite (shift_1d h (fun y => Cmul (complex (IZR w) 0) (A y x0)) p y') by lia.
  rewrite mult_IZR. complex_ring.
Qed.

(** ** Grids as tables of their entries *)

(** The h x w grid with entries [F r c]. *)
Definition tab2 {A : Type} (h w : Z) (F : Z -> Z -> A) : list (list A) :=
  tabulate h (fun r => tabulate w (F r)).

Ltac zbool :=
  repeat match goal with
    | |- context [(?a <? ?b)%Z] => destruct (Z.ltb_spec a b)
    | |- context [(?a <=? ?b)%Z] => destruct (Z.leb_spec a b)
    | |- context [(?a =? ?b)%Z] => destruct (Z.eqb_spec a b)
    end;
  cbn [andb orb negb]; subst; try reflexivity; try lia; try (exfalso; lia).

Lemma tab2_ext {A : Type} (h w : Z) (F G : Z -> Z -> A) :
  (forall r c, (0 <= r < h)%Z -> (0 <= c < w)%Z -> F r c = G r c) ->
  tab2 h w F = tab2 h w G.
Proof.
  intros H. apply tabulate_ext. intros r Hr. apply tabulate_ext. intros c Hc.
  now apply H.
Qed.

Lemma at2_tab2 {A : Type} (h w : Z) (F : Z -> Z -> A) (r c : Z) :
  (0 <= r < h)%Z -> (0 <= c < w)%Z -> at2 (tab2 h w F) r c = Some (F r c).
Proof. apply at2_tabulate. Qed.

Lemma rect_tab2 {A : Type} (h w : Z) (F : Z -> Z -> A) :
  (0 <= h)%Z -> (0 <= w)%Z -> rect h w (tab2 h w F).
Proof. apply rect_tabulate. Qed.

Lemma assign_tabulate {A : Type} (n : Z) (f : Z -> A) (i : Z) (v : A) :
  (0 <= i < n)%Z ->
  Go.assign (tabulate n f) i v = Some (tabulate n (fun j => if (j =? i)%Z then v else f j)).
Proof.
  intros Hi.
  destruct (assign_spec (tabulate n f) i v) as (s' & -> & Hlen & Hidx).
  { rewrite len_tabulate; lia. }
  f_equal. rewrite len_tabulate in Hlen by lia. apply index_ext.
  - rewrite len_tabulate; lia.
  - intros j Hj. rewrite Hidx.
    rewrite (index_tabulate n (fun j => if (j =? i)%Z then v else f j)) by lia.
    destruct (Z.eqb_spec j i); [reflexivity|]. apply index_tabulate. lia.
Qed.

(** Storing the row [tabulate w G] at row [y]. *)
Lemma assign_row_tab2 {A : Type} (h w : Z) (F : Z -> Z -> A) (y : Z) (G : Z -> A) :
  (0 <= y < h)%Z ->
  Go.assign (tab2 h w F) y (tabulate w G) =
    Some (tab2 h w (fun r c => if (r =? y)%Z then G c else F r c)).
Proof.
  intros Hy. unfold tab2. rewrite assign_tabulate by assumption.
  f_equal. apply tabulate_ext. intros r Hr. now destruct (Z.eqb_spec r y).
Qed.

Lemma assign2_tab2 {A : Type} (h w : Z) (F : Z -> Z -> A) (r c : Z) (v : A) :
  (0 <= r < h)%Z -> (0 <= c < w)%Z ->
  assign2 (tab2 h w F) r c v =
    Some (tab2 h w (fun r' c' => if ((r' =? r) && (c' =? c))%Z%bool then v else F r' c')).
Proof.
  intros Hr Hc. unfold assign2, tab2 at 1.
  rewrite index_tabulate by assumption. cbn [Go.bind].
  rewrite assign_tabulate by assumption. cbn [Go.bind].
  fold (tab2 h w F). rewrite assign_row_tab2 by assumption.
  f_equal. apply tab2_ext. intros r' c' _ _. zbool.
Qed.

(** [m[r][c] = x] panics exactly when reading [m[r][c]] does. *)
Lemma assign2_guard {A : Type} (m : list (list A)) (r c : Z) (x : A) :
  assign2 m r c x = do _ <- at2 m r c; assign2 m r c x.
Proof.
  unfold at2, assign2. destruct (Go.index m r) as [row|]; [|reflexivity].
  cbn [Go.bind]. destruct (Go.index row c) eqn:E; [reflexivity|].
  cbn [Go.bind]. rewrite assign_out_of_range; [reflexivity|].
  intros Hc. apply index_in_range in Hc as [v Hv]. congruence.
Qed.

(** The nested loop that rewrites the entries of the top-left h x w
    region of an H x W grid. *)
Lemma update2_region {A : Type} (g : Z -> Z -> A -> A) (H W h w : Z)
    (F : Z -> Z -> A) :
  (0 <= h <= H)%Z -> (0 <= w <= W)%Z ->
  Go.for_upto_opt h (fun r m =>
    Go.for_upto_opt w (fun c m =>
      do v <- at2 m r c; assign2 m r c (g r c v)) m) (tab2 H W F) =
  Some (tab2 H W (fun r c =>
          if ((r <? h) && (c <? w))%Z%bool then g r c (F r c) else F r c)).
Proof.
  intros Hh Hw.
  destruct (for_upto_opt_inv
    (fun r t => t = tab2 H W (fun r' c' =>
       if ((r' <? r) && (c' <? w))%Z%bool then g r' c' (F r' c') else F r' c'))
    (fun r m => Go.for_upto_opt w (fun c m =>
       do v <- at2 m r c; assign2 m r c (g r c v)) m) h (tab2 H W F))
    as (t & -> & ->); [lia | | | reflexivity].
  - apply tab2_ext. intros r c Hr Hc. zbool.
  - intros r t Hr ->.
    destruct (for_upto_opt_inv
      (fun c t => t = tab2 H W (fun r' c' =>
         if (((r' <? r) && (c' <? w)) || ((r' =? r) && (c' <? c)))%Z%bool
         then g r' c' (F r' c') else F r' c'))
      (fun c m => do v <- at2 m r c; assign2 m r c (g r c v)) w
      (tab2 H W (fun r' c' =>
         if ((r' <? r) && (c' <? w))%Z%bool then g r' c' (F r' c') else F r' c')))
      as (u & -> & ->); [lia | | |].
    + apply tab2_ext. intros r' c' Hr' Hc'. zbool.
    + intros c u Hc ->.
      rewrite at2_tab2 by lia. cbn [Go.bind].
      rewrite assign2_tab2 by lia.
      eexists. split; [reflexivity|]. apply tab2_ext. intros r' c' Hr' Hc'.
      zbool.
    + eexists. split; [reflexivity|]. apply tab2_ext. intros r' c' Hr' Hc'. zbool.
Qed.

Lemma makeComplex2D_spec (h w : Z) :
  (0 <= h)%Z -> (0 <= w)%Z ->
  makeComplex2D h w = Some (tab2 h w (fun _ _ => Czero)).
Proof.
  intros Hh Hw. unfold makeComplex2D. rewrite make_spec by assumption.
  cbn [Go.bind]. rewrite len_tabulate by assumption.
  apply fill_loop_ext; [|now apply len_tabulate].
  intros i t Hi. now rewrite make_spec by assumption.
Qed.

(** A rectangular matrix is the table of its entries. *)
Lemma rect_eq_tab2 (h w : Z) (m : Matrix) : rect h w m -> m = tab2 h w (entry m).
Proof.
  intros [Hlen Hrows].
  assert (Hh : (0 <= h)%Z) by (unfold Go.len in Hlen; lia).
  apply index_ext; [unfold tab2; now rewrite len_tabulate|].
  intros r Hr. rewrite Hlen in Hr. unfold tab2. rewrite index_tabulate by assumption.
  rewrite (index_nth_Z m r []) by lia. f_equal.
  assert (Hrow : Go.len (nth (Z.to_nat r) m []) = w).
  { rewrite Forall_forall in Hrows. apply Hrows. apply nth_In.
    unfold Go.len in Hlen. lia. }
  apply index_ext; [rewrite len_tabulate; unfold Go.len in *; lia|].
  intros c Hc. rewrite Hrow in Hc. rewrite index_tabulate by assumption.
  unfold entry. now apply index_nth_Z; rewrite Hrow.
Qed.

(** ** The pieces of the convolver *)

(** The first row of a matrix gives its width. *)
Definition width (m : Matrix) : Z :=
  match m with
  | [] => 0%Z
  | row :: _ => Go.len row
  end.

(** No two rows of different lengths. *)
Definition rectangular (m : Matrix) : Prop := rect (Go.len m) (width m) m.
Definition ragged (m : Matrix) : Prop := ~ rectangular m.

Lemma rectSize_rectangular (m : Matrix) :
  rectangular m ->
  rectSize m = Ok (if (Go.len m =? 0)%Z then (0%Z, 0%Z) else (Go.len m, width m)).
Proof.
  intros [_ Hrows]. unfold rectSize. destruct m as [|m0 rest]; [reflexivity|].
  cbn [width] in *. inversion Hrows as [|? ? _ Hrest]; subst.
  replace (forallb _ rest) with true.
  - destruct (Z.eqb_spec (Go.len (m0 :: rest)) 0) as [H0 | _]; [|reflexivity].
    unfold Go.len in H0. cbn in H0. lia.
  - symmetry. apply forallb_forall. intros row Hin.
    rewrite Forall_forall in Hrest. apply Z.eqb_eq. now apply Hrest.
Qed.

Lemma rectSize_ragged (m : Matrix) : ragged m -> rectSize m = Err "ragged matrix".
Proof.
  intros Hr. unfold rectSize. destruct m as [|m0 rest].
  - exfalso. apply Hr. split; [reflexivity | constructor].
  - destruct (forallb _ rest) eqn:E; [|reflexivity].
    exfalso. apply Hr. split; [reflexivity|]. cbn [width].
    constructor; [reflexivity|].
    rewrite forallb_forall in E. apply Forall_forall. intros row Hin.
    apply Z.eqb_eq. now apply E.
Qed.

Lemma rect_rectangular (h w : Z) (m : Matrix) :
  rect h w m -> (1 <= h)%Z -> rectangular m /\ Go.len m = h /\ width m = w.
Proof.
  intros [Hlen Hrows] Hh. destruct m as [|m0 rest].
  - unfold Go.len in Hlen. cbn in Hlen. lia.
  - inversion Hrows as [|? ? H0 Hrest]; subst. cbn [width].
    split; [|split; reflexivity].
    split; [reflexivity|]. cbn [width]. exact Hrows.
Qed.

(** The doubling loop stops with a power of two that is at least n. *)
Lemma nextPow2_loop_ge (fuel : nat) (p n : Z) :
  (0 < p)%Z -> (n <= p + Z.of_nat fuel)%Z -> (n <= nextPow2_loop fuel p n)%Z.
Proof.
  revert p. induction fuel as [|fuel IH]; intros p Hp Hn; cbn [nextPow2_loop].
  - lia.
  - destruct (Z.ltb_spec p n); [|lia].
    apply IH; rewrite Z.shiftl_mul_pow2 by lia; cbn; lia.
Qed.

Lemma nextPow2_ge (n : Z) : (n <= nextPow2 n)%Z /\ (1 <= nextPow2 n)%Z.
Proof.
  unfold nextPow2. destruct (Z.leb_spec n 1); [lia|].
  pose proof (nextPow2_loop_ge (Z.to_nat n) 1 n ltac:(lia) ltac:(lia)). lia.
Qed.

(** The side of the FFT grid for a full size n. *)
Definition fft_side (n : Z) : Z :=
  let F := nextPow2 n in
  if negb (Z.rem F 2 =? 0)%Z then (F + 1)%Z else F.

Lemma fft_side_ge (n : Z) : (n <= fft_side n)%Z /\ (1 <= fft_side n)%Z.
Proof.
  unfold fft_side. pose proof (nextPow2_ge n).
  destruct (negb _); lia.
Qed.

Lemma at2_rect (h w : Z) (m : Matrix) (r c : Z) :
  rect h w m -> (0 <= r < h)%Z -> (0 <= c < w)%Z -> at2 m r c = Some (entry m r c).
Proof.
  intros Hm Hr Hc. rewrite (rect_eq_tab2 h w m Hm) at 1. now apply at2_tab2.
Qed.

(** With zero padding a sample is the pixel inside the image and 0
    outside. *)
Definition zero_padded (H W : Z) (image : Matrix) (y x : Z) : R :=
  if ((0 <=? y) && (y <? H) && (0 <=? x) && (x <? W))%Z%bool
  then entry image y x else 0.

Lemma sample2D_zeros (H W : Z) (image : Matrix) (y x : Z) :
  rect H W image -> (1 <= H)%Z ->
  sample2D image y x PadZeros = Some (zero_padded H W image y x).
Proof.
  intros Him HH. unfold sample2D, zero_padded.
  destruct (rect_rectangular H W image Him HH) as (_ & Hlen & Hw).
  destruct image as [|row0 rest]; [unfold Go.len in Hlen; cbn in Hlen; lia|].
  cbn [width] in Hw.
  replace (Go.index (row0 :: rest) 0) with (Some row0) by reflexivity.
  cbn [Go.bind]. rewrite Hlen, Hw.
  destruct ((0 <=? y) && (y <? H) && (0 <=? x) && (x <? W))%Z%bool eqn:E.
  - apply (at2_rect H W); [assumption | |];
      repeat (apply andb_prop in E as [E ?]); lia.
  - reflexivity.
Qed.

Lemma copy_same_len {A : Type} (dst src : list A) :
  length dst = length src -> Go.copy dst src = src.
Proof.
  intros Hlen. unfold Go.copy. rewrite Hlen, Nat.min_id.
  now rewrite firstn_all, skipn_all2, app_nil_r by lia.
Qed.

Lemma length_tabulate {A : Type} (n : Z) (f : Z -> A) :
  length (tabulate n f) = Z.to_nat n.
Proof. unfold tabulate. now rewrite length_map, length_seq. Qed.

Lemma nth_tabulate {A : Type} (n : Z) (f : Z -> A) (j : Z) (d : A) :
  (0 <= j < n)%Z -> nth (Z.to_nat j) (tabulate n f) d = f j.
Proof.
  intros Hj. pose proof (index_nth_Z (tabulate n f) j d) as H.
  rewrite len_tabulate, index_tabulate in H by lia.
  symmetry. injection (H Hj) as ->. reflexivity.
Qed.

(** The transform of a slice given by its entries. *)
Lemma dft_tabulate (sign : R) (n : Z) (f : Z -> complex128) :
  (0 <= n)%Z ->
  dft sign (tabulate n f) =
    tabulate n (fun k => Csum (Z.to_nat n) (fun j => Cmul (f j) (twiddle sign n j k))).
Proof.
  intros Hn. unfold dft. rewrite len_tabulate, length_tabulate by assumption.
  apply tabulate_ext. intros k Hk. apply Csum_ext. intros j Hj.
  rewrite nth_tabulate by lia. reflexivity.
Qed.

(** *** fft2InPlace computes the two-dimensional transform *)

Lemma if_forward_dft (forward : bool) (s : list complex128) :
  (if forward then Coefficients s else Sequence s) =
  dft (if forward then -1 else 1) s.
Proof. now destruct forward. Qed.

Lemma fft_rows_loop (h w : Z) (F : Z -> Z -> complex128) (forward : bool)
    (tmp : list complex128) :
  (0 <= h)%Z -> (0 <= w)%Z -> Go.len tmp = w ->
  exists tmp',
    Go.for_upto_opt h (fun y st =>
      let '(a, tmp) := st in
      do ay <- Go.index a y;
      let tmp := Go.copy tmp ay in
      let tmp := if forward then Coefficients tmp else Sequence tmp in
      do a <- Go.assign a y (Go.copy ay tmp);
      Some (a, tmp)) (tab2 h w F, tmp) =
    Some (tab2 h w (rowT (if forward then -1 else 1) w F), tmp').
Proof.
  intros Hh Hw Htmp. set (s := if forward then -1 else 1).
  match goal with
  | |- exists _, Go.for_upto_opt h ?body ?init = _ =>
      destruct (for_upto_opt_inv
        (fun y st => fst st = tab2 h w (fun r c =>
                       if (r <? y)%Z then rowT s w F r c else F r c) /\
                     Go.len (snd st) = w)
        body h init) as ([a tmp'] & Hres & Ha & _)
  end.
  - assumption.
  - cbn [fst snd]. split; [|assumption]. apply tab2_ext. intros r c Hr Hc. zbool.
  - intros y [a t] Hy [Ha Ht]. cbn [fst snd] in *. subst a.
    unfold tab2 at 1. rewrite index_tabulate by assumption. cbn [Go.bind].
    rewrite (tabulate_ext w _ (F y)) by (intros c _; zbool).
    rewrite (copy_same_len t) by (rewrite length_tabulate; unfold Go.len in Ht; lia).
    rewrite if_forward_dft. fold s. rewrite dft_tabulate by assumption.
    rewrite copy_same_len by (now rewrite !length_tabulate).
    fold (tab2 h w (fun r c => if (r <? y)%Z then rowT s w F r c else F r c)).
    rewrite assign_row_tab2 by assumption. cbn [Go.bind].
    eexists. split; [reflexivity|]. cbn [fst snd]. split.
    + apply tab2_ext. intros r c Hr Hc. unfold rowT. zbool.
    + now apply len_tabulate.
  - cbn [fst snd] in Ha. subst a. exists tmp'. rewrite Hres. do 2 f_equal.
    apply tab2_ext. intros r c Hr Hc. zbool.
Qed.

(** Reading column x into [col]. *)
Lemma fft_gather (h w : Z) (G : Z -> Z -> complex128) (x : Z) (col : list complex128) :
  (0 <= h)%Z -> (0 <= x < w)%Z -> Go.len col = h ->
  Go.for_upto_opt h (fun y st =>
    let '(a, col) := st in
    do v <- at2 a y x;
    do col <- Go.assign col y v;
    Some (a, col)) (tab2 h w G, col) =
  Some (tab2 h w G, tabulate h (fun y => G y x)).
Proof.
  intros Hh Hx Hcol.
  match goal with
  | |- Go.for_upto_opt h ?body ?init = _ =>
      destruct (for_upto_opt_inv
        (fun y st => fst st = tab2 h w G /\ Go.len (snd st) = h /\
           forall j, (0 <= j < y)%Z -> Go.index (snd st) j = Some (G j x))
        body h init) as ([a c] & Hres & Ha & Hlen & Hidx)
  end.
  - assumption.
  - cbn [fst snd]. repeat split; [assumption | intros; lia].
  - intros y [a c] Hy (Ha & Hlen & Hidx). cbn [fst snd] in *. subst a.
    rewrite at2_tab2 by lia. cbn [Go.bind].
    destruct (assign_spec c y (G y x)) as (c' & -> & Hlen' & Hidx'); [lia|].
    cbn [Go.bind]. eexists. split; [reflexivity|]. cbn [fst snd].
    repeat split; [congruence|].
    intros j Hj. rewrite Hidx'. destruct (Z.eqb_spec j y); [now subst | apply Hidx; lia].
  - cbn [fst snd] in *. rewrite Hres. subst a. do 2 f_equal.
    apply index_ext; [now rewrite len_tabulate|].
    intros j Hj. rewrite Hidx, index_tabulate by lia. reflexivity.
Qed.

(** Writing [col] back into column x. *)
Lemma fft_scatter (h w : Z) (G : Z -> Z -> complex128) (x : Z) (C : Z -> complex128) :
  (0 <= h)%Z -> (0 <= x < w)%Z ->
  Go.for_upto_opt h (fun y st =>
    let '(a, col) := st in
    do v <- Go.index col y;
    do a <- assign2 a y x v;
    Some (a, col)) (tab2 h w G, tabulate h C) =
  Some (tab2 h w (fun r c => if (c =? x)%Z then C r else G r c), tabulate h C).
Proof.
  intros Hh Hx.
  match goal with
  | |- Go.for_upto_opt h ?body ?init = _ =>
      destruct (for_upto_opt_inv
        (fun y st => fst st = tab2 h w (fun r c =>
                       if ((c =? x) && (r <? y))%Z%bool then C r else G r c) /\
                     snd st = tabulate h C)
        body h init) as ([a c] & Hres & Ha & Hc)
  end.
  - assumption.
  - cbn [fst snd]. split; [|reflexivity]. apply tab2_ext. intros r c Hr Hc. zbool.
  - intros y [a c] Hy [Ha Hc]. cbn [fst snd] in *. subst a c.
    rewrite index_tabulate by assumption. cbn [Go.bind].
    rewrite assign2_tab2 by lia. cbn [Go.bind].
    eexists. split; [reflexivity|]. cbn [fst snd]. split; [|reflexivity].
    apply tab2_ext. intros r c Hr Hc. zbool.
  - cbn [fst snd] in *. rewrite Hres. subst a c. do 2 f_equal.
    apply tab2_ext. intros r c Hr Hc. zbool.
Qed.

Lemma fft_cols_loop (h w : Z) (G : Z -> Z -> complex128) (forward : bool)
    (col : list complex128) :
  (0 <= h)%Z -> (0 <= w)%Z -> Go.len col = h ->
  exists col',
    Go.for_upto_opt w (fun x st =>
      do st <- Go.for_upto_opt h (fun y st =>
                 let '(a, col) := st in
                 do v <- at2 a y x;
                 do col <- Go.assign col y v;
                 Some (a, col)) st;
      let '(a, col) := st in
      let col := if forward then Coefficients col else Sequence col in
      Go.for_upto_opt h (fun y st =>
        let '(a, col) := st in
        do v <- Go.index col y;
        do a <- assign2 a y x v;
        Some (a, col)) (a, col)) (tab2 h w G, col) =
    Some (tab2 h w (colT (if forward then -1 else 1) h G), col').
Proof.
  intros Hh Hw Hcol. set (s := if forward then -1 else 1).
  match goal with
  | |- exists _, Go.for_upto_opt w ?body ?init = _ =>
      destruct (for_upto_opt_inv
        (fun x st => fst st = tab2 h w (fun r c =>
                       if (c <? x)%Z then colT s h G r c else G r c) /\
                     Go.len (snd st) = h)
        body w init) as ([a col'] & Hres & Ha & _)
  end.
  - assumption.
  - cbn [fst snd]. split; [|assumption]. apply tab2_ext. intros r c Hr Hc. zbool.
  - intros x [a c] Hx [Ha Hc]. cbn [fst snd] in *. subst a.
    rewrite fft_gather by (try assumption; lia). cbn [Go.bind].
    rewrite (tabulate_ext h _ (fun y => G y x)) by (intros y _; zbool).
    rewrite if_forward_dft. fold s. rewrite dft_tabulate by assumption.
    rewrite fft_scatter by (try assumption; lia).
    eexists. split; [reflexivity|]. cbn [fst snd]. split.
    + apply tab2_ext. intros r c' Hr Hc'. unfold colT. zbool.
    + now apply len_tabulate.
  - cbn [fst snd] in Ha. subst a. exists col'. rewrite Hres. do 2 f_equal.
    apply tab2_ext. intros r c Hr Hc. zbool.
Qed.

(** Replace a loop in the goal by its value, given by the equation [H]
    (up to conversion). *)
Ltac rewrite_loop H :=
  match type of H with
  | _ = ?r =>
      match goal with
      | |- context [Go.for_upto_opt ?n ?b ?i] =>
          replace (Go.for_upto_opt n b i) with r by (symmetry; exact H)
      end
  end.

Lemma fft2InPlace_spec (h w : Z) (F : Z -> Z -> complex128) (forward : bool) :
  (1 <= h)%Z -> (1 <= w)%Z ->
  fft2InPlace (tab2 h w F) forward =
    Some (tab2 h w (fft2 (if forward then -1 else 1) h w F)).
Proof.
  intros Hh Hw. unfold fft2InPlace.
  replace (Go.len (tab2 h w F)) with h by (unfold tab2; now rewrite len_tabulate by lia).
  unfold tab2 at 1. rewrite index_tabulate by lia. cbn [Go.bind].
  rewrite len_tabulate by lia. rewrite make_spec by lia. cbn [Go.bind].
  destruct (fft_rows_loop h w F forward (tabulate w (fun _ => Czero)))
    as [tmp' Hrows]; [lia | lia | apply len_tabulate; lia |].
  fold (tab2 h w F). rewrite_loop Hrows. cbn [Go.bind fst].
  rewrite make_spec by lia. cbn [Go.bind].
  destruct (fft_cols_loop h w (rowT (if forward then -1 else 1) w F) forward
              (tabulate h (fun _ => Czero)))
    as [col' Hcols]; [lia | lia | apply len_tabulate; lia |].
  rewrite_loop Hcols. reflexivity.
Qed.

(** *** Building a matrix row by row *)

Lemma build_rows {A : Type} (body : Z -> list (list A) -> option (list (list A)))
    (n : Z) (rowf : Z -> list A) (init : list (list A)) :
  Go.len init = n ->
  (forall y t, (0 <= y < n)%Z -> Go.len t = n ->
     exists t', body y t = Some t' /\ Go.len t' = n /\
       Go.index t' y = Some (rowf y) /\
       forall j, j <> y -> Go.index t' j = Go.index t j) ->
  Go.for_upto_opt n body init = Some (tabulate n rowf).
Proof.
  intros Hinit Hbody.
  assert (Hn : (0 <= n)%Z) by (unfold Go.len in Hinit; lia).
  destruct (for_upto_opt_inv
    (fun y t => Go.len t = n /\
       forall j, (0 <= j < y)%Z -> Go.index t j = Some (rowf j))
    body n init) as (t & -> & Hlen & Hrows).
  - assumption.
  - split; [assumption | intros; lia].
  - intros y t Hy [Hlen Hrows].
    destruct (Hbody y t Hy Hlen) as (t' & Ht' & Hlen' & Hy' & Hother).
    exists t'. repeat split; try assumption.
    intros j Hj. destruct (Z.eq_dec j y) as [-> | Hne]; [assumption|].
    rewrite Hother by assumption. apply Hrows. lia.
  - f_equal. apply index_ext; [now rewrite len_tabulate|].
    intros j Hj. rewrite Hrows, index_tabulate by lia. reflexivity.
Qed.

Lemma slice_tabulate {A : Type} (n : Z) (f : Z -> A) (lo hi : Z) :
  (0 <= lo <= hi)%Z -> (hi <= n)%Z ->
  Go.slice (tabulate n f) lo hi = Some (tabulate (hi - lo) (fun x => f (x + lo)%Z)).
Proof.
  intros Hlo Hhi. unfold Go.slice. rewrite len_tabulate by lia.
  destruct (Z.leb_spec 0 lo); [|lia]. destruct (Z.leb_spec lo hi); [|lia].
  destruct (Z.leb_spec hi n); [|lia]. cbn [andb]. f_equal.
  apply nth_error_ext. intros k.
  rewrite nth_error_firstn, nth_error_skipn.
  destruct (Nat.ltb_spec k (Z.to_nat (hi - lo))) as [Hk | Hk].
  - unfold tabulate. rewrite !nth_error_map.
    rewrite !(nth_error_nth' _ O) by (rewrite length_seq; lia).
    rewrite !seq_nth by lia. cbn. do 2 f_equal. lia.
  - symmetry. apply nth_error_None. rewrite length_tabulate. lia.
Qed.

(** The crop of a table. *)
Lemma crop_spec (Hf Wf : Z) (G : Z -> Z -> R) (offY offX outH outW : Z) :
  (0 <= offY)%Z -> (0 <= offX)%Z -> (0 <= outH)%Z -> (0 <= outW)%Z ->
  (offY + outH <= Hf)%Z -> (offX + outW <= Wf)%Z ->
  crop (tab2 Hf Wf G) offY offX outH outW =
    Some (tab2 outH outW (fun y x => G (y + offY)%Z (x + offX)%Z)).
Proof.
  intros HoY HoX HH HW HY HX. unfold crop.
  rewrite make_spec by assumption. cbn [Go.bind].
  apply build_rows; [now apply len_tabulate|].
  intros y t Hy Hlen.
  rewrite make_spec by assumption. cbn [Go.bind].
  destruct (assign_spec t y (tabulate outW (fun _ => 0))) as (t1 & Ht1 & Hlen1 & Hidx1);
    [lia|].
  rewrite Ht1. cbn [Go.bind].
  unfold tab2 at 1. rewrite index_tabulate by lia. cbn [Go.bind].
  rewrite slice_tabulate by lia. cbn [Go.bind].
  rewrite Hidx1, Z.eqb_refl. cbn [Go.bind].
  rewrite copy_same_len by (rewrite !length_tabulate; lia).
  rewrite (assign_assign t t1 y _ _ Ht1).
  destruct (assign_spec t y (tabulate (offX + outW - offX)
              (fun x => G (y + offY)%Z (x + offX)%Z))) as (t2 & -> & Hlen2 & Hidx2); [lia|].
  exists t2. split; [reflexivity|]. split; [congruence|]. split.
  - rewrite Hidx2, Z.eqb_refl. do 2 f_equal. lia.
  - intros j Hj. rewrite Hidx2. now destruct (Z.eqb_spec j y).
Qed.

(** The loop that divides the real parts and stores them in [full]. *)
Lemma full_loop (FH FW Hf Wf : Z) (A : Z -> Z -> complex128) (scale starSum : R) :
  (0 <= Hf <= FH)%Z -> (0 <= Wf <= FW)%Z ->
  Go.for_upto_opt (Go.len (tabulate Hf (fun _ => ([] : list R)))) (fun y full =>
    do row <- Go.make 0 Wf;
    do full <- Go.assign full y row;
    Go.for_upto_opt (Go.len row) (fun x full =>
      do a <- at2 (tab2 FH FW A) y x;
      assign2 full y x (real a / scale / starSum)) full)
    (tabulate Hf (fun _ => [])) =
  Some (tab2 Hf Wf (fun y x => real (A y x) / scale / starSum)).
Proof.
  intros HH HW. rewrite len_tabulate by lia.
  apply build_rows; [apply len_tabulate; lia|].
  intros y t Hy Hlen.
  rewrite make_spec by lia. cbn [Go.bind].
  destruct (assign_spec t y (tabulate Wf (fun _ => 0))) as (t1 & -> & Hlen1 & Hidx1);
    [lia|]. cbn [Go.bind]. rewrite len_tabulate by lia.
  destruct (fill_row_loop
              (fun x full => do a <- at2 (tab2 FH FW A) y x;
                             assign2 full y x (real a / scale / starSum))
              (fun x => real (A y x) / scale / starSum) Wf y t1
              (tabulate Wf (fun _ => 0))) as (u & Hu & Hlu & Hrow & Hother).
  - intros c v Hc. now rewrite at2_tab2 by lia.
  - now rewrite Hidx1, Z.eqb_refl.
  - apply len_tabulate. lia.
  - exists u. split; [exact Hu|]. split; [congruence|]. split; [exact Hrow|].
    intros j Hj. rewrite Hother, Hidx1 by assumption. now destruct (Z.eqb_spec j y).
Qed.

(** ifftshift2D on a rectangular matrix. *)
Lemma ifftshift2D_spec (Ph Pw : Z) (psf : Matrix) :
  rect Ph Pw psf -> (1 <= Ph)%Z -> (1 <= Pw)%Z ->
  ifftshift2D psf =
    Some (tab2 Ph Pw (fun y x =>
            entry psf (Z.rem (y + Z.quot Ph 2) Ph) (Z.rem (x + Z.quot Pw 2) Pw))).
Proof.
  intros Hpsf HPh HPw. unfold ifftshift2D.
  destruct (rect_rectangular Ph Pw psf Hpsf HPh) as (_ & Hlen & Hwidth).
  rewrite Hlen.
  destruct psf as [|row0 rest] eqn:Epsf; [unfold Go.len in Hlen; cbn in Hlen; lia|].
  replace (Go.index (row0 :: rest) 0) with (Some row0) by reflexivity.
  cbn [Go.bind]. cbn [width] in Hwidth. rewrite Hwidth.
  rewrite make_spec by lia. cbn [Go.bind]. rewrite len_tabulate by lia.
  rewrite (fill_loop_ext _ (fun _ => tabulate Pw (fun _ => 0)));
    [|intros i t Hi; now rewrite make_spec by lia | apply len_tabulate; lia].
  cbn [Go.bind]. rewrite <- Epsf in *.
  assert (HqPh : (0 <= Z.quot Ph 2)%Z) by (apply Z.quot_pos; lia).
  assert (HqPw : (0 <= Z.quot Pw 2)%Z) by (apply Z.quot_pos; lia).
  rewrite (for_upto_opt_ext _ (fun y out =>
             Go.for_upto_opt Pw (fun x0 out =>
               assign2 out y x0
                 (entry psf (Z.rem (y + Z.quot Ph 2) Ph) (Z.rem (x0 + Z.quot Pw 2) Pw)))
               out)).
  - apply (fill2_loop (fun y x0 out => assign2 out y x0
             (entry psf (Z.rem (y + Z.quot Ph 2) Ph) (Z.rem (x0 + Z.quot Pw 2) Pw)))).
    + reflexivity.
    + apply len_tabulate. lia.
    + lia.
    + intros r Hr. exists (tabulate Pw (fun _ => 0)).
      split; [now rewrite index_tabulate by lia | apply len_tabulate; lia].
  - intros y t Hy. unfold rem. destruct (Z.eqb_spec Ph 0); [lia|]. cbn [Go.bind].
    apply for_upto_opt_ext. intros x u Hx.
    destruct (Z.eqb_spec Pw 0); [lia|]. cbn [Go.bind].
    rewrite (at2_rect Ph Pw psf) by
      (try assumption; apply Z.rem_bound_pos; lia).
    reflexivity.
Qed.

(** The nested loop that stores [f r c] in the top-left h x w region. *)
Lemma fill2_region {A : Type}
    (body : Z -> Z -> list (list A) -> option (list (list A)))
    (f : Z -> Z -> A) (H W h w : Z) (F : Z -> Z -> A) :
  (forall r c t, (0 <= r < h)%Z -> (0 <= c < w)%Z ->
     body r c t = assign2 t r c (f r c)) ->
  (0 <= h <= H)%Z -> (0 <= w <= W)%Z ->
  Go.for_upto_opt h (fun r m =>
    Go.for_upto_opt w (fun c m => body r c m) m) (tab2 H W F) =
  Some (tab2 H W (fun r c => if ((r <? h) && (c <? w))%Z%bool then f r c else F r c)).
Proof.
  intros Hbody Hh Hw.
  rewrite <- (update2_region (fun r c _ => f r c) H W h w F Hh Hw).
  apply for_upto_opt_ext. intros r t Hr.
  apply for_upto_opt_ext. intros c u Hc.
  rewrite Hbody by assumption. apply assign2_guard.
Qed.

(** The loop that multiplies the spectra. *)
Lemma multiply_loop (FH FW : Z) (A B : Z -> Z -> complex128) :
  (0 <= FH)%Z -> (0 <= FW)%Z ->
  Go.for_upto_opt FH (fun y m =>
    Go.for_upto_opt FW (fun x m =>
      do a <- at2 m y x;
      do b <- at2 (tab2 FH FW B) y x;
      assign2 m y x (Cmul a b)) m) (tab2 FH FW A) =
  Some (tab2 FH FW (fun r c => Cmul (A r c) (B r c))).
Proof.
  intros HFH HFW.
  rewrite (for_upto_opt_ext _ (fun y m =>
             Go.for_upto_opt FW (fun x m =>
               do v <- at2 m y x; assign2 m y x (Cmul v (B y x))) m)).
  - rewrite (update2_region (fun r c v => Cmul v (B r c)) FH FW FH FW A) by lia.
    f_equal. apply tab2_ext. intros r c Hr Hc. zbool.
  - intros y t Hy. apply for_upto_opt_ext. intros x u Hx.
    destruct (at2 u y x); [|reflexivity]. cbn [Go.bind].
    now rewrite at2_tab2 by assumption.
Qed.

Lemma fft2_ext (sign : R) (h w : Z) (F G : Z -> Z -> complex128) (u v : Z) :
  (forall r c, (0 <= r < h)%Z -> (0 <= c < w)%Z -> F r c = G r c) ->
  fft2 sign h w F u v = fft2 sign h w G u v.
Proof.
  intros H. unfold fft2, colT, rowT. apply Csum_ext. intros y Hy. f_equal.
  apply Csum_ext. intros x Hx. f_equal. apply H; lia.
Qed.

(** ** The convolver on an impulse kernel *)

(** What the kernel loop stores into B at (y, x): the PSF itself, or
    the PSF after [ifftshift2D] when [centeredPsf] is set. *)
Definition stored_kernel (Ph Pw : Z) (psf : Matrix) (centeredPsf : bool) (y x : Z) : R :=
  if centeredPsf
  then entry psf (Z.rem (y + Z.quot Ph 2) Ph) (Z.rem (x + Z.quot Pw 2) Pw)
  else entry psf y x.

Lemma kernel_loop (FH FW Ph Pw : Z) (psf : Matrix) (centeredPsf : bool) :
  rect Ph Pw psf -> (1 <= Ph <= FH)%Z -> (1 <= Pw <= FW)%Z ->
  (if centeredPsf then
     do psfShift <- ifftshift2D psf;
     Go.for_upto_opt Ph (fun y B =>
       Go.for_upto_opt Pw (fun x B =>
         do v <- at2 psfShift y x;
         assign2 B y x (complex v 0)) B) (tab2 FH FW (fun _ _ => Czero))
   else
     Go.for_upto_opt Ph (fun y B =>
       Go.for_upto_opt Pw (fun x B =>
         do v <- at2 psf y x;
         assign2 B y x (complex v 0)) B) (tab2 FH FW (fun _ _ => Czero))) =
  Some (tab2 FH FW (fun r c =>
          if ((r <? Ph) && (c <? Pw))%Z%bool
          then complex (stored_kernel Ph Pw psf centeredPsf r c) 0 else Czero)).
Proof.
  intros Hpsf HPh HPw. destruct centeredPsf; unfold stored_kernel.
  - rewrite (ifftshift2D_spec Ph Pw psf) by (assumption || lia). cbn [Go.bind].
    apply (fill2_region _ (fun y x => complex (entry psf (Z.rem (y + Z.quot Ph 2) Ph)
                                                 (Z.rem (x + Z.quot Pw 2) Pw)) 0));
      [|lia|lia].
    intros r c t Hr Hc. now rewrite at2_tab2 by assumption.
  - apply (fill2_region _ (fun y x => complex (entry psf y x) 0)); [|lia|lia].
    intros r c t Hr Hc. now rewrite (at2_rect Ph Pw) by assumption.
Qed.

Lemma image_loop (FH FW H W : Z) (image : Matrix) :
  rect H W image -> (1 <= H)%Z -> (0 <= FH)%Z -> (0 <= FW)%Z ->
  Go.for_upto_opt FH (fun y A =>
    Go.for_upto_opt FW (fun x A =>
      do s <- sample2D image y x PadZeros;
      assign2 A y x (complex s 0)) A) (tab2 FH FW (fun _ _ => Czero)) =
  Some (tab2 FH FW (fun y x => complex (zero_padded H W image y x) 0)).
Proof.
  intros Him HH HFH HFW.
  rewrite (fill2_region _ (fun y x => complex (zero_padded H W image y x) 0)
             FH FW FH FW) by
    (lia || (intros r c t Hr Hc; now rewrite (sample2D_zeros H W) by assumption)).
  f_equal. apply tab2_ext. intros r c Hr Hc. zbool.
Qed.

(** Same mode, zero padding, and a kernel whose stored form is the
    impulse at (p, q): the result is the zero-padded image read at a
    circularly shifted position, divided by starSum. *)
Lemma ConvolvePSFFFT_impulse (H W Ph Pw : Z) (image psf : Matrix) (starSum : R)
    (centeredPsf : bool) (p q : Z) :
  rect H W image -> rect Ph Pw psf ->
  (1 <= H)%Z -> (1 <= W)%Z -> (1 <= Ph)%Z -> (1 <= Pw)%Z ->
  (0 <= p < Ph)%Z -> (0 <= q < Pw)%Z ->
  (forall y x, (0 <= y < Ph)%Z -> (0 <= x < Pw)%Z ->
     stored_kernel Ph Pw psf centeredPsf y x =
     if ((y =? p) && (x =? q))%Z%bool then 1 else 0) ->
  ConvolvePSFFFT image psf starSum ConvSame PadZeros centeredPsf =
  Some (Ok (tab2 H W (fun y x =>
    zero_padded H W image
      ((y + Z.quot Ph 2 - p) mod fft_side (H + Ph - 1))%Z
      ((x + Z.quot Pw 2 - q) mod fft_side (W + Pw - 1))%Z / starSum))).
Proof.
  intros Him Hpsf HH HW HPh HPw Hp Hq HK.
  destruct (rect_rectangular H W image Him HH) as (Hri & Hli & Hwi).
  destruct (rect_rectangular Ph Pw psf Hpsf HPh) as (Hrp & Hlp & Hwp).
  pose proof (fft_side_ge (H + Ph - 1)) as [HFH1 HFH2].
  pose proof (fft_side_ge (W + Pw - 1)) as [HFW1 HFW2].
  unfold ConvolvePSFFFT.
  rewrite (rectSize_rectangular image Hri), (rectSize_rectangular psf Hrp).
  rewrite Hli, Hwi, Hlp, Hwp.
  replace (H =? 0)%Z with false by (symmetry; apply Z.eqb_neq; lia).
  replace (Ph =? 0)%Z with false by (symmetry; apply Z.eqb_neq; lia).
  replace (W =? 0)%Z with false by (symmetry; apply Z.eqb_neq; lia).
  replace (Pw =? 0)%Z with false by (symmetry; apply Z.eqb_neq; lia).
  cbn [orb]. 
  replace (ConvSame =? ConvSame)%Z with true by reflexivity.
  replace (ConvSame =? ConvFull)%Z with false by reflexivity.
  cbv zeta.
  change (if negb (Z.rem (nextPow2 (H + Ph - 1)) 2 =? 0)%Z
          then (nextPow2 (H + Ph - 1) + 1)%Z else nextPow2 (H + Ph - 1))
    with (fft_side (H + Ph - 1)).
  change (if negb (Z.rem (nextPow2 (W + Pw - 1)) 2 =? 0)%Z
          then (nextPow2 (W + Pw - 1) + 1)%Z else nextPow2 (W + Pw - 1))
    with (fft_side (W + Pw - 1)).
  set (FH := fft_side (H + Ph - 1)) in *.
  set (FW := fft_side (W + Pw - 1)) in *.
  rewrite (makeComplex2D_spec FH FW) by lia. cbn [Go.bind].
  rewrite (image_loop FH FW H W image) by (assumption || lia). cbn [Go.bind].
  replace (H =? 0)%Z with false by (symmetry; apply Z.eqb_neq; lia).
  replace (Ph =? 0)%Z with false by (symmetry; apply Z.eqb_neq; lia).
  cbn [orb].
  assert (HPhF : (1 <= Ph <= FH)%Z) by lia.
  assert (HPwF : (1 <= Pw <= FW)%Z) by lia.
  pose proof (kernel_loop FH FW Ph Pw psf centeredPsf Hpsf HPhF HPwF) as HB.
  match goal with
  | |- context [Go.bind ?e _] =>
      match e with
      | (if centeredPsf then _ else _) =>
          replace e with
            (Some (tab2 FH FW (fun r c =>
               if ((r <? Ph) && (c <? Pw))%Z%bool
               then complex (stored_kernel Ph Pw psf centeredPsf r c) 0
               else Czero))) by (symmetry; exact HB)
      end
  end.
  cbn [Go.bind].
  rewrite !fft2InPlace_spec by lia. cbn [Go.bind].
  rewrite_loop (multiply_loop FH FW
    (fft2 (-1) FH FW (fun y x => complex (zero_padded H W image y x) 0))
    (fft2 (-1) FH FW (fun r c =>
          if ((r <? Ph) && (c <? Pw))%Z%bool
          then complex (stored_kernel Ph Pw psf centeredPsf r c) 0 else Czero))
    ltac:(lia) ltac:(lia)).
  cbn [Go.bind].
  rewrite fft2InPlace_spec by lia. cbn [Go.bind].
  rewrite make_spec by lia. cbn [Go.bind].
  rewrite_loop (full_loop FH FW (H + Ph - 1) (W + Pw - 1)
    (fft2 1 FH FW (fun r c =>
       Cmul (fft2 (-1) FH FW
               (fun y0 x0 => complex (zero_padded H W image y0 x0) 0) r c)
            (fft2 (-1) FH FW (fun r0 c0 =>
               if ((r0 <? Ph) && (c0 <? Pw))%Z%bool
               then complex (stored_kernel Ph Pw psf centeredPsf r0 c0) 0
               else Czero) r c)))
    (Go.float64 (FH * FW)) starSum ltac:(lia) ltac:(lia)).
  cbn [Go.bind].
  assert (HqY : (0 <= Z.quot Ph 2 <= Ph - 1)%Z)
    by (rewrite Z.quot_div_nonneg by lia; split;
        [apply Z.div_pos; lia | apply Z.lt_le_pred, Z.div_lt_upper_bound; lia]).
  assert (HqX : (0 <= Z.quot Pw 2 <= Pw - 1)%Z)
    by (rewrite Z.quot_div_nonneg by lia; split;
        [apply Z.div_pos; lia | apply Z.lt_le_pred, Z.div_lt_upper_bound; lia]).
  rewrite crop_spec by lia. cbn [Go.bind].
  do 2 f_equal. apply tab2_ext. intros y x Hy Hx.
  rewrite (fft2_ext 1 FH FW _
             (fun u v => Cmul (fft2 (-1) FH FW
                                 (fun y0 x0 => complex (zero_padded H W image y0 x0) 0) u v)
                              (fft2 (-1) FH FW (impulse p q) u v))).
  - rewrite fft2_shift by lia.
    unfold Go.float64.
    assert (Hne : IZR (FH * FW) <> 0) by (apply not_0_IZR; nia).
    unfold Cmul, complex, real, imag. cbn [fst snd].
    unfold Rdiv at 1 3. f_equal.
    replace (y + Z.quot Ph 2 - p)%Z with (y + Z.quot Ph 2 - p)%Z by reflexivity.
    field. exact Hne.
  - intros r c Hr Hc. f_equal. apply fft2_ext. intros r0 c0 Hr0 Hc0.
    unfold impulse.
    destruct ((r0 <? Ph) && (c0 <? Pw))%Z%bool eqn:E.
    + apply andb_prop in E as [E1 E2].
      apply Z.ltb_lt in E1. apply Z.ltb_lt in E2.
      rewrite HK by lia. now destruct ((r0 =? p) && (c0 =? q))%Z%bool.
    + destruct ((r0 =? p) && (c0 =? q))%Z%bool eqn:E'; [|reflexivity].
      apply andb_prop in E' as [E1 E2].
      apply Z.eqb_eq in E1. apply Z.eqb_eq in E2. subst.
      apply andb_false_iff in E as [E | E]; apply Z.ltb_ge in E; lia.
Qed.

(** ** Delta-function PSF *)

(** The PSF with the value 1 at its centre pixel (Ph/2, Pw/2) and 0
    elsewhere. *)
Definition delta_psf (Ph Pw : Z) : Matrix :=
  tab2 Ph Pw (fun y x =>
    if ((y =? Z.quot Ph 2) && (x =? Z.quot Pw 2))%Z%bool then 1 else 0).

Lemma entry_tab2 (h w : Z) (F : Z -> Z -> R) (r c : Z) :
  (0 <= r < h)%Z -> (0 <= c < w)%Z -> entry (tab2 h w F) r c = F r c.
Proof.
  intros Hr Hc.
  pose proof (at2_rect h w (tab2 h w F) r c
                (rect_tab2 h w F ltac:(lia) ltac:(lia)) Hr Hc) as H1.
  rewrite at2_tab2 in H1 by assumption. now injection H1.
Qed.

Lemma quot2_range (P : Z) : (1 <= P)%Z -> (0 <= Z.quot P 2 <= P - 1)%Z.
Proof.
  intros HP. rewrite Z.quot_div_nonneg by lia. split.
  - apply Z.div_pos; lia.
  - apply Z.lt_le_pred, Z.div_lt_upper_bound; lia.
Qed.

(** [(y + P/2) % P] is P/2 only for y = 0. *)
Lemma rem_shift_center (P y : Z) :
  (0 <= y < P)%Z -> (Z.rem (y + Z.quot P 2) P =? Z.quot P 2)%Z = (y =? 0)%Z.
Proof.
  intros Hy. pose proof (quot2_range P ltac:(lia)) as Hc.
  rewrite Z.rem_mod_nonneg by lia.
  destruct (Z.lt_ge_cases (y + Z.quot P 2) P) as [Hlt | Hge].
  - rewrite Z.mod_small by lia. zbool.
  - replace (y + Z.quot P 2)%Z with ((y + Z.quot P 2 - P) + 1 * P)%Z by ring.
    rewrite Z_mod_plus_full, Z.mod_small by lia. zbool.
Qed.

Lemma stored_kernel_delta (Ph Pw : Z) (centeredPsf : bool) (y x : Z) :
  (0 <= y < Ph)%Z -> (0 <= x < Pw)%Z ->
  stored_kernel Ph Pw (delta_psf Ph Pw) centeredPsf y x =
  if centeredPsf
  then (if ((y =? 0) && (x =? 0))%Z%bool then 1 else 0)
  else (if ((y =? Z.quot Ph 2) && (x =? Z.quot Pw 2))%Z%bool then 1 else 0).
Proof.
  intros Hy Hx. unfold stored_kernel, delta_psf. destruct centeredPsf.
  - rewrite entry_tab2.
    + now rewrite !rem_shift_center by assumption.
    + rewrite Z.rem_mod_nonneg by (pose proof (quot2_range Ph); lia).
      apply Z.mod_pos_bound; lia.
    + rewrite Z.rem_mod_nonneg by (pose proof (quot2_range Pw); lia).
      apply Z.mod_pos_bound; lia.
  - now rewrite entry_tab2 by assumption.
Qed.

(** Without the ifftshift the crop of Same mode undoes the offset of the
    centred peak: the result is the image divided by starSum. *)
Lemma ConvolvePSFFFT_delta_uncentered (H W Ph Pw : Z) (image : Matrix) (starSum : R) :
  rect H W image -> (1 <= H)%Z -> (1 <= W)%Z -> (1 <= Ph)%Z -> (1 <= Pw)%Z ->
  ConvolvePSFFFT image (delta_psf Ph Pw) starSum ConvSame PadZeros false =
  Some (Ok (tab2 H W (fun y x => entry image y x / starSum))).
Proof.
  intros Him HH HW HPh HPw.
  pose proof (quot2_range Ph HPh) as HcY. pose proof (quot2_range Pw HPw) as HcX.
  pose proof (fft_side_ge (H + Ph - 1)) as [HFH _].
  pose proof (fft_side_ge (W + Pw - 1)) as [HFW _].
  rewrite (ConvolvePSFFFT_impulse H W Ph Pw image (delta_psf Ph Pw) starSum false
             (Z.quot Ph 2) (Z.quot Pw 2));
    try assumption; try lia.
  - do 2 f_equal. apply tab2_ext. intros y x Hy Hx. f_equal.
    replace (y + Z.quot Ph 2 - Z.quot Ph 2)%Z with y by ring.
    replace (x + Z.quot Pw 2 - Z.quot Pw 2)%Z with x by ring.
    rewrite !Z.mod_small by lia. unfold zero_padded. zbool.
  - apply rect_tab2; lia.
  - intros y x Hy Hx. now rewrite stored_kernel_delta.
Qed.

(** With the ifftshift the peak is stored at (0, 0) and the crop of Same
    mode still starts at (Ph/2, Pw/2): the result is the image moved up
    and left by that offset, with zeros entering from below and from the
    right. *)
Lemma ConvolvePSFFFT_delta_centered (H W Ph Pw : Z) (image : Matrix) (starSum : R) :
  rect H W image -> (1 <= H)%Z -> (1 <= W)%Z -> (1 <= Ph)%Z -> (1 <= Pw)%Z ->
  ConvolvePSFFFT image (delta_psf Ph Pw) starSum ConvSame PadZeros true =
  Some (Ok (tab2 H W (fun y x =>
    zero_padded H W image (y + Z.quot Ph 2) (x + Z.quot Pw 2) / starSum))).
Proof.
  intros Him HH HW HPh HPw.
  pose proof (quot2_range Ph HPh) as HcY. pose proof (quot2_range Pw HPw) as HcX.
  pose proof (fft_side_ge (H + Ph - 1)) as [HFH _].
  pose proof (fft_side_ge (W + Pw - 1)) as [HFW _].
  rewrite (ConvolvePSFFFT_impulse H W Ph Pw image (delta_psf Ph Pw) starSum true 0 0);
    try assumption; try lia.
  - do 2 f_equal. apply tab2_ext. intros y x Hy Hx. f_equal.
    rewrite !Z.sub_0_r. now rewrite !Z.mod_small by lia.
  - apply rect_tab2; lia.
  - intros y x Hy Hx. now rewrite stored_kernel_delta.
Qed.

(** ** Rejected inputs *)

(** No rows, or rows of length 0. *)
Definition empty (m : Matrix) : Prop := Go.len m = 0%Z \/ width m = 0%Z.

Lemma rectSize_cases (m : Matrix) :
  (rectangular m /\ rectSize m = Ok (Go.len m, width m)) \/
  (ragged m /\ rectSize m = Err "ragged matrix").
Proof.
  destruct m as [|m0 rest].
  - left. split; [split; [reflexivity | constructor] | reflexivity].
  - destruct (forallb (fun row => (Go.len row =? Go.len m0)%Z) rest) eqn:E.
    + left. assert (Hr : rectangular (m0 :: rest)).
      { split; [reflexivity|]. cbn [width]. constructor; [reflexivity|].
        rewrite forallb_forall in E. apply Forall_forall. intros row Hin.
        apply Z.eqb_eq. now apply E. }
      split; [exact Hr|]. rewrite (rectSize_rectangular _ Hr).
      destruct (Z.eqb_spec (Go.len (m0 :: rest)) 0) as [H0|]; [|reflexivity].
      unfold Go.len in H0. cbn in H0. lia.
    + assert (Hr : ragged (m0 :: rest)).
      { intros [_ Hrows]. cbn [width] in Hrows.
        inversion Hrows as [|? ? _ Hrest]; subst.
        assert (forallb (fun row => (Go.len row =? Go.len m0)%Z) rest = true).
        { apply forallb_forall. intros row Hin. apply Z.eqb_eq.
          rewrite Forall_forall in Hrest. now apply Hrest. }
        congruence. }
      right. split; [exact Hr | now apply rectSize_ragged].
Qed.

(** The messages of the errors returned before any transform is made. *)
Definition rejections : list string :=
  [ "ragged matrix"; "empty image or psf";
    "valid convolution requested but psf larger than image" ]%string.

(** C4 (as amended): ConvolvePSFFFT returns an error, and no image, for a
    ragged image or PSF, for an empty image or PSF, and for a Valid-mode
    request whose output height H-Ph+1 or width W-Pw+1 is not positive;
    this holds for every starSum, padding mode and centeredPsf flag. *)
Theorem ConvolvePSFFFT_rejects (image psf : Matrix) (starSum : R) (mode : ConvMode)
    (pad : PaddingMode) (centeredPsf : bool) :
  ragged image \/ ragged psf \/ empty image \/ empty psf \/
  (mode = ConvValid /\
   (Go.len image - Go.len psf + 1 <= 0 \/ width image - width psf + 1 <= 0)%Z) ->
  exists e, In e rejections /\
    ConvolvePSFFFT image psf starSum mode pad centeredPsf = Some (Err e).
Proof.
  intros Hin. unfold ConvolvePSFFFT.
  destruct (rectSize_cases image) as [[Hri ->] | [Hri ->]];
    [|exists "ragged matrix"%string; split; [now left | reflexivity]].
  destruct (rectSize_cases psf) as [[Hrp ->] | [Hrp ->]];
    [|exists "ragged matrix"%string; split; [now left | reflexivity]].
  destruct ((Go.len image =? 0) || (width image =? 0) ||
            (Go.len psf =? 0) || (width psf =? 0))%Z%bool eqn:E.
  { exists "empty image or psf"%string. split; [right; now left | reflexivity]. }
  repeat (apply orb_false_iff in E as [E ?]).
  rewrite Z.eqb_neq in *.
  destruct Hin as [Hr | [Hr | [[He | He] | [[He | He] | [-> Hdim]]]]];
    try contradiction.
  exists "valid convolution requested but psf larger than image"%string.
  split; [right; right; now left|].
  replace (ConvValid =? ConvSame)%Z with false by reflexivity.
  replace (ConvValid =? ConvFull)%Z with false by reflexivity.
  replace (ConvValid =? ConvValid)%Z with true by reflexivity.
  cbv zeta.
  replace ((Go.len image - Go.len psf + 1 <=? 0) ||
           (width image - width psf + 1 <=? 0))%Z%bool with true; [reflexivity|].
  symmetry. apply orb_true_iff. rewrite !Z.leb_le. exact Hdim.
Qed.

Lemma ConvolvePSFFFT_rejects_witness :
  exists e, In e rejections /\
    ConvolvePSFFFT [[1]] [[1; 1]; [1; 1]] 1 ConvValid PadZeros false = Some (Err e).
Proof.
  apply (ConvolvePSFFFT_rejects [[1]] [[1; 1]; [1; 1]] 1 ConvValid PadZeros false).
  right; right; right; right. split; [reflexivity|]. left. vm_compute. discriminate.
Defined.

(** C4 as first stated fails for the weight sum: nothing compares starSum
    with 0.  With starSum = -2 the 2 x 2 image below is convolved and
    every pixel is divided by -2. *)
Lemma negative_weight_sum_counterexample :
  -2 <= 0 /\
  ConvolvePSFFFT [[1; 2]; [3; 4]] (delta_psf 3 3) (-2) ConvSame PadZeros false =
  Some (Ok [[1 / -2; 2 / -2]; [3 / -2; 4 / -2]]).
Proof.
  split; [lra|].
  rewrite (ConvolvePSFFFT_delta_uncentered 2 2 3 3); try lia.
  - reflexivity.
  - split; [reflexivity | repeat constructor].
Qed.

(** ** Delta PSF in Same mode *)

Definition image3 : Matrix := [[1; 2; 3]; [4; 5; 6]; [7; 8; 9]].

(** C3: on a non-empty rectangular image, with a delta-function PSF,
    starSum = 1, Same mode and zero padding, ConvolvePSFFFT with the
    ifftshift (centeredPsf = true) returns the image moved by
    (Ph/2, Pw/2) towards the origin, zeros filling the last rows and
    columns, and not the input image; without the ifftshift
    (centeredPsf = false) it returns the input image exactly. *)
Theorem ConvolvePSFFFT_delta_same_zeros (H W Ph Pw : Z) (image : Matrix) :
  rect H W image -> (1 <= H)%Z -> (1 <= W)%Z -> (1 <= Ph)%Z -> (1 <= Pw)%Z ->
  ConvolvePSFFFT image (delta_psf Ph Pw) 1 ConvSame PadZeros true =
    Some (Ok (tab2 H W (fun y x =>
      zero_padded H W image (y + Z.quot Ph 2) (x + Z.quot Pw 2)))) /\
  ConvolvePSFFFT image (delta_psf Ph Pw) 1 ConvSame PadZeros false =
    Some (Ok image).
Proof.
  intros Him HH HW HPh HPw. split.
  - rewrite (ConvolvePSFFFT_delta_centered H W Ph Pw) by assumption.
    do 2 f_equal. apply tab2_ext. intros y x _ _. apply Rdiv_1_r.
  - rewrite (ConvolvePSFFFT_delta_uncentered H W Ph Pw) by assumption.
    do 2 f_equal.
    transitivity (tab2 H W (entry image));
      [|symmetry; now apply rect_eq_tab2].
    apply tab2_ext. intros y x _ _. apply Rdiv_1_r.
Qed.

Lemma ConvolvePSFFFT_delta_same_zeros_witness :
  ConvolvePSFFFT image3 (delta_psf 3 3) 1 ConvSame PadZeros true =
    Some (Ok [[5; 6; 0]; [8; 9; 0]; [0; 0; 0]]) /\
  ConvolvePSFFFT image3 (delta_psf 3 3) 1 ConvSame PadZeros false =
    Some (Ok image3).
Proof.
  apply (ConvolvePSFFFT_delta_same_zeros 3 3 3 3 image3).
  - split; [reflexivity | repeat constructor].
  - lia.
  - lia.
  - lia.
  - lia.
Defined.

(* ================================================================== *)
(** * Part III: further properties of the code                         *)
(* ================================================================== *)

(** ** convolution.go: the integer utilities *)

Lemma nextPow2_loop_spec (fuel : nat) (p n k : Z) :
  (0 <= k)%Z -> p = (2 ^ k)%Z -> (n <= p + Z.of_nat fuel)%Z ->
  (p < 2 * n \/ p = 1)%Z ->
  exists k', (0 <= k')%Z /\ nextPow2_loop fuel p n = (2 ^ k')%Z /\
    (n <= nextPow2_loop fuel p n)%Z /\
    (nextPow2_loop fuel p n < 2 * n \/ nextPow2_loop fuel p n = 1)%Z.
Proof.
  revert p k. induction fuel as [|fuel IH]; intros p k Hk Hp Hn Hlt;
    cbn [nextPow2_loop].
  - exists k. repeat split; try assumption; lia.
  - destruct (Z.ltb_spec p n) as [Hpn | Hpn].
    + assert (Hp0 : (0 < p)%Z) by (subst p; apply Z.pow_pos_nonneg; lia).
      apply (IH (Z.shiftl p 1) (k + 1)%Z); rewrite ?Z.shiftl_mul_pow2 by lia;
        try lia.
      rewrite Z.pow_add_r by lia. subst p. reflexivity.
    + exists k. repeat split; try assumption; lia.
Qed.

(** X1.  nextPow2 returns the least power of two that is at least n (and 1
    for every n <= 1). *)
Theorem nextPow2_least_power_of_two (n : Z) :
  exists k, (0 <= k)%Z /\ nextPow2 n = (2 ^ k)%Z /\
    (n <= nextPow2 n)%Z /\
    (n <= 1 -> nextPow2 n = 1)%Z /\
    (1 < n -> nextPow2 n < 2 * n)%Z.
Proof.
  unfold nextPow2. destruct (Z.leb_spec n 1) as [Hn | Hn].
  - exists 0%Z. repeat split; try reflexivity; lia.
  - destruct (nextPow2_loop_spec (Z.to_nat n) 1 n 0) as (k & Hk & Heq & Hge & Hlt);
      try reflexivity; try lia.
    exists k. repeat split; try assumption; lia.
Qed.

(** X2.  For lo <= hi, clamp returns the point of [lo, hi] nearest to v. *)
Theorem clamp_nearest (v lo hi : Z) :
  (lo <= hi)%Z ->
  (lo <= clamp v lo hi <= hi)%Z /\
  forall u, (lo <= u <= hi)%Z -> (Z.abs (clamp v lo hi - v) <= Z.abs (u - v))%Z.
Proof.
  intros Hle. unfold clamp.
  destruct (Z.ltb_spec v lo); [split; [lia | intros; lia]|].
  destruct (Z.gtb_spec v hi); split; try lia; intros; lia.
Qed.

Lemma clamp_nearest_witness :
  (0 <= clamp 7 0 4 <= 4)%Z /\
  forall u, (0 <= u <= 4)%Z -> (Z.abs (clamp 7 0 4 - 7) <= Z.abs (u - 7))%Z.
Proof. apply (clamp_nearest 7 0 4). lia. Defined.

Lemma mod_pos (i n : Z) : (0 < n)%Z -> mod_ i n = Some (i mod n)%Z.
Proof.
  intros Hn. unfold mod_, rem.
  destruct (Z.eqb_spec n 0); [lia|]. cbn [Go.bind]. f_equal.
  pose proof (Z.quot_rem' i n) as Hqr.
  destruct (Z.ltb_spec (Z.rem i n) 0) as [Hneg | Hpos].
  - apply (Z.mod_unique i n (Z.quot i n - 1)).
    + left. destruct (Z.le_gt_cases 0 i) as [Hi | Hi].
      * pose proof (Z.rem_bound_pos i n Hi Hn). lia.
      * pose proof (Z.rem_bound_pos (- i) n ltac:(lia) Hn) as Hb.
        rewrite Z.rem_opp_l' in Hb. lia.
    + lia.
  - apply (Z.mod_unique i n (Z.quot i n)).
    + left. destruct (Z.le_gt_cases 0 i) as [Hi | Hi].
      * pose proof (Z.rem_bound_pos i n Hi Hn). lia.
      * pose proof (Z.rem_bound_pos (- i) n ltac:(lia) Hn) as Hb.
        rewrite Z.rem_opp_l' in Hb. lia.
    + lia.
Qed.

(** X3.  For a positive modulus, mod returns the non-negative remainder, also
    for negative i (where Go's % is negative); a zero modulus panics. *)
Theorem mod_nonnegative_remainder (i n : Z) :
  (0 < n)%Z ->
  mod_ i n = Some (i mod n)%Z /\ (0 <= i mod n < n)%Z /\ mod_ i 0 = None.
Proof.
  intros Hn. split; [now apply mod_pos|].
  split; [now apply Z.mod_pos_bound | reflexivity].
Qed.

Lemma mod_nonnegative_remainder_witness :
  mod_ (-7) 5 = Some ((-7) mod 5)%Z /\ (0 <= (-7) mod 5 < 5)%Z /\ mod_ (-7) 0 = None.
Proof. apply (mod_nonnegative_remainder (-7) 5). lia. Defined.

Lemma reflectIndex_pos (i n : Z) :
  (2 <= n)%Z ->
  reflectIndex i n =
  Some (if (i mod (2 * n - 2) >=? n)%Z
        then (2 * n - 2 - i mod (2 * n - 2))%Z else (i mod (2 * n - 2))%Z).
Proof.
  intros Hn. unfold reflectIndex.
  destruct (Z.leb_spec n 1); [lia|].
  now rewrite mod_pos by lia.
Qed.

Lemma mod_opp_period (i P : Z) :
  (0 < P)%Z ->
  ((- i) mod P = if (i mod P =? 0)%Z then 0 else P - i mod P)%Z.
Proof.
  intros HP. destruct (Z.eqb_spec (i mod P) 0) as [H0 | H0].
  - now apply Z.mod_opp_l_z; [lia|].
  - apply Z.mod_opp_l_nz; lia.
Qed.

(** X4.  reflectIndex maps every integer into [0, n), leaves the indices of
    [0, n) where they are, and is the triangle wave of the comment:
    even about 0 and of period 2n - 2. *)
Theorem reflectIndex_triangle_wave (i n : Z) :
  (1 <= n)%Z ->
  exists r, reflectIndex i n = Some r /\
    (0 <= r < n)%Z /\
    (0 <= i < n -> r = i)%Z /\
    reflectIndex (- i) n = Some r /\
    reflectIndex (i + (2 * n - 2)) n = Some r.
Proof.
  intros Hn. destruct (Z.eq_dec n 1) as [-> | Hn1].
  - exists 0%Z. repeat split; try reflexivity; lia.
  - assert (Hn2 : (2 <= n)%Z) by lia.
    assert (HP : (0 < 2 * n - 2)%Z) by lia.
    rewrite !reflectIndex_pos by assumption.
    pose proof (Z.mod_pos_bound i (2 * n - 2) HP) as Hb.
    eexists. split; [reflexivity|]. split; [|split; [|split]].
    + destruct (Z.geb_spec (i mod (2 * n - 2)) n); lia.
    + intros Hi. rewrite Z.mod_small by lia.
      destruct (Z.geb_spec i n); lia.
    + f_equal. rewrite mod_opp_period by assumption.
      destruct (Z.eqb_spec (i mod (2 * n - 2)) 0) as [H0 | H0].
      * rewrite H0. destruct (Z.geb_spec 0 n); [lia | reflexivity].
      * destruct (Z.geb_spec (2 * n - 2 - i mod (2 * n - 2)) n);
          destruct (Z.geb_spec (i mod (2 * n - 2)) n); lia.
    + f_equal. replace (i + (2 * n - 2))%Z with (i + 1 * (2 * n - 2))%Z by ring.
      now rewrite Z_mod_plus_full.
Qed.

Lemma reflectIndex_triangle_wave_witness :
  exists r, reflectIndex 6 5 = Some r /\
    (0 <= r < 5)%Z /\
    (0 <= 6 < 5 -> r = 6)%Z /\
    reflectIndex (- 6) 5 = Some r /\
    reflectIndex (6 + (2 * 5 - 2)) 5 = Some r.
Proof. apply (reflectIndex_triangle_wave 6 5). lia. Defined.

(** ** convolution.go: sample2D *)

Lemma sample2D_unfold (H W : Z) (image : Matrix) (y x : Z) (mode : PaddingMode) :
  rect H W image -> (1 <= H)%Z ->
  sample2D image y x mode =
  if ((0 <=? y) && (y <? H) && (0 <=? x) && (x <? W))%Z%bool then at2 image y x
  else if (mode =? PadZeros)%Z then Some 0
  else if (mode =? PadReplicate)%Z then
    at2 image (clamp y 0 (H - 1)) (clamp x 0 (W - 1))
  else if (mode =? PadReflect)%Z then
    do yy <- reflectIndex y H;
    do xx <- reflectIndex x W;
    at2 image yy xx
  else if (mode =? PadCircular)%Z then
    do yy <- mod_ y H;
    do xx <- mod_ x W;
    at2 image yy xx
  else Some 0.
Proof.
  intros Him HH. unfold sample2D.
  destruct (rect_rectangular H W image Him HH) as (_ & Hlen & Hw).
  destruct image as [|row0 rest]; [unfold Go.len in Hlen; cbn in Hlen; lia|].
  cbn [width] in Hw.
  replace (Go.index (row0 :: rest) 0) with (Some row0) by reflexivity.
  cbn [Go.bind]. now rewrite Hlen, Hw.
Qed.

(** The pixel that a padding mode reads for a coordinate outside the
    image: [None] stands for the value 0. *)
Definition padded_index (mode : PaddingMode) (n i : Z) : option Z :=
  if (mode =? PadReplicate)%Z then Some (Z.max 0 (Z.min i (n - 1)))
  else if (mode =? PadReflect)%Z then
    Some (if (n <=? 1)%Z then 0%Z
          else if (i mod (2 * n - 2) >=? n)%Z
               then (2 * n - 2 - i mod (2 * n - 2))%Z else (i mod (2 * n - 2))%Z)
  else if (mode =? PadCircular)%Z then Some (i mod n)%Z
  else None.

Lemma some_eq {A : Type} (a b : A) : Some a = Some b -> a = b.
Proof. congruence. Qed.

Lemma padded_index_range (mode : PaddingMode) (n i k : Z) :
  (1 <= n)%Z -> padded_index mode n i = Some k -> (0 <= k < n)%Z.
Proof.
  intros Hn. unfold padded_index.
  destruct (mode =? PadReplicate)%Z;
    [intros Hk; apply some_eq in Hk; subst k; lia|].
  destruct (mode =? PadReflect)%Z.
  { intros Hk. apply some_eq in Hk. subst k.
    destruct (Z.leb_spec n 1); [lia|].
    pose proof (Z.mod_pos_bound i (2 * n - 2) ltac:(lia)).
    destruct (Z.geb_spec (i mod (2 * n - 2)) n); lia. }
  destruct (mode =? PadCircular)%Z; [|discriminate].
  intros Hk. apply some_eq in Hk. subst k. apply Z.mod_pos_bound. lia.
Qed.

Lemma padded_index_reflect (n i : Z) :
  (1 <= n)%Z -> reflectIndex i n = padded_index PadReflect n i.
Proof.
  intros Hn. unfold padded_index.
  replace (PadReflect =? PadReplicate)%Z with false by reflexivity.
  replace (PadReflect =? PadReflect)%Z with true by reflexivity.
  destruct (Z.leb_spec n 1) as [H1 | H1].
  - unfold reflectIndex. destruct (Z.leb_spec n 1); [reflexivity | lia].
  - now apply reflectIndex_pos; lia.
Qed.

(** The image extended to every coordinate by a padding mode. *)
Definition padded (H W : Z) (image : Matrix) (mode : PaddingMode) (y x : Z) : R :=
  if ((0 <=? y) && (y <? H) && (0 <=? x) && (x <? W))%Z%bool
  then entry image y x
  else match padded_index mode H y, padded_index mode W x with
       | Some yy, Some xx => entry image yy xx
       | _, _ => 0
       end.

Lemma sample2D_padded (H W : Z) (image : Matrix) (y x : Z) (mode : PaddingMode) :
  rect H W image -> (1 <= H)%Z -> (1 <= W)%Z ->
  sample2D image y x mode = Some (padded H W image mode y x).
Proof.
  intros Him HH HW. unfold padded. rewrite (sample2D_unfold H W) by assumption.
  destruct ((0 <=? y) && (y <? H) && (0 <=? x) && (x <? W))%Z%bool eqn:E.
  { apply (at2_rect H W); [assumption | |];
      repeat (apply andb_prop in E as [E ?]); lia. }
  destruct (Z.eqb_spec mode PadZeros) as [-> | HZ]; [reflexivity|].
  destruct (Z.eqb_spec mode PadReplicate) as [-> | HR].
  { unfold padded_index.
    replace (PadReplicate =? PadReplicate)%Z with true by reflexivity.
    replace (clamp y 0 (H - 1)) with (Z.max 0 (Z.min y (H - 1)))
      by (unfold clamp; destruct (Z.ltb_spec y 0); [lia|];
          destruct (Z.gtb_spec y (H - 1)); lia).
    replace (clamp x 0 (W - 1)) with (Z.max 0 (Z.min x (W - 1)))
      by (unfold clamp; destruct (Z.ltb_spec x 0); [lia|];
          destruct (Z.gtb_spec x (W - 1)); lia).
    apply (at2_rect H W); [assumption | lia | lia]. }
  destruct (Z.eqb_spec mode PadReflect) as [-> | HF].
  { rewrite !padded_index_reflect by assumption.
    destruct (padded_index PadReflect H y) as [yy|] eqn:Ey; [|discriminate].
    destruct (padded_index PadReflect W x) as [xx|] eqn:Ex; [|discriminate].
    cbn [Go.bind]. apply (at2_rect H W); [assumption | |];
      eapply padded_index_range; eauto. }
  destruct (Z.eqb_spec mode PadCircular) as [-> | HC].
  { rewrite !mod_pos by lia. cbn [Go.bind]. unfold padded_index.
    replace (PadCircular =? PadReplicate)%Z with false by reflexivity.
    replace (PadCircular =? PadReflect)%Z with false by reflexivity.
    replace (PadCircular =? PadCircular)%Z with true by reflexivity.
    apply (at2_rect H W); [assumption | |]; apply Z.mod_pos_bound; lia. }
  unfold padded_index.
  destruct (Z.eqb_spec mode PadReplicate); [contradiction|].
  destruct (Z.eqb_spec mode PadReflect); [contradiction|].
  destruct (Z.eqb_spec mode PadCircular); [contradiction|]. reflexivity.
Qed.

(** X5.  On a non-empty rectangular image sample2D never panics, whatever the
    coordinates and the mode: inside the image it is the pixel itself;
    outside it is 0 for PadZeros (and for an unknown mode), the nearest
    pixel for PadReplicate, the mirrored pixel for PadReflect and the
    pixel modulo the image size for PadCircular. *)
Theorem sample2D_never_panics (H W : Z) (image : Matrix) (y x : Z) (mode : PaddingMode) :
  rect H W image -> (1 <= H)%Z -> (1 <= W)%Z ->
  sample2D image y x mode =
  Some (if ((0 <=? y) && (y <? H) && (0 <=? x) && (x <? W))%Z%bool
        then entry image y x
        else match padded_index mode H y, padded_index mode W x with
             | Some yy, Some xx => entry image yy xx
             | _, _ => 0
             end).
Proof.
  intros Him HH HW. rewrite (sample2D_padded H W) by assumption.
  reflexivity.
Qed.

Lemma sample2D_never_panics_witness :
  sample2D image3 (-1) 4 PadReplicate = Some 3.
Proof.
  apply (sample2D_never_panics 3 3 image3 (-1) 4 PadReplicate).
  - split; [reflexivity | repeat constructor].
  - lia.
  - lia.
Defined.

(** ** convolution.go: ifftshift2D and fft2InPlace *)

Lemma rem_shift_twice (h y : Z) :
  (0 <= y < h)%Z -> Z.even h = true ->
  Z.rem (Z.rem (y + Z.quot h 2) h + Z.quot h 2) h = y.
Proof.
  intros Hy Heven. apply Z.even_spec in Heven as [k ->].
  assert (Hk : (0 < k)%Z) by lia.
  rewrite Z.quot_div_nonneg by lia.
  replace (2 * k / 2)%Z with k by (rewrite Z.mul_comm, Z.div_mul; lia).
  rewrite (Z.rem_mod_nonneg (y + k)) by lia.
  destruct (Z.lt_ge_cases (y + k) (2 * k)) as [Hlt | Hge].
  - rewrite (Z.mod_small (y + k)) by lia.
    rewrite Z.rem_mod_nonneg by lia.
    replace (y + k + k)%Z with (y + 1 * (2 * k))%Z by ring.
    rewrite Z_mod_plus_full. apply Z.mod_small. lia.
  - replace (y + k)%Z with ((y - k) + 1 * (2 * k))%Z at 1 by ring.
    rewrite Z_mod_plus_full, (Z.mod_small (y - k)) by lia.
    rewrite Z.rem_mod_nonneg by lia.
    replace (y - k + k)%Z with y by ring. apply Z.mod_small. lia.
Qed.

(** X6.  On a matrix with an even number of rows and of columns, ifftshift2D
    applied twice gives the matrix back; the input is not modified. *)
Theorem ifftshift2D_twice_even (h w : Z) (m : Matrix) :
  rect h w m -> (1 <= h)%Z -> (1 <= w)%Z ->
  Z.even h = true -> Z.even w = true ->
  (do s <- ifftshift2D m; ifftshift2D s) = Some m.
Proof.
  intros Hm Hh Hw Eh Ew.
  rewrite (ifftshift2D_spec h w m) by assumption. cbn [Go.bind].
  rewrite (ifftshift2D_spec h w) by (try apply rect_tab2; lia).
  f_equal.
  transitivity (tab2 h w (entry m)); [|symmetry; now apply rect_eq_tab2].
  apply tab2_ext. intros y x Hy Hx.
  rewrite entry_tab2.
  - now rewrite !rem_shift_twice by assumption.
  - rewrite Z.rem_mod_nonneg by (pose proof (quot2_range h); lia).
    apply Z.mod_pos_bound; lia.
  - rewrite Z.rem_mod_nonneg by (pose proof (quot2_range w); lia).
    apply Z.mod_pos_bound; lia.
Qed.

Lemma ifftshift2D_twice_even_witness :
  (do s <- ifftshift2D [[1; 2; 3; 4]; [5; 6; 7; 8]]; ifftshift2D s) =
  Some [[1; 2; 3; 4]; [5; 6; 7; 8]].
Proof.
  apply (ifftshift2D_twice_even 2 4).
  - split; [reflexivity | repeat constructor].
  - lia.
  - lia.
  - reflexivity.
  - reflexivity.
Defined.

Lemma rect_eq_tab2_gen {A : Type} (d : A) (h w : Z) (m : list (list A)) :
  rect h w m ->
  m = tab2 h w (fun r c => nth (Z.to_nat c) (nth (Z.to_nat r) m []) d).
Proof.
  intros [Hlen Hrows].
  assert (Hh : (0 <= h)%Z) by (unfold Go.len in Hlen; lia).
  apply index_ext; [unfold tab2; now rewrite len_tabulate|].
  intros r Hr. rewrite Hlen in Hr. unfold tab2. rewrite index_tabulate by assumption.
  rewrite (index_nth_Z m r []) by lia. f_equal.
  assert (Hrow : Go.len (nth (Z.to_nat r) m []) = w).
  { rewrite Forall_forall in Hrows. apply Hrows. apply nth_In.
    unfold Go.len in Hlen. lia. }
  apply index_ext; [rewrite len_tabulate; unfold Go.len in *; lia|].
  intros c Hc. rewrite Hrow in Hc. rewrite index_tabulate by assumption.
  now apply index_nth_Z; rewrite Hrow.
Qed.

Lemma map_tab2 {A B : Type} (g : A -> B) (h w : Z) (F : Z -> Z -> A) :
  map (map g) (tab2 h w F) = tab2 h w (fun r c => g (F r c)).
Proof.
  unfold tab2. rewrite map_tabulate. apply tabulate_ext. intros r _.
  apply map_tabulate.
Qed.

Lemma twiddle_0 (sign : R) (n k : Z) : twiddle sign n 0 k = Cone.
Proof.
  unfold twiddle. rewrite Z.mul_0_l.
  replace (sign * (2 * PI * 0 / IZR n)) with 0
    by (unfold Rdiv; ring).
  apply Cis_0.
Qed.

(** The inverse transform of the forward transform is h w times the
    grid. *)
Lemma fft2_inverse (h w : Z) (F : Z -> Z -> complex128) (y x : Z) :
  (0 <= y < h)%Z -> (0 <= x < w)%Z ->
  fft2 1 h w (fft2 (-1) h w F) y x = Cmul (complex (IZR (h * w)) 0) (F y x).
Proof.
  intros Hy Hx.
  rewrite (fft2_ext 1 h w _
             (fun u v => Cmul (fft2 (-1) h w F u v)
                              (fft2 (-1) h w (impulse 0 0) u v))).
  - rewrite fft2_shift by lia. rewrite !Z.sub_0_r.
    now rewrite !Z.mod_small by lia.
  - intros r c Hr Hc. rewrite fft2_impulse by lia.
    rewrite !twiddle_0. unfold Cmul, Cone, complex, real, imag.
    destruct (fft2 (-1) h w F r c) as [re im]. cbn [fst snd].
    f_equal; ring.
Qed.

(** X7.  fft2InPlace forward and then inverse multiplies every entry of a
    non-empty rectangular grid by its number of entries h w: the
    transforms are unnormalized. *)
Theorem fft2InPlace_round_trip (h w : Z) (a : Grid) :
  rect h w a -> (1 <= h)%Z -> (1 <= w)%Z ->
  (do b <- fft2InPlace a true; fft2InPlace b false) =
  Some (map (map (fun z => Cmul (complex (IZR (h * w)) 0) z)) a).
Proof.
  intros Ha Hh Hw.
  rewrite (rect_eq_tab2_gen Czero h w a Ha).
  set (F := fun r c => nth (Z.to_nat c) (nth (Z.to_nat r) a []) Czero).
  rewrite fft2InPlace_spec by assumption. cbn [Go.bind].
  rewrite fft2InPlace_spec by assumption.
  rewrite map_tab2. f_equal. apply tab2_ext. intros y x Hy Hx.
  now apply fft2_inverse.
Qed.

Lemma fft2InPlace_round_trip_witness :
  (do b <- fft2InPlace [[(1, 0); (0, 1)]; [(2, 0); (0, 0)]] true;
   fft2InPlace b false) =
  Some (map (map (fun z => Cmul (complex (IZR (2 * 2)) 0) z))
          [[(1, 0); (0, 1)]; [(2, 0); (0, 0)]]).
Proof.
  apply (fft2InPlace_round_trip 2 2).
  - split; [reflexivity | repeat constructor].
  - lia.
  - lia.
Defined.

(** ** convolution.go: the convolution theorem for ConvolvePSFFFT *)

Lemma fft2_zero (sign : R) (h w u v : Z) :
  fft2 sign h w (fun _ _ => Czero) u v = Czero.
Proof.
  unfold fft2, colT, rowT.
  rewrite (Csum_ext _ _ (fun _ => Czero)); [apply Csum_zero|].
  intros y _. rewrite (Csum_ext _ _ (fun _ => Czero)).
  - rewrite Csum_zero. ring.
  - intros x _. ring.
Qed.

Lemma fft2_add (sign : R) (h w : Z) (F G : Z -> Z -> complex128) (u v : Z) :
  fft2 sign h w (fun r c => Cadd (F r c) (G r c)) u v =
  Cadd (fft2 sign h w F u v) (fft2 sign h w G u v).
Proof.
  unfold fft2, colT, rowT. rewrite <- Csum_add. apply Csum_ext. intros y _.
  rewrite (Csum_ext _ (fun x => Cmul (Cadd (F y x) (G y x)) (twiddle sign w x v))
             (fun x => Cadd (Cmul (F y x) (twiddle sign w x v))
                            (Cmul (G y x) (twiddle sign w x v))))
    by (intros x _; ring).
  rewrite Csum_add. ring.
Qed.

Lemma fft2_scale (sign : R) (h w : Z) (k : complex128) (F : Z -> Z -> complex128)
    (u v : Z) :
  fft2 sign h w (fun r c => Cmul k (F r c)) u v = Cmul k (fft2 sign h w F u v).
Proof.
  unfold fft2, colT, rowT. rewrite <- Csum_mul_l. apply Csum_ext. intros y _.
  rewrite (Csum_ext _ (fun x => Cmul (Cmul k (F y x)) (twiddle sign w x v))
             (fun x => Cmul k (Cmul (F y x) (twiddle sign w x v))))
    by (intros x _; ring).
  rewrite Csum_mul_l. ring.
Qed.

Lemma fft2_Csum (sign : R) (h w : Z) (n : nat) (G : Z -> Z -> Z -> complex128)
    (u v : Z) :
  fft2 sign h w (fun r c => Csum n (fun i => G i r c)) u v =
  Csum n (fun i => fft2 sign h w (G i) u v).
Proof.
  induction n as [|n IH]; cbn [Csum].
  - apply fft2_zero.
  - rewrite fft2_add. now rewrite IH.
Qed.

(** A kernel stored in the top-left Ph x Pw corner is a sum of scaled
    impulses. *)
Lemma kernel_as_impulses (Ph Pw : Z) (K : Z -> Z -> complex128) (r c : Z) :
  (0 <= Ph)%Z -> (0 <= Pw)%Z -> (0 <= r)%Z -> (0 <= c)%Z ->
  (if ((r <? Ph) && (c <? Pw))%Z%bool then K r c else Czero) =
  Csum (Z.to_nat Ph) (fun i =>
    Csum (Z.to_nat Pw) (fun j => Cmul (K i j) (impulse i j r c))).
Proof.
  intros HPh HPw Hr Hc.
  destruct (Z.ltb_spec r Ph) as [Hrp | Hrp]; cbn [andb];
    [destruct (Z.ltb_spec c Pw) as [Hcp | Hcp]|].
  - rewrite (Csum_single _ _ r); [|lia|].
    + rewrite (Csum_single _ _ c); [|lia|].
      * unfold impulse. rewrite !Z.eqb_refl. cbn [andb]. ring.
      * intros j _ Hne. unfold impulse.
        destruct (Z.eqb_spec c j); [congruence|]. rewrite andb_false_r. ring.
    + intros i _ Hne. rewrite (Csum_ext _ _ (fun _ => Czero));
        [apply Csum_zero|].
      intros j _. unfold impulse.
      destruct (Z.eqb_spec r i); [congruence|]. cbn [andb]. ring.
  - symmetry. rewrite (Csum_ext _ _ (fun _ => Czero)); [apply Csum_zero|].
    intros i _. rewrite (Csum_ext _ _ (fun _ => Czero)); [apply Csum_zero|].
    intros j Hj. unfold impulse.
    destruct (Z.eqb_spec c j); [lia|]. rewrite andb_false_r. ring.
  - symmetry. rewrite (Csum_ext _ _ (fun _ => Czero)); [apply Csum_zero|].
    intros i Hi. rewrite (Csum_ext _ _ (fun _ => Czero)); [apply Csum_zero|].
    intros j _. unfold impulse.
    destruct (Z.eqb_spec r i); [lia|]. cbn [andb]. ring.
Qed.

(** The convolution theorem on the FFT grid: the inverse transform of
    the product of the spectra is h w times the circular convolution. *)
Lemma fft2_convolution (h w Ph Pw : Z) (P K : Z -> Z -> complex128) (y x : Z) :
  (0 <= Ph <= h)%Z -> (0 <= Pw <= w)%Z -> (0 <= y < h)%Z -> (0 <= x < w)%Z ->
  fft2 1 h w (fun u v =>
    Cmul (fft2 (-1) h w P u v)
         (fft2 (-1) h w (fun r c =>
            if ((r <? Ph) && (c <? Pw))%Z%bool then K r c else Czero) u v)) y x =
  Cmul (complex (IZR (h * w)) 0)
    (Csum (Z.to_nat Ph) (fun i =>
       Csum (Z.to_nat Pw) (fun j =>
         Cmul (K i j) (P ((y - i) mod h)%Z ((x - j) mod w)%Z)))).
Proof.
  intros HPh HPw Hy Hx.
  rewrite (fft2_ext 1 h w _
    (fun u v => Csum (Z.to_nat Ph) (fun i => Csum (Z.to_nat Pw) (fun j =>
       Cmul (K i j)
         (Cmul (fft2 (-1) h w P u v) (fft2 (-1) h w (impulse i j) u v)))))).
  - rewrite fft2_Csum. rewrite <- Csum_mul_l. apply Csum_ext. intros i Hi.
    rewrite fft2_Csum. rewrite <- Csum_mul_l. apply Csum_ext. intros j Hj.
    rewrite fft2_scale. rewrite fft2_shift by lia. ring.
  - intros u v Hu Hv.
    rewrite (fft2_ext (-1) h w
      (fun r c => if ((r <? Ph) && (c <? Pw))%Z%bool then K r c else Czero)
      (fun r c => Csum (Z.to_nat Ph) (fun i => Csum (Z.to_nat Pw) (fun j =>
         Cmul (K i j) (impulse i j r c)))))
      by (intros r c Hr Hc; apply kernel_as_impulses; lia).
    rewrite fft2_Csum. rewrite <- Csum_mul_l. apply Csum_ext. intros i Hi.
    rewrite fft2_Csum. rewrite <- Csum_mul_l. apply Csum_ext. intros j Hj.
    rewrite fft2_scale. ring.
Qed.

Lemma real_Csum (k : nat) (f : Z -> complex128) :
  real (Csum k f) = Rsum_nat k (fun i => real (f i)).
Proof.
  induction k as [|k IH]; cbn [Csum Rsum_nat]; [reflexivity|].
  unfold Cadd at 1. unfold real at 1. cbn [fst]. now rewrite IH.
Qed.

Lemma Rsum_nat_ext (k : nat) (f g : Z -> R) :
  (forall i, (0 <= i < Z.of_nat k)%Z -> f i = g i) -> Rsum_nat k f = Rsum_nat k g.
Proof.
  induction k as [|k IH]; intros H; cbn [Rsum_nat]; [reflexivity|].
  rewrite IH by (intros; apply H; lia). f_equal. apply H. lia.
Qed.

Lemma Rsum_nat_scale (k : nat) (c : R) (f : Z -> R) :
  Rsum_nat k (fun i => c * f i) = c * Rsum_nat k f.
Proof.
  induction k as [|k IH]; cbn [Rsum_nat]; [ring|]. rewrite IH. ring.
Qed.

(** The circular convolution of the padded image P with the stored
    kernel K on the FH x FW grid. *)
Definition circular_convolution (FH FW Ph Pw : Z) (P K : Z -> Z -> R) (y x : Z) : R :=
  Rsum Ph (fun i => Rsum Pw (fun j =>
    K i j * P ((y - i) mod FH)%Z ((x - j) mod FW)%Z)).

Lemma real_fft2_convolution (h w Ph Pw : Z) (P K : Z -> Z -> R) (y x : Z) :
  (0 <= Ph <= h)%Z -> (0 <= Pw <= w)%Z -> (0 <= y < h)%Z -> (0 <= x < w)%Z ->
  real (fft2 1 h w (fun u v =>
    Cmul (fft2 (-1) h w (fun r c => complex (P r c) 0) u v)
         (fft2 (-1) h w (fun r c =>
            if ((r <? Ph) && (c <? Pw))%Z%bool
            then complex (K r c) 0 else Czero) u v)) y x) =
  IZR (h * w) * circular_convolution h w Ph Pw P K y x.
Proof.
  intros HPh HPw Hy Hx.
  rewrite (fft2_convolution h w Ph Pw (fun r c => complex (P r c) 0)
             (fun r c => complex (K r c) 0)) by assumption.
  unfold circular_convolution, Rsum.
  unfold Cmul at 1. unfold real at 1. cbn [fst].
  unfold complex at 1 2. unfold real at 1, imag at 1. cbn [fst snd].
  rewrite Rmult_0_l, Rminus_0_r. f_equal.
  rewrite real_Csum. apply Rsum_nat_ext. intros i Hi.
  rewrite real_Csum. apply Rsum_nat_ext. intros j Hj.
  unfold Cmul, complex, real, imag. cbn [fst snd]. ring.
Qed.

Lemma padded_image_loop (FH FW H W : Z) (image : Matrix) (pad : PaddingMode) :
  rect H W image -> (1 <= H)%Z -> (1 <= W)%Z -> (0 <= FH)%Z -> (0 <= FW)%Z ->
  Go.for_upto_opt FH (fun y A =>
    Go.for_upto_opt FW (fun x A =>
      do s <- sample2D image y x pad;
      assign2 A y x (complex s 0)) A) (tab2 FH FW (fun _ _ => Czero)) =
  Some (tab2 FH FW (fun y x => complex (padded H W image pad y x) 0)).
Proof.
  intros Him HH HW HFH HFW.
  rewrite (fill2_region _ (fun y x => complex (padded H W image pad y x) 0)
             FH FW FH FW) by
    (lia || (intros r c t Hr Hc; now rewrite (sample2D_padded H W) by assumption)).
  f_equal. apply tab2_ext. intros r c Hr Hc. zbool.
Qed.

(** The window of the full convolution that a mode returns: its height
    and width and the row and column of its first entry. *)
Definition output_window (mode : ConvMode) (H W Ph Pw : Z) : option (Z * Z * Z * Z) :=
  if (mode =? ConvSame)%Z then Some (H, W, Z.quot Ph 2, Z.quot Pw 2)
  else if (mode =? ConvFull)%Z then Some (H + Ph - 1, W + Pw - 1, 0, 0)%Z
  else if (mode =? ConvValid)%Z then
    if ((H - Ph + 1 <=? 0) || (W - Pw + 1 <=? 0))%Z%bool then None
    else Some (H - Ph + 1, W - Pw + 1, Ph - 1, Pw - 1)%Z
  else None.

Lemma output_window_cases (mode : ConvMode) (H W Ph Pw outH outW offY offX : Z) :
  (1 <= H)%Z -> (1 <= W)%Z -> (1 <= Ph)%Z -> (1 <= Pw)%Z ->
  output_window mode H W Ph Pw = Some (outH, outW, offY, offX) ->
  (mode = ConvSame \/ mode = ConvFull \/
   (mode = ConvValid /\ (0 < H - Ph + 1)%Z /\ (0 < W - Pw + 1)%Z)) /\
  (0 <= offY)%Z /\ (0 <= offX)%Z /\ (0 <= outH)%Z /\ (0 <= outW)%Z /\
  (offY + outH <= H + Ph - 1)%Z /\ (offX + outW <= W + Pw - 1)%Z.
Proof.
  intros HH HW HPh HPw. unfold output_window.
  pose proof (quot2_range Ph HPh). pose proof (quot2_range Pw HPw).
  destruct (Z.eqb_spec mode ConvSame) as [-> | _].
  { intros Hs. apply some_eq in Hs.
    assert (outH = H /\ outW = W /\ offY = Z.quot Ph 2 /\ offX = Z.quot Pw 2)
      as (-> & -> & -> & ->) by (repeat split; congruence).
    split; [now left | lia]. }
  destruct (Z.eqb_spec mode ConvFull) as [-> | _].
  { intros Hs. apply some_eq in Hs.
    assert (outH = H + Ph - 1 /\ outW = W + Pw - 1 /\ offY = 0 /\ offX = 0)%Z
      as (-> & -> & -> & ->) by (repeat split; congruence).
    split; [right; now left | lia]. }
  destruct (Z.eqb_spec mode ConvValid) as [-> | _]; [|discriminate].
  destruct (Z.leb_spec (H - Ph + 1) 0); [discriminate|].
  destruct (Z.leb_spec (W - Pw + 1) 0); [discriminate|]. cbn [orb].
  intros Hs. apply some_eq in Hs.
  assert (outH = H - Ph + 1 /\ outW = W - Pw + 1 /\ offY = Ph - 1 /\ offX = Pw - 1)%Z
    as (-> & -> & -> & ->) by (repeat split; congruence).
  split; [right; right; repeat split; lia | lia].
Qed.

(** The grid sides that ConvolvePSFFFT uses, as one expression. *)
Lemma fft_side_fold (n : Z) :
  (if negb (Z.rem (nextPow2 n) 2 =? 0)%Z then (nextPow2 n + 1)%Z else nextPow2 n) =
  fft_side n.
Proof. reflexivity. Qed.

(** ConvolvePSFFFT on non-empty rectangular inputs, for every mode with
    a non-empty output, every padding mode and both values of
    centeredPsf: the requested window of the circular convolution, on
    the FFT grid, of the padded image with the stored kernel, divided by
    starSum. *)
Lemma ConvolvePSFFFT_spec (H W Ph Pw : Z) (image psf : Matrix) (starSum : R)
    (mode : ConvMode) (pad : PaddingMode) (centeredPsf : bool)
    (outH outW offY offX : Z) :
  rect H W image -> rect Ph Pw psf ->
  (1 <= H)%Z -> (1 <= W)%Z -> (1 <= Ph)%Z -> (1 <= Pw)%Z ->
  output_window mode H W Ph Pw = Some (outH, outW, offY, offX) ->
  ConvolvePSFFFT image psf starSum mode pad centeredPsf =
  Some (Ok (tab2 outH outW (fun y x =>
    circular_convolution (fft_side (H + Ph - 1)) (fft_side (W + Pw - 1)) Ph Pw
      (padded H W image pad) (stored_kernel Ph Pw psf centeredPsf)
      (y + offY) (x + offX) / starSum))).
Proof.
  intros Him Hpsf HH HW HPh HPw Hwin.
  destruct (output_window_cases mode H W Ph Pw outH outW offY offX
              HH HW HPh HPw Hwin)
    as (Hmode & HoY & HoX & HoH & HoW & HfitY & HfitX).
  destruct (rect_rectangular H W image Him HH) as (Hri & Hli & Hwi).
  destruct (rect_rectangular Ph Pw psf Hpsf HPh) as (Hrp & Hlp & Hwp).
  pose proof (fft_side_ge (H + Ph - 1)) as [HFH1 HFH2].
  pose proof (fft_side_ge (W + Pw - 1)) as [HFW1 HFW2].
  unfold ConvolvePSFFFT.
  rewrite (rectSize_rectangular image Hri), (rectSize_rectangular psf Hrp).
  rewrite Hli, Hwi, Hlp, Hwp.
  replace (H =? 0)%Z with false by (symmetry; apply Z.eqb_neq; lia).
  replace (Ph =? 0)%Z with false by (symmetry; apply Z.eqb_neq; lia).
  replace (W =? 0)%Z with false by (symmetry; apply Z.eqb_neq; lia).
  replace (Pw =? 0)%Z with false by (symmetry; apply Z.eqb_neq; lia).
  cbn [orb].
  assert (Hdims :
    (if (mode =? ConvSame)%Z then Ok (H, W)
     else if (mode =? ConvFull)%Z then Ok (H + Ph - 1, W + Pw - 1)%Z
     else if (mode =? ConvValid)%Z then
       if ((H - Ph + 1 <=? 0) || (W - Pw + 1 <=? 0))%Z%bool
       then Err "valid convolution requested but psf larger than image"
       else Ok (H - Ph + 1, W - Pw + 1)%Z
     else Err "unknown ConvMode") = Ok (outH, outW)).
  { revert Hwin. unfold output_window.
    destruct (mode =? ConvSame)%Z; [intros Hs; apply some_eq in Hs; congruence|].
    destruct (mode =? ConvFull)%Z; [intros Hs; apply some_eq in Hs; congruence|].
    destruct (mode =? ConvValid)%Z; [|discriminate].
    destruct ((H - Ph + 1 <=? 0) || (W - Pw + 1 <=? 0))%Z%bool; [discriminate|].
    intros Hs; apply some_eq in Hs; congruence. }
  cbv zeta. rewrite Hdims. rewrite !fft_side_fold.
  set (FH := fft_side (H + Ph - 1)) in *.
  set (FW := fft_side (W + Pw - 1)) in *.
  rewrite (makeComplex2D_spec FH FW) by lia. cbn [Go.bind].
  rewrite (padded_image_loop FH FW H W image) by (assumption || lia).
  cbn [Go.bind].
  replace (H =? 0)%Z with false by (symmetry; apply Z.eqb_neq; lia).
  replace (Ph =? 0)%Z with false by (symmetry; apply Z.eqb_neq; lia).
  cbn [orb].
  assert (HPhF : (1 <= Ph <= FH)%Z) by lia.
  assert (HPwF : (1 <= Pw <= FW)%Z) by lia.
  pose proof (kernel_loop FH FW Ph Pw psf centeredPsf Hpsf HPhF HPwF) as HB.
  match goal with
  | |- context [Go.bind ?e _] =>
      match e with
      | (if centeredPsf then _ else _) =>
          replace e with
            (Some (tab2 FH FW (fun r c =>
               if ((r <? Ph) && (c <? Pw))%Z%bool
               then complex (stored_kernel Ph Pw psf centeredPsf r c) 0
               else Czero))) by (symmetry; exact HB)
      end
  end.
  cbn [Go.bind].
  rewrite !fft2InPlace_spec by lia. cbn [Go.bind].
  rewrite_loop (multiply_loop FH FW
    (fft2 (-1) FH FW (fun y x => complex (padded H W image pad y x) 0))
    (fft2 (-1) FH FW (fun r c =>
          if ((r <? Ph) && (c <? Pw))%Z%bool
          then complex (stored_kernel Ph Pw psf centeredPsf r c) 0 else Czero))
    ltac:(lia) ltac:(lia)).
  cbn [Go.bind].
  rewrite fft2InPlace_spec by lia. cbn [Go.bind].
  rewrite make_spec by lia. cbn [Go.bind].
  rewrite_loop (full_loop FH FW (H + Ph - 1) (W + Pw - 1)
    (fft2 1 FH FW (fun r c =>
       Cmul (fft2 (-1) FH FW
               (fun y0 x0 => complex (padded H W image pad y0 x0) 0) r c)
            (fft2 (-1) FH FW (fun r0 c0 =>
               if ((r0 <? Ph) && (c0 <? Pw))%Z%bool
               then complex (stored_kernel Ph Pw psf centeredPsf r0 c0) 0
               else Czero) r c)))
    (Go.float64 (FH * FW)) starSum ltac:(lia) ltac:(lia)).
  cbn [Go.bind].
  assert (Hpix : forall y x, (0 <= y < H + Ph - 1)%Z -> (0 <= x < W + Pw - 1)%Z ->
    real (fft2 1 FH FW (fun r c =>
       Cmul (fft2 (-1) FH FW
               (fun y0 x0 => complex (padded H W image pad y0 x0) 0) r c)
            (fft2 (-1) FH FW (fun r0 c0 =>
               if ((r0 <? Ph) && (c0 <? Pw))%Z%bool
               then complex (stored_kernel Ph Pw psf centeredPsf r0 c0) 0
               else Czero) r c)) y x) / Go.float64 (FH * FW) / starSum =
    circular_convolution FH FW Ph Pw (padded H W image pad)
      (stored_kernel Ph Pw psf centeredPsf) y x / starSum).
  { intros y x Hy Hx. rewrite real_fft2_convolution by lia.
    assert (Hne : IZR (FH * FW) <> 0) by (apply not_0_IZR; nia).
    unfold Go.float64. unfold Rdiv at 1 3. f_equal. field. exact Hne. }
  destruct Hmode as [-> | [-> | (-> & HdY & HdX)]].
  - replace (ConvSame =? ConvFull)%Z with false by reflexivity.
    replace (ConvSame =? ConvSame)%Z with true by reflexivity.
    unfold output_window in Hwin.
    replace (ConvSame =? ConvSame)%Z with true in Hwin by reflexivity.
    apply some_eq in Hwin.
    assert (outH = H /\ outW = W /\ offY = Z.quot Ph 2 /\ offX = Z.quot Pw 2)
      as (-> & -> & -> & ->) by (repeat split; congruence).
    rewrite crop_spec by lia. cbn [Go.bind].
    do 2 f_equal. apply tab2_ext. intros y x Hy Hx. apply Hpix; lia.
  - replace (ConvFull =? ConvFull)%Z with true by reflexivity.
    unfold output_window in Hwin.
    replace (ConvFull =? ConvSame)%Z with false in Hwin by reflexivity.
    replace (ConvFull =? ConvFull)%Z with true in Hwin by reflexivity.
    apply some_eq in Hwin.
    assert (outH = H + Ph - 1 /\ outW = W + Pw - 1 /\ offY = 0 /\ offX = 0)%Z
      as (-> & -> & -> & ->) by (repeat split; congruence).
    do 2 f_equal. apply tab2_ext. intros y x Hy Hx.
    rewrite !Z.add_0_r. apply Hpix; lia.
  - replace (ConvValid =? ConvFull)%Z with false by reflexivity.
    replace (ConvValid =? ConvSame)%Z with false by reflexivity.
    replace (ConvValid =? ConvValid)%Z with true by reflexivity.
    unfold output_window in Hwin.
    replace (ConvValid =? ConvSame)%Z with false in Hwin by reflexivity.
    replace (ConvValid =? ConvFull)%Z with false in Hwin by reflexivity.
    replace (ConvValid =? ConvValid)%Z with true in Hwin by reflexivity.
    replace ((H - Ph + 1 <=? 0) || (W - Pw + 1 <=? 0))%Z%bool with false in Hwin
      by (symmetry; apply orb_false_iff; split; apply Z.leb_gt; lia).
    apply some_eq in Hwin.
    assert (outH = H - Ph + 1 /\ outW = W - Pw + 1 /\ offY = Ph - 1 /\ offX = Pw - 1)%Z
      as (-> & -> & -> & ->) by (repeat split; congruence).
    rewrite crop_spec by lia. cbn [Go.bind].
    do 2 f_equal. apply tab2_ext. intros y x Hy Hx. apply Hpix; lia.
Qed.

(** X8.  For every non-empty rectangular image and PSF, every mode whose
    output is not empty, every padding mode and both values of
    centeredPsf, ConvolvePSFFFT returns an image and no error: the
    outH x outW window, starting at (offY, offX), of the circular
    convolution on the FFT grid of the padded image with the kernel as
    stored, every pixel divided by starSum. *)
Theorem ConvolvePSFFFT_circular_convolution (H W Ph Pw : Z) (image psf : Matrix)
    (starSum : R) (mode : ConvMode) (pad : PaddingMode) (centeredPsf : bool)
    (outH outW offY offX : Z) :
  rect H W image -> rect Ph Pw psf ->
  (1 <= H)%Z -> (1 <= W)%Z -> (1 <= Ph)%Z -> (1 <= Pw)%Z ->
  output_window mode H W Ph Pw = Some (outH, outW, offY, offX) ->
  ConvolvePSFFFT image psf starSum mode pad centeredPsf =
  Some (Ok (tab2 outH outW (fun y x =>
    Rsum Ph (fun i => Rsum Pw (fun j =>
      stored_kernel Ph Pw psf centeredPsf i j *
      padded H W image pad
        ((y + offY - i) mod fft_side (H + Ph - 1))%Z
        ((x + offX - j) mod fft_side (W + Pw - 1))%Z)) / starSum))).
Proof.
  intros Him Hpsf HH HW HPh HPw Hwin.
  rewrite (ConvolvePSFFFT_spec H W Ph Pw image psf starSum mode pad centeredPsf
             outH outW offY offX) by assumption.
  reflexivity.
Qed.

Lemma ConvolvePSFFFT_circular_convolution_witness :
  ConvolvePSFFFT image3 [[1; 2]] 2 ConvValid PadReflect true =
  Some (Ok (tab2 3 2 (fun y x =>
    Rsum 1 (fun i => Rsum 2 (fun j =>
      stored_kernel 1 2 [[1; 2]] true i j *
      padded 3 3 image3 PadReflect
        ((y + 0 - i) mod fft_side (3 + 1 - 1))%Z
        ((x + 1 - j) mod fft_side (3 + 2 - 1))%Z)) / 2))).
Proof.
  apply (ConvolvePSFFFT_circular_convolution 3 3 1 2 image3 [[1; 2]] 2
           ConvValid PadReflect true 3 2 0 1).
  - split; [reflexivity | repeat constructor].
  - split; [reflexivity | repeat constructor].
  - lia.
  - lia.
  - lia.
  - lia.
  - reflexivity.
Defined.

Lemma wrap_index (n Pn F a : Z) :
  (0 <= n)%Z -> (1 <= Pn)%Z -> (n + Pn - 1 <= F)%Z -> (- Pn < a < n + Pn - 1)%Z ->
  ((0 <=? a mod F) && (a mod F <? n))%Z%bool = ((0 <=? a) && (a <? n))%Z%bool /\
  (0 <= a -> a mod F = a)%Z.
Proof.
  intros Hn HPn HF Ha.
  destruct (Z.lt_ge_cases a 0) as [Hneg | Hpos].
  - replace (a mod F)%Z with (a + F)%Z.
    + split; [|lia].
      destruct (Z.leb_spec 0 (a + F)); destruct (Z.ltb_spec (a + F) n);
        destruct (Z.leb_spec 0 a); destruct (Z.ltb_spec a n);
        cbn [andb]; try reflexivity; lia.
    + apply (Z.mod_unique a F (-1)); lia.
  - rewrite Z.mod_small by lia. split; [reflexivity | lia].
Qed.

Lemma zero_padded_wrap (H W Ph Pw FH FW : Z) (image : Matrix) (a b : Z) :
  (0 <= H)%Z -> (0 <= W)%Z -> (1 <= Ph)%Z -> (1 <= Pw)%Z ->
  (H + Ph - 1 <= FH)%Z -> (W + Pw - 1 <= FW)%Z ->
  (- Ph < a < H + Ph - 1)%Z -> (- Pw < b < W + Pw - 1)%Z ->
  padded H W image PadZeros (a mod FH)%Z (b mod FW)%Z = zero_padded H W image a b.
Proof.
  intros HH HW HPh HPw HFH HFW Ha Hb. unfold padded, zero_padded.
  replace (padded_index PadZeros H (a mod FH)) with (@None Z) by reflexivity.
  destruct (wrap_index H Ph FH a HH HPh HFH Ha) as [Hra Hia].
  destruct (wrap_index W Pw FW b HW HPw HFW Hb) as [Hrb Hib].
  rewrite Hra. rewrite <- !andb_assoc. rewrite Hrb.
  destruct (Z.leb_spec 0 a) as [Ea | Ea]; [|reflexivity].
  destruct (a <? H)%Z; [|reflexivity].
  destruct (Z.leb_spec 0 b) as [Eb | Eb]; [|reflexivity].
  destruct (b <? W)%Z; [|reflexivity].
  cbn [andb]. now rewrite Hia, Hib by assumption.
Qed.

(** X9.  With zero padding and the PSF stored as it is (centeredPsf = false)
    no term of the sum wraps around the FFT grid: ConvolvePSFFFT returns
    the window of the linear convolution
    sum_{i,j} psf[i][j] image[y-i][x-j] / starSum, the image being 0
    outside its bounds.  Same mode reads the window at (Ph/2, Pw/2), Full
    mode at (0, 0) and Valid mode at (Ph-1, Pw-1). *)
Theorem ConvolvePSFFFT_linear_convolution (H W Ph Pw : Z) (image psf : Matrix)
    (starSum : R) (mode : ConvMode) (outH outW offY offX : Z) :
  rect H W image -> rect Ph Pw psf ->
  (1 <= H)%Z -> (1 <= W)%Z -> (1 <= Ph)%Z -> (1 <= Pw)%Z ->
  output_window mode H W Ph Pw = Some (outH, outW, offY, offX) ->
  ConvolvePSFFFT image psf starSum mode PadZeros false =
  Some (Ok (tab2 outH outW (fun y x =>
    Rsum Ph (fun i => Rsum Pw (fun j =>
      entry psf i j * zero_padded H W image (y + offY - i) (x + offX - j)))
    / starSum))).
Proof.
  intros Him Hpsf HH HW HPh HPw Hwin.
  destruct (output_window_cases mode H W Ph Pw outH outW offY offX
              HH HW HPh HPw Hwin)
    as (_ & HoY & HoX & HoH & HoW & HfitY & HfitX).
  pose proof (fft_side_ge (H + Ph - 1)) as [HFH _].
  pose proof (fft_side_ge (W + Pw - 1)) as [HFW _].
  rewrite (ConvolvePSFFFT_spec H W Ph Pw image psf starSum mode PadZeros false
             outH outW offY offX) by assumption.
  do 2 f_equal. apply tab2_ext. intros y x Hy Hx.
  unfold circular_convolution, Rsum. f_equal.
  apply Rsum_nat_ext. intros i Hi. apply Rsum_nat_ext. intros j Hj.
  unfold stored_kernel. f_equal.
  apply (zero_padded_wrap H W Ph Pw); lia.
Qed.

Lemma ConvolvePSFFFT_linear_convolution_witness :
  ConvolvePSFFFT image3 [[1; 2]; [3; 4]] 10 ConvFull PadZeros false =
  Some (Ok (tab2 4 4 (fun y x =>
    Rsum 2 (fun i => Rsum 2 (fun j =>
      entry [[1; 2]; [3; 4]] i j * zero_padded 3 3 image3 (y + 0 - i) (x + 0 - j)))
    / 10))).
Proof.
  apply (ConvolvePSFFFT_linear_convolution 3 3 2 2 image3 [[1; 2]; [3; 4]] 10
           ConvFull 4 4 0 0).
  - split; [reflexivity | repeat constructor].
  - split; [reflexivity | repeat constructor].
  - lia.
  - lia.
  - lia.
  - lia.
  - reflexivity.
Defined.

(** X10.  A mode other than Same, Full and Valid is refused with the error
    "unknown ConvMode" once the sizes have passed their checks. *)
Theorem ConvolvePSFFFT_unknown_mode (H W Ph Pw : Z) (image psf : Matrix)
    (starSum : R) (mode : ConvMode) (pad : PaddingMode) (centeredPsf : bool) :
  rect H W image -> rect Ph Pw psf ->
  (1 <= H)%Z -> (1 <= W)%Z -> (1 <= Ph)%Z -> (1 <= Pw)%Z ->
  mode <> ConvSame -> mode <> ConvFull -> mode <> ConvValid ->
  ConvolvePSFFFT image psf starSum mode pad centeredPsf =
  Some (Err "unknown ConvMode").
Proof.
  intros Him Hpsf HH HW HPh HPw HnS HnF HnV.
  destruct (rect_rectangular H W image Him HH) as (Hri & Hli & Hwi).
  destruct (rect_rectangular Ph Pw psf Hpsf HPh) as (Hrp & Hlp & Hwp).
  unfold ConvolvePSFFFT.
  rewrite (rectSize_rectangular image Hri), (rectSize_rectangular psf Hrp).
  rewrite Hli, Hwi, Hlp, Hwp.
  replace (H =? 0)%Z with false by (symmetry; apply Z.eqb_neq; lia).
  replace (Ph =? 0)%Z with false by (symmetry; apply Z.eqb_neq; lia).
  replace (W =? 0)%Z with false by (symmetry; apply Z.eqb_neq; lia).
  replace (Pw =? 0)%Z with false by (symmetry; apply Z.eqb_neq; lia).
  cbn [orb]. cbv zeta.
  replace (H =? 0)%Z with false by (symmetry; apply Z.eqb_neq; lia).
  replace (Ph =? 0)%Z with false by (symmetry; apply Z.eqb_neq; lia).
  cbn [orb].
  replace (mode =? ConvSame)%Z with false by (symmetry; now apply Z.eqb_neq).
  replace (mode =? ConvFull)%Z with false by (symmetry; now apply Z.eqb_neq).
  replace (mode =? ConvValid)%Z with false by (symmetry; now apply Z.eqb_neq).
  reflexivity.
Qed.

Lemma ConvolvePSFFFT_unknown_mode_witness :
  ConvolvePSFFFT image3 [[1]] 1 7%Z PadZeros false = Some (Err "unknown ConvMode").
Proof.
  apply (ConvolvePSFFFT_unknown_mode 3 3 1 1); try lia; try discriminate.
  - split; [reflexivity | repeat constructor].
  - split; [reflexivity | repeat constructor].
Defined.

(** ** convolution.go: the limb-darkened star *)

Lemma StarBrightness_range (r D u : R) :
  0 <= r -> 0 < D -> 0 <= u <= 1 -> 0 <= StarBrightness r D u <= 1.
Proof.
  intros Hr HD Hu. unfold StarBrightness.
  destruct (Rge_dec (r / (D / 2)) 1) as [Hx | Hx]; [lra|].
  set (x := r / (D / 2)) in *.
  assert (Hx0 : 0 <= x).
  { subst x. apply Rmult_le_pos; [assumption|]. left. apply Rinv_0_lt_compat. lra. }
  assert (Hs : 0 <= sqrt (1 - x * x) <= 1).
  { split; [apply sqrt_pos|]. rewrite <- sqrt_1 at 2. apply sqrt_le_1_alt. nra. }
  nra.
Qed.

(** X12.  Limb darkening: for a coefficient in [0, 1] the brightness is 1 at
    the centre of the disk, never increases with the distance from the
    centre, stays in [0, 1], and is 0 from the limb outwards. *)
Theorem StarBrightness_limb_darkening (r1 r2 D u : R) :
  0 < D -> 0 <= u <= 1 -> 0 <= r1 <= r2 ->
  StarBrightness 0 D u = 1 /\
  StarBrightness r2 D u <= StarBrightness r1 D u /\
  0 <= StarBrightness r1 D u <= 1 /\
  (D / 2 <= r1 -> StarBrightness r1 D u = 0).
Proof.
  intros HD Hu Hr.
  split; [now apply StarBrightness_center|].
  split; [|split; [apply StarBrightness_range; lra|]].
  - pose proof (StarBrightness_range r1 D u ltac:(lra) HD Hu) as H1.
    unfold StarBrightness in *.
    assert (Hinv : 0 < / (D / 2)) by (apply Rinv_0_lt_compat; lra).
    assert (Hx : r1 / (D / 2) <= r2 / (D / 2))
      by (unfold Rdiv; apply Rmult_le_compat_r; lra).
    assert (Hx1 : 0 <= r1 / (D / 2))
      by (unfold Rdiv; apply Rmult_le_pos; lra).
    destruct (Rge_dec (r2 / (D / 2)) 1) as [H2 | H2]; [lra|].
    destruct (Rge_dec (r1 / (D / 2)) 1) as [H1' | H1']; [lra|].
    set (x1 := r1 / (D / 2)) in *. set (x2 := r2 / (D / 2)) in *.
    assert (Hs : sqrt (1 - x2 * x2) <= sqrt (1 - x1 * x1))
      by (apply sqrt_le_1_alt; nra).
    nra.
  - intros Hlimb. unfold StarBrightness.
    destruct (Rge_dec (r1 / (D / 2)) 1) as [H1 | H1]; [reflexivity|].
    exfalso. apply H1. apply Rle_ge.
    apply Rmult_le_reg_r with (D / 2); [lra|].
    replace (r1 / (D / 2) * (D / 2)) with r1 by (field; lra). lra.
Qed.

Lemma StarBrightness_limb_darkening_witness :
  StarBrightness 0 4 (1 / 2) = 1 /\
  StarBrightness 3 4 (1 / 2) <= StarBrightness 1 4 (1 / 2) /\
  0 <= StarBrightness 1 4 (1 / 2) <= 1 /\
  (4 / 2 <= 1 -> StarBrightness 1 4 (1 / 2) = 0).
Proof. apply (StarBrightness_limb_darkening 1 3 4 (1 / 2)); lra. Defined.

Lemma psf_width_even (D res : R) :
  0 < D -> 0 < res ->
  exists k, (1 <= k)%Z /\ psf_width D res = (2 * k + 4)%Z /\
    D / 2 <= IZR k * res.
Proof.
  intros HD Hres. unfold psf_width, Go.Ceil. rewrite int_of_float_IZR.
  assert (Hpos : 0 < D / res) by (apply Rdiv_lt_0_compat; assumption).
  pose proof (Zceil_bound (D / res)) as Hb.
  assert (Hc : (1 <= Zceil (D / res))%Z).
  { apply Z.lt_pred_le. apply lt_IZR. unfold Z.pred. rewrite plus_IZR. cbn. lra. }
  set (n := Zceil (D / res)) in *.
  assert (HDn : D <= IZR n * res).
  { replace D with (D / res * res) by (field; lra).
    apply Rmult_le_compat_r; lra. }
  pose proof (Z.div_mod n 2 ltac:(lia)) as Hdm.
  pose proof (Z.mod_pos_bound n 2 ltac:(lia)) as Hmb.
  rewrite Z.rem_mod_nonneg by lia.
  destruct (Z.eqb_spec (n mod 2) 0) as [H0 | H0]; cbn [negb].
  - exists (n / 2)%Z. split; [lia|]. split; [lia|].
    assert (Hn2 : IZR n = 2 * IZR (n / 2)).
    { rewrite <- mult_IZR. f_equal. lia. }
    nra.
  - exists (n / 2 + 1)%Z. split; [lia|]. split; [lia|].
    assert (Hn2 : IZR n + 1 = 2 * IZR (n / 2 + 1)).
    { rewrite <- mult_IZR, <- plus_IZR. f_equal. lia. }
    nra.
Qed.

Lemma psf_pixel_outside (D res u : R) (k row col : Z) :
  0 < D -> 0 < res -> (0 <= k)%Z -> D / 2 <= IZR k * res ->
  (k * k <= (row - Z.quot (psf_width D res) 2) * (row - Z.quot (psf_width D res) 2)
            + (col - Z.quot (psf_width D res) 2) * (col - Z.quot (psf_width D res) 2))%Z ->
  psf_pixel D res u row col = 0.
Proof.
  intros HD Hres Hk Hkr Hfar. unfold psf_pixel, StarBrightness.
  set (d2 := ((row - Z.quot (psf_width D res) 2) * (row - Z.quot (psf_width D res) 2)
              + (col - Z.quot (psf_width D res) 2) * (col - Z.quot (psf_width D res) 2))%Z)
    in *.
  destruct (Rge_dec (sqrt (IZR d2) * res / (D / 2)) 1) as [Hx | Hx]; [reflexivity|].
  exfalso. apply Hx. apply Rle_ge.
  assert (Hs : IZR k <= sqrt (IZR d2)).
  { rewrite <- (sqrt_square (IZR k)) by (apply IZR_le; lia).
    apply sqrt_le_1_alt. rewrite <- mult_IZR. now apply IZR_le. }
  apply Rmult_le_reg_r with (D / 2); [lra|].
  replace (sqrt (IZR d2) * res / (D / 2) * (D / 2)) with (sqrt (IZR d2) * res)
    by (field; lra).
  nra.
Qed.

(** X13.  BuildStarPsf returns a square matrix of even side, at least 6: it is
    symmetric about its diagonal, its entries lie in [0, 1], and the two
    outermost rows and columns on every side are 0 (the border around the
    star disk). *)
Theorem BuildStarPsf_shape (D res u : R) :
  0 < D -> 0 < res -> 0 <= u <= 1 ->
  exists P sumWeights w,
    BuildStarPsf D res u = Some (P, sumWeights) /\
    rect w w P /\ Z.even w = true /\ (6 <= w)%Z /\
    (forall r c, (0 <= r < w)%Z -> (0 <= c < w)%Z ->
       entry P r c = entry P c r /\ 0 <= entry P r c <= 1) /\
    (forall r c, (0 <= r < w)%Z -> (0 <= c < w)%Z ->
       (r < 2 \/ w - 2 <= r \/ c < 2 \/ w - 2 <= c)%Z -> entry P r c = 0).
Proof.
  intros HD Hres Hu.
  destruct (psf_width_even D res HD Hres) as (k & Hk & Hw & Hkr).
  exists (tabulate (psf_width D res)
            (fun row => tabulate (psf_width D res) (psf_pixel D res u row))),
         (Rsum (psf_width D res)
            (fun row => Rsum (psf_width D res) (psf_pixel D res u row))),
         (psf_width D res).
  split; [apply BuildStarPsf_spec; lia|].
  split; [apply rect_tabulate; lia|].
  split; [rewrite Hw; replace (2 * k + 4)%Z with (2 * (k + 2))%Z by ring;
          apply Z.even_spec; now exists (k + 2)%Z|].
  split; [lia|].
  assert (Hc : Z.quot (psf_width D res) 2 = (k + 2)%Z).
  { rewrite Hw, Z.quot_div_nonneg by lia.
    replace (2 * k + 4)%Z with ((k + 2) * 2)%Z by ring. apply Z.div_mul. lia. }
  split.
  - intros r c Hr Hc'. rewrite !entry_tabulate by assumption. split.
    + unfold psf_pixel. cbv zeta.
      now rewrite (Z.add_comm ((r - Z.quot (psf_width D res) 2)
                               * (r - Z.quot (psf_width D res) 2))).
    + unfold psf_pixel. apply StarBrightness_range; try assumption.
      apply Rmult_le_pos; [apply sqrt_pos | lra].
  - intros r c Hr Hc' Hborder. rewrite entry_tabulate by assumption.
    apply (psf_pixel_outside D res u k); try assumption; try lia.
    rewrite Hc.
    pose proof (Z.square_nonneg (r - (k + 2))) as Hsr.
    pose proof (Z.square_nonneg (c - (k + 2))) as Hsc.
    assert (Hfar : (k * k <= (r - (k + 2)) * (r - (k + 2)) \/
                    k * k <= (c - (k + 2)) * (c - (k + 2)))%Z)
      by (destruct Hborder as [Hb | [Hb | [Hb | Hb]]];
          [left | left | right | right]; nia).
    lia.
Qed.

Lemma BuildStarPsf_shape_witness :
  exists P sumWeights w,
    BuildStarPsf 3 1 (1 / 2) = Some (P, sumWeights) /\
    rect w w P /\ Z.even w = true /\ (6 <= w)%Z /\
    (forall r c, (0 <= r < w)%Z -> (0 <= c < w)%Z ->
       entry P r c = entry P c r /\ 0 <= entry P r c <= 1) /\
    (forall r c, (0 <= r < w)%Z -> (0 <= c < w)%Z ->
       (r < 2 \/ w - 2 <= r \/ c < 2 \/ w - 2 <= c)%Z -> entry P r c = 0).
Proof. apply (BuildStarPsf_shape 3 1 (1 / 2)); lra. Defined.

(** ** Bilinear interpolation: bounds and the smallest matrices *)

Lemma interpolate_within_bounds_aux (n : Z) (m : Matrix) (lo hi x y : R) :
  square n m -> (2 <= n)%Z ->
  (forall r c, (0 <= r < n)%Z -> (0 <= c < n)%Z -> lo <= entry m r c <= hi) ->
  exists v, interpolate m x y = Some v /\ lo <= v <= hi.
Proof.
  intros Hsq Hn Hbound. unfold interpolate.
  destruct Hsq as [Hlen Hrows]. rewrite Hlen.
  destruct (Z.eqb_spec n 0); [lia|].
  assert (Hn1 : 1 <= IZR (n - 1)) by (apply IZR_le; lia).
  unfold Go.float64.
  set (x1 := if Rlt_dec x 0 then 0 else x).
  set (x2 := if Rge_dec x1 (IZR (n - 1)) then IZR (n - 1) - 1e-9 else x1).
  set (y1 := if Rlt_dec y 0 then 0 else y).
  set (y2 := if Rge_dec y1 (IZR (n - 1)) then IZR (n - 1) - 1e-9 else y1).
  assert (Hx2 : 0 <= x2 < IZR (n - 1)).
  { subst x2 x1.
    destruct (Rlt_dec x 0);
      [destruct (Rge_dec 0 (IZR (n - 1))) | destruct (Rge_dec x (IZR (n - 1)))]; lra. }
  assert (Hy2 : 0 <= y2 < IZR (n - 1)).
  { subst y2 y1.
    destruct (Rlt_dec y 0);
      [destruct (Rge_dec 0 (IZR (n - 1))) | destruct (Rge_dec y (IZR (n - 1)))]; lra. }
  clearbody x2 y2. clear x1 y1.
  assert (Hfl : forall t, 0 <= t < IZR (n - 1) ->
            (0 <= Go.int_of_float t < n - 1)%Z /\
            0 <= t - IZR (Go.int_of_float t) < 1).
  { intros t Ht. rewrite (int_of_float_floor t (Zfloor t)); [|lra|apply Zfloor_bound].
    pose proof (Zfloor_bound t) as Hb. split; [|lra].
    split; [apply Zfloor_nonneg; lra|]. apply lt_IZR. lra. }
  destruct (Hfl x2 Hx2) as [Hx0 Hfx]. destruct (Hfl y2 Hy2) as [Hy0 Hfy].
  rewrite !(at2_entry n) by (try exact (conj Hlen Hrows); lia).
  cbn [Go.bind].
  set (x0 := Go.int_of_float x2) in *. set (y0 := Go.int_of_float y2) in *.
  set (fx := x2 - IZR x0) in *. set (fy := y2 - IZR y0) in *.
  pose proof (Hbound y0 x0 ltac:(lia) ltac:(lia)) as H00.
  pose proof (Hbound y0 (x0 + 1)%Z ltac:(lia) ltac:(lia)) as H01.
  pose proof (Hbound (y0 + 1)%Z x0 ltac:(lia) ltac:(lia)) as H10.
  pose proof (Hbound (y0 + 1)%Z (x0 + 1)%Z ltac:(lia) ltac:(lia)) as H11.
  set (v0 := entry m y0 x0 * (1 - fx) + entry m y0 (x0 + 1) * fx).
  set (v1 := entry m (y0 + 1) x0 * (1 - fx) + entry m (y0 + 1) (x0 + 1) * fx).
  assert (Hv0 : lo <= v0 <= hi) by (subst v0; nra).
  assert (Hv1 : lo <= v1 <= hi) by (subst v1; nra).
  eexists. split; [reflexivity | nra].
Qed.


(** X15.  On a square matrix with at least two rows, interpolate returns, for
    every real query (also one far outside the matrix), a value between
    the least and the greatest entry: it never overshoots.  The same
    holds for the copy of the routine in package lightcurve. *)
Theorem interpolate_within_bounds (n : Z) (m : Matrix) (lo hi x y : R) :
  square n m -> (2 <= n)%Z ->
  (forall r c, (0 <= r < n)%Z -> (0 <= c < n)%Z -> lo <= entry m r c <= hi) ->
  exists v, interpolate m x y = Some v /\ lo <= v <= hi /\
            Lightcurve.interpolate m x y = Some v.
Proof.
  intros Hsq Hn Hbound.
  destruct (interpolate_within_bounds_aux n m lo hi x y Hsq Hn Hbound) as (v & Hv & Hr).
  exists v. rewrite Lightcurve_interpolate_eq. repeat split; assumption || lra.
Qed.

Lemma m2x2_bounds (r c : Z) :
  (0 <= r < 2)%Z -> (0 <= c < 2)%Z -> 0 <= entry m2x2 r c <= 3.
Proof.
  intros Hr Hc.
  assert (Hr' : r = 0%Z \/ r = 1%Z) by lia.
  assert (Hc' : c = 0%Z \/ c = 1%Z) by lia.
  destruct Hr' as [-> | ->]; destruct Hc' as [-> | ->];
    unfold entry, m2x2;
    change (Z.to_nat 0) with 0%nat; change (Z.to_nat 1) with 1%nat;
    cbn [nth]; lra.
Defined.

Lemma interpolate_within_bounds_witness :
  exists v, interpolate m2x2 (-5) 40 = Some v /\ 0 <= v <= 3 /\
            Lightcurve.interpolate m2x2 (-5) 40 = Some v.
Proof.
  apply (interpolate_within_bounds 2 m2x2 0 3 (-5) 40).
  - exact square_m2x2.
  - lia.
  - exact m2x2_bounds.
Defined.

(** X16.  The two smallest inputs: for an empty matrix interpolate returns 0,
    and for a matrix with a single entry it panics on every query: the
    clamp sets both coordinates to -1e-9, whose integer part is 0, and
    the neighbour with index 1 does not exist. *)
Theorem interpolate_small_matrices (v x y : R) :
  interpolate [] x y = Some 0 /\ interpolate [[v]] x y = None.
Proof.
  split; [reflexivity|]. unfold interpolate.
  replace (Go.len [[v]]) with 1%Z by reflexivity.
  replace (1 =? 0)%Z with false by reflexivity.
  replace (1 - 1)%Z with 0%Z by reflexivity. unfold Go.float64.
  assert (Hi : Go.int_of_float (0 - 1e-9) = 0%Z).
  { unfold Go.int_of_float. destruct (Rle_dec 0 (0 - 1e-9)); [lra|].
    unfold Zceil. replace (- (0 - 1e-9)) with 1e-9 by ring.
    rewrite (Zfloor_eq 0 1e-9) by (cbn; lra). reflexivity. }
  assert (Hc : forall t, (if Rge_dec (if Rlt_dec t 0 then 0 else t) 0
                          then 0 - 1e-9 else (if Rlt_dec t 0 then 0 else t)) =
                         0 - 1e-9).
  { intros t. destruct (Rlt_dec t 0);
      [destruct (Rge_dec 0 0) | destruct (Rge_dec t 0)]; lra. }
  cbv zeta. rewrite !Hc, !Hi. reflexivity.
Qed.

(** ** utility.go: Linspace *)

(** X17.  For n >= 2 Linspace returns n values that start at [start], end at
    [end] and are equally spaced; for every n <= 1, also 0 and negative
    n, it returns the single value [start]. *)
Theorem Linspace_endpoints (start end_ : R) (n : Z) :
  (2 <= n)%Z ->
  exists x, Linspace start end_ n = Some x /\
    Go.len x = n /\
    Go.index x 0 = Some start /\
    Go.index x (n - 1) = Some end_ /\
    (forall i, (0 <= i < n - 1)%Z ->
       exists a b, Go.index x i = Some a /\ Go.index x (i + 1) = Some b /\
                   b - a = (end_ - start) / IZR (n - 1)) /\
    (forall k, (k <= 1)%Z -> Linspace start end_ k = Some [start]).
Proof.
  intros Hn. rewrite Linspace_spec by assumption.
  assert (Hne : IZR (n - 1) <> 0) by (apply not_0_IZR; lia).
  eexists. split; [reflexivity|].
  split; [apply len_tabulate; lia|].
  split; [rewrite index_tabulate by lia; f_equal; cbn; field; exact Hne|].
  split; [rewrite index_tabulate by lia; f_equal; field; exact Hne|].
  split.
  - intros i Hi. rewrite !index_tabulate by lia.
    eexists. eexists. split; [reflexivity|]. split; [reflexivity|].
    rewrite plus_IZR. field. exact Hne.
  - intros k Hk. unfold Linspace.
    destruct (Z.leb_spec k 1); [reflexivity | lia].
Qed.

Lemma Linspace_endpoints_witness :
  exists x, Linspace 1 3 5 = Some x /\
    Go.len x = 5%Z /\
    Go.index x 0 = Some 1 /\
    Go.index x (5 - 1) = Some 3 /\
    (forall i, (0 <= i < 5 - 1)%Z ->
       exists a b, Go.index x i = Some a /\ Go.index x (i + 1) = Some b /\
                   b - a = (3 - 1) / IZR (5 - 1)) /\
    (forall k, (k <= 1)%Z -> Linspace 1 3 k = Some [1]).
Proof. apply (Linspace_endpoints 1 3 5). lia. Defined.

(** ** imageFuncs.go: insideGeneralizedEllipse *)

(** X18.  For positive diameters the test is the ellipse equation about the
    point (-y0, x0): that centre is inside for every rotation, a point
    is inside exactly when its mirror image through the centre is, and
    when the two diameters are equal the rotation has no effect: the
    test is that of the disk of that diameter. *)
Theorem insideGeneralizedEllipse_center_and_disk
    (x y x0 y0 xDiam yDiam thetaDegrees : R) :
  0 < xDiam -> 0 < yDiam ->
  insideGeneralizedEllipse (- y0) x0 x0 y0 xDiam yDiam thetaDegrees = true /\
  insideGeneralizedEllipse (2 * (- y0) - x) (2 * x0 - y) x0 y0 xDiam yDiam thetaDegrees =
    insideGeneralizedEllipse x y x0 y0 xDiam yDiam thetaDegrees /\
  (insideGeneralizedEllipse x y x0 y0 xDiam xDiam thetaDegrees = true <->
   (x + y0) * (x + y0) + (y - x0) * (y - x0) <= (xDiam / 2) * (xDiam / 2)).
Proof.
  intros Hx Hy. unfold insideGeneralizedEllipse.
  set (th := (thetaDegrees + 90) * (PI / 180)).
  pose proof (sin2_cos2 th) as Hsc. unfold Rsqr in Hsc.
  split; [|split].
  - replace ((- y0 - - y0) * cos th + (x0 + - x0) * sin th) with 0 by ring.
    replace ((- - y0 + - y0) * sin th + (x0 + - x0) * cos th) with 0 by ring.
    unfold Rdiv. rewrite !Rmult_0_l, Rplus_0_l.
    destruct (Rle_dec 0 1); [reflexivity | lra].
  - replace ((2 * - y0 - x - - y0) * cos th + (2 * x0 - y + - x0) * sin th)
      with (- ((x - - y0) * cos th + (y + - x0) * sin th)) by ring.
    replace ((- (2 * - y0 - x) + - y0) * sin th + (2 * x0 - y + - x0) * cos th)
      with (- ((- x + - y0) * sin th + (y + - x0) * cos th)) by ring.
    set (a := (x - - y0) * cos th + (y + - x0) * sin th).
    set (b := (- x + - y0) * sin th + (y + - x0) * cos th).
    replace (- a / (xDiam / 2) * (- a / (xDiam / 2)) +
             - b / (yDiam / 2) * (- b / (yDiam / 2)))
      with (a / (xDiam / 2) * (a / (xDiam / 2)) +
            b / (yDiam / 2) * (b / (yDiam / 2))) by (field; lra).
    reflexivity.
  - set (a := (x - - y0) * cos th + (y + - x0) * sin th).
    set (b := (- x + - y0) * sin th + (y + - x0) * cos th).
    assert (Hab : a * a + b * b = (x + y0) * (x + y0) + (y - x0) * (y - x0)).
    { subst a b.
      transitivity (((x + y0) * (x + y0) + (y - x0) * (y - x0))
                    * (sin th * sin th + cos th * cos th)); [ring|].
      rewrite Hsc. ring. }
    assert (Hq : a / (xDiam / 2) * (a / (xDiam / 2)) +
                 b / (xDiam / 2) * (b / (xDiam / 2)) =
                 (a * a + b * b) / ((xDiam / 2) * (xDiam / 2)))
      by (field; lra).
    rewrite Hq, Hab.
    assert (Hr2 : 0 < xDiam / 2 * (xDiam / 2)) by nra.
    destruct (Rle_dec (((x + y0) * (x + y0) + (y - x0) * (y - x0))
                       / (xDiam / 2 * (xDiam / 2))) 1) as [Hle | Hgt].
    + split; [intros _ | reflexivity].
      apply Rmult_le_compat_r with (r := xDiam / 2 * (xDiam / 2)) in Hle; [|lra].
      replace (((x + y0) * (x + y0) + (y - x0) * (y - x0))
               / (xDiam / 2 * (xDiam / 2)) * (xDiam / 2 * (xDiam / 2)))
        with ((x + y0) * (x + y0) + (y - x0) * (y - x0)) in Hle by (field; lra).
      lra.
    + split; [discriminate|]. intros Hin. exfalso. apply Hgt.
      apply Rmult_le_reg_r with (xDiam / 2 * (xDiam / 2)); [assumption|].
      replace (((x + y0) * (x + y0) + (y - x0) * (y - x0))
               / (xDiam / 2 * (xDiam / 2)) * (xDiam / 2 * (xDiam / 2)))
        with ((x + y0) * (x + y0) + (y - x0) * (y - x0)) by (field; lra).
      lra.
Qed.

Lemma insideGeneralizedEllipse_center_and_disk_witness :
  insideGeneralizedEllipse (- 2) 1 1 2 4 6 30 = true /\
  insideGeneralizedEllipse (2 * (- 2) - 5) (2 * 1 - 7) 1 2 4 6 30 =
    insideGeneralizedEllipse 5 7 1 2 4 6 30 /\
  (insideGeneralizedEllipse 5 7 1 2 4 4 30 = true <->
   (5 + 2) * (5 + 2) + (7 - 1) * (7 - 1) <= (4 / 2) * (4 / 2)).
Proof. apply (insideGeneralizedEllipse_center_and_disk 5 7 1 2 4 6 30); lra. Defined.

(** ** utility.go: Flatten2D and Reshape1DTo2D *)

Lemma index_app_l {A : Type} (s t : list A) (j : Z) :
  (0 <= j < Go.len s)%Z -> Go.index (s ++ t) j = Go.index s j.
Proof.
  intros Hj. unfold Go.index, Go.len in *.
  destruct (Z.ltb_spec j 0); [lia|]. apply nth_error_app1. lia.
Qed.

Lemma index_app_r {A : Type} (s t : list A) (j : Z) :
  (Go.len s <= j)%Z -> (0 <= Go.len s)%Z ->
  Go.index (s ++ t) j = Go.index t (j - Go.len s).
Proof.
  intros Hj _. unfold Go.index, Go.len in *.
  destruct (Z.ltb_spec j 0); [lia|].
  destruct (Z.ltb_spec (j - Z.of_nat (length s)) 0); [lia|].
  rewrite nth_error_app2 by lia. f_equal. lia.
Qed.

Lemma index_cons_succ {A : Type} (a : A) (s : list A) (i : Z) :
  (1 <= i)%Z -> Go.index (a :: s) i = Go.index s (i - 1).
Proof.
  intros Hi. unfold Go.index.
  destruct (Z.ltb_spec i 0); [lia|]. destruct (Z.ltb_spec (i - 1) 0); [lia|].
  replace (Z.to_nat i) with (S (Z.to_nat (i - 1))) by lia. reflexivity.
Qed.

(** Entry (i, j) of a rectangular matrix sits at index i w + j of its
    row-major flattening. *)
Lemma index_concat {A : Type} (h w : Z) (m : list (list A)) (i j : Z) :
  rect h w m -> (0 <= i < h)%Z -> (0 <= j < w)%Z ->
  Go.index (concat m) (i * w + j) = at2 m i j.
Proof.
  revert h i. induction m as [|row rest IH]; intros h i [Hlen Hrows] Hi Hj.
  - unfold Go.len in Hlen. cbn in Hlen. lia.
  - inversion Hrows as [|? ? Hrow Hrest]; subst.
    cbn [concat]. destruct (Z.eq_dec i 0) as [-> | Hi0].
    + rewrite Z.mul_0_l, Z.add_0_l. rewrite index_app_l by lia.
      unfold at2. replace (Go.index (row :: rest) 0) with (Some row) by reflexivity.
      reflexivity.
    + rewrite index_app_r by (unfold Go.len in *; nia).
      replace (i * Go.len row + j - Go.len row)%Z with ((i - 1) * Go.len row + j)%Z
        by ring.
      rewrite (IH (Go.len (row :: rest) - 1)%Z (i - 1)%Z).
      * unfold at2. now rewrite index_cons_succ by lia.
      * split; [unfold Go.len; cbn [length]; lia | assumption].
      * lia.
      * assumption.
Qed.

(** X19.  Flatten2D lays a rectangular grid out row by row: the result has
    h w entries and entry (i, j) is at index i w + j; a grid with a row
    whose length differs from that of the first row is refused with
    "ragged matrix". *)
Theorem Flatten2D_row_major (m : Grid) :
  (forall h w, rect h w m ->
     exists out, Flatten2D m = Ok out /\ Go.len out = (h * w)%Z /\
       forall i j, (0 <= i < h)%Z -> (0 <= j < w)%Z ->
         Go.index out (i * w + j) = at2 m i j) /\
  (forall m0 rest row, m = m0 :: rest -> In row rest -> Go.len row <> Go.len m0 ->
     Flatten2D m = Err "ragged matrix").
Proof.
  split.
  - intros h w Hm. exists (concat m). split; [now apply (Flatten2D_rect h w)|].
    split; [now apply len_concat_rect|].
    intros i j Hi Hj. now apply (index_concat h w).
  - intros m0 rest row -> Hin Hrow. unfold Flatten2D.
    destruct (forallb (fun r => (Go.len r =? Go.len m0)%Z) rest) eqn:E;
      [|reflexivity].
    rewrite forallb_forall in E. specialize (E row Hin).
    apply Z.eqb_eq in E. contradiction.
Qed.

Lemma Flatten2D_row_major_witness :
  (exists out, Flatten2D [[(1, 0); (2, 0)]; [(3, 0); (4, 0)]] = Ok out /\
     Go.len out = (2 * 2)%Z /\
     forall i j, (0 <= i < 2)%Z -> (0 <= j < 2)%Z ->
       Go.index out (i * 2 + j) = at2 [[(1, 0); (2, 0)]; [(3, 0); (4, 0)]] i j) /\
  Flatten2D [[(1, 0); (2, 0)]; [(3, 0)]] = Err "ragged matrix".
Proof.
  split.
  - apply (proj1 (Flatten2D_row_major [[(1, 0); (2, 0)]; [(3, 0); (4, 0)]]) 2%Z 2%Z).
    split; [reflexivity | repeat constructor].
  - apply (proj2 (Flatten2D_row_major [[(1, 0); (2, 0)]; [(3, 0)]])
             [(1, 0); (2, 0)] [[(3, 0)]] [(3, 0)]).
    + reflexivity.
    + left. reflexivity.
    + vm_compute. discriminate.
Defined.

Lemma tabulate_nth {A : Type} (d : A) (v : list A) :
  v = tabulate (Go.len v) (fun i => nth (Z.to_nat i) v d).
Proof.
  apply index_ext; [rewrite len_tabulate; unfold Go.len; lia|].
  intros j Hj. rewrite index_tabulate by assumption. now apply index_nth_Z.
Qed.

(** The loop of Reshape1DTo2D on a slice of rows cols values. *)
Lemma Reshape1DTo2D_rows (v : list R) (rows cols : Z) :
  (0 <= rows)%Z -> (0 <= cols)%Z -> Go.len v = (rows * cols)%Z ->
  Reshape1DTo2D v rows cols =
  Some (Ok (tab2 rows cols (fun i j => nth (Z.to_nat (i * cols + j)) v 0))).
Proof.
  intros Hrows Hcols Hlen. unfold Reshape1DTo2D.
  replace (Go.len v =? rows * cols)%Z with true by (symmetry; now apply Z.eqb_eq).
  cbn [negb]. rewrite make_spec by assumption. cbn [Go.bind].
  set (f := fun idx => nth (Z.to_nat idx) v 0).
  destruct (for_upto_opt_inv
    (fun i (st : Matrix * Z) =>
       Go.len (fst st) = rows /\ snd st = (i * cols)%Z /\
       forall r, (0 <= r < i)%Z ->
         Go.index (fst st) r = Some (tabulate cols (fun j => f (r * cols + j)%Z)))
    (fun i (st : Matrix * Z) =>
       let '(m, k) := st in
       do row <- Go.make 0 cols;
       do m <- Go.assign m i row;
       do src <- Go.slice v k (k + cols);
       do mi <- Go.index m i;
       do m <- Go.assign m i (Go.copy mi src);
       Some (m, (k + cols)%Z))
    rows (tabulate rows (fun _ => ([] : list R)), 0%Z))
    as ([m k] & Hloop & Hm & Hk & Hidx).
  - assumption.
  - cbn [fst snd]. split; [now apply len_tabulate|]. split; [lia|]. intros; lia.
  - intros i [t k] Hi (Ht & Hk & Hidx). cbn [fst snd] in *. subst k.
    rewrite make_spec by assumption. cbn [Go.bind].
    destruct (assign_spec t i (tabulate cols (fun _ => 0))) as (t1 & Ht1 & Hlen1 & Hidx1);
      [lia|].
    rewrite Ht1. cbn [Go.bind].
    replace (Go.slice v (i * cols) (i * cols + cols))
      with (Go.slice (tabulate (rows * cols) f) (i * cols) (i * cols + cols))
      by (rewrite <- Hlen; unfold f; now rewrite <- tabulate_nth).
    rewrite slice_tabulate by nia. cbn [Go.bind].
    rewrite Hidx1, Z.eqb_refl. cbn [Go.bind].
    rewrite copy_same_len by (rewrite !length_tabulate; lia).
    destruct (assign_spec t1 i (tabulate (i * cols + cols - i * cols)
                (fun x => f (x + i * cols)%Z)))
      as (t2 & -> & Hlen2 & Hidx2); [lia|].
    eexists. split; [reflexivity|]. cbn [fst snd].
    split; [congruence|]. split; [ring|].
    intros r Hr. rewrite Hidx2. destruct (Z.eqb_spec r i) as [-> | Hne].
    + f_equal. replace (i * cols + cols - i * cols)%Z with cols by ring.
      apply tabulate_ext. intros j Hj. unfold f. f_equal. lia.
    + rewrite Hidx1. destruct (Z.eqb_spec r i); [contradiction|].
      apply Hidx. lia.
  - rewrite_loop Hloop. cbn [Go.bind fst]. cbn [fst] in Hm, Hidx. do 2 f_equal.
    apply index_ext; [unfold tab2; rewrite len_tabulate; lia|].
    intros r Hr. rewrite Hm in Hr. rewrite Hidx by assumption.
    unfold tab2. now rewrite index_tabulate by assumption.
Qed.

(** X20.  Reshape1DTo2D undoes the row-major flattening of a rectangular
    matrix: the h w values of the rows, one after the other, are cut
    back into the h rows. *)
Theorem Reshape1DTo2D_inverts_flattening (h w : Z) (m : Matrix) :
  rect h w m -> (0 <= w)%Z -> Reshape1DTo2D (concat m) h w = Some (Ok m).
Proof.
  intros Hm Hw.
  assert (Hh : (0 <= h)%Z) by (destruct Hm as [<- _]; unfold Go.len; lia).
  rewrite Reshape1DTo2D_rows; try assumption; [|now apply len_concat_rect].
  do 2 f_equal. transitivity (tab2 h w (entry m)); [|symmetry; now apply rect_eq_tab2].
  apply tab2_ext. intros i j Hi Hj.
  pose proof (index_concat h w m i j Hm Hi Hj) as Hc.
  rewrite (at2_rect h w) in Hc by assumption.
  rewrite (index_nth_Z _ _ 0) in Hc
    by (rewrite (len_concat_rect h w) by assumption; nia).
  now apply some_eq in Hc.
Qed.

Lemma Reshape1DTo2D_inverts_flattening_witness :
  Reshape1DTo2D (concat image3) 3 3 = Some (Ok image3).
Proof.
  apply (Reshape1DTo2D_inverts_flattening 3 3 image3).
  - split; [reflexivity | repeat constructor].
  - lia.
Defined.

(** X21.  Reshape1DTo2D returns the error "size mismatch: have <len>, want
    <rows*cols>" when the slice does not hold rows cols values; when it
    does and rows is negative (so that cols is negative as well, or the
    slice is empty), it panics in make instead of returning an error. *)
Theorem Reshape1DTo2D_bad_sizes (v : list R) (rows cols : Z) :
  (Go.len v <> (rows * cols)%Z ->
   Reshape1DTo2D v rows cols =
   Some (Err ("size mismatch: have " ++ format_int (Go.len v)
              ++ ", want " ++ format_int (rows * cols))%string)) /\
  (Go.len v = (rows * cols)%Z -> (rows < 0)%Z -> Reshape1DTo2D v rows cols = None).
Proof.
  unfold Reshape1DTo2D. split.
  - intros Hne. destruct (Z.eqb_spec (Go.len v) (rows * cols)); [contradiction|].
    reflexivity.
  - intros Heq Hneg. destruct (Z.eqb_spec (Go.len v) (rows * cols)); [|contradiction].
    cbn [negb]. unfold Go.make. destruct (Z.ltb_spec rows 0); [reflexivity | lia].
Qed.

Lemma Reshape1DTo2D_bad_sizes_witness :
  Reshape1DTo2D [1; 2; 3] 2 2 = Some (Err "size mismatch: have 3, want 4") /\
  Reshape1DTo2D [1; 2] (-1) (-2) = None.
Proof.
  split.
  - apply (proj1 (Reshape1DTo2D_bad_sizes [1; 2; 3] 2 2)). vm_compute. discriminate.
  - apply (proj2 (Reshape1DTo2D_bad_sizes [1; 2] (-1) (-2))).
    + reflexivity.
    + lia.
Defined.

(** ** pathFuncs.go: removeDuplicates *)

(** Two points within [tol] of each other in both coordinates. *)
Definition close (tol : R) (p r : AnnotatedPoint) : Prop :=
  Rabs (X p - X r) < tol /\ Rabs (Y p - Y r) < tol.

Lemma close_sym (tol : R) (p r : AnnotatedPoint) : close tol p r -> close tol r p.
Proof. unfold close. now rewrite (Rabs_minus_sym (X r)), (Rabs_minus_sym (Y r)). Qed.

Lemma duplicate_test (tol : R) (p : AnnotatedPoint) (result : list AnnotatedPoint) :
  existsb (fun r => Rltb (Rabs (X p - X r)) tol && Rltb (Rabs (Y p - Y r)) tol) result
    = true <->
  exists r, In r result /\ close tol p r.
Proof.
  rewrite existsb_exists. unfold close, Rltb. split; intros (r & Hin & H); exists r;
    (split; [assumption|]).
  - destruct (Rlt_dec (Rabs (X p - X r)) tol); [|discriminate].
    destruct (Rlt_dec (Rabs (Y p - Y r)) tol); [|discriminate]. now split.
  - destruct H as [H1 H2].
    destruct (Rlt_dec (Rabs (X p - X r)) tol); [|contradiction].
    destruct (Rlt_dec (Rabs (Y p - Y r)) tol); [|contradiction]. reflexivity.
Qed.

(** The body of the outer loop. *)
Definition keep_if_new (tol : R) (result : list AnnotatedPoint) (p : AnnotatedPoint)
    : list AnnotatedPoint :=
  if negb (existsb (fun r => Rltb (Rabs (X p - X r)) tol
                             && Rltb (Rabs (Y p - Y r)) tol) result)
  then result ++ [p] else result.

Lemma removeDuplicates_fold (pts : list AnnotatedPoint) (tol : R) :
  removeDuplicates pts tol = fold_left (keep_if_new tol) pts [].
Proof. reflexivity. Qed.

Lemma ForallOrdPairs_snoc {A : Type} (Rel : A -> A -> Prop) (l : list A) (p : A) :
  ForallOrdPairs Rel l -> (forall a, In a l -> Rel a p) ->
  ForallOrdPairs Rel (l ++ [p]).
Proof.
  induction 1 as [|a l Ha Hl IH]; intros Hp; cbn [app].
  - constructor; constructor.
  - constructor.
    + apply Forall_app. split; [assumption|].
      constructor; [apply Hp; now left | constructor].
    + apply IH. intros b Hb. apply Hp. now right.
Qed.

Lemma removeDuplicates_acc (tol : R) (pts acc : list AnnotatedPoint) :
  ForallOrdPairs (fun a b => ~ close tol a b) acc ->
  (exists kept, fold_left (keep_if_new tol) pts acc = acc ++ kept /\ incl kept pts) /\
  ForallOrdPairs (fun a b => ~ close tol a b) (fold_left (keep_if_new tol) pts acc) /\
  (forall p, In p pts ->
     exists r, In r (fold_left (keep_if_new tol) pts acc) /\ (r = p \/ close tol p r)).
Proof.
  revert acc. induction pts as [|p rest IH]; intros acc Hacc; cbn [fold_left].
  - split; [exists []; split; [now rewrite app_nil_r | apply incl_refl]|].
    split; [assumption | intros p []].
  - assert (Hstep : ForallOrdPairs (fun a b => ~ close tol a b) (keep_if_new tol acc p)).
    { unfold keep_if_new.
      destruct (existsb _ acc) eqn:E; cbn [negb]; [assumption|].
      apply ForallOrdPairs_snoc; [assumption|].
      intros a Ha Hclose.
      assert (Hex : existsb (fun r => Rltb (Rabs (X p - X r)) tol
                                      && Rltb (Rabs (Y p - Y r)) tol) acc = true)
        by (apply duplicate_test; exists a; split; [assumption | now apply close_sym]).
      congruence. }
    destruct (IH _ Hstep) as ((kept & Hk & Hincl) & Hfar & Hcover).
    split; [|split; [assumption|]].
    + unfold keep_if_new in Hk |- *.
      destruct (existsb _ acc) eqn:E; cbn [negb] in *.
      * exists kept. split; [assumption|]. now apply incl_tl.
      * exists (p :: kept). rewrite Hk, <- app_assoc. split; [reflexivity|].
        intros a [<- | Ha]; [now left | right; now apply Hincl].
    + intros q [<- | Hq]; [|now apply Hcover].
      assert (Hin : forall a, In a (keep_if_new tol acc p) ->
                In a (fold_left (keep_if_new tol) rest (keep_if_new tol acc p))).
      { intros a Ha. rewrite Hk. apply in_or_app. now left. }
      unfold keep_if_new in Hin |- *.
      destruct (existsb _ acc) eqn:E; cbn [negb] in *.
      * apply duplicate_test in E as (r & Hr & Hclose).
        exists r. split; [now apply Hin | now right].
      * exists p. split; [apply Hin, in_or_app; right; now left | now left].
Qed.

Lemma removeDuplicates_fixed (tol : R) (l acc : list AnnotatedPoint) :
  ForallOrdPairs (fun a b => ~ close tol a b) (acc ++ l) ->
  fold_left (keep_if_new tol) l acc = acc ++ l.
Proof.
  revert acc. induction l as [|p rest IH]; intros acc Hfar; cbn [fold_left].
  - now rewrite app_nil_r.
  - assert (Hnew : keep_if_new tol acc p = acc ++ [p]).
    { unfold keep_if_new. destruct (existsb _ acc) eqn:E; [|reflexivity].
      exfalso. apply duplicate_test in E as (r & Hr & Hclose).
      clear IH. induction acc as [|a acc IHacc]; [contradiction|].
      cbn [app] in Hfar. inversion Hfar as [|? ? Ha Hrest]; subst.
      destruct Hr as [-> | Hr].
      - rewrite Forall_forall in Ha.
        apply (Ha p); [apply in_or_app; right; now left | now apply close_sym].
      - now apply IHacc. }
    rewrite Hnew. rewrite IH by now rewrite <- app_assoc.
    now rewrite <- app_assoc.
Qed.

(** X25.  removeDuplicates keeps points of the input, in their order; no two
    points that it keeps are within tol of each other in both
    coordinates; every input point is kept or is within tol of a kept
    point; and a second pass changes nothing. *)
Theorem removeDuplicates_separated (pts : list AnnotatedPoint) (tol : R) :
  incl (removeDuplicates pts tol) pts /\
  ForallOrdPairs (fun a b => ~ close tol a b) (removeDuplicates pts tol) /\
  (forall p, In p pts ->
     exists r, In r (removeDuplicates pts tol) /\ (r = p \/ close tol p r)) /\
  removeDuplicates (removeDuplicates pts tol) tol = removeDuplicates pts tol.
Proof.
  rewrite !removeDuplicates_fold.
  destruct (removeDuplicates_acc tol pts [] (FOP_nil _))
    as ((kept & Hk & Hincl) & Hfar & Hcover).
  split; [now rewrite Hk|]. split; [assumption|]. split; [assumption|].
  now apply removeDuplicates_fixed.
Qed.

(** ** pathFuncs.go: PathSquareIntersections *)

(** A point on the side of the square of width w that its label names,
    and on the line at signed distance d from the centre whose direction
    is (sin theta, cos theta). *)
Definition on_side (w theta d : R) (p : AnnotatedPoint) : Prop :=
  cos theta * X p - sin theta * Y p = d /\
  - (w / 2) <= X p <= w / 2 /\ - (w / 2) <= Y p <= w / 2 /\
  ((Position p = "right"%string /\ X p = w / 2) \/
   (Position p = "left"%string /\ X p = - (w / 2)) \/
   (Position p = "bottom"%string /\ Y p = w / 2) \/
   (Position p = "top"%string /\ Y p = - (w / 2))).

(** The intersections found with the four sides, before the duplicates
    are removed. *)
Definition side_hits (w theta d : R) : list AnnotatedPoint :=
  let halfW := w / 2 in
  let dx := sin theta in
  let dy := cos theta in
  let x0 := d * dy in
  let y0 := d * - dx in
  (if Rgtb (Rabs dx) 1e-12 && Rgeb (y0 + (halfW - x0) / dx * dy) (- halfW)
      && Rleb (y0 + (halfW - x0) / dx * dy) halfW
   then [{| X := halfW; Y := y0 + (halfW - x0) / dx * dy; Position := "right" |}]
   else []) ++
  (if Rgtb (Rabs dx) 1e-12 && Rgeb (y0 + (- halfW - x0) / dx * dy) (- halfW)
      && Rleb (y0 + (- halfW - x0) / dx * dy) halfW
   then [{| X := - halfW; Y := y0 + (- halfW - x0) / dx * dy; Position := "left" |}]
   else []) ++
  (if Rgtb (Rabs dy) 1e-12 && Rgeb (x0 + (halfW - y0) / dy * dx) (- halfW)
      && Rleb (x0 + (halfW - y0) / dy * dx) halfW
   then [{| X := x0 + (halfW - y0) / dy * dx; Y := halfW; Position := "bottom" |}]
   else []) ++
  (if Rgtb (Rabs dy) 1e-12 && Rgeb (x0 + (- halfW - y0) / dy * dx) (- halfW)
      && Rleb (x0 + (- halfW - y0) / dy * dx) halfW
   then [{| X := x0 + (- halfW - y0) / dy * dx; Y := - halfW; Position := "top" |}]
   else []).

Lemma PathSquareIntersections_unfold (w theta d : R) :
  PathSquareIntersections w theta d =
  match removeDuplicates (side_hits w theta d) 1e-9 with
  | p1 :: p2 :: _ => (p1, p2, sin theta, cos theta, None)
  | _ =>
      ({| X := 0; Y := 0; Position := "" |}, {| X := 0; Y := 0; Position := "" |},
       sin theta, cos theta, Some ErrNoIntersection)
  end.
Proof.
  unfold PathSquareIntersections, side_hits. cbv zeta.
  destruct (Rgtb (Rabs (sin theta)) 1e-12); destruct (Rgtb (Rabs (cos theta)) 1e-12);
    cbn [andb app];
    repeat match goal with
    | |- context [Rgeb ?a ?b && Rleb ?c ?e] =>
        destruct (Rgeb a b); destruct (Rleb c e); cbn [andb app]
    end; reflexivity.
Qed.

Lemma Rgtb_true (a b : R) : Rgtb a b = true -> a > b.
Proof. unfold Rgtb. now destruct (Rgt_dec a b). Qed.
Lemma Rgeb_true (a b : R) : Rgeb a b = true -> a >= b.
Proof. unfold Rgeb. now destruct (Rge_dec a b). Qed.
Lemma Rleb_true (a b : R) : Rleb a b = true -> a <= b.
Proof. unfold Rleb. now destruct (Rle_dec a b). Qed.

Lemma Rabs_gt_nonzero (a eps : R) : 0 <= eps -> Rabs a > eps -> a <> 0.
Proof. intros He Ha ->. rewrite Rabs_R0 in Ha. lra. Qed.

Lemma side_hits_on_side (w theta d : R) :
  Forall (on_side w theta d) (side_hits w theta d).
Proof.
  pose proof (sin2_cos2 theta) as Hsc. unfold Rsqr in Hsc.
  unfold side_hits. cbv zeta.
  repeat (apply Forall_app; split);
    match goal with
    | |- Forall _ (if ?c then _ else _) =>
        destruct c eqn:E; [|constructor]
    end;
    apply andb_prop in E as [E Hle]; apply andb_prop in E as [Hnz Hge];
    apply Rgtb_true in Hnz; apply Rgeb_true in Hge; apply Rleb_true in Hle;
    apply Rabs_gt_nonzero in Hnz; try lra;
    (apply Forall_cons; [|apply Forall_nil]); unfold on_side; cbn [X Y Position];
    (split;
     [transitivity (d * (sin theta * sin theta + cos theta * cos theta));
      [field; assumption | rewrite Hsc; ring] |]);
    (split; [lra|]); (split; [lra|]).
  - left. now split.
  - right; left. now split.
  - right; right; left. now split.
  - right; right; right. now split.
Qed.

Lemma removeDuplicates_head (tol : R) (pts : list AnnotatedPoint)
    (p1 p2 : AnnotatedPoint) (rest : list AnnotatedPoint) :
  removeDuplicates pts tol = p1 :: p2 :: rest ->
  In p1 pts /\ In p2 pts /\ ~ close tol p1 p2.
Proof.
  intros Heq. rewrite removeDuplicates_fold in Heq.
  destruct (removeDuplicates_acc tol pts [] (FOP_nil _))
    as ((kept & Hk & Hincl) & Hfar & _).
  rewrite Heq in Hk, Hfar. cbn [app] in Hk. subst kept.
  split; [apply Hincl; now left|]. split; [apply Hincl; right; now left|].
  inversion Hfar as [|? ? Hp1 _]; subst.
  rewrite Forall_forall in Hp1. apply Hp1. now left.
Qed.

(** X26.  When PathSquareIntersections returns without error, dx and dy are
    the direction (sin theta, cos theta), each of the two points lies on
    the side of the square that its label names and on the line at
    signed distance d from the centre, and the two points are at least
    1e-9 apart in one coordinate. *)
Theorem PathSquareIntersections_on_sides (w theta d : R)
    (p1 p2 : AnnotatedPoint) (dx dy : R) :
  PathSquareIntersections w theta d = (p1, p2, dx, dy, None) ->
  dx = sin theta /\ dy = cos theta /\
  on_side w theta d p1 /\ on_side w theta d p2 /\ ~ close 1e-9 p1 p2.
Proof.
  rewrite PathSquareIntersections_unfold.
  destruct (removeDuplicates (side_hits w theta d) 1e-9) as [|q1 [|q2 rest]] eqn:E;
    try discriminate.
  intros Heq.
  assert (q1 = p1 /\ q2 = p2 /\ sin theta = dx /\ cos theta = dy)
    as (-> & -> & <- & <-) by (repeat split; congruence).
  destruct (removeDuplicates_head _ _ _ _ _ E) as (H1 & H2 & Hfar).
  pose proof (side_hits_on_side w theta d) as Hall.
  rewrite Forall_forall in Hall.
  repeat split; auto; try (now apply Hall).
Qed.

(** X27.  A line farther from the centre than the corners of the square
    (d^2 > w^2 / 2) meets no side: the error ErrNoIntersection is
    returned, with the direction vector and two zero points. *)
Theorem PathSquareIntersections_misses (w theta d : R) :
  w * w / 2 < d * d ->
  PathSquareIntersections w theta d =
  ({| X := 0; Y := 0; Position := "" |}, {| X := 0; Y := 0; Position := "" |},
   sin theta, cos theta, Some ErrNoIntersection).
Proof.
  intros Hfar. rewrite PathSquareIntersections_unfold.
  pose proof (side_hits_on_side w theta d) as Hall.
  destruct (side_hits w theta d) as [|p rest]; [reflexivity|].
  exfalso. inversion Hall as [|? ? Hp _]; subst.
  destruct Hp as (Hline & HX & HY & _).
  pose proof (sin2_cos2 theta) as Hsc. unfold Rsqr in Hsc.
  assert (Hcs : d * d <= X p * X p + Y p * Y p).
  { rewrite <- Hline.
    assert (Hid : (cos theta * X p - sin theta * Y p) * (cos theta * X p - sin theta * Y p)
                  + (sin theta * X p + cos theta * Y p) * (sin theta * X p + cos theta * Y p)
                  = X p * X p + Y p * Y p).
    { transitivity ((sin theta * sin theta + cos theta * cos theta)
                    * (X p * X p + Y p * Y p)); [ring | rewrite Hsc; ring]. }
    pose proof (Rle_0_sqr (sin theta * X p + cos theta * Y p)) as Hsq.
    unfold Rsqr in Hsq. lra. }
  assert (HX2 : X p * X p <= w / 2 * (w / 2)) by nra.
  assert (HY2 : Y p * Y p <= w / 2 * (w / 2)) by nra.
  lra.
Qed.

Lemma PathSquareIntersections_misses_witness :
  PathSquareIntersections 10 (PI / 3) 8 =
  ({| X := 0; Y := 0; Position := "" |}, {| X := 0; Y := 0; Position := "" |},
   sin (PI / 3), cos (PI / 3), Some ErrNoIntersection).
Proof. apply (PathSquareIntersections_misses 10 (PI / 3) 8). lra. Defined.

(** A path along the y axis direction meets the bottom and the top side
    of the square. *)
Lemma PathSquareIntersections_vertical (w d : R) :
  1e-9 <= w -> - (w / 2) <= d <= w / 2 ->
  PathSquareIntersections w 0 d =
  ({| X := d * cos 0 + (w / 2 - d * - sin 0) / cos 0 * sin 0; Y := w / 2;
      Position := "bottom" |},
   {| X := d * cos 0 + (- (w / 2) - d * - sin 0) / cos 0 * sin 0; Y := - (w / 2);
      Position := "top" |},
   sin 0, cos 0, None).
Proof.
  intros Hw Hd. rewrite PathSquareIntersections_unfold.
  assert (Hx1 : d * cos 0 + (w / 2 - d * - sin 0) / cos 0 * sin 0 = d)
    by (rewrite sin_0, cos_0; field).
  assert (Hx2 : d * cos 0 + (- (w / 2) - d * - sin 0) / cos 0 * sin 0 = d)
    by (rewrite sin_0, cos_0; field).
  unfold side_hits. cbv zeta.
  replace (Rgtb (Rabs (sin 0)) 1e-12) with false
    by (unfold Rgtb; rewrite sin_0, Rabs_R0; destruct (Rgt_dec 0 1e-12); [lra | reflexivity]).
  replace (Rgtb (Rabs (cos 0)) 1e-12) with true
    by (unfold Rgtb; rewrite cos_0, Rabs_R1; destruct (Rgt_dec 1 1e-12); [reflexivity | lra]).
  cbn [andb app].
  replace (Rgeb (d * cos 0 + (w / 2 - d * - sin 0) / cos 0 * sin 0) (- (w / 2)))
    with true by (rewrite Hx1; unfold Rgeb; destruct (Rge_dec d (- (w / 2))); [reflexivity | lra]).
  replace (Rleb (d * cos 0 + (w / 2 - d * - sin 0) / cos 0 * sin 0) (w / 2))
    with true by (rewrite Hx1; unfold Rleb; destruct (Rle_dec d (w / 2)); [reflexivity | lra]).
  replace (Rgeb (d * cos 0 + (- (w / 2) - d * - sin 0) / cos 0 * sin 0) (- (w / 2)))
    with true by (rewrite Hx2; unfold Rgeb; destruct (Rge_dec d (- (w / 2))); [reflexivity | lra]).
  replace (Rleb (d * cos 0 + (- (w / 2) - d * - sin 0) / cos 0 * sin 0) (w / 2))
    with true by (rewrite Hx2; unfold Rleb; destruct (Rle_dec d (w / 2)); [reflexivity | lra]).
  cbn [andb app]. unfold removeDuplicates. cbn [fold_left existsb negb app X Y].
  replace (Rltb (Rabs (- (w / 2) - w / 2)) 1e-9) with false.
  - rewrite andb_false_r. reflexivity.
  - unfold Rltb. destruct (Rlt_dec (Rabs (- (w / 2) - w / 2)) 1e-9) as [Hlt|]; [|reflexivity].
    exfalso. replace (- (w / 2) - w / 2) with (- w) in Hlt by field.
    rewrite Rabs_Ropp, Rabs_right in Hlt by lra. lra.
Qed.

Lemma PathSquareIntersections_on_sides_witness :
  sin 0 = sin 0 /\ cos 0 = cos 0 /\
  on_side 10 0 1
    {| X := 1 * cos 0 + (10 / 2 - 1 * - sin 0) / cos 0 * sin 0; Y := 10 / 2;
       Position := "bottom" |} /\
  on_side 10 0 1
    {| X := 1 * cos 0 + (- (10 / 2) - 1 * - sin 0) / cos 0 * sin 0; Y := - (10 / 2);
       Position := "top" |} /\
  ~ close 1e-9
    {| X := 1 * cos 0 + (10 / 2 - 1 * - sin 0) / cos 0 * sin 0; Y := 10 / 2;
       Position := "bottom" |}
    {| X := 1 * cos 0 + (- (10 / 2) - 1 * - sin 0) / cos 0 * sin 0; Y := - (10 / 2);
       Position := "top" |}.
Proof.
  apply (PathSquareIntersections_on_sides 10 0 1).
  apply PathSquareIntersections_vertical; lra.
Defined.

(** ** lightcurve.go: ExtractLightCurve *)

(** X28.  On a square intensity matrix with at least two rows ExtractLightCurve
    never panics: it computes the sample points when the path has none,
    and returns one light-curve point per sample point, point i holding
    the recorded distance of sample i times the kilometres per pixel and
    the intensity interpolated at sample i, which lies between the least
    and the greatest entry of the matrix. *)
Theorem ExtractLightCurve_points (n : Z) (m : Matrix) (lo hi : R)
    (path : Lightcurve.ObservationPath) :
  square n m -> (2 <= n)%Z ->
  (forall r c, (0 <= r < n)%Z -> (0 <= c < n)%Z -> lo <= entry m r c <= hi) ->
  exists lightCurve path',
    Lightcurve.ExtractLightCurve m path = Some (lightCurve, path') /\
    path' = (if (Go.len (Lightcurve.SamplePoints path) =? 0)%Z
             then Lightcurve.ComputeSamplePoints path else path) /\
    Go.len lightCurve = Go.len (Lightcurve.SamplePoints path') /\
    forall i pt, Go.index (Lightcurve.SamplePoints path') i = Some pt ->
      exists v,
        Lightcurve.interpolate m (Lightcurve.X pt) (Lightcurve.Y pt) = Some v /\
        lo <= v <= hi /\
        Go.index lightCurve i =
          Some {| Lightcurve.Distance :=
                    Lightcurve.DistanceFromStart pt *
                    (Lightcurve.FundamentalPlaneWidthKm path' /
                     IZR (Lightcurve.FundamentalPlaneWidthPts path'));
                  Lightcurve.Intensity := v |}.
Proof.
  intros Hsq Hn Hbound. unfold Lightcurve.ExtractLightCurve.
  set (path' := if (Go.len (Lightcurve.SamplePoints path) =? 0)%Z
                then Lightcurve.ComputeSamplePoints path else path).
  set (pts := Lightcurve.SamplePoints path').
  set (perPoint := Lightcurve.FundamentalPlaneWidthKm path' /
                   Go.float64 (Lightcurve.FundamentalPlaneWidthPts path')).
  assert (Hlen0 : (0 <= Go.len pts)%Z) by (unfold Go.len; lia).
  set (zero := {| Lightcurve.Distance := 0; Lightcurve.Intensity := 0 |}).
  set (f := fun i =>
    match Go.index pts i with
    | Some pt =>
        match Lightcurve.interpolate m (Lightcurve.X pt) (Lightcurve.Y pt) with
        | Some v => {| Lightcurve.Distance := Lightcurve.DistanceFromStart pt * perPoint;
                       Lightcurve.Intensity := v |}
        | None => zero
        end
    | None => zero
    end).
  rewrite make_spec by assumption. cbn [Go.bind].
  rewrite (fill_loop_ext _ f (Go.len pts)).
  - cbn [Go.bind]. exists (tabulate (Go.len pts) f), path'.
    split; [reflexivity|]. split; [reflexivity|].
    split; [now apply len_tabulate|].
    intros i pt Hpt. pose proof (index_range _ _ _ Hpt) as Hi.
    destruct (interpolate_within_bounds_aux n m lo hi
                (Lightcurve.X pt) (Lightcurve.Y pt) Hsq Hn Hbound) as (v & Hv & Hr).
    exists v. rewrite Lightcurve_interpolate_eq. split; [assumption|].
    split; [assumption|].
    rewrite index_tabulate by assumption. unfold f, pts. rewrite Hpt.
    rewrite Lightcurve_interpolate_eq, Hv. reflexivity.
  - intros i t Hi. destruct (index_in_range pts i Hi) as [pt Hpt].
    rewrite Hpt. cbn [Go.bind].
    destruct (interpolate_total n m (Lightcurve.X pt) (Lightcurve.Y pt) Hsq Hn)
      as [v Hv].
    rewrite Lightcurve_interpolate_eq, Hv. cbn [Go.bind].
    unfold f. rewrite Hpt, Lightcurve_interpolate_eq, Hv. reflexivity.
  - now apply len_tabulate.
Qed.

Definition path34 : Lightcurve.ObservationPath :=
  {| Lightcurve.DxKmPerSec := 3; Lightcurve.DyKmPerSec := 4;
     Lightcurve.PathOffsetFromCenterKm := 0;
     Lightcurve.FundamentalPlaneWidthKm := 10;
     Lightcurve.FundamentalPlaneWidthPts := 2;
     Lightcurve.StartX := 0; Lightcurve.StartY := 0;
     Lightcurve.EndX := 3; Lightcurve.EndY := 4;
     Lightcurve.ShadowSpeedKmPerSec := 5;
     Lightcurve.PathAngleDegrees := 0;
     Lightcurve.Direction := "";
     Lightcurve.SamplePoints := [] |}.

Lemma ExtractLightCurve_points_witness :
  exists lightCurve path',
    Lightcurve.ExtractLightCurve m2x2 path34 = Some (lightCurve, path') /\
    path' = (if (Go.len (Lightcurve.SamplePoints path34) =? 0)%Z
             then Lightcurve.ComputeSamplePoints path34 else path34) /\
    Go.len lightCurve = Go.len (Lightcurve.SamplePoints path') /\
    forall i pt, Go.index (Lightcurve.SamplePoints path') i = Some pt ->
      exists v,
        Lightcurve.interpolate m2x2 (Lightcurve.X pt) (Lightcurve.Y pt) = Some v /\
        0 <= v <= 3 /\
        Go.index lightCurve i =
          Some {| Lightcurve.Distance :=
                    Lightcurve.DistanceFromStart pt *
                    (Lightcurve.FundamentalPlaneWidthKm path' /
                     IZR (Lightcurve.FundamentalPlaneWidthPts path'));
                  Lightcurve.Intensity := v |}.
Proof.
  apply (ExtractLightCurve_points 2 m2x2 0 3 path34).
  - exact square_m2x2.
  - lia.
  - exact m2x2_bounds.
Defined.

(** ** jsonFuncs.go: getLeafValue *)

Lemma getLeafValue_from_app (cur : Value) (p q : list string) :
  getLeafValue_from cur (p ++ q) =
  match getLeafValue_from cur p with
  | (v, true) => getLeafValue_from v q
  | (_, false) => (VNil, false)
  end.
Proof.
  revert cur. induction p as [|k p IH]; intros cur.
  - reflexivity.
  - cbn [app getLeafValue_from].
    destruct cur; try reflexivity. destruct (m k); [apply IH | reflexivity].
Qed.

(** X29.  getLeafValue walks the keys of the path through the nested objects:
    the empty path gives the table itself; a path of one key is a lookup
    in the table; a path p followed by q is the lookup of q in the object
    found at p; the lookup fails, with the value nil, as soon as a key is
    missing or the value reached is not an object while keys remain. *)
Theorem getLeafValue_walk (jsonTable : string -> option Value) (p q : list string) :
  getLeafValue jsonTable [] = (VMap jsonTable, true) /\
  (forall k, getLeafValue jsonTable [k] =
     match jsonTable k with Some v => (v, true) | None => (VNil, false) end) /\
  (forall m, getLeafValue jsonTable p = (VMap m, true) ->
     getLeafValue jsonTable (p ++ q) = getLeafValue m q) /\
  (forall v, getLeafValue jsonTable p = (v, true) -> (forall m, v <> VMap m) ->
     q <> [] -> getLeafValue jsonTable (p ++ q) = (VNil, false)) /\
  (forall v, getLeafValue jsonTable p = (v, false) ->
     v = VNil /\ getLeafValue jsonTable (p ++ q) = (VNil, false)).
Proof.
  unfold getLeafValue. split; [reflexivity|]. split.
  { intros k. cbn [getLeafValue_from]. now destruct (jsonTable k). }
  split; [|split].
  - intros m Hp. now rewrite getLeafValue_from_app, Hp.
  - intros v Hp Hv Hq. rewrite getLeafValue_from_app, Hp.
    destruct q as [|k q]; [contradiction|]. cbn [getLeafValue_from].
    destruct v; try reflexivity. now destruct (Hv m).
  - intros v Hp. split.
    + clear q. revert Hp. generalize (VMap jsonTable) as cur.
      induction p as [|k p IH]; intros cur; cbn [getLeafValue_from].
      * discriminate.
      * destruct cur; try congruence.
        destruct (m k); [apply IH | congruence].
    + now rewrite getLeafValue_from_app, Hp.
Qed.

(** ** sincDiffraction.go: the propagator as a matrix product *)

(** Entry (i, j) of the product of two N x N matrices. *)
Definition matmul (N : Z) (A B : Z -> Z -> complex128) (i j : Z) : complex128 :=
  Csum (Z.to_nat N) (fun l => Cmul (A i l) (B l j)).

Lemma dot_loop (N : Z) (f : Z -> complex128)
    (body : Z -> complex128 -> option complex128) :
  (0 <= N)%Z ->
  (forall l acc, (0 <= l < N)%Z -> body l acc = Some (Cadd acc (f l))) ->
  Go.for_upto_opt N body Czero = Some (Csum (Z.to_nat N) f).
Proof.
  intros HN Hbody.
  destruct (for_upto_opt_inv (fun l acc => acc = Csum (Z.to_nat l) f) body N Czero)
    as (acc & Hacc & ->); [assumption | reflexivity | | assumption].
  intros l acc Hl ->. rewrite Hbody by assumption.
  eexists. split; [reflexivity|].
  replace (Z.to_nat (l + 1)) with (S (Z.to_nat l)) by lia.
  cbn [Csum]. now rewrite Z2Nat.id by lia.
Qed.

Lemma flat_index_inj (N i j i' j' : Z) :
  (0 <= j < N)%Z -> (0 <= j' < N)%Z ->
  (i * N + j = i' * N + j')%Z -> i = i' /\ j = j'.
Proof. intros Hj Hj' Heq. assert (i = i') by nia. subst. lia. Qed.

(** Zgemm3m on row-major N x N operands: C <- alpha A B + beta C. *)
Lemma Zgemm3m_spec (N : Z) (alpha beta : complex128) (a b c : list complex128)
    (A B C : Z -> Z -> complex128) :
  (1 <= N)%Z -> Go.len c = (N * N)%Z ->
  (forall i j, (0 <= i < N)%Z -> (0 <= j < N)%Z -> Go.index a (i * N + j) = Some (A i j)) ->
  (forall i j, (0 <= i < N)%Z -> (0 <= j < N)%Z -> Go.index b (i * N + j) = Some (B i j)) ->
  (forall i j, (0 <= i < N)%Z -> (0 <= j < N)%Z -> Go.index c (i * N + j) = Some (C i j)) ->
  exists c', Zgemm3m N N N alpha a N b N beta c N = Some c' /\
    Go.len c' = (N * N)%Z /\
    forall i j, (0 <= i < N)%Z -> (0 <= j < N)%Z ->
      Go.index c' (i * N + j) =
      Some (Cadd (Cmul alpha (matmul N A B i j)) (Cmul beta (C i j))).
Proof.
  intros HN Hc Ha Hb HC. unfold Zgemm3m.
  pose proof (Ha 0 0 ltac:(lia) ltac:(lia))%Z as Ha0.
  pose proof (Hb 0 0 ltac:(lia) ltac:(lia))%Z as Hb0.
  pose proof (HC 0 0 ltac:(lia) ltac:(lia))%Z as Hc0.
  rewrite Z.mul_0_l, Z.add_0_l in Ha0, Hb0, Hc0.
  rewrite Ha0, Hb0, Hc0. cbn [Go.bind].
  set (Res := fun i j => Cadd (Cmul alpha (matmul N A B i j)) (Cmul beta (C i j))).
  set (Inv := fun (i j : Z) (t : list complex128) =>
    Go.len t = (N * N)%Z /\
    forall i' j', (0 <= i' < N)%Z -> (0 <= j' < N)%Z ->
      Go.index t (i' * N + j') =
      Some (if ((i' <? i) || ((i' =? i) && (j' <? j)))%Z%bool
            then Res i' j' else C i' j')).
  match goal with
  | |- exists c', Go.for_upto_opt N ?body c = Some c' /\ _ =>
      destruct (for_upto_opt_inv (fun i t => Inv i 0%Z t) body N c)
        as (c' & Hc' & Hlen' & Hidx')
  end.
  - lia.
  - split; [assumption|]. intros i' j' Hi' Hj'. rewrite HC by assumption.
    f_equal. destruct (Z.ltb_spec i' 0); [lia|].
    destruct (Z.ltb_spec j' 0); [lia|]. now rewrite andb_false_r.
  - intros i t Hi Ht.
    match goal with
    | |- exists t', Go.for_upto_opt N ?body t = Some t' /\ _ =>
        destruct (for_upto_opt_inv (fun j u => Inv i j u) body N t)
          as (t' & Ht' & Hlent' & Hidxt')
    end.
    + lia.
    + exact Ht.
    + intros j u Hj [Hlenu Hidxu].
      rewrite (dot_loop N (fun l => Cmul (A i l) (B l j))); [|lia|].
      * cbn [Go.bind]. rewrite Hidxu by assumption.
        replace ((i <? i) || ((i =? i) && (j <? j)))%Z%bool with false
          by (rewrite Z.ltb_irrefl, Z.ltb_irrefl, andb_false_r; reflexivity).
        cbn [Go.bind].
        match goal with
        | |- context [Go.assign u ?k ?v] =>
            destruct (assign_spec u k v) as (u' & -> & Hlenu' & Hidxu'); [nia|]
        end.
        exists u'. split; [reflexivity|]. split; [congruence|].
        intros i' j' Hi' Hj'. rewrite Hidxu'.
        destruct (Z.eqb_spec (i' * N + j') (i * N + j)) as [Heq | Hne].
        -- apply flat_index_inj in Heq as [-> ->]; try assumption.
           f_equal.
           replace ((i <? i) || ((i =? i) && (j <? j + 1)))%Z%bool with true;
             [reflexivity|].
           rewrite Z.ltb_irrefl, Z.eqb_refl. cbn [orb andb].
           symmetry. apply Z.ltb_lt. lia.
        -- rewrite Hidxu by assumption. f_equal.
           assert (Hsame : ((i' =? i) && (j' <? j + 1))%Z%bool =
                           ((i' =? i) && (j' <? j))%Z%bool).
           { destruct (Z.eqb_spec i' i) as [-> | _]; [|reflexivity]. cbn [andb].
             destruct (Z.ltb_spec j' (j + 1)); destruct (Z.ltb_spec j' j);
               try reflexivity; lia. }
           now rewrite Hsame.
      * intros l acc Hl. rewrite Ha, Hb by assumption. reflexivity.
    + exists t'. split; [assumption|].
      split; [assumption|]. intros i' j' Hi'' Hj'. rewrite Hidxt' by assumption.
      f_equal.
      replace ((i' <? i) || ((i' =? i) && (j' <? N)))%Z%bool
        with ((i' <? i + 1) || ((i' =? i + 1) && (j' <? 0)))%Z%bool; [reflexivity|].
      destruct (Z.ltb_spec j' 0); [lia|]. rewrite andb_false_r, orb_false_r.
      destruct (Z.ltb_spec j' N); [|lia]. rewrite andb_true_r.
      destruct (Z.ltb_spec i' (i + 1)); destruct (Z.ltb_spec i' i);
        destruct (Z.eqb_spec i' i); cbn [orb]; try reflexivity; lia.
  - exists c'. split; [assumption|]. split; [assumption|].
    intros i j Hi Hj. rewrite Hidx' by assumption. f_equal.
    destruct (Z.ltb_spec i N); [reflexivity | lia].
Qed.

Lemma gemm_one_zero (z : complex128) :
  Cadd (Cmul (complex 1 0) z) (Cmul (complex 0 0) Czero) = z.
Proof. complex_ring. Qed.

(** X24.  FullObservationPlaneSincSolution returns, row by row, the matrix
    product W S W of the source plane S between two copies of the Fresnel
    weight matrix W[i][j] = w[|i - j|]: entry (i, j) of the product is at
    index i N + j of the N N values returned. *)
Theorem FullObservationPlaneSincSolution_is_W_S_W (fresnel : R -> R * R)
    (N : Z) (L Z_ lambda : R) (sourcePlane : Grid) :
  (2 <= N)%Z -> rect N N sourcePlane ->
  exists E,
    FullObservationPlaneSincSolution fresnel L Z_ lambda sourcePlane = Some E /\
    Go.len E = (N * N)%Z /\
    forall i j, (0 <= i < N)%Z -> (0 <= j < N)%Z ->
      Go.index E (i * N + j) =
      Some (matmul N
              (matmul N
                 (fun r c => weight_row_spec fresnel N L Z_ lambda (Z.abs (c - r)))
                 (fun r c => nth (Z.to_nat c) (nth (Z.to_nat r) sourcePlane []) Czero))
              (fun r c => weight_row_spec fresnel N L Z_ lambda (Z.abs (c - r)))
              i j).
Proof.
  intros HN Hsp. unfold FullObservationPlaneSincSolution.
  assert (Hlen : Go.len sourcePlane = N) by apply Hsp. rewrite Hlen.
  rewrite fresnelWeights_spec by assumption. cbn [Go.bind].
  set (W := fun r c => weight_row_spec fresnel N L Z_ lambda (Z.abs (c - r))).
  set (S := fun r c => nth (Z.to_nat c) (nth (Z.to_nat r) sourcePlane []) Czero).
  assert (HWrect : rect N N (tabulate N (fun row => tabulate N (W row))))
    by (apply rect_tabulate; lia).
  rewrite (Flatten2D_rect N N) by exact HWrect.
  rewrite (Flatten2D_rect N N) by assumption.
  rewrite !make_spec by nia. cbn [Go.bind].
  assert (HA : forall i j, (0 <= i < N)%Z -> (0 <= j < N)%Z ->
            Go.index (concat (tabulate N (fun row => tabulate N (W row)))) (i * N + j)
            = Some (W i j)).
  { intros i j Hi Hj. rewrite (index_concat N N) by assumption.
    now apply at2_tabulate. }
  assert (HB : forall i j, (0 <= i < N)%Z -> (0 <= j < N)%Z ->
            Go.index (concat sourcePlane) (i * N + j) = Some (S i j)).
  { intros i j Hi Hj. rewrite (index_concat N N) by assumption.
    rewrite (rect_eq_tab2_gen Czero N N sourcePlane Hsp) at 1.
    now apply at2_tab2. }
  assert (HZ : forall i j, (0 <= i < N)%Z -> (0 <= j < N)%Z ->
            Go.index (tabulate (N * N) (fun _ => Czero)) (i * N + j) = Some Czero).
  { intros i j Hi Hj. apply index_tabulate. nia. }
  cbv zeta.
  match goal with
  | |- context [Zgemm3m N N N ?al ?a N ?b N ?be ?c N] =>
      destruct (Zgemm3m_spec N al be a b c W S (fun _ _ => Czero))
        as (C1 & HC1 & HlenC1 & HidxC1); try assumption; try lia;
      [apply len_tabulate; nia | rewrite HC1]
  end.
  cbn [Go.bind].
  match goal with
  | |- context [Zgemm3m N N N ?al ?a N ?b N ?be ?c N] =>
      destruct (Zgemm3m_spec N al be a b c
                  (fun i j => Cadd (Cmul (complex 1 0) (matmul N W S i j))
                                   (Cmul (complex 0 0) Czero))
                  W (fun _ _ => Czero))
        as (E & HE & HlenE & HidxE); try assumption; try lia;
      [apply len_tabulate; nia|]
  end.
  exists E. split; [assumption|]. split; [assumption|].
  intros i j Hi Hj. rewrite HidxE by assumption. f_equal.
  rewrite gemm_one_zero. unfold matmul at 1 3. apply Csum_ext.
  intros l Hl. now rewrite gemm_one_zero.
Qed.

Lemma FullObservationPlaneSincSolution_is_W_S_W_witness :
  exists E,
    FullObservationPlaneSincSolution (fun _ => (0, 0)) 1 1 1
      [[(1, 0); (0, 0)]; [(0, 0); (1, 0)]] = Some E /\
    Go.len E = (2 * 2)%Z /\
    forall i j, (0 <= i < 2)%Z -> (0 <= j < 2)%Z ->
      Go.index E (i * 2 + j) =
      Some (matmul 2
              (matmul 2
                 (fun r c => weight_row_spec (fun _ => (0, 0)) 2 1 1 1 (Z.abs (c - r)))
                 (fun r c => nth (Z.to_nat c)
                               (nth (Z.to_nat r) [[(1, 0); (0, 0)]; [(0, 0); (1, 0)]] [])
                               Czero))
              (fun r c => weight_row_spec (fun _ => (0, 0)) 2 1 1 1 (Z.abs (c - r)))
              i j).
Proof.
  apply (FullObservationPlaneSincSolution_is_W_S_W (fun _ => (0, 0)) 2 1 1 1).
  - lia.
  - split; [reflexivity | repeat constructor].
Defined.

(** ** convolution.go: a uniform image *)

Lemma padded_uniform (H W : Z) (c : R) (pad : PaddingMode) (y x : Z) :
  (1 <= H)%Z -> (1 <= W)%Z ->
  pad = PadReflect \/ pad = PadReplicate \/ pad = PadCircular ->
  padded H W (tab2 H W (fun _ _ => c)) pad y x = c.
Proof.
  intros HH HW Hpad. unfold padded.
  destruct ((0 <=? y) && (y <? H) && (0 <=? x) && (x <? W))%Z%bool eqn:E.
  - apply entry_tab2; repeat (apply andb_prop in E as [E ?]); lia.
  - destruct (padded_index pad H y) as [yy|] eqn:Ey;
      [destruct (padded_index pad W x) as [xx|] eqn:Ex|].
    + apply entry_tab2; eapply padded_index_range; eauto.
    + exfalso. destruct Hpad as [-> | [-> | ->]]; discriminate Ex.
    + exfalso. destruct Hpad as [-> | [-> | ->]]; discriminate Ey.
Qed.

(** X11.  With Reflect, Replicate or Circular padding and the PSF stored as it
    is, a uniform image comes out uniform with the same value, in every
    mode, when starSum is the (non-zero) sum of the PSF: the convolution
    of the star stage leaves the unobstructed intensity unchanged up to
    the edge of the image. *)
Theorem ConvolvePSFFFT_uniform_image (H W Ph Pw : Z) (psf : Matrix) (c starSum : R)
    (mode : ConvMode) (pad : PaddingMode) (outH outW offY offX : Z) :
  rect Ph Pw psf ->
  (1 <= H)%Z -> (1 <= W)%Z -> (1 <= Ph)%Z -> (1 <= Pw)%Z ->
  output_window mode H W Ph Pw = Some (outH, outW, offY, offX) ->
  pad = PadReflect \/ pad = PadReplicate \/ pad = PadCircular ->
  starSum = Rsum Ph (fun i => Rsum Pw (fun j => entry psf i j)) -> starSum <> 0 ->
  ConvolvePSFFFT (tab2 H W (fun _ _ => c)) psf starSum mode pad false =
  Some (Ok (tab2 outH outW (fun _ _ => c))).
Proof.
  intros Hpsf HH HW HPh HPw Hwin Hpad Hsum Hne.
  rewrite (ConvolvePSFFFT_spec H W Ph Pw _ psf starSum mode pad false
             outH outW offY offX); try assumption; [|apply rect_tab2; lia].
  do 2 f_equal. apply tab2_ext. intros y x Hy Hx.
  unfold circular_convolution, Rsum.
  rewrite (Rsum_nat_ext _ _ (fun i => c * Rsum_nat (Z.to_nat Pw) (fun j => entry psf i j))).
  - rewrite Rsum_nat_scale. unfold Rsum in Hsum. rewrite <- Hsum. field. exact Hne.
  - intros i Hi. rewrite <- Rsum_nat_scale. apply Rsum_nat_ext. intros j Hj.
    rewrite padded_uniform by assumption. unfold stored_kernel. ring.
Qed.

Lemma ConvolvePSFFFT_uniform_image_witness :
  ConvolvePSFFFT (tab2 3 4 (fun _ _ => 7)) [[1; 2]; [3; 4]]
    (Rsum 2 (fun i => Rsum 2 (fun j => entry [[1; 2]; [3; 4]] i j)))
    ConvSame PadReplicate false =
  Some (Ok (tab2 3 4 (fun _ _ => 7))).
Proof.
  apply (ConvolvePSFFFT_uniform_image 3 4 2 2 [[1; 2]; [3; 4]] 7 _
           ConvSame PadReplicate 3 4 1 1).
  - split; [reflexivity | repeat constructor].
  - lia.
  - lia.
  - lia.
  - lia.
  - reflexivity.
  - right. left. reflexivity.
  - reflexivity.
  - unfold Rsum. change (Z.to_nat 2) with 2%nat.
    cbn [Rsum_nat Z.of_nat Pos.of_succ_nat]. unfold entry.
    change (Z.to_nat 0) with 0%nat. change (Z.to_nat 1) with 1%nat.
    cbn [nth]. lra.
Defined.

(** ** main.go: the convolution with the star *)

Lemma Rsum_nat_le (k : nat) (f g : Z -> R) :
  (forall i, (0 <= i < Z.of_nat k)%Z -> f i <= g i) -> Rsum_nat k f <= Rsum_nat k g.
Proof.
  induction k as [|k IH]; intros H; cbn [Rsum_nat]; [lra|].
  assert (Rsum_nat k f <= Rsum_nat k g) by (apply IH; intros; apply H; lia).
  assert (f (Z.of_nat k) <= g (Z.of_nat k)) by (apply H; lia). lra.
Qed.

Lemma padded_in_range (H W : Z) (image : Matrix) (lo hi : R) (pad : PaddingMode)
    (y x : Z) :
  (1 <= H)%Z -> (1 <= W)%Z ->
  (forall r c, (0 <= r < H)%Z -> (0 <= c < W)%Z -> lo <= entry image r c <= hi) ->
  pad = PadReflect \/ pad = PadReplicate \/ pad = PadCircular ->
  lo <= padded H W image pad y x <= hi.
Proof.
  intros HH HW Hb Hpad. unfold padded.
  destruct ((0 <=? y) && (y <? H) && (0 <=? x) && (x <? W))%Z%bool eqn:E.
  - apply Hb; repeat (apply andb_prop in E as [E ?]); lia.
  - destruct (padded_index pad H y) as [yy|] eqn:Ey;
      [destruct (padded_index pad W x) as [xx|] eqn:Ex|].
    + apply Hb; eapply padded_index_range; eauto.
    + exfalso. destruct Hpad as [-> | [-> | ->]]; discriminate Ex.
    + exfalso. destruct Hpad as [-> | [-> | ->]]; discriminate Ey.
Qed.

(** A convolution with non-negative weights, divided by their positive
    sum, stays within the range of the padded image. *)
Lemma circular_convolution_average (FH FW Ph Pw : Z) (P K : Z -> Z -> R)
    (lo hi : R) (y x : Z) :
  (forall i j, 0 <= K i j) -> (forall r c, lo <= P r c <= hi) ->
  0 < Rsum Ph (fun i => Rsum Pw (fun j => K i j)) ->
  lo <= circular_convolution FH FW Ph Pw P K y x
        / Rsum Ph (fun i => Rsum Pw (fun j => K i j)) <= hi.
Proof.
  intros HK HP Hpos. unfold circular_convolution, Rsum in *.
  set (total := Rsum_nat (Z.to_nat Ph) (fun i => Rsum_nat (Z.to_nat Pw) (fun j => K i j))) in *.
  set (conv := Rsum_nat (Z.to_nat Ph) (fun i => Rsum_nat (Z.to_nat Pw)
                 (fun j => K i j * P ((y - i) mod FH)%Z ((x - j) mod FW)%Z))).
  assert (Hlo : lo * total <= conv).
  { subst total conv. rewrite <- Rsum_nat_scale. apply Rsum_nat_le. intros i _.
    rewrite <- Rsum_nat_scale. apply Rsum_nat_le. intros j _.
    pose proof (HK i j). pose proof (HP ((y - i) mod FH)%Z ((x - j) mod FW)%Z). nra. }
  assert (Hhi : conv <= hi * total).
  { subst total conv. rewrite <- Rsum_nat_scale. apply Rsum_nat_le. intros i _.
    rewrite <- Rsum_nat_scale. apply Rsum_nat_le. intros j _.
    pose proof (HK i j). pose proof (HP ((y - i) mod FH)%Z ((x - j) mod FW)%Z). nra. }
  split.
  - apply Rmult_le_reg_r with total; [assumption|].
    replace (conv / total * total) with conv by (field; lra). assumption.
  - apply Rmult_le_reg_r with total; [assumption|].
    replace (conv / total * total) with conv by (field; lra). assumption.
Qed.

(** X14.  The star stage of main on a non-empty rectangular intensity matrix,
    for a star of positive diameter: the stage never exits with code 13
    and never panics; the new intensity matrix has the size of the old
    one and every pixel of it is a weighted mean of pixels of the old
    one (the edge pixels repeated outwards), so that it stays between
    the least and the greatest old intensity.  The rest of the state is
    not changed. *)
Theorem convolveWithStar_keeps_range (resolution lo hi : R) (st : MainState)
    (H W : Z) :
  0 < StarDiamKm (event st) -> 0 < resolution ->
  0 <= LimbDarkeningCoeff (event st) < 1 ->
  rect H W (IntensityMatrix (event st)) -> (1 <= H)%Z -> (1 <= W)%Z ->
  (forall r c, (0 <= r < H)%Z -> (0 <= c < W)%Z ->
     lo <= entry (IntensityMatrix (event st)) r c <= hi) ->
  exists newImage,
    convolveWithStar resolution st =
      Continue {| event := set_IntensityMatrix (event st) newImage;
                  store := store st; stdout := stdout st |} /\
    rect H W newImage /\
    forall r c, (0 <= r < H)%Z -> (0 <= c < W)%Z -> lo <= entry newImage r c <= hi.
Proof.
  intros HD Hres Hu Him HH HW Hb. unfold convolveWithStar.
  set (D := StarDiamKm (event st)) in *.
  set (u := LimbDarkeningCoeff (event st)) in *.
  set (image := IntensityMatrix (event st)) in *.
  destruct (Rgt_dec D 0) as [_ | Hn]; [|lra].
  pose proof (psf_width_ge_5 D resolution HD Hres) as Hw.
  pose proof (psf_sum_ge_1 D resolution u HD Hres Hu) as Hsum.
  rewrite BuildStarPsf_spec by lia.
  set (w := psf_width D resolution) in *.
  set (psf := tabulate w (fun row => tabulate w (psf_pixel D resolution u row))).
  set (total := Rsum w (fun row => Rsum w (psf_pixel D resolution u row))) in *.
  assert (Hpsf : rect w w psf) by (apply rect_tabulate; lia).
  rewrite (ConvolvePSFFFT_spec H W w w image psf total ConvSame PadReplicate false
             H W (Z.quot w 2) (Z.quot w 2)); try assumption; try lia;
    [|reflexivity].
  eexists. split; [reflexivity|]. split; [apply rect_tab2; lia|].
  intros r c Hr Hc. rewrite entry_tab2 by assumption.
  assert (HK : circular_convolution (fft_side (H + w - 1)) (fft_side (W + w - 1)) w w
                 (padded H W image PadReplicate) (stored_kernel w w psf false)
                 (r + Z.quot w 2) (c + Z.quot w 2) =
               circular_convolution (fft_side (H + w - 1)) (fft_side (W + w - 1)) w w
                 (padded H W image PadReplicate) (psf_pixel D resolution u)
                 (r + Z.quot w 2) (c + Z.quot w 2)).
  { unfold circular_convolution, Rsum. apply Rsum_nat_ext. intros i Hi.
    apply Rsum_nat_ext. intros j Hj. unfold stored_kernel, psf.
    rewrite entry_tabulate by lia. reflexivity. }
  rewrite HK.
  apply (circular_convolution_average _ _ w w _ (psf_pixel D resolution u) lo hi).
  - intros i j. now apply psf_pixel_nonneg.
  - intros y x. apply padded_in_range; try assumption. right. now left.
  - change (0 < total). lra.
Qed.

Definition star_state : MainState :=
  {| event :=
       {| IntensityMatrix := image3;
          GeometricMatrix := [];
          PathSamplePoints := [];
          PathStart := (0, 0);
          PathEnd := (0, 0);
          PathToQEtable := EmptyString;
          QEtable := nilSlice;
          FundamentalPlaneWidthKm := 3;
          FundamentalPlaneWidthPoints := 3;
          ObservationWavelengthNm := 600;
          StarDiamKm := 2;
          LimbDarkeningCoeff := 1 / 2;
          PercentMagDrop := 0;
          DistanceAu := 1 |};
     store := [];
     stdout := [] |}.

Lemma image3_bounds (r c : Z) :
  (0 <= r < 3)%Z -> (0 <= c < 3)%Z -> 1 <= entry image3 r c <= 9.
Proof.
  intros Hr Hc.
  assert (Hr' : r = 0%Z \/ r = 1%Z \/ r = 2%Z) by lia.
  assert (Hc' : c = 0%Z \/ c = 1%Z \/ c = 2%Z) by lia.
  destruct Hr' as [-> | [-> | ->]]; destruct Hc' as [-> | [-> | ->]];
    unfold entry, image3;
    change (Z.to_nat 0) with 0%nat; change (Z.to_nat 1) with 1%nat;
    change (Z.to_nat 2) with 2%nat; cbn [nth]; lra.
Defined.

Lemma convolveWithStar_keeps_range_witness :
  exists newImage,
    convolveWithStar 1 star_state =
      Continue {| event := set_IntensityMatrix (event star_state) newImage;
                  store := store star_state; stdout := stdout star_state |} /\
    rect 3 3 newImage /\
    forall r c, (0 <= r < 3)%Z -> (0 <= c < 3)%Z -> 1 <= entry newImage r c <= 9.
Proof.
  apply (convolveWithStar_keeps_range 1 1 9 star_state 3 3).
  - cbn [star_state event StarDiamKm]. lra.
  - lra.
  - cbn [star_state event LimbDarkeningCoeff]. lra.
  - split; [reflexivity | repeat constructor].
  - lia.
  - lia.
  - exact image3_bounds.
Defined.

(** ** utility.go: the vector updates of the field accumulation *)

(** X22.  scaleComplex multiplies every entry by the real factor and keeps the
    length; scaling by s and then by t is scaling by s t. *)
Theorem scaleComplex_scales (v : list complex128) (s t : R) :
  exists v', scaleComplex v s = Some v' /\
    Go.len v' = Go.len v /\
    (forall i z, Go.index v i = Some z -> Go.index v' i = Some (Cmul z (complex s 0))) /\
    scaleComplex v' t = scaleComplex v (s * t).
Proof.
  rewrite !scaleComplex_spec. exists (scaled s v).
  split; [reflexivity|]. unfold scaled.
  split; [unfold Go.len; now rewrite length_map|].
  split.
  - intros i z Hz. unfold Go.index in *.
    destruct (Z.ltb_spec i 0); [discriminate|].
    rewrite nth_error_map, Hz. reflexivity.
  - rewrite scaleComplex_spec. unfold scaled. rewrite map_map. f_equal.
    apply map_ext. intros z. complex_ring.
Qed.

(** X23.  addScaledComplexInPlace panics when the two vectors differ in
    length; otherwise it adds scaleB b[i] to every a[i] and keeps the
    length. *)
Theorem addScaledComplexInPlace_axpy (a b : list complex128) (scaleB : R) :
  (Go.len a <> Go.len b -> addScaledComplexInPlace a b scaleB = None) /\
  (Go.len a = Go.len b ->
   exists a', addScaledComplexInPlace a b scaleB = Some a' /\
     Go.len a' = Go.len a /\
     forall i ai bi, Go.index a i = Some ai -> Go.index b i = Some bi ->
       Go.index a' i = Some (Cadd ai (Cmul (complex scaleB 0) bi))).
Proof.
  split.
  - intros Hne. unfold addScaledComplexInPlace.
    destruct (Z.eqb_spec (Go.len a) (Go.len b)); [contradiction | reflexivity].
  - intros Heq. rewrite addScaledComplexInPlace_spec by assumption.
    exists (axpy a b scaleB). split; [reflexivity|]. unfold axpy.
    split; [apply len_tabulate; unfold Go.len; lia|].
    intros i ai bi Ha Hb. pose proof (index_range _ _ _ Ha) as Hi.
    rewrite index_tabulate by assumption.
    rewrite (index_nth_Z a i Czero) in Ha by assumption.
    rewrite (index_nth_Z b i Czero) in Hb by (rewrite <- Heq; assumption).
    apply some_eq in Ha. apply some_eq in Hb. now rewrite Ha, Hb.
Qed.

Lemma addScaledComplexInPlace_axpy_witness :
  addScaledComplexInPlace [(1, 0)] [(1, 0); (2, 0)] 3 = None /\
  exists a', addScaledComplexInPlace [(1, 0); (0, 1)] [(1, 0); (2, 0)] 3 = Some a' /\
    Go.len a' = Go.len [(1, 0); (0, 1)] /\
    forall i ai bi, Go.index [(1, 0); (0, 1)] i = Some ai ->
      Go.index [(1, 0); (2, 0)] i = Some bi ->
      Go.index a' i = Some (Cadd ai (Cmul (complex 3 0) bi)).
Proof.
  split.
  - apply (proj1 (addScaledComplexInPlace_axpy [(1, 0)] [(1, 0); (2, 0)] 3)).
    vm_compute. discriminate.
  - apply (proj2 (addScaledComplexInPlace_axpy [(1, 0); (0, 1)] [(1, 0); (2, 0)] 3)).
    reflexivity.
Defined.

(** ** imageFuncs.go: MatrixToGray16Data *)

(** The level written for the value v: round(v scale) clamped to
    [0, 65535]. *)
Definition clamped_level (v scale : R) : R :=
  let u := Go.Round (v * scale) in
  if Rlt_dec u 0 then 0 else if Rgt_dec u 65535 then 65535 else u.

Lemma clamped_level_integer (v scale : R) :
  exists k, (0 <= k <= 65535)%Z /\ clamped_level v scale = IZR k.
Proof.
  unfold clamped_level.
  assert (Hz : exists z, Go.Round (v * scale) = IZR z)
    by (unfold Go.Round; destruct (Rle_dec 0 (v * scale)); eexists; reflexivity).
  destruct Hz as [z ->].
  destruct (Rlt_dec (IZR z) 0) as [Hneg | Hpos]; [exists 0%Z; split; [lia | reflexivity]|].
  destruct (Rgt_dec (IZR z) 65535) as [Hbig | Hsmall];
    [exists 65535%Z; split; [lia | reflexivity]|].
  exists z. split; [|reflexivity]. split.
  - apply le_IZR. lra.
  - apply le_IZR. lra.
Qed.

Lemma bytes_of_level (k : Z) :
  (0 <= k <= 65535)%Z ->
  uint16 (IZR k) = k /\
  (0 <= uint8 (Z.shiftr k 8) < 256)%Z /\ (0 <= uint8 k < 256)%Z /\
  (256 * uint8 (Z.shiftr k 8) + uint8 k = k)%Z.
Proof.
  intros Hk. unfold uint16, uint8. rewrite int_of_float_IZR.
  change (2 ^ 16)%Z with 65536%Z. change (2 ^ 8)%Z with 256%Z.
  rewrite Z.shiftr_div_pow2 by lia. change (2 ^ 8)%Z with 256%Z.
  pose proof (Z.div_mod k 256 ltac:(lia)) as Hdm.
  pose proof (Z.mod_pos_bound k 256 ltac:(lia)) as Hmb.
  assert (Hq : (0 <= k / 256 < 256)%Z)
    by (split; [apply Z.div_pos; lia | apply Z.div_lt_upper_bound; lia]).
  rewrite (Z.mod_small k 65536) by lia.
  rewrite (Z.mod_small (k / 256) 256) by lia.
  repeat split; lia.
Qed.

Lemma two_bytes (pix : list Z) (i hi lo : Z) :
  (0 <= i)%Z -> (i + 1 < Go.len pix)%Z ->
  exists pix2,
    (forall (B : Type) (k : list Z -> option B),
       (do p1 <- Go.assign pix i hi; do p2 <- Go.assign p1 (i + 1) lo; k p2) = k pix2) /\
    Go.len pix2 = Go.len pix /\
    forall j, Go.index pix2 j =
      if (j =? i)%Z then Some hi
      else if (j =? i + 1)%Z then Some lo else Go.index pix j.
Proof.
  intros Hi Hlen.
  destruct (assign_spec pix i hi) as (p1 & Hp1 & Hl1 & Hx1); [lia|].
  destruct (assign_spec p1 (i + 1) lo) as (p2 & Hp2 & Hl2 & Hx2); [lia|].
  exists p2.
  split; [intros B k; rewrite Hp1; cbn [Go.bind]; now rewrite Hp2|].
  split; [congruence|].
  intros j. rewrite Hx2, Hx1.
  destruct (Z.eqb_spec j (i + 1)); destruct (Z.eqb_spec j i); try reflexivity; lia.
Qed.

Lemma byte_index_inj (w y x y' x' b b' : Z) :
  (0 <= x < w)%Z -> (0 <= x' < w)%Z -> (0 <= b <= 1)%Z -> (0 <= b' <= 1)%Z ->
  (y' * (2 * w) + 2 * x' + b' = y * (2 * w) + 2 * x + b)%Z ->
  y' = y /\ x' = x /\ b' = b.
Proof.
  intros Hx Hx' Hb Hb' Heq.
  destruct (flat_index_inj (2 * w) y' (2 * x' + b') y (2 * x + b)) as [-> Hj];
    try lia.
Qed.

(** The pixel loops of MatrixToGray16Data. *)
Lemma gray16_loops (h w : Z) (m : Matrix) (scale : R) (img0 : Gray16) :
  rect h w m -> (1 <= h)%Z -> (1 <= w)%Z ->
  Stride img0 = (2 * w)%Z -> Go.len (Pix img0) = (2 * w * h)%Z ->
  exists img,
    Go.for_upto_opt h (fun y img =>
      let row := (y * Stride img)%Z in
      Go.for_upto_opt w (fun x img =>
        do v <- at2 m y x;
        let u := Go.Round (v * scale) in
        let u := if Rlt_dec u 0 then 0
                 else if Rgt_dec u 65535 then 65535 else u in
        let y16 := uint16 u in
        let i := (row + 2 * x)%Z in
        do pix <- Go.assign (Pix img) i (uint8 (Z.shiftr y16 8));
        do pix <- Go.assign pix (i + 1) (uint8 y16);
        Some (set_Pix img pix)) img) img0 = Some img /\
    Stride img = Stride img0 /\ Rect img = Rect img0 /\
    Go.len (Pix img) = (2 * w * h)%Z /\
    forall y x, (0 <= y < h)%Z -> (0 <= x < w)%Z ->
      Go.index (Pix img) (y * (2 * w) + 2 * x) =
        Some (uint8 (Z.shiftr (uint16 (clamped_level (entry m y x) scale)) 8)) /\
      Go.index (Pix img) (y * (2 * w) + 2 * x + 1) =
        Some (uint8 (uint16 (clamped_level (entry m y x) scale))).
Proof.
  intros Hm Hh Hw Hstride Hlen.
  set (HI := fun y x => uint8 (Z.shiftr (uint16 (clamped_level (entry m y x) scale)) 8)).
  set (LO := fun y x => uint8 (uint16 (clamped_level (entry m y x) scale))).
  set (Inv := fun (y x : Z) (img : Gray16) =>
    Stride img = Stride img0 /\ Rect img = Rect img0 /\
    Go.len (Pix img) = (2 * w * h)%Z /\
    forall y' x', (0 <= y' < h)%Z -> (0 <= x' < w)%Z ->
      (y' < y \/ (y' = y /\ x' < x))%Z ->
      Go.index (Pix img) (y' * (2 * w) + 2 * x') = Some (HI y' x') /\
      Go.index (Pix img) (y' * (2 * w) + 2 * x' + 1) = Some (LO y' x')).
  match goal with
  | |- exists img, Go.for_upto_opt h ?body img0 = Some img /\ _ =>
      destruct (for_upto_opt_inv (fun y img => Inv y 0%Z img) body h img0)
        as (img & Himg & Hs & Hr & Hl & Hpix)
  end.
  - lia.
  - repeat split; try assumption; lia.
  - intros y img Hy HInv. cbv zeta.
    match goal with
    | |- exists t', Go.for_upto_opt w ?body img = Some t' /\ _ =>
        destruct (for_upto_opt_inv (fun x t => Inv y x t) body w img)
          as (img' & Himg' & Hs' & Hr' & Hl' & Hpix')
    end.
    + lia.
    + exact HInv.
    + intros x t Hx (Hst & Hrt & Hlt & Hpt).
      rewrite (at2_rect h w) by assumption. cbn [Go.bind].
      rewrite (proj1 HInv), Hstride.
      destruct (two_bytes (Pix t) (y * (2 * w) + 2 * x) (HI y x) (LO y x))
        as (pix2 & Hpix2 & Hlen2 & Hidx2); [nia | nia |].
      exists (set_Pix t pix2).
      split; [exact (Hpix2 Gray16 (fun pix0 => Some (set_Pix t pix0)))|].
      split; [assumption|]. split; [assumption|].
      split; [cbn [set_Pix Pix]; congruence|].
      intros y' x' Hy' Hx' Hdone. cbn [set_Pix Pix]. rewrite !Hidx2.
      destruct (Z.eq_dec y' y) as [-> | Hny];
        [destruct (Z.eq_dec x' x) as [-> | Hnx]|].
      * rewrite Z.eqb_refl.
        destruct (Z.eqb_spec (y * (2 * w) + 2 * x + 1) (y * (2 * w) + 2 * x)); [lia|].
        rewrite Z.eqb_refl. now split.
      * assert (Hd : (y < y \/ (y = y /\ x' < x))%Z) by lia.
        destruct (Hpt y x' Hy' Hx' Hd) as [H1 H2].
        destruct (Z.eqb_spec (y * (2 * w) + 2 * x') (y * (2 * w) + 2 * x)); [lia|].
        destruct (Z.eqb_spec (y * (2 * w) + 2 * x') (y * (2 * w) + 2 * x + 1)); [lia|].
        destruct (Z.eqb_spec (y * (2 * w) + 2 * x' + 1) (y * (2 * w) + 2 * x)); [lia|].
        destruct (Z.eqb_spec (y * (2 * w) + 2 * x' + 1) (y * (2 * w) + 2 * x + 1)); [lia|].
        now split.
      * assert (Hd : (y' < y \/ (y' = y /\ x' < x))%Z) by lia.
        destruct (Hpt y' x' Hy' Hx' Hd) as [H1 H2].
        assert (Hne : forall b b', (0 <= b <= 1)%Z -> (0 <= b' <= 1)%Z ->
                  (y' * (2 * w) + 2 * x' + b' <> y * (2 * w) + 2 * x + b)%Z).
        { intros b b' Hb Hb' Heq.
          apply byte_index_inj in Heq as (Hyy & _); try assumption. contradiction. }
        pose proof (Hne 0 0 ltac:(lia) ltac:(lia))%Z as N00.
        pose proof (Hne 1 0 ltac:(lia) ltac:(lia))%Z as N10.
        pose proof (Hne 0 1 ltac:(lia) ltac:(lia))%Z as N01.
        pose proof (Hne 1 1 ltac:(lia) ltac:(lia))%Z as N11.
        rewrite !Z.add_0_r in *.
        destruct (Z.eqb_spec (y' * (2 * w) + 2 * x') (y * (2 * w) + 2 * x)); [lia|].
        destruct (Z.eqb_spec (y' * (2 * w) + 2 * x') (y * (2 * w) + 2 * x + 1)); [lia|].
        destruct (Z.eqb_spec (y' * (2 * w) + 2 * x' + 1) (y * (2 * w) + 2 * x)); [lia|].
        destruct (Z.eqb_spec (y' * (2 * w) + 2 * x' + 1) (y * (2 * w) + 2 * x + 1)); [lia|].
        now split.
    + exists img'. split; [assumption|].
      split; [assumption|]. split; [assumption|]. split; [assumption|].
      intros y' x' Hy' Hx' Hdone. apply Hpix'; try assumption. lia.
  - exists img. split; [assumption|].
    split; [assumption|]. split; [assumption|]. split; [assumption|].
    intros y x Hy Hx. apply Hpix; try assumption. lia.
Qed.

(** X30.  MatrixToGray16Data on a non-empty rectangular matrix with a positive
    scale returns a w x h image with two bytes per pixel, the high byte
    first; the 16-bit number of pixel (x, y) is round(m[y][x] * scale)
    clamped to [0, 65535].  A scale <= 0 is refused with "scale must be
    > 0", a matrix without rows or with an empty first row with "empty
    matrix", and one with a row of another length than the first with
    "ragged matrix". *)
Theorem MatrixToGray16Data_encoding (h w : Z) (m : Matrix) (scale : R) :
  rect h w m -> (1 <= h)%Z -> (1 <= w)%Z ->
  (0 < scale ->
   exists img, MatrixToGray16Data m scale = Some (Ok img) /\
     Stride img = (2 * w)%Z /\ Rect img = (0, 0, w, h)%Z /\
     Go.len (Pix img) = (2 * w * h)%Z /\
     forall y x, (0 <= y < h)%Z -> (0 <= x < w)%Z ->
       exists hi lo,
         Go.index (Pix img) (y * (2 * w) + 2 * x) = Some hi /\
         Go.index (Pix img) (y * (2 * w) + 2 * x + 1) = Some lo /\
         (0 <= hi < 256)%Z /\ (0 <= lo < 256)%Z /\
         IZR (256 * hi + lo) = clamped_level (entry m y x) scale) /\
  (scale <= 0 -> MatrixToGray16Data m scale = Some (Err "scale must be > 0")) /\
  MatrixToGray16Data [] scale = Some (Err "empty matrix") /\
  (forall rest, MatrixToGray16Data ([] :: rest) scale = Some (Err "empty matrix")) /\
  (forall m0 rest row, m0 <> [] -> 0 < scale -> In row rest ->
     Go.len row <> Go.len m0 ->
     MatrixToGray16Data (m0 :: rest) scale = Some (Err "ragged matrix")).
Proof.
  intros Hm Hh Hw.
  destruct (rect_rectangular h w m Hm Hh) as (Hrect & Hlen & Hwidth).
  assert (Hshape : exists m0 rest, m = m0 :: rest /\ Go.len m0 = w /\
            forallb (fun row => (Go.len row =? w)%Z) rest = true).
  { destruct m as [|m0 rest]; [unfold Go.len in Hlen; cbn in Hlen; lia|].
    exists m0, rest. cbn [width] in Hwidth. split; [reflexivity|]. split; [assumption|].
    destruct Hm as [_ Hrows]. inversion Hrows as [|? ? _ Hrest]; subst.
    apply forallb_forall. intros row Hin. rewrite Forall_forall in Hrest.
    apply Z.eqb_eq. now apply Hrest. }
  destruct Hshape as (m0 & rest & Em & Hw0 & Hall).
  split; [|split; [|split; [reflexivity|split; [reflexivity|]]]].
  - intros Hscale. subst m. unfold MatrixToGray16Data.
    rewrite Hw0. destruct (Z.eqb_spec w 0); [lia|].
    destruct (Rle_dec scale 0); [lra|]. cbv zeta. rewrite Hall. cbn [negb].
    rewrite Hlen. unfold NewGray16. rewrite make_spec by nia. cbn [Go.bind].
    destruct (gray16_loops h w (m0 :: rest) scale
                {| Pix := tabulate (2 * w * h) (fun _ => 0%Z);
                   Stride := (2 * w)%Z; Rect := (0, 0, w, h)%Z |})
      as (img & Himg & Hs & Hr & Hl & Hpix); try assumption.
    + reflexivity.
    + cbn [Pix]. apply len_tabulate. nia.
    + cbv zeta in Himg. rewrite_loop Himg. cbn [Go.bind].
      exists img. split; [reflexivity|]. split; [exact Hs|]. split; [exact Hr|].
      split; [exact Hl|]. intros y x Hy Hx.
      destruct (Hpix y x Hy Hx) as [Hhi Hlo].
      destruct (clamped_level_integer (entry (m0 :: rest) y x) scale) as (k & Hk & Ek).
      destruct (bytes_of_level k Hk) as (Hu & Hbhi & Hblo & Hsum).
      rewrite Ek, Hu in Hhi, Hlo.
      eexists. eexists. split; [exact Hhi|]. split; [exact Hlo|].
      split; [exact Hbhi|]. split; [exact Hblo|]. now rewrite Hsum, Ek.
  - intros Hscale. subst m. unfold MatrixToGray16Data.
    rewrite Hw0. destruct (Z.eqb_spec w 0); [lia|].
    destruct (Rle_dec scale 0); [reflexivity | lra].
  - intros r0 rest0 row Hne Hscale Hin Hrow. unfold MatrixToGray16Data.
    destruct (Z.eqb_spec (Go.len r0) 0) as [H0|_].
    { destruct r0; [contradiction | unfold Go.len in H0; cbn in H0; lia]. }
    destruct (Rle_dec scale 0); [lra|]. cbv zeta.
    destruct (forallb (fun r => (Go.len r =? Go.len r0)%Z) rest0) eqn:E;
      [|reflexivity].
    rewrite forallb_forall in E. specialize (E row Hin).
    apply Z.eqb_eq in E. contradiction.
Qed.

Lemma MatrixToGray16Data_encoding_witness :
  (0 < 4000 ->
   exists img, MatrixToGray16Data m2x2 4000 = Some (Ok img) /\
     Stride img = (2 * 2)%Z /\ Rect img = (0, 0, 2, 2)%Z /\
     Go.len (Pix img) = (2 * 2 * 2)%Z /\
     forall y x, (0 <= y < 2)%Z -> (0 <= x < 2)%Z ->
       exists hi lo,
         Go.index (Pix img) (y * (2 * 2) + 2 * x) = Some hi /\
         Go.index (Pix img) (y * (2 * 2) + 2 * x + 1) = Some lo /\
         (0 <= hi < 256)%Z /\ (0 <= lo < 256)%Z /\
         IZR (256 * hi + lo) = clamped_level (entry m2x2 y x) 4000) /\
  (4000 <= 0 -> MatrixToGray16Data m2x2 4000 = Some (Err "scale must be > 0")) /\
  MatrixToGray16Data [] 4000 = Some (Err "empty matrix") /\
  (forall rest, MatrixToGray16Data ([] :: rest) 4000 = Some (Err "empty matrix")) /\
  (forall m0 rest row, m0 <> [] -> 0 < 4000 -> In row rest ->
     Go.len row <> Go.len m0 ->
     MatrixToGray16Data (m0 :: rest) 4000 = Some (Err "ragged matrix")).
Proof.
  apply (MatrixToGray16Data_encoding 2 2 m2x2 4000).
  - split; [reflexivity | repeat constructor].
  - lia.
  - lia.
Defined.
